(** * TrueNAS WebSocket client: session, multiplexer and reconnection core

    A shallow embedding of [src/lib/truenas.ts] (class [TrueNASClient]).
    The client is single-threaded JavaScript driven by an event loop, so the
    embedding is a deterministic transition function [step] on an explicit
    [state]: the fields of the class, the sockets it created, the timers it
    armed with [setTimeout], the microtask queue that carries promise
    continuations, and three logs of observable effects (frames written to a
    socket, invocations of a promise's resolve/reject, calls of
    [setTimeout]).

    Conventions.
    - Time is in milliseconds, as in the source; the specification's
      "time unit" is one second, so a delay of 30 time units is [30000].
    - JavaScript numbers are exact on the integers below 2^53; the request
      counter and [Date.now()] are modelled as [nat] and [Z].
    - Closures are defunctionalised: a timer callback is a [task], the code
      after an [await] is a [kont]. The promise of an inner async method
      (stopVM inside restartVM, say) is not given a handle of its own: the
      code that awaits it is made the continuation of the call it awaits.
    - The environment is the ws library and the Node event loop. What the
      model takes from them: a socket is created CONNECTING, 'open' makes it
      OPEN, [close()] makes a connecting or open socket CLOSING, 'close'
      makes it CLOSED and is emitted once; a message is delivered on a
      socket that is OPEN or CLOSING; a timer fires at or after its due
      time; listeners of one event run in registration order; promise
      continuations run after the current callback, before the next event.
    - getVMState and getAppState inspect the rows of a query result and
      play no part in the properties below; they are not embedded.

    The commands built on the client ([src/manage-vms.tsx], the two versions
    of [manage-apps.tsx]) are embedded separately, as programs whose
    environment is the client: see [UI]. The React components are not
    embedded. *)

From stdpp Require Import base numbers strings list gmap fin_maps pretty.
From Stdlib Require Import ZArith Lia Ascii.

Open Scope string_scope.
Open Scope list_scope.
Open Scope nat_scope.

(** ** JSON values and frames *)

Local Unset Elimination Schemes.
Inductive json :=
| JNull
| JBool (b : bool)
| JNum (n : Z)
| JStr (s : string)
| JArr (xs : list json)
| JObj (fields : list (string * json)).
Local Set Elimination Schemes.

(** Outbound frames, one constructor per shape of object that the client
    passes to [JSON.stringify] (the order of the keys is not modelled: the
    login call of [authenticate] is a method frame). *)
Inductive frame :=
| FConnect                                              (* {msg:'connect', version:'1', support:['1']} *)
| FMethod (id : string) (method : string) (params : list json)  (* {id, msg:'method', method, params} *)
| FAuth (id : string) (api_key : string).               (* {id, msg:'auth', data:{api_key}} *)

(** The fields of an inbound frame that the client reads after
    [JSON.parse]. [None] stands for an absent field (or, for [r_id] and
    [r_msg], a value that is not a string and therefore equals no string
    under [===] and is no key of the pending [Map]). *)
Record response := Response {
  r_msg : option string;
  r_id : option string;
  r_result : option json;
  r_error : option string          (* response.error?.message *)
}.

(** The text of an inbound frame: [None] when [JSON.parse] throws (or
    yields [null], on which the first property access throws). *)
Definition inbound := option response.

(** ** Promises, continuations, timers *)

(** A promise is identified by its allocation site and a fresh number. *)
Inductive pref :=
| PCall (n : nat)       (* the promise built in [call] *)
| PAuth (n : nat)       (* the promise built in [authenticate] *)
| PConnect (n : nat)    (* the promise built in [connect] *)
| PApi (n : nat).       (* the promise of a public async method *)

Global Instance pref_eq_dec : EqDecision pref.
Proof. solve_decision. Defined.

Inductive outcome :=
| Resolved (v : option json)
| Rejected (message : string).

(** What runs after an [await] once the awaited promise settles. *)
Inductive leaf :=
| KUser                               (* awaited outside the client, or [.catch(() => {})] *)
| KApiReturn (h : nat)                (* [return this.call(...)] in getVMs / getApps *)
| KApiVoid (h : nat)                  (* [await this.call(...); console.log(...)] *)
| KConnect (pc : nat).                (* connect: [await this.authenticate(); ...] *)

Inductive kont :=
| KLeaf (l : leaf)
| KRestartVMSettle (vmId : Z) (h : nat)        (* restartVM after [await this.stopVM] *)
| KRestartAppStart (appName : string) (h : nat). (* restartApp after [await this.stopApp] *)

(** The [{resolve, reject}] pair of a promise together with the code that
    awaits it. *)
Record promise := Promise { ph : pref; pk : kont }.

Inductive task :=
| TOpenSettle (pc : nat)                        (* connect, 100 ms after 'open' *)
| TAuthenticate (pc : nat)                      (* connect, 1000 ms after the connect frame *)
| TReconnect                                    (* handleReconnect *)
| TRequestTimeout (id : string) (p : promise)   (* call, 30000 ms *)
| TAuthTimeout (p : promise)                    (* authenticate, 10000 ms *)
| TAltAuth                                      (* tryAlternativeAuth, 1000 ms *)
| TRestartStart (vmId : Z) (h : nat).           (* restartVM, 1000 ms *)

(** An armed timer: the time from which it may fire, and its callback. *)
Record timer := Timer { t_due : Z; t_task : task }.

(** ** Sockets *)

Inductive readyState := CONNECTING | OPEN | CLOSING | CLOSED.

Global Instance readyState_eq_dec : EqDecision readyState.
Proof. solve_decision. Defined.

(** The one-shot [messageListener] that [authenticate] registers. *)
Record authListener := AuthListener {
  al_key : nat;             (* identity of the listener function *)
  al_id : string;           (* authMessage.id *)
  al_promise : promise;     (* resolve / reject of the auth promise *)
  al_timeout : nat          (* handle of the auth timeout *)
}.

Record socket := Socket {
  sk_state : readyState;
  sk_connect : nat;                 (* the connect promise its handlers close over *)
  sk_listeners : list authListener  (* 'message' listeners added after handleMessage *)
}.

(** ** The state *)

Record state := State {
  (* fields of TrueNASClient *)
  ws : option nat;
  apiKey : string;
  requestCounter : nat;
  pendingRequests : gmap string promise;
  authenticated : bool;
  reconnectAttempts : nat;
  maxReconnectAttempts : nat;
  intentionalDisconnect : bool;
  (* the runtime *)
  now : Z;
  sockets : list socket;
  timers : gmap nat timer;               (* by the handle [setTimeout] returned *)
  microtasks : list (kont * outcome);
  nextHandle : nat;
  (* effects *)
  sent : list (nat * frame);
  settleLog : list (pref * outcome);
  timerLog : list (Z * task)
}.

(** [new TrueNASClient(config)] *)
Definition init (key : string) (t0 : Z) : state :=
  {| ws := None; apiKey := key; requestCounter := 0; pendingRequests := ∅;
     authenticated := false; reconnectAttempts := 0; maxReconnectAttempts := 5;
     intentionalDisconnect := false;
     now := t0; sockets := []; timers := ∅; microtasks := []; nextHandle := 0;
     sent := []; settleLog := []; timerLog := [] |}.

Definition set_ws (v : option nat) (s : state) : state :=
  State v (apiKey s) (requestCounter s) (pendingRequests s) (authenticated s)
    (reconnectAttempts s) (maxReconnectAttempts s) (intentionalDisconnect s)
    (now s) (sockets s) (timers s) (microtasks s) (nextHandle s)
    (sent s) (settleLog s) (timerLog s).
Definition set_requestCounter (v : nat) (s : state) : state :=
  State (ws s) (apiKey s) v (pendingRequests s) (authenticated s)
    (reconnectAttempts s) (maxReconnectAttempts s) (intentionalDisconnect s)
    (now s) (sockets s) (timers s) (microtasks s) (nextHandle s)
    (sent s) (settleLog s) (timerLog s).
Definition set_pendingRequests (v : gmap string promise) (s : state) : state :=
  State (ws s) (apiKey s) (requestCounter s) v (authenticated s)
    (reconnectAttempts s) (maxReconnectAttempts s) (intentionalDisconnect s)
    (now s) (sockets s) (timers s) (microtasks s) (nextHandle s)
    (sent s) (settleLog s) (timerLog s).
Definition set_authenticated (v : bool) (s : state) : state :=
  State (ws s) (apiKey s) (requestCounter s) (pendingRequests s) v
    (reconnectAttempts s) (maxReconnectAttempts s) (intentionalDisconnect s)
    (now s) (sockets s) (timers s) (microtasks s) (nextHandle s)
    (sent s) (settleLog s) (timerLog s).
Definition set_reconnectAttempts (v : nat) (s : state) : state :=
  State (ws s) (apiKey s) (requestCounter s) (pendingRequests s) (authenticated s)
    v (maxReconnectAttempts s) (intentionalDisconnect s)
    (now s) (sockets s) (timers s) (microtasks s) (nextHandle s)
    (sent s) (settleLog s) (timerLog s).
Definition set_intentionalDisconnect (v : bool) (s : state) : state :=
  State (ws s) (apiKey s) (requestCounter s) (pendingRequests s) (authenticated s)
    (reconnectAttempts s) (maxReconnectAttempts s) v
    (now s) (sockets s) (timers s) (microtasks s) (nextHandle s)
    (sent s) (settleLog s) (timerLog s).
Definition set_now (v : Z) (s : state) : state :=
  State (ws s) (apiKey s) (requestCounter s) (pendingRequests s) (authenticated s)
    (reconnectAttempts s) (maxReconnectAttempts s) (intentionalDisconnect s)
    v (sockets s) (timers s) (microtasks s) (nextHandle s)
    (sent s) (settleLog s) (timerLog s).
Definition set_sockets (v : list socket) (s : state) : state :=
  State (ws s) (apiKey s) (requestCounter s) (pendingRequests s) (authenticated s)
    (reconnectAttempts s) (maxReconnectAttempts s) (intentionalDisconnect s)
    (now s) v (timers s) (microtasks s) (nextHandle s)
    (sent s) (settleLog s) (timerLog s).
Definition set_timers (v : gmap nat timer) (s : state) : state :=
  State (ws s) (apiKey s) (requestCounter s) (pendingRequests s) (authenticated s)
    (reconnectAttempts s) (maxReconnectAttempts s) (intentionalDisconnect s)
    (now s) (sockets s) v (microtasks s) (nextHandle s)
    (sent s) (settleLog s) (timerLog s).
Definition set_microtasks (v : list (kont * outcome)) (s : state) : state :=
  State (ws s) (apiKey s) (requestCounter s) (pendingRequests s) (authenticated s)
    (reconnectAttempts s) (maxReconnectAttempts s) (intentionalDisconnect s)
    (now s) (sockets s) (timers s) v (nextHandle s)
    (sent s) (settleLog s) (timerLog s).
Definition set_nextHandle (v : nat) (s : state) : state :=
  State (ws s) (apiKey s) (requestCounter s) (pendingRequests s) (authenticated s)
    (reconnectAttempts s) (maxReconnectAttempts s) (intentionalDisconnect s)
    (now s) (sockets s) (timers s) (microtasks s) v
    (sent s) (settleLog s) (timerLog s).
Definition set_sent (v : list (nat * frame)) (s : state) : state :=
  State (ws s) (apiKey s) (requestCounter s) (pendingRequests s) (authenticated s)
    (reconnectAttempts s) (maxReconnectAttempts s) (intentionalDisconnect s)
    (now s) (sockets s) (timers s) (microtasks s) (nextHandle s)
    v (settleLog s) (timerLog s).
Definition set_settleLog (v : list (pref * outcome)) (s : state) : state :=
  State (ws s) (apiKey s) (requestCounter s) (pendingRequests s) (authenticated s)
    (reconnectAttempts s) (maxReconnectAttempts s) (intentionalDisconnect s)
    (now s) (sockets s) (timers s) (microtasks s) (nextHandle s)
    (sent s) v (timerLog s).
Definition set_timerLog (v : list (Z * task)) (s : state) : state :=
  State (ws s) (apiKey s) (requestCounter s) (pendingRequests s) (authenticated s)
    (reconnectAttempts s) (maxReconnectAttempts s) (intentionalDisconnect s)
    (now s) (sockets s) (timers s) (microtasks s) (nextHandle s)
    (sent s) (settleLog s) v.

(** ** Runtime primitives *)

(** [this.ws.send(JSON.stringify(f))]; every call site has checked
    [this.ws] first. *)
Definition send (f : frame) (s : state) : state :=
  match ws s with
  | Some k => set_sent (sent s ++ [(k, f)]) s
  | None => s
  end.

(** [setTimeout(tk, delay)]; the handle it returns is [nextHandle s]. *)
Definition setTimeout (tk : task) (delay : Z) (s : state) : state :=
  let h := nextHandle s in
  set_timerLog (timerLog s ++ [(delay, tk)])
    (set_timers (<[h := Timer (now s + delay) tk]> (timers s))
      (set_nextHandle (S h) s)).

Definition clearTimeout (h : nat) (s : state) : state :=
  set_timers (delete h (timers s)) s.

(** [this.ws && this.ws.readyState === WebSocket.OPEN] *)
Definition ws_open (s : state) : bool :=
  match ws s with
  | Some k =>
      match sockets s !! k with
      | Some sk => bool_decide (sk_state sk = OPEN)
      | None => false
      end
  | None => false
  end.

(** A promise is settled once one of its two functions has been invoked. *)
Definition is_settled (h : pref) (s : state) : bool :=
  bool_decide (h ∈ (settleLog s).*1).

(** Invoking resolve or reject of a promise that nothing in the client
    awaits. *)
Definition invoke (h : pref) (o : outcome) (s : state) : state :=
  set_settleLog (settleLog s ++ [(h, o)]) s.

(** Invoking resolve or reject of [p]: only the first invocation settles
    the promise and queues the code that awaits it. *)
Definition settle (p : promise) (o : outcome) (s : state) : state :=
  let s' := invoke (ph p) o s in
  if is_settled (ph p) s then s'
  else set_microtasks (microtasks s' ++ [(pk p, o)]) s'.

(** ** The request multiplexer *)

Definition NotConnected : string := "WebSocket is not connected".
Definition RequestTimeout : string := "Request timeout".

(** [`${Date.now()}-${this.requestCounter++}`] *)
Definition mkid (t : Z) (n : nat) : string := pretty t +:+ "-" +:+ pretty n.

Inductive call_result :=
| Threw (message : string)
| Pending (p : promise).

(** [call(method, params)], awaited by [k]. *)
Definition call (method : string) (params : option (list json)) (k : kont)
    (s : state) : call_result * state :=
  if ws_open s then
    let id := mkid (now s) (requestCounter s) in
    let s1 := set_requestCounter (S (requestCounter s)) s in
    let p := Promise (PCall (nextHandle s1)) k in
    let s2 := set_nextHandle (S (nextHandle s1)) s1 in
    let s3 := set_pendingRequests (<[id := p]> (pendingRequests s2)) s2 in
    let s4 := send (FMethod id method (default [] params)) s3 in
    (Pending p, setTimeout (TRequestTimeout id p) 30000 s4)
  else (Threw NotConnected, s).

Definition void (o : outcome) : outcome :=
  match o with
  | Resolved _ => Resolved None
  | Rejected e => Rejected e
  end.

Definition run_leaf (l : leaf) (o : outcome) (s : state) : state :=
  match l with
  | KUser => s
  | KApiReturn h => invoke (PApi h) o s
  | KApiVoid h => invoke (PApi h) (void o) s
  | KConnect pc =>
      match o with
      | Resolved _ =>
          invoke (PConnect pc) (Resolved None) (set_reconnectAttempts 0 s)
      | Rejected e => invoke (PConnect pc) (Rejected e) s
      end
  end.

(** [await this.call(...)] in a method whose remaining code is [l]: a
    synchronous throw of [call] rejects the method at once. *)
Definition await_leaf (l : leaf) (r : call_result * state) : state :=
  match r.1 with
  | Threw e => run_leaf l (Rejected e) r.2
  | Pending _ => r.2
  end.

Definition startVM (vmId : Z) (l : leaf) (s : state) : state :=
  await_leaf l (call "vm.start" (Some [JNum vmId]) (KLeaf l) s).

Definition startApp (appName : string) (l : leaf) (s : state) : state :=
  await_leaf l (call "app.start" (Some [JStr appName]) (KLeaf l) s).

Definition run_kont (k : kont) (o : outcome) (s : state) : state :=
  match k with
  | KLeaf l => run_leaf l o s
  | KRestartVMSettle vmId h =>
      match o with
      | Resolved _ => setTimeout (TRestartStart vmId h) 1000 s
      | Rejected e => invoke (PApi h) (Rejected e) s
      end
  | KRestartAppStart appName h =>
      match o with
      | Resolved _ => startApp appName (KApiVoid h) s
      | Rejected e => invoke (PApi h) (Rejected e) s
      end
  end.

Definition await_kont (k : kont) (r : call_result * state) : state :=
  match r.1 with
  | Threw e => run_kont k (Rejected e) r.2
  | Pending _ => r.2
  end.

(** [options?.force || false] *)
Definition force_of (options : option (option bool)) : bool :=
  match options with
  | Some (Some b) => b
  | _ => false
  end.

Definition stopVM (vmId : Z) (options : option (option bool)) (k : kont)
    (s : state) : state :=
  await_kont k
    (call "vm.stop"
       (Some [JNum vmId; JObj [("force", JBool (force_of options))]]) k s).

Definition stopApp (appName : string) (k : kont) (s : state) : state :=
  await_kont k (call "app.stop" (Some [JStr appName]) k s).

Definition restartVM (vmId : Z) (h : nat) (s : state) : state :=
  stopVM vmId (Some (Some true)) (KRestartVMSettle vmId h) s.

Definition restartApp (appName : string) (h : nat) (s : state) : state :=
  stopApp appName (KRestartAppStart appName h) s.

Definition getVMs (h : nat) (s : state) : state :=
  await_leaf (KApiReturn h) (call "vm.query" None (KLeaf (KApiReturn h)) s).

Definition getApps (h : nat) (s : state) : state :=
  await_leaf (KApiReturn h) (call "app.query" None (KLeaf (KApiReturn h)) s).

(** ** Session: connect, reconnect, authentication *)

Definition set_sk_state (st : readyState) (sk : socket) : socket :=
  Socket st (sk_connect sk) (sk_listeners sk).

Definition set_sk_listeners (ls : list authListener) (sk : socket) : socket :=
  Socket (sk_state sk) (sk_connect sk) ls.

(** [connect()]: returns the handle of its promise. The socket is created
    in state CONNECTING and becomes [this.ws]. *)
Definition connect (s : state) : nat * state :=
  let s1 := set_intentionalDisconnect false s in
  let pc := nextHandle s1 in
  let k := length (sockets s1) in
  (pc, set_ws (Some k)
         (set_sockets (sockets s1 ++ [Socket CONNECTING pc []])
            (set_nextHandle (S pc) s1))).

Definition handleReconnect (s : state) : state :=
  if intentionalDisconnect s then s
  else if (reconnectAttempts s <? maxReconnectAttempts s)%nat then
    let s1 := set_reconnectAttempts (S (reconnectAttempts s)) s in
    setTimeout TReconnect (2000 * Z.of_nat (reconnectAttempts s1)) s1
  else s.

(** [`${Date.now()}-auth`] *)
Definition auth_id (t : Z) : string := pretty t +:+ "-auth".

Definition tryAlternativeAuth (s : state) : state :=
  if ws_open s then
    setTimeout TAltAuth 1000 (send (FAuth (auth_id (now s)) (apiKey s)) s)
  else s.

(** [response.error?.message || dflt] *)
Definition message_or (dflt : string) (r : response) : string :=
  match r_error r with
  | Some m => if bool_decide (m = "") then dflt else m
  | None => dflt
  end.

Definition msg_is (r : response) (m : string) : bool :=
  bool_decide (r_msg r = Some m).

Definition handleMessage (d : inbound) (s : state) : state :=
  match d with
  | None => s
  | Some r =>
      if msg_is r "connected" then s
      else if msg_is r "failed" then tryAlternativeAuth s
      else if msg_is r "pong" then s
      else
        match r_id r with
        | Some id =>
            match pendingRequests s !! id with
            | Some pending =>
                let s1 :=
                  if msg_is r "result" then
                    settle pending (Resolved (r_result r)) s
                  else if msg_is r "error" then
                    settle pending (Rejected (message_or "Unknown error" r)) s
                  else s in
                set_pendingRequests (delete id (pendingRequests s1)) s1
            | None => s
            end
        | None => s
        end
  end.

(** [response.result === true] *)
Definition is_true (v : option json) : bool :=
  match v with
  | Some (JBool true) => true
  | _ => false
  end.

Definition authHandler (l : authListener) (d : inbound) (s : state) : state :=
  match d with
  | None => handleMessage d s
  | Some r =>
      if bool_decide (r_id r = Some (al_id l)) then
        if msg_is r "result" && is_true (r_result r) then
          settle (al_promise l) (Resolved None) (set_authenticated true s)
        else
          settle (al_promise l)
            (Rejected ("Authentication failed: " +:+ message_or "Invalid credentials" r)) s
      else handleMessage d s
  end.

(** [this.ws?.off('message', messageListener)] *)
Definition off_listener (key : nat) (s : state) : state :=
  match ws s with
  | Some k =>
      set_sockets
        (alter (λ sk, set_sk_listeners
                        (filter (λ l, al_key l ≠ key) (sk_listeners sk)) sk)
           k (sockets s)) s
  | None => s
  end.

Definition messageListener (l : authListener) (d : inbound) (s : state) : state :=
  off_listener (al_key l) (clearTimeout (al_timeout l) (authHandler l d s)).

(** [this.ws.on('message', messageListener)] *)
Definition on_listener (l : authListener) (s : state) : state :=
  match ws s with
  | Some k =>
      set_sockets
        (alter (λ sk, set_sk_listeners (sk_listeners sk ++ [l]) sk)
           k (sockets s)) s
  | None => s
  end.

(** [authenticate()], called from connect's timer and awaited there. *)
Definition authenticate (pc : nat) (s : state) : state :=
  let n := nextHandle s in
  let pa := Promise (PAuth n) (KLeaf (KConnect pc)) in
  let s1 := set_nextHandle (S n) s in
  if ws_open s1 then
    let id := auth_id (now s1) in
    let s2 := send (FMethod id "auth.login_with_api_key" [JStr (apiKey s1)]) s1 in
    let s3 := setTimeout (TAuthTimeout pa) 10000 s2 in
    on_listener (AuthListener n id pa (nextHandle s2)) s3
  else settle pa (Rejected NotConnected) s1.

(** [ws.close()] of the ws library: a socket that is connecting or open
    starts closing; the 'close' event follows later. *)
Definition close_socket (k : nat) (s : state) : state :=
  set_sockets
    (alter (λ sk, match sk_state sk with
                  | CONNECTING | OPEN => set_sk_state CLOSING sk
                  | _ => sk
                  end) k (sockets s)) s.

Definition disconnect (s : state) : state :=
  match ws s with
  | Some k =>
      set_authenticated false
        (set_ws None (close_socket k (set_intentionalDisconnect true s)))
  | None => s
  end.

Definition isConnected (s : state) : bool := ws_open s && authenticated s.

(** ** The event loop *)

Definition run_task (tk : task) (s : state) : state :=
  match tk with
  | TOpenSettle pc =>
      if ws_open s then setTimeout (TAuthenticate pc) 1000 (send FConnect s)
      else invoke (PConnect pc) (Rejected "WebSocket not ready after open event") s
  | TAuthenticate pc => authenticate pc s
  | TReconnect => (connect s).2
  | TRequestTimeout id p =>
      match pendingRequests s !! id with
      | Some _ =>
          settle p (Rejected RequestTimeout)
            (set_pendingRequests (delete id (pendingRequests s)) s)
      | None => s
      end
  | TAuthTimeout p => settle p (Rejected "Authentication timeout") s
  | TAltAuth => set_authenticated true s
  | TRestartStart vmId h => startVM vmId (KApiVoid h) s
  end.

(** The listeners of 'message' on socket [k], in registration order:
    [handleMessage], then the auth listeners present when the event is
    emitted. *)
Definition emit_message (k : nat) (d : inbound) (s : state) : state :=
  match sockets s !! k with
  | Some sk =>
      foldl (λ s' l, messageListener l d s') (handleMessage d s) (sk_listeners sk)
  | None => s
  end.

Inductive event :=
(* the runtime and the network *)
| Tick (d : N)
| Fire (h : nat)
| SockOpen (k : nat)
| SockMessage (k : nat) (d : inbound)
| SockError (k : nat) (message : string)
| SockClose (k : nat)
(* the public methods *)
| Connect
| Disconnect
| GetVMs
| StartVM (vmId : Z)
| StopVM (vmId : Z) (options : option (option bool))
| RestartVM (vmId : Z)
| GetApps
| StartApp (appName : string)
| StopApp (appName : string)
| RestartApp (appName : string).

(** A public async method: its promise gets a fresh handle. *)
Definition api (f : nat → state → state) (s : state) : state :=
  f (nextHandle s) (set_nextHandle (S (nextHandle s)) s).

(** One macrotask. *)
Definition handle (e : event) (s : state) : state :=
  match e with
  | Tick d => set_now (now s + Z.of_N d) s
  | Fire h =>
      match timers s !! h with
      | Some t =>
          if bool_decide (t_due t ≤ now s)%Z
          then run_task (t_task t) (clearTimeout h s)
          else s
      | None => s
      end
  | SockOpen k =>
      match sockets s !! k with
      | Some sk =>
          if bool_decide (sk_state sk = CONNECTING) then
            setTimeout (TOpenSettle (sk_connect sk)) 100
              (set_sockets (alter (set_sk_state OPEN) k (sockets s)) s)
          else s
      | None => s
      end
  | SockMessage k d =>
      match sockets s !! k with
      | Some sk =>
          if bool_decide (sk_state sk = OPEN ∨ sk_state sk = CLOSING)
          then emit_message k d s
          else s
      | None => s
      end
  | SockError k m =>
      match sockets s !! k with
      | Some sk => invoke (PConnect (sk_connect sk)) (Rejected m) s
      | None => s
      end
  | SockClose k =>
      match sockets s !! k with
      | Some sk =>
          if bool_decide (sk_state sk = CLOSED) then s
          else
            handleReconnect
              (set_authenticated false
                 (set_sockets (alter (set_sk_state CLOSED) k (sockets s)) s))
      | None => s
      end
  | Connect => (connect s).2
  | Disconnect => disconnect s
  | GetVMs => api getVMs s
  | StartVM vmId => api (λ h, startVM vmId (KApiVoid h)) s
  | StopVM vmId options => api (λ h, stopVM vmId options (KLeaf (KApiVoid h))) s
  | RestartVM vmId => api (restartVM vmId) s
  | GetApps => api getApps s
  | StartApp appName => api (λ h, startApp appName (KApiVoid h)) s
  | StopApp appName => api (λ h, stopApp appName (KLeaf (KApiVoid h))) s
  | RestartApp appName => api (restartApp appName) s
  end.

(** The microtask queue is emptied after every macrotask. Running a
    continuation queues no further microtask. *)
Definition drain (s : state) : state :=
  foldl (λ s' job, run_kont job.1 job.2 s') (set_microtasks [] s) (microtasks s).

Definition step (e : event) (s : state) : state := drain (handle e s).

Definition run (tr : list event) (s : state) : state := foldl (λ s' e, step e s') s tr.

(** ** Specification vocabulary *)

(** The frame is no control frame: [handleMessage] takes it to the lookup
    in the pending table. *)
Definition demuxed (r : response) : bool :=
  negb (msg_is r "connected" || msg_is r "failed" || msg_is r "pong").

(** What a result or error frame makes of the pending request it matches. *)
Definition frame_outcome (r : response) : option outcome :=
  if msg_is r "result" then Some (Resolved (r_result r))
  else if msg_is r "error" then Some (Rejected (message_or "Unknown error" r))
  else None.

Definition stop_frame (id : string) (vmId : Z) (force : bool) : frame :=
  FMethod id "vm.stop" [JNum vmId; JObj [("force", JBool force)]].

(** The invocations of resolve/reject of promise [h], oldest first. *)
Definition settlements (h : pref) (s : state) : list (pref * outcome) :=
  filter (λ e, e.1 = h) (settleLog s).

(** The delays of the reconnections scheduled so far, oldest first. *)
Definition reconnect_delays (l : list (Z * task)) : list Z :=
  omap (λ e, match e.2 with TReconnect => Some e.1 | _ => None end) l.

(** The continuations that the public methods hand to [call]. *)
Definition api_kont (k : kont) : Prop :=
  match k with
  | KLeaf KUser | KLeaf (KConnect _) => False
  | _ => True
  end.

(** After the handshake frame has gone out on an open socket. *)
Definition open_state : state :=
  run [Connect; SockOpen 0; Tick 100; Fire 1] (init "key" 0).

(** ** Invariant of the reachable states *)

Definition plain_task (tk : task) : Prop :=
  match tk with
  | TRequestTimeout _ _ | TAuthTimeout _ => False
  | _ => True
  end.

Definition is_call (h : pref) : Prop :=
  match h with
  | PCall _ => True
  | _ => False
  end.

(** The timeout handle of an auth listener is not fresh and refers, if to
    anything, to an auth timer; its promise is an auth promise. *)
Definition listener_ok (l : authListener) (s : state) : Prop :=
  al_timeout l < nextHandle s
  ∧ (∃ m, ph (al_promise l) = PAuth m)
  ∧ (∀ t, timers s !! al_timeout l = Some t → ∃ p, t_task t = TAuthTimeout p).

(** An id built from a counter value not yet used in [s]. *)
Definition later_id (s : state) (id : string) : Prop :=
  ∃ tm m, id = mkid tm m ∧ requestCounter s ≤ m.

(** From [s] to [s'] handles and the request counter only grow, timers are
    only added under fresh handles, and table entries and request timers
    are only added under ids not used before. *)
Definition fresh_ext (s s' : state) : Prop :=
  nextHandle s ≤ nextHandle s'
  ∧ requestCounter s ≤ requestCounter s'
  ∧ (∀ h t, timers s' !! h = Some t →
       timers s !! h = Some t
       ∨ (nextHandle s ≤ h
          ∧ ∀ id p, t_task t = TRequestTimeout id p → later_id s id))
  ∧ (∀ id p, pendingRequests s' !! id = Some p →
       pendingRequests s !! id = Some p ∨ later_id s id).

(** Handles are fresh; every request timer carries an id built from a
    counter value already used and the promise of that call; two request
    timers differ in both id and promise; every pending entry is unsettled
    and still has its request timer armed. *)
Record Inv (s : state) : Prop := {
  inv_timer_lt : ∀ h t, timers s !! h = Some t → h < nextHandle s;
  inv_listener : ∀ sk l, sk ∈ sockets s → l ∈ sk_listeners sk → listener_ok l s;
  inv_authtimer : ∀ h t p, timers s !! h = Some t → t_task t = TAuthTimeout p →
    ∃ m, ph p = PAuth m;
  inv_req : ∀ h t id p, timers s !! h = Some t → t_task t = TRequestTimeout id p →
    (∃ tm m, id = mkid tm m ∧ m < requestCounter s)
    ∧ (∃ n, ph p = PCall n ∧ n < nextHandle s)
    ∧ api_kont (pk p);
  inv_req_uniq : ∀ h h' t t' id id' p p',
    timers s !! h = Some t → timers s !! h' = Some t' →
    t_task t = TRequestTimeout id p → t_task t' = TRequestTimeout id' p' →
    (id = id' ∨ ph p = ph p') → h = h';
  inv_table : ∀ id p, pendingRequests s !! id = Some p →
    (ph p ∉ (settleLog s).*1)
    ∧ ∃ h t, timers s !! h = Some t ∧ t_task t = TRequestTimeout id p;
  inv_log : ∀ n, PCall n ∈ (settleLog s).*1 → n < nextHandle s;
  inv_listener_id : ∀ sk l, sk ∈ sockets s → l ∈ sk_listeners sk →
    ∃ tm, al_id l = auth_id tm
}.

Fixpoint has_char (c : ascii) (s : string) : Prop :=
  match s with
  | EmptyString => False
  | String a s' => a = c ∨ has_char c s'
  end.

(** ** The life of one request

    [c] is the correlation id of a call and [p] its promise. *)
Inductive phase :=
| InFlight                (* in the pending table, unsettled *)
| Settled (o : outcome)   (* out of the table, settled exactly once, with [o] *)
| Dropped.                (* out of the table, never settled *)

(** No other request shares the id or the promise, now or later. *)
Definition own (c : string) (p : promise) (s : state) : Prop :=
  (∃ tm m, c = mkid tm m ∧ m < requestCounter s)
  ∧ (∃ n, ph p = PCall n ∧ n < nextHandle s)
  ∧ (∀ h t id p', timers s !! h = Some t → t_task t = TRequestTimeout id p' →
       id = c ∨ ph p' = ph p → id = c ∧ p' = p)
  ∧ (∀ id p', pendingRequests s !! id = Some p' → ph p' = ph p → id = c).

Definition Tr (c : string) (p : promise) (s : state) (ϕ : phase) : Prop :=
  own c p s
  ∧ match ϕ with
    | InFlight =>
        pendingRequests s !! c = Some p ∧ settlements (ph p) s = []
    | Settled o =>
        pendingRequests s !! c = None ∧ settlements (ph p) s = [(ph p, o)]
    | Dropped =>
        pendingRequests s !! c = None ∧ settlements (ph p) s = []
    end.

Definition of_frame (r : response) : phase :=
  match frame_outcome r with
  | Some o => Settled o
  | None => Dropped
  end.

(** How handling the inbound text [d] may move the request on. *)
Definition prog_msg (c : string) (d : inbound) (ϕ ϕ' : phase) : Prop :=
  ϕ' = ϕ
  ∨ (ϕ = InFlight
     ∧ ∃ r, d = Some r ∧ r_id r = Some c ∧ demuxed r = true ∧ ϕ' = of_frame r).

Definition prog_timeout (ϕ ϕ' : phase) : Prop :=
  ϕ' = ϕ ∨ (ϕ = InFlight ∧ ϕ' = Settled (Rejected RequestTimeout)).

(** How one event may move the request on. *)
Definition step_prog (c : string) (e : event) (ϕ ϕ' : phase) : Prop :=
  ϕ' = ϕ
  ∨ (ϕ = InFlight
     ∧ ((∃ k r, e = SockMessage k (Some r) ∧ r_id r = Some c
                ∧ demuxed r = true ∧ ϕ' = of_frame r)
        ∨ (∃ h, e = Fire h ∧ ϕ' = Settled (Rejected RequestTimeout)))).

(** What a trace must contain for the request to be in phase [ϕ]. *)
Definition explains (c : string) (tr : list event) (ϕ : phase) : Prop :=
  match ϕ with
  | InFlight => True
  | Settled o =>
      (o = Rejected RequestTimeout ∧ ∃ h, Fire h ∈ tr)
      ∨ (∃ k r, SockMessage k (Some r) ∈ tr ∧ r_id r = Some c
                ∧ demuxed r = true ∧ frame_outcome r = Some o)
  | Dropped =>
      ∃ k r, SockMessage k (Some r) ∈ tr ∧ r_id r = Some c
             ∧ demuxed r = true ∧ frame_outcome r = None
  end.


(** No parsed inbound frame carries the correlation id [c]. *)
Definition no_frame_for (c : string) (tr : list event) : bool :=
  forallb (λ e, match e with
                | SockMessage _ (Some r) => negb (bool_decide (r_id r = Some c))
                | _ => true
                end) tr.

(** ** Example runs *)

(** The peer's answer to the login call sent at time 1100. *)
Definition auth_ok : inbound :=
  Some (Response (Some "result") (Some (auth_id 1100)) (Some (JBool true)) None).

(** connect() up to the moment authentication has succeeded. *)
Definition ready_trace : list event :=
  [Connect; SockOpen 0; Tick 100; Fire 1; Tick 1000; Fire 2; SockMessage 0 auth_ok].

Definition ready_state : state := run ready_trace (init "key" 0).

(** getVMs() on the ready session: the request and its timer. *)
Definition query_trace : list event := ready_trace ++ [GetVMs].
Definition query_id : string := mkid 1100 0.
Definition query_promise : promise := Promise (PCall 6) (KLeaf (KApiReturn 5)).
Definition query_timer : timer :=
  Timer 31100 (TRequestTimeout query_id query_promise).

(** ** Reconnection vocabulary *)

(** The microtask that resets the attempt counter: the code after
    [await this.authenticate()] in connect, run on a resolved promise. *)
Definition is_reset (j : kont * outcome) : Prop :=
  ∃ pc v, j = (KLeaf (KConnect pc), Resolved v).

(** The frame that makes the primary authentication succeed. *)
Definition auth_success (d : inbound) : bool :=
  match d with
  | Some r => msg_is r "result" && is_true (r_result r)
  | None => false
  end.

Definition auth_success_event (e : event) : bool :=
  match e with
  | SockMessage _ d => auth_success d
  | _ => false
  end.

(** From [s] to [s'] the attempt counter, its bound and the scheduled
    reconnections are untouched, the authenticated flag is not cleared, and
    a counter reset is queued only if [b] allows it and the flag is set. *)
Definition calm (b : bool) (s s' : state) : Prop :=
  reconnectAttempts s' = reconnectAttempts s
  ∧ maxReconnectAttempts s' = maxReconnectAttempts s
  ∧ reconnect_delays (timerLog s') = reconnect_delays (timerLog s)
  ∧ (authenticated s = true → authenticated s' = true)
  ∧ (∀ j, j ∈ microtasks s' →
       j ∈ microtasks s ∨ ¬ is_reset j ∨ (b = true ∧ authenticated s' = true)).



(** The socket drops, a reconnection is armed for 2000 ms later, and the
    caller invokes disconnect() before it fires. *)
Definition dropped_then_disconnected : state :=
  run (ready_trace ++ [SockClose 0; Disconnect]) (init "key" 0).

(** The peer's answer to the login call sent at time 4200. *)
Definition auth_ok_again : inbound :=
  Some (Response (Some "result") (Some (auth_id 4200)) (Some (JBool true)) None).

(** connect() up to the moment the login call is outstanding. *)
Definition authenticating_trace : list event :=
  [Connect; SockOpen 0; Tick 100; Fire 1; Tick 1000; Fire 2].

Definition authenticating_socket : socket :=
  Socket OPEN 0
    [AuthListener 3 (auth_id 1100) (Promise (PAuth 3) (KLeaf (KConnect 0))) 4].

Definition failed_frame : response := Response (Some "failed") None None None.

(** From [s] to [s'] only auth listeners were removed and timers cancelled. *)
Definition still (s s' : state) : Prop :=
  pendingRequests s' = pendingRequests s ∧ settleLog s' = settleLog s
  ∧ microtasks s' = microtasks s ∧ sent s' = sent s ∧ timerLog s' = timerLog s
  ∧ ws s' = ws s ∧ ws_open s' = ws_open s ∧ now s' = now s
  ∧ requestCounter s' = requestCounter s ∧ nextHandle s' = nextHandle s
  ∧ authenticated s' = authenticated s
  ∧ reconnectAttempts s' = reconnectAttempts s
  ∧ intentionalDisconnect s' = intentionalDisconnect s
  ∧ apiKey s' = apiKey s.

(** The request that each public method of the client makes first: the
    method name, the params, and the code that awaits the call (given the
    handle of the method's own promise). *)
Definition request_of (e : event) : option (string * list json * (nat → kont)) :=
  match e with
  | GetVMs => Some ("vm.query", [], λ h, KLeaf (KApiReturn h))
  | StartVM vmId => Some ("vm.start", [JNum vmId], λ h, KLeaf (KApiVoid h))
  | StopVM vmId options =>
      Some ("vm.stop", [JNum vmId; JObj [("force", JBool (force_of options))]],
            λ h, KLeaf (KApiVoid h))
  | RestartVM vmId =>
      Some ("vm.stop", [JNum vmId; JObj [("force", JBool true)]], KRestartVMSettle vmId)
  | GetApps => Some ("app.query", [], λ h, KLeaf (KApiReturn h))
  | StartApp appName => Some ("app.start", [JStr appName], λ h, KLeaf (KApiVoid h))
  | StopApp appName => Some ("app.stop", [JStr appName], λ h, KLeaf (KApiVoid h))
  | RestartApp appName => Some ("app.stop", [JStr appName], KRestartAppStart appName)
  | _ => None
  end.

(** The handle of the public method's promise that a continuation settles. *)
Definition api_handle (k : kont) : option nat :=
  match k with
  | KLeaf (KApiReturn h) | KLeaf (KApiVoid h) => Some h
  | KRestartVMSettle _ h | KRestartAppStart _ h => Some h
  | _ => None
  end.

(** ** Invariant of the login exchanges

    A login promise is settled only after its handle was allotted; the
    listener of a login exchange carries the promise numbered by its key
    and the handle of its timeout, which is the next one; an armed login
    timeout sits at the handle after its promise's number, awaits on behalf
    of some connect(), and its promise is still unsettled. *)
Record AInv (s : state) : Prop := {
  ainv_log : ∀ n, PAuth n ∈ (settleLog s).*1 → n < nextHandle s;
  ainv_listener : ∀ sk l, sk ∈ sockets s → l ∈ sk_listeners sk →
    ph (al_promise l) = PAuth (al_key l) ∧ al_timeout l = S (al_key l)
    ∧ al_key l < nextHandle s;
  ainv_timer : ∀ h t p, timers s !! h = Some t → t_task t = TAuthTimeout p →
    ∃ n pc, h = S n ∧ p = Promise (PAuth n) (KLeaf (KConnect pc));
  ainv_armed : ∀ h t p, timers s !! h = Some t → t_task t = TAuthTimeout p →
    ph p ∉ (settleLog s).*1
}.

(** What the invariant says of a registered listener. *)
Definition login_listener (l : authListener) (s : state) : Prop :=
  ph (al_promise l) = PAuth (al_key l) ∧ al_timeout l = S (al_key l)
  ∧ al_key l < nextHandle s.


(** Nothing in [s] can settle the login promise [n]: its number and its
    timeout's handle are used up, no listener carries it and its timeout is
    not armed. *)
Definition login_idle (n : nat) (s : state) : Prop :=
  S n < nextHandle s
  ∧ (∀ sk l, sk ∈ sockets s → l ∈ sk_listeners sk → al_key l ≠ n)
  ∧ timers s !! S n = None.

(** From [s] to [s'] handles only grow, listeners are only added under
    fresh keys, and the login promise [n] is not settled. *)
Definition keeps (n : nat) (s s' : state) : Prop :=
  fresh_ext s s'
  ∧ (∀ sk' l, sk' ∈ sockets s' → l ∈ sk_listeners sk' →
       (∃ sk, sk ∈ sockets s ∧ l ∈ sk_listeners sk) ∨ nextHandle s ≤ al_key l)
  ∧ settlements (PAuth n) s' = settlements (PAuth n) s.

(** ** The sockets the client has created *)

(** [readyState] of every socket created so far, oldest first. *)
Definition readyStates (s : state) : list readyState := sk_state <$> sockets s.

(** From [s] to [s'] the client holds the same socket and no socket has
    changed its state. *)
Definition same_session (s s' : state) : Prop :=
  ws s' = ws s ∧ readyStates s' = readyStates s.

(** ** Ready after a reconnection

    The session was ready, the socket dropped, and the reconnection has
    opened socket 1 and sent its login call (at time 4200, with the login
    timeout at handle 10). *)
Definition relogin_trace : list event :=
  ready_trace
  ++ [SockClose 0; Tick 2000; Fire 5; SockOpen 1; Tick 100; Fire 7; Tick 1000; Fire 8].

(** The peer answers with a generic failure frame; the grace timer of the
    fallback (handle 11) fires 1000 ms later. *)
Definition fallback_ready_trace : list event :=
  relogin_trace ++ [SockMessage 1 (Some failed_frame); Tick 1000; Fire 11].

(** The login timeout fires after 10000 ms; the peer's answer arrives
    afterwards. *)
Definition late_ready_trace : list event :=
  relogin_trace ++ [Tick 10000; Fire 10; SockMessage 1 auth_ok_again].

(** ** Configuration *)

(** An optional property of an object literal: the key is missing, or it is
    given, possibly with the value [undefined]. *)
Inductive optional (A : Type) :=
| Missing
| Given (v : option A).
Arguments Missing {A}.
Arguments Given {A} v.

(** The port is a JavaScript number that the client only prints. Its type
    is left open: [number] stands for the numbers, [literal] for the value
    of an integer literal of the source and [toString] for the text that a
    template literal makes of a number. *)
Module Config.

(** The argument of the constructor. *)
Record TrueNASConfig (number : Type) := {
  host : string;
  apiKey : string;
  port : optional number;
  secure : optional bool
}.
Arguments host {number} _.
Arguments apiKey {number} _.
Arguments port {number} _.
Arguments secure {number} _.

(** [this.config]: every key is present, [port] and [secure] possibly with
    the value [undefined]. *)
Record merged (number : Type) := {
  m_host : string;
  m_apiKey : string;
  m_port : option number;
  m_secure : option bool
}.
Arguments m_host {number} _.
Arguments m_apiKey {number} _.
Arguments m_port {number} _.
Arguments m_secure {number} _.

(** [config.secure !== false] *)
Definition not_false (v : optional bool) : bool :=
  match v with
  | Given (Some false) => false
  | _ => true
  end.

(** [{ port: config.secure !== false ? 443 : 80, secure: true, ...config }]:
    a key that [config] gives, even as [undefined], replaces the default. *)
Definition constructor {number} (literal : Z → number)
    (config : TrueNASConfig number) : merged number :=
  {| m_host := host config;
     m_apiKey := apiKey config;
     m_port := match port config with
               | Missing =>
                   Some (if not_false (secure config) then literal 443%Z
                         else literal 80%Z)
               | Given v => v
               end;
     m_secure := match secure config with
                 | Missing => Some true
                 | Given v => v
                 end |}.

(** [this.config.secure ? 'wss' : 'ws'] *)
Definition protocol {number} (c : merged number) : string :=
  match m_secure c with
  | Some true => "wss"
  | _ => "ws"
  end.

(** A number or [undefined] inside a template literal. *)
Definition show_port {number} (toString : number → string)
    (p : option number) : string :=
  match p with
  | Some n => toString n
  | None => "undefined"
  end.

(** [`${protocol}://${this.config.host}:${this.config.port}/websocket`] *)
Definition url {number} (toString : number → string) (c : merged number) : string :=
  protocol c +:+ "://" +:+ m_host c +:+ ":" +:+ show_port toString (m_port c)
  +:+ "/websocket".

(** What the commands read with [getPreferenceValues]; [secure] is
    [undefined] when the preference has no value. *)
Record preferences := {
  address : string;
  p_apiKey : string;
  p_secure : option bool
}.

(** The object that the commands pass to the constructor:
    [{ host: preferences.address, apiKey: preferences.apiKey,
       secure: preferences.secure }]. *)
Definition getClient_config {number} (p : preferences) : TrueNASConfig number :=
  {| host := address p;
     apiKey := p_apiKey p;
     port := Missing;
     secure := Given (p_secure p) |}.

End Config.

(** ** The commands: manage-vms.tsx, manage-apps.tsx

    The functions of the two commands are sequential async code over one
    client object. They are embedded as programs: trees whose nodes are
    the calls into the client and into Raycast, with the rest of the
    function as continuation. The client is the environment of a program;
    [getClient()], which creates it on first use from
    [Config.getClient_config], has no other effect that these functions
    can observe and is not a node. A rejected [await] throws the
    rejection reason; every rejection the client produces is an [Error]
    with a message, so [error instanceof Error ? error.message : ...] is
    that message. *)
Module UI.

Inductive style := Failure | Success.

(** The argument of [showToast]. *)
Record toast := Toast {
  t_style : style;
  title : string;
  message : option string
}.

(** The methods of the client that the commands await. *)
Inductive request :=
| RConnect
| RGetVMs
| RStartVM (vmId : Z)
| RStopVM (vmId : Z)          (* [stopVM(vmId)], no options *)
| RRestartVM (vmId : Z)
| RGetApps
| RStartApp (appName : string)
| RStopApp (appName : string)
| RRestartApp (appName : string).

(** The call into the client's event loop that a request is. *)
Definition to_event (q : request) : event :=
  match q with
  | RConnect => Connect
  | RGetVMs => GetVMs
  | RStartVM vmId => StartVM vmId
  | RStopVM vmId => StopVM vmId None
  | RRestartVM vmId => RestartVM vmId
  | RGetApps => GetApps
  | RStartApp appName => StartApp appName
  | RStopApp appName => StopApp appName
  | RRestartApp appName => RestartApp appName
  end.

Inductive prog (R : Type) :=
| Ret (r : R)
| Throw (error : string)
| IsConnected (k : bool → prog R)              (* [client.isConnected()] *)
| Request (q : request) (k : outcome → prog R) (* a method called; [k] awaits its promise *)
| Sleep (ms : Z) (k : prog R)                  (* [await new Promise(r => setTimeout(r, ms))] *)
| ShowToast (t : toast) (k : prog R)
| OutOfFuel.                                   (* a loop cut short by the embedding *)
Arguments Ret {R} r.
Arguments Throw {R} error.
Arguments IsConnected {R} k.
Arguments Request {R} q k.
Arguments Sleep {R} ms k.
Arguments ShowToast {R} t k.
Arguments OutOfFuel {R}.

Fixpoint bind {A B} (p : prog A) (f : A → prog B) : prog B :=
  match p with
  | Ret a => f a
  | Throw e => Throw e
  | IsConnected k => IsConnected (λ b, bind (k b) f)
  | Request q k => Request q (λ o, bind (k o) f)
  | Sleep ms k => Sleep ms (bind k f)
  | ShowToast t k => ShowToast t (bind k f)
  | OutOfFuel => OutOfFuel
  end.

(** [try { p } catch (error) { h error }] *)
Fixpoint try_catch {A} (p : prog A) (h : string → prog A) : prog A :=
  match p with
  | Ret a => Ret a
  | Throw e => h e
  | IsConnected k => IsConnected (λ b, try_catch (k b) h)
  | Request q k => Request q (λ o, try_catch (k o) h)
  | Sleep ms k => Sleep ms (try_catch k h)
  | ShowToast t k => ShowToast t (try_catch k h)
  | OutOfFuel => OutOfFuel
  end.

Definition isConnected : prog bool := IsConnected Ret.

(** [await client.method(...)] *)
Definition await (q : request) : prog (option json) :=
  Request q (λ o, match o with
                  | Resolved v => Ret v
                  | Rejected e => Throw e
                  end).

Definition sleep (ms : Z) : prog unit := Sleep ms (Ret tt).

(** [showToast] returns a promise that the commands do not await. *)
Definition showToast (t : toast) : prog unit := ShowToast t (Ret tt).

(** *** Runs *)

(** What a program does and is told, in order. *)
Inductive io :=
| IoIsConnected (b : bool)
| IoRequest (q : request) (o : outcome)
| IoSleep (ms : Z)
| IoToast (t : toast).

Inductive result (R : Type) :=
| Returned (r : R)
| Thrown (error : string).
Arguments Returned {R} r.
Arguments Thrown {R} error.

(** [reaches p tr p']: after the interaction [tr], what is left of [p] is
    [p']. A promise that is never settled ends the interaction at its
    [Request]. *)
Inductive reaches {R} : prog R → list io → prog R → Prop :=
| reaches_here p : reaches p [] p
| reaches_IsConnected k b tr p' :
    reaches (k b) tr p' → reaches (IsConnected k) (IoIsConnected b :: tr) p'
| reaches_Request q k o tr p' :
    reaches (k o) tr p' → reaches (Request q k) (IoRequest q o :: tr) p'
| reaches_Sleep ms k tr p' :
    reaches k tr p' → reaches (Sleep ms k) (IoSleep ms :: tr) p'
| reaches_ShowToast t k tr p' :
    reaches k tr p' → reaches (ShowToast t k) (IoToast t :: tr) p'.

Definition leaf {R} (res : result R) : prog R :=
  match res with
  | Returned r => Ret r
  | Thrown e => Throw e
  end.

(** A complete run. *)
Definition runs {R} (p : prog R) (tr : list io) (res : result R) : Prop :=
  reaches p tr (leaf res).

(** Running a program against scripted answers: the values that
    [isConnected()] returns and the outcomes of the requests, in order. *)
Fixpoint play {R} (p : prog R) (bs : list bool) (os : list outcome)
    : list io * option (result R) :=
  match p with
  | Ret r => ([], Some (Returned r))
  | Throw e => ([], Some (Thrown e))
  | IsConnected k =>
      match bs with
      | b :: bs' => let '(tr, res) := play (k b) bs' os in (IoIsConnected b :: tr, res)
      | [] => ([], None)
      end
  | Request q k =>
      match os with
      | o :: os' => let '(tr, res) := play (k o) bs os' in (IoRequest q o :: tr, res)
      | [] => ([], None)
      end
  | Sleep ms k => let '(tr, res) := play k bs os in (IoSleep ms :: tr, res)
  | ShowToast t k => let '(tr, res) := play k bs os in (IoToast t :: tr, res)
  | OutOfFuel => ([], None)
  end.

End UI.

Global Instance prog_ret : MRet UI.prog := @UI.Ret.
Global Instance prog_bind : MBind UI.prog := λ A B f p, UI.bind p f.

(** *** ensureConnected (manage-vms.tsx, and the same in unnamed/part_000) *)
Module Retry.
Import UI.

Definition maxRetries : nat := 3.

(** How an iteration of the loop ends: with [return], or at the end of
    the catch block. *)
Inductive flow :=
| Return
| Continue (retries : nat).

(** The try block of the loop. *)
Definition try_block : prog flow :=
  connected ← isConnected;
  (if negb connected then await RConnect;; sleep 2000 else mret tt);;
  mret Return.

(** The catch block, entered with the value of [retries]. *)
Definition catch_block (retries : nat) (error : string) : prog flow :=
  let retries := S retries in
  if (maxRetries <=? retries)%nat then Throw error
  else sleep (1000 * Z.of_nat retries);; mret (Continue retries).

(** One iteration of [while (retries < maxRetries) { try ... catch ... }]. *)
Definition attempt (retries : nat) : prog flow :=
  try_catch try_block (catch_block retries).

Fixpoint ensureConnected_loop (fuel retries : nat) : prog unit :=
  match fuel with
  | 0 => OutOfFuel
  | S fuel' =>
      if (retries <? maxRetries)%nat then
        f ← attempt retries;
        match f with
        | Return => mret tt
        | Continue retries' => ensureConnected_loop fuel' retries'
        end
      else mret tt
  end.

Definition ensureConnected : prog unit := ensureConnected_loop maxRetries 0.

(** The interaction of the attempts that failed before the last one: the
    [i]-th of them is followed by a pause of [1000 * i] ms. *)
Fixpoint failed_attempts (i : nat) (errors : list string) : list io :=
  match errors with
  | [] => []
  | e :: errors' =>
      [IoIsConnected false; IoRequest RConnect (Rejected e);
       IoSleep (1000 * Z.of_nat i)] ++ failed_attempts (S i) errors'
  end.

End Retry.

(** *** manage-vms.tsx *)
Module ManageVMs.
Import UI Retry.

Definition fetchVMs : prog (option json) :=
  try_catch
    (ensureConnected;; await RGetVMs)
    (λ error,
       showToast (Toast Failure "Error fetching VMs" (Some error));;
       mret (Some (JArr []))).

Inductive action := start | stop.

Global Instance action_eq_dec : EqDecision action.
Proof. solve_decision. Defined.

Definition action_text (a : action) : string :=
  match a with
  | start => "start"
  | stop => "stop"
  end.

Definition manageVM (a : action) (vmId : Z) (state : string) : prog unit :=
  if bool_decide (state = "RUNNING") && bool_decide (a = start) then
    showToast (Toast Failure "VM is already running" None)
  else if bool_decide (state = "STOPPED") && bool_decide (a = stop) then
    showToast (Toast Failure "VM is already stopped" None)
  else
    try_catch
      (ensureConnected;;
       match a with
       | start =>
           await (RStartVM vmId);;
           showToast (Toast Success "VM started successfully" None)
       | stop =>
           await (RStopVM vmId);;
           showToast (Toast Success "VM stopped successfully" None)
       end)
      (λ error,
         showToast (Toast Failure ("Error " +:+ action_text a +:+ "ing VM") (Some error))).

Definition restartVM (vmId : Z) (state : string) : prog unit :=
  if bool_decide (state = "STOPPED") then
    showToast (Toast Failure "VM is stopped" None)
  else
    try_catch
      (ensureConnected;;
       await (RRestartVM vmId);;
       showToast (Toast Success "VM restarted successfully" None))
      (λ error, showToast (Toast Failure "Error restarting VM" (Some error))).

End ManageVMs.

(** *** manage-apps.tsx, with ensureConnected (unnamed/part_000) *)
Module ManageAppsRetry.
Import UI Retry.

Definition fetchApps : prog (option json) :=
  try_catch
    (ensureConnected;; await RGetApps)
    (λ error,
       showToast (Toast Failure "Error fetching apps" (Some error));;
       mret (Some (JArr []))).

Definition startApp (appName state : string) : prog unit :=
  if bool_decide (state = "ACTIVE") then
    showToast (Toast Failure "Application is already running" None)
  else
    try_catch
      (ensureConnected;;
       await (RStartApp appName);;
       showToast (Toast Success "Application started successfully" None))
      (λ error, showToast (Toast Failure "Error starting app" (Some error))).

Definition stopApp (appName state : string) : prog unit :=
  if bool_decide (state = "STOPPED") then
    showToast (Toast Failure "Application is already stopped" None)
  else
    try_catch
      (ensureConnected;;
       await (RStopApp appName);;
       showToast (Toast Success "Application stopped successfully" None))
      (λ error, showToast (Toast Failure "Error stopping app" (Some error))).

Definition restartApp (appName state : string) : prog unit :=
  if bool_decide (state = "STOPPED") then
    showToast (Toast Failure "Application is stopped" None)
  else
    try_catch
      (ensureConnected;;
       await (RRestartApp appName);;
       showToast (Toast Success "Application restarted successfully" None))
      (λ error, showToast (Toast Failure "Error restarting app" (Some error))).

End ManageAppsRetry.

(** *** manage-apps.tsx (src/manage-apps.tsx): one connect, no retry *)
Module ManageApps.
Import UI.

(** [if (!client.isConnected()) { await client.connect(); }] *)
Definition connect_if_needed : prog unit :=
  connected ← isConnected;
  if negb connected then await RConnect;; mret tt else mret tt.

Definition fetchApps : prog (option json) :=
  try_catch
    (connect_if_needed;; await RGetApps)
    (λ error,
       showToast (Toast Failure "Error" (Some error));;
       mret (Some (JArr []))).

Definition startApp (appName state : string) : prog unit :=
  if bool_decide (state = "ACTIVE") then
    showToast (Toast Failure "Application is already running" None)
  else
    try_catch
      (connect_if_needed;;
       await (RStartApp appName);;
       showToast (Toast Success "Application started successfully" None))
      (λ error, showToast (Toast Failure "Error" (Some error))).

Definition stopApp (appName state : string) : prog unit :=
  if bool_decide (state = "STOPPED") then
    showToast (Toast Failure "Application is already stopped" None)
  else
    try_catch
      (connect_if_needed;;
       await (RStopApp appName);;
       showToast (Toast Success "Application stopped successfully" None))
      (λ error, showToast (Toast Failure "Error" (Some error))).

Definition restartApp (appName state : string) : prog unit :=
  if bool_decide (state = "STOPPED") then
    showToast (Toast Failure "Application is stopped" None)
  else
    try_catch
      (connect_if_needed;;
       await (RRestartApp appName);;
       showToast (Toast Success "Application restarted successfully" None))
      (λ error, showToast (Toast Failure "Error" (Some error))).

End ManageApps.

(** *** Vocabulary for the runs of the commands *)
Module Trace.
Import UI.

(** The methods of the client called in a run, in order. *)
Definition requests (tr : list io) : list request :=
  omap (λ e, match e with IoRequest q _ => Some q | _ => None end) tr.

(** The toasts shown in a run, in order. *)
Definition toasts (tr : list io) : list toast :=
  omap (λ e, match e with IoToast t => Some t | _ => None end) tr.

(** The pauses of a run, in order. *)
Definition pauses (tr : list io) : list Z :=
  omap (λ e, match e with IoSleep ms => Some ms | _ => None end) tr.

(** [OutOfFuel] does not occur in the part of a program that its runs can
    reach through values actually returned. *)
Fixpoint fueled {R} (p : prog R) : Prop :=
  match p with
  | Ret _ | Throw _ => True
  | IsConnected k => ∀ b, fueled (k b)
  | Request _ k => ∀ o, fueled (k o)
  | Sleep _ k | ShowToast _ k => fueled k
  | OutOfFuel => False
  end.

(** The runs of a command: [connect] stands for the way the command gets
    connected, [q] for the operation, [ok] for the toast of success and
    [fail] for the toast of an error. *)
Definition command_runs (connect : list io → result unit → Prop) (q : request)
    (ok : toast) (fail : string → toast) (tr : list io) : Prop :=
  (∃ tc v, connect tc (Returned tt) ∧ tr = tc ++ [IoRequest q (Resolved v); IoToast ok])
  ∨ (∃ tc e, connect tc (Returned tt)
             ∧ tr = tc ++ [IoRequest q (Rejected e); IoToast (fail e)])
  ∨ (∃ tc e, connect tc (Thrown e) ∧ tr = tc ++ [IoToast (fail e)]).

(** With at most [attempts] calls of connect before it, the operation [q]
    was requested last and answered with [o]. *)
Definition went_through (attempts : nat) (q : request) (o : outcome)
    (tr : list io) : Prop :=
  ∃ n, n ≤ attempts
       ∧ requests tr = replicate n RConnect ++ [q]
       ∧ last tr = Some (IoRequest q o).

(** [attempts] calls of connect and nothing else were requested, and the
    last of them was rejected with [e]. *)
Definition never_connected (attempts : nat) (e : string) (tr : list io) : Prop :=
  requests tr = replicate attempts RConnect
  ∧ last tr = Some (IoRequest RConnect (Rejected e)).

(** What a command that got past its guard has done when it returns: one
    toast, shown last, and before it the operation or the failed attempts
    to connect. *)
Definition served (attempts : nat) (q : request) (ok : toast) (fail : string → toast)
    (tr : list io) : Prop :=
  ∃ tr0, toasts tr0 = []
    ∧ ((∃ v, went_through attempts q (Resolved v) tr0 ∧ tr = tr0 ++ [IoToast ok])
       ∨ (∃ e, (went_through attempts q (Rejected e) tr0 ∨ never_connected attempts e tr0)
               ∧ tr = tr0 ++ [IoToast (fail e)])).

(** What a fetch has done when it returns [rows]. *)
Definition fetched (attempts : nat) (q : request) (fail : string → toast)
    (tr : list io) (rows : option json) : Prop :=
  (toasts tr = [] ∧ went_through attempts q (Resolved rows) tr)
  ∨ (rows = Some (JArr [])
     ∧ ∃ tr0 e, toasts tr0 = []
         ∧ (went_through attempts q (Rejected e) tr0 ∨ never_connected attempts e tr0)
         ∧ tr = tr0 ++ [IoToast (fail e)]).

(** A run in which the client answers as [ob] (for [isConnected()]) and
    [oo] (for the methods awaited) say, given what happened before. *)
Definition obeys (ob : list io → bool) (oo : list io → request → outcome)
    (past tr : list io) : Prop :=
  ∀ tr1 ev tr2, tr = tr1 ++ ev :: tr2 →
    match ev with
    | IoIsConnected b => b = ob (past ++ tr1)
    | IoRequest q o => o = oo (past ++ tr1) q
    | _ => True
    end.

(** What a way of getting connected may leave in a run: no toast, at most
    [attempts] calls of connect and no other request; when it throws, all
    [attempts] calls were made and the error is that of the last. *)
Definition connects_within (attempts : nat) (conn : list io → result unit → Prop) : Prop :=
  ∀ tc res, conn tc res →
    toasts tc = []
    ∧ ∃ n, n ≤ attempts ∧ requests tc = replicate n RConnect
           ∧ ∀ e, res = Thrown e →
                  n = attempts ∧ last tc = Some (IoRequest RConnect (Rejected e)).

End Trace.

(** * Properties *)

(** C2. A call issued while [this.ws] is absent or not OPEN throws the
    NotConnected error at once and leaves the client as it was: nothing is
    inserted into the pending table, nothing is sent, no timer is armed. *)
Theorem call_not_connected (s : state) method params k :
  ws_open s = false →
  call method params k s = (Threw NotConnected, s)
  ∧ pendingRequests (call method params k s).2 = pendingRequests s.
Proof.
  intros Hclosed. unfold call. rewrite Hclosed. done.
Qed.

Lemma call_not_connected_witness :
  ws_open (init "key" 0) = false
  ∧ call "vm.query" None (KLeaf (KApiReturn 0)) (init "key" 0)
    = (Threw NotConnected, init "key" 0)
  ∧ pendingRequests (call "vm.query" None (KLeaf (KApiReturn 0)) (init "key" 0)).2
    = pendingRequests (init "key" 0).
Proof.
  split; [reflexivity|].
  apply (call_not_connected (init "key" 0)). reflexivity.
Defined.

(** C10. restartVM always sends vm.stop with force = true; stopVM with the
    force option left out sends it with force = false. *)
Theorem restart_forces_stop (s : state) (k : nat) vmId h :
  ws s = Some k →
  ws_open s = true →
  sent (restartVM vmId h s)
    = sent s ++ [(k, stop_frame (mkid (now s) (requestCounter s)) vmId true)]
  ∧ (∀ kt options, options = None ∨ options = Some None →
      sent (stopVM vmId options kt s)
      = sent s ++ [(k, stop_frame (mkid (now s) (requestCounter s)) vmId false)]).
Proof.
  intros Hws Hopen. split.
  - unfold restartVM, stopVM, await_kont, call. rewrite Hopen.
    unfold send, setTimeout; simpl. rewrite Hws. done.
  - intros kt options Hopt.
    assert (force_of options = false) as Hf by (destruct Hopt; subst; done).
    unfold stopVM, await_kont, call. rewrite Hopen, Hf.
    unfold send, setTimeout; simpl. rewrite Hws. done.
Qed.

Lemma restart_forces_stop_witness :
  ws open_state = Some 0
  ∧ ws_open open_state = true
  ∧ sent (restartVM 7 9 open_state)
    = sent open_state ++ [(0, stop_frame (mkid 100 0) 7 true)]
  ∧ (∀ kt options, options = None ∨ options = Some None →
      sent (stopVM 7 options kt open_state)
      = sent open_state ++ [(0, stop_frame (mkid 100 0) 7 false)]).
Proof.
  split; [reflexivity|]. split; [reflexivity|].
  apply (restart_forces_stop open_state 0 7 9); reflexivity.
Defined.

(** ** Correlation ids are injective in the counter *)

Lemma has_char_app c a b : has_char c (a +:+ b) ↔ has_char c a ∨ has_char c b.
Proof. induction a as [|x a IH]; simpl; [tauto|]. rewrite IH. tauto. Qed.

Lemma pretty_N_go_nochar c x s :
  (∀ d, pretty_N_char d ≠ c) → ¬ has_char c s → ¬ has_char c (pretty_N_go x s).
Proof.
  intros Hc. revert s. induction (N.lt_wf_0 x) as [x _ IH]; intros s Hs.
  assert (x = 0 ∨ 0 < x)%N as [->|?] by lia.
  - by rewrite pretty_N_go_0.
  - rewrite pretty_N_go_step by done. apply IH.
    { by apply N.div_lt. }
    simpl. intros [Heq|?]; [|done]. by eapply Hc.
Qed.

Lemma pretty_nat_nochar c (n : nat) :
  (∀ d, pretty_N_char d ≠ c) → ¬ has_char c (pretty n).
Proof.
  intros Hc. unfold pretty, pretty_nat, pretty, pretty_N. case_decide.
  - simpl. intros [?|[]]. by apply (Hc 0%N).
  - apply pretty_N_go_nochar; [done|]. simpl. tauto.
Qed.

Lemma digit_not_dash d : pretty_N_char d ≠ "-"%char.
Proof. unfold pretty_N_char. by repeat case_match. Qed.

Lemma digit_not_a d : pretty_N_char d ≠ "a"%char.
Proof. unfold pretty_N_char. by repeat case_match. Qed.

Lemma after_last_dash a b c d :
  ¬ has_char "-" b → ¬ has_char "-" d →
  a +:+ "-" +:+ b = c +:+ "-" +:+ d → a = c ∧ b = d.
Proof.
  intros Hb Hd. revert c. induction a as [|x a IH]; intros [|y c] Heq.
  - injection Heq as Heq. done.
  - injection Heq as _ Heq. pose proof (Heq : b = c +:+ "-" +:+ d) as ->.
    destruct Hb. apply has_char_app. right. simpl. by left.
  - injection Heq as _ Heq. pose proof (Heq : a +:+ "-" +:+ b = d) as <-.
    destruct Hd. apply has_char_app. right. simpl. by left.
  - injection Heq as -> Heq. destruct (IH c Heq) as [-> ->]. done.
Qed.

Lemma mkid_inj t1 n1 t2 n2 : mkid t1 n1 = mkid t2 n2 → t1 = t2 ∧ n1 = n2.
Proof.
  unfold mkid. intros Heq.
  apply after_last_dash in Heq as [Ht Hn];
    try apply pretty_nat_nochar, digit_not_dash.
  split; [by apply (inj pretty)|by apply (inj pretty)].
Qed.

(** The id of a login call is the id of no request. *)
Lemma auth_id_ne_mkid tm tm' n : auth_id tm ≠ mkid tm' n.
Proof.
  unfold auth_id, mkid. intros Heq.
  apply (after_last_dash (pretty tm) "auth" (pretty tm') (pretty n)) in Heq as [_ Hn].
  - apply (pretty_nat_nochar "a" n digit_not_a). rewrite <-Hn. simpl. by left.
  - simpl. intros [?|[?|[?|[?|[]]]]]; done.
  - apply pretty_nat_nochar, digit_not_dash.
Qed.

(** ** Preservation of the invariant *)

Lemma Inv_weaken s s' :
  timers s' = timers s →
  pendingRequests s' = pendingRequests s →
  settleLog s' = settleLog s →
  nextHandle s ≤ nextHandle s' →
  requestCounter s ≤ requestCounter s' →
  (∀ sk' l, sk' ∈ sockets s' → l ∈ sk_listeners sk' →
     ∃ sk, sk ∈ sockets s ∧ l ∈ sk_listeners sk) →
  Inv s → Inv s'.
Proof.
  intros Ht Hp Hl Hn Hc Hsk [I1 I2 I3 I4 I5 I6 I7 I8].
  split; unfold listener_ok in *; rewrite ?Ht, ?Hp, ?Hl.
  - intros h t Hh. specialize (I1 h t Hh). lia.
  - intros sk' l Hsk' Hl'. destruct (Hsk sk' l Hsk' Hl') as (sk & Hin & Hlin).
    destruct (I2 sk l Hin Hlin) as (? & ? & ?). repeat split; [lia|done..].
  - done.
  - intros h t id p Hh Htask.
    destruct (I4 h t id p Hh Htask) as ((tm & m & -> & ?) & (n & ? & ?) & ?).
    repeat split; [exists tm, m; split; [done|lia] | exists n; split; [done|lia] | done].
  - done.
  - done.
  - intros n Hn'. specialize (I7 n Hn'). lia.
  - intros sk' l Hsk' Hl'. destruct (Hsk sk' l Hsk' Hl') as (sk & Hin & Hlin). eauto.
Qed.

Lemma Inv_same s s' :
  timers s' = timers s →
  pendingRequests s' = pendingRequests s →
  settleLog s' = settleLog s →
  nextHandle s' = nextHandle s →
  requestCounter s' = requestCounter s →
  sockets s' = sockets s →
  Inv s → Inv s'.
Proof.
  intros ? ? ? Hn Hc Hs. apply Inv_weaken; try done; try lia.
  rewrite Hs. eauto.
Qed.

Lemma Inv_send f s : Inv s → Inv (send f s).
Proof. unfold send. destruct (ws s); [|done]. by apply Inv_same. Qed.

Lemma Inv_setTimeout tk d s : plain_task tk → Inv s → Inv (setTimeout tk d s).
Proof.
  intros Hplain [I1 I2 I3 I4 I5 I6 I7 I8].
  unfold setTimeout. split; unfold listener_ok in *; simpl.
  - intros h t Hh. apply lookup_insert_Some in Hh as [[<- _]|[_ Hh]]; [lia|].
    specialize (I1 h t Hh). lia.
  - intros sk l Hsk Hl. destruct (I2 sk l Hsk Hl) as (Hlt & ? & Ht).
    repeat split; [lia|done|]. intros t. rewrite lookup_insert_ne by lia. apply Ht.
  - intros h t p Hh Htask. apply lookup_insert_Some in Hh as [[_ <-]|[_ Hh]].
    + simpl in Htask. subst tk. done.
    + eauto.
  - intros h t id p Hh Htask. apply lookup_insert_Some in Hh as [[_ <-]|[_ Hh]].
    + simpl in Htask. subst tk. done.
    + destruct (I4 h t id p Hh Htask) as (? & (n & ? & ?) & ?).
      repeat split; [done| exists n; split; [done|lia] | done].
  - intros h h' t t' id id' p p' Hh Hh' Ht Ht'.
    apply lookup_insert_Some in Hh as [[_ <-]|[_ Hh]].
    { simpl in Ht. subst tk. done. }
    apply lookup_insert_Some in Hh' as [[_ <-]|[_ Hh']].
    { simpl in Ht'. subst tk. done. }
    eauto.
  - intros id p Hid. destruct (I6 id p Hid) as (? & h & t & Hh & ?).
    split; [done|]. exists h, t. split; [|done].
    rewrite lookup_insert_ne; [done|]. specialize (I1 h t Hh). lia.
  - intros n Hn. specialize (I7 n Hn). lia.
  - done.
Qed.

Lemma fresh_ext_refl s : fresh_ext s s.
Proof. repeat split; eauto. Qed.

Lemma later_id_mono s s' id :
  requestCounter s ≤ requestCounter s' → later_id s' id → later_id s id.
Proof. intros Hc (tm & m & -> & ?). exists tm, m. split; [done|lia]. Qed.

Lemma fresh_ext_trans s1 s2 s3 : fresh_ext s1 s2 → fresh_ext s2 s3 → fresh_ext s1 s3.
Proof.
  intros (Hn1 & Hc1 & Ht1 & Hp1) (Hn2 & Hc2 & Ht2 & Hp2).
  split; [lia|]. split; [lia|]. split.
  - intros h t Hh. destruct (Ht2 h t Hh) as [Hh'|[? Hnew]]; [by apply Ht1|].
    right. split; [lia|]. intros id p Htask. eapply later_id_mono; eauto.
  - intros id p Hid. destruct (Hp2 id p Hid) as [Hid'|Hnew]; [by apply Hp1|].
    right. by eapply later_id_mono.
Qed.

Lemma fresh_ext_sub s s' :
  (∀ h t, timers s' !! h = Some t → timers s !! h = Some t) →
  (∀ id p, pendingRequests s' !! id = Some p → pendingRequests s !! id = Some p) →
  requestCounter s ≤ requestCounter s' →
  nextHandle s ≤ nextHandle s' →
  fresh_ext s s'.
Proof. intros Ht Hp Hc Hn. repeat split; eauto. Qed.

Lemma fresh_ext_same s s' :
  timers s' = timers s →
  pendingRequests s' = pendingRequests s →
  requestCounter s' = requestCounter s →
  nextHandle s ≤ nextHandle s' →
  fresh_ext s s'.
Proof.
  intros Ht Hp Hc Hn. split; [done|]. split; [lia|]. rewrite Ht, Hp. eauto.
Qed.

Lemma fresh_ext_setTimeout tk d s : plain_task tk ∨ (∃ p, tk = TAuthTimeout p) →
  fresh_ext s (setTimeout tk d s).
Proof.
  intros Htk. split; simpl; [lia|]. split; [done|]. split; [|eauto].
  intros h t Hh.
  apply lookup_insert_Some in Hh as [[<- <-]|[_ Hh]]; [|eauto].
  right. split; [done|]. simpl. intros id p ->. by destruct Htk as [?|[? ?]].
Qed.

Lemma fresh_ext_clearTimeout h s : fresh_ext s (clearTimeout h s).
Proof.
  split; simpl; [done|]. split; [done|]. split; [|eauto]. intros h' t Hh.
  apply lookup_delete_Some in Hh as [_ Hh]. eauto.
Qed.

Lemma listener_ok_mono l s s' : fresh_ext s s' → listener_ok l s → listener_ok l s'.
Proof.
  intros (Hn & _ & Hext & _) (Hlt & Hp & Ht). repeat split; [lia|done|].
  intros t Hh. destruct (Hext _ _ Hh) as [?|[? _]]; [eauto|lia].
Qed.

Lemma Inv_table_call s id p :
  Inv s → pendingRequests s !! id = Some p →
  (∃ tm m, id = mkid tm m ∧ m < requestCounter s)
  ∧ (∃ n, ph p = PCall n ∧ n < nextHandle s)
  ∧ api_kont (pk p).
Proof.
  intros HI Hid. destruct (inv_table s HI id p Hid) as (_ & h & t & Hh & Ht).
  exact (inv_req s HI h t id p Hh Ht).
Qed.

Lemma Inv_invoke h o s : ¬ is_call h → Inv s → Inv (invoke h o s).
Proof.
  intros Hh [I1 I2 I3 I4 I5 I6 I7 I8]. pose proof (Build_Inv s I1 I2 I3 I4 I5 I6 I7 I8) as HI.
  split; simpl; try done.
  - intros id p Hid. destruct (I6 id p Hid) as (Hnot & Htimer). split; [|done].
    destruct (Inv_table_call s id p HI Hid) as (_ & (n & Hn & _) & _).
    rewrite fmap_app, elem_of_app. intros [?|Hin]; [done|].
    apply list_elem_of_singleton in Hin. simpl in Hin. subst h.
    rewrite Hn in Hh. by apply Hh.
  - intros n. rewrite fmap_app, elem_of_app. intros [?|Hin]; [eauto|].
    apply list_elem_of_singleton in Hin. simpl in Hin. subst h. by destruct Hh.
Qed.

Lemma settle_fields p o s :
  timers (settle p o s) = timers s
  ∧ pendingRequests (settle p o s) = pendingRequests s
  ∧ nextHandle (settle p o s) = nextHandle s
  ∧ requestCounter (settle p o s) = requestCounter s
  ∧ sockets (settle p o s) = sockets s
  ∧ settleLog (settle p o s) = settleLog s ++ [(ph p, o)]
  ∧ ws (settle p o s) = ws s
  ∧ authenticated (settle p o s) = authenticated s
  ∧ reconnectAttempts (settle p o s) = reconnectAttempts s
  ∧ sent (settle p o s) = sent s
  ∧ timerLog (settle p o s) = timerLog s
  ∧ now (settle p o s) = now s.
Proof. unfold settle. by destruct (is_settled (ph p) s). Qed.

Lemma Inv_settle_auth p o s m : ph p = PAuth m → Inv s → Inv (settle p o s).
Proof.
  intros Hp HI.
  destruct (settle_fields p o s) as (Ht & Hpr & Hn & Hc & Hs & Hl & _).
  apply (Inv_same (invoke (ph p) o s)); try done.
  apply Inv_invoke; [|done]. rewrite Hp. simpl. tauto.
Qed.

(** A request leaves the table, settled or not, with or without its timer. *)
Lemma Inv_retire s s' h t id p :
  timers s !! h = Some t → t_task t = TRequestTimeout id p →
  timers s' = timers s ∨ timers s' = delete h (timers s) →
  pendingRequests s' = delete id (pendingRequests s) →
  (∀ x, x ∈ (settleLog s').*1 → x ∈ (settleLog s).*1 ∨ x = ph p) →
  nextHandle s' = nextHandle s →
  requestCounter s' = requestCounter s →
  sockets s' = sockets s →
  Inv s → Inv s'.
Proof.
  intros Hh Htask Htim Htab Hlog Hn Hc Hsk [I1 I2 I3 I4 I5 I6 I7 I8].
  assert (∀ h0 t0, timers s' !! h0 = Some t0 → timers s !! h0 = Some t0) as Hsub.
  { intros h0 t0. destruct Htim as [->| ->]; [done|].
    rewrite lookup_delete_Some. tauto. }
  split; rewrite ?Hn, ?Hc, ?Hsk, ?Htab; unfold listener_ok in *; rewrite ?Hn.
  - eauto.
  - intros sk l Hin Hl. destruct (I2 sk l Hin Hl) as (? & ? & ?).
    repeat split; eauto.
  - eauto.
  - eauto.
  - eauto.
  - intros id' p' Hid'. apply lookup_delete_Some in Hid' as [Hne Hid'].
    destruct (I6 id' p' Hid') as (Hnot & h' & t' & Hh' & Ht').
    assert (h' ≠ h) as Hhne.
    { intros ->. rewrite Hh in Hh'. injection Hh' as <-.
      rewrite Htask in Ht'. by injection Ht' as -> _. }
    split.
    + intros Hin. destruct (Hlog _ Hin) as [?|Heq]; [done|].
      apply Hhne. eapply (I5 h' h); eauto.
    + exists h', t'. split; [|done].
      destruct Htim as [->| ->]; [done|]. by rewrite lookup_delete_ne.
  - intros n Hin. destruct (Hlog _ Hin) as [?|Heq]; [eauto|].
    destruct (I4 h t id p Hh Htask) as (_ & (n' & Hn' & ?) & _).
    rewrite Hn' in Heq. by injection Heq as ->.
  - done.
Qed.

(** Removing a timer that is no request timer. *)
Lemma Inv_clear_plain h s :
  (∀ t id p, timers s !! h = Some t → t_task t ≠ TRequestTimeout id p) →
  Inv s → Inv (clearTimeout h s).
Proof.
  intros Hplain [I1 I2 I3 I4 I5 I6 I7 I8]. unfold clearTimeout.
  split; unfold listener_ok in *; simpl.
  - intros h' t Hh. apply lookup_delete_Some in Hh as [_ Hh]. eauto.
  - intros sk l Hin Hl. destruct (I2 sk l Hin Hl) as (? & ? & Ht).
    repeat split; [done..|]. intros t Hh.
    apply lookup_delete_Some in Hh as [_ Hh]. eauto.
  - intros h' t p Hh. apply lookup_delete_Some in Hh as [_ Hh]. eauto.
  - intros h' t id p Hh. apply lookup_delete_Some in Hh as [_ Hh]. eauto.
  - intros h1 h2 t1 t2 id id' p p' Hh1 Hh2.
    apply lookup_delete_Some in Hh1 as [_ Hh1].
    apply lookup_delete_Some in Hh2 as [_ Hh2]. eauto.
  - intros id p Hid. destruct (I6 id p Hid) as (? & h' & t & Hh & Ht).
    split; [done|]. exists h', t. split; [|done].
    rewrite lookup_delete_ne; [done|]. intros ->. by eapply Hplain.
  - done.
  - done.
Qed.

Lemma Inv_call method params k s :
  api_kont k → Inv s → Inv (call method params k s).2.
Proof.
  intros Hk [I1 I2 I3 I4 I5 I6 I7 I8]. unfold call.
  destruct (ws_open s); [|by split].
  unfold send, setTimeout; simpl.
  apply (Inv_same
    (State (ws s) (apiKey s) (S (requestCounter s))
       (<[mkid (now s) (requestCounter s) :=
            Promise (PCall (nextHandle s)) k]> (pendingRequests s))
       (authenticated s) (reconnectAttempts s) (maxReconnectAttempts s)
       (intentionalDisconnect s) (now s) (sockets s)
       (<[S (nextHandle s) :=
            Timer (now s + 30000)
              (TRequestTimeout (mkid (now s) (requestCounter s))
                 (Promise (PCall (nextHandle s)) k))]> (timers s))
       (microtasks s) (S (S (nextHandle s))) (sent s) (settleLog s) (timerLog s)));
    try (destruct (ws s); done).
  split; unfold listener_ok in *; simpl.
  - intros h t Hh. apply lookup_insert_Some in Hh as [[<- _]|[_ Hh]]; [lia|].
    specialize (I1 h t Hh). lia.
  - intros sk l Hin Hl. destruct (I2 sk l Hin Hl) as (? & ? & Ht).
    repeat split; [lia|done|]. intros t. rewrite lookup_insert_ne by lia. apply Ht.
  - intros h t p Hh Ht. apply lookup_insert_Some in Hh as [[_ <-]|[_ Hh]]; [done|eauto].
  - intros h t id p Hh Ht. apply lookup_insert_Some in Hh as [[_ <-]|[_ Hh]].
    + simpl in Ht. injection Ht as <- <-. simpl.
      repeat split; [by exists (now s), (requestCounter s); split; [|lia]
                    |by exists (nextHandle s); split; [|lia] | done].
    + destruct (I4 h t id p Hh Ht) as ((tm & m & -> & ?) & (n & ? & ?) & ?).
      repeat split; [exists tm, m; split; [done|lia] | exists n; split; [done|lia] | done].
  - assert (∀ h t id p, timers s !! h = Some t → t_task t = TRequestTimeout id p →
      ¬ (mkid (now s) (requestCounter s) = id ∨ PCall (nextHandle s) = ph p)) as Hold.
    { intros h t id p Hh Ht.
      destruct (I4 h t id p Hh Ht) as ((tm & m & -> & ?) & (n & Hn & ?) & _).
      intros [Heq|Heq].
      - apply mkid_inj in Heq as [_ ?]. lia.
      - rewrite Hn in Heq. injection Heq as ?. lia. }
    intros h h' t t' id id' p p' Hh Hh' Ht Ht' Heq.
    apply lookup_insert_Some in Hh as [[<- <-]|[? Hh]];
      apply lookup_insert_Some in Hh' as [[<- <-]|[? Hh']]; try done.
    + simpl in Ht. injection Ht as <- <-. destruct (Hold _ _ _ _ Hh' Ht'). done.
    + simpl in Ht'. injection Ht' as <- <-. destruct (Hold _ _ _ _ Hh Ht).
      destruct Heq as [->| ->]; eauto.
    + eauto.
  - intros id p Hid. apply lookup_insert_Some in Hid as [[<- <-]|[? Hid]].
    + simpl. split.
      * intros Hin. apply I7 in Hin. lia.
      * eexists _, _. split; [apply lookup_insert_eq|done].
    + destruct (I6 id p Hid) as (? & h & t & Hh & Ht). split; [done|].
      exists h, t. split; [|done]. rewrite lookup_insert_ne; [done|].
      specialize (I1 h t Hh). lia.
  - intros n Hin. specialize (I7 n Hin). lia.
  - done.
Qed.

Lemma Inv_run_leaf l o s : Inv s → Inv (run_leaf l o s).
Proof.
  intros HI. destruct l as [|h|h|pc]; simpl; [done|..].
  - apply Inv_invoke; [simpl; tauto|done].
  - apply Inv_invoke; [simpl; tauto|done].
  - destruct o; (apply Inv_invoke; [simpl; tauto|]); [|done].
    by apply (Inv_same s).
Qed.

Lemma Inv_await_leaf l method params s :
  api_kont (KLeaf l) → Inv s → Inv (await_leaf l (call method params (KLeaf l) s)).
Proof.
  intros Hk HI. unfold await_leaf.
  pose proof (Inv_call method params (KLeaf l) s Hk HI) as HI'.
  destruct (call method params (KLeaf l) s) as [[e|p] s']; simpl in *; [|done].
  by apply Inv_run_leaf.
Qed.

Lemma Inv_run_kont k o s : Inv s → Inv (run_kont k o s).
Proof.
  intros HI. destruct k as [l|vmId h|appName h]; simpl.
  - by apply Inv_run_leaf.
  - destruct o; [by apply Inv_setTimeout|].
    apply Inv_invoke; [simpl; tauto|done].
  - destruct o; [by apply Inv_await_leaf|].
    apply Inv_invoke; [simpl; tauto|done].
Qed.

Lemma Inv_await_kont k method params s :
  api_kont k → Inv s → Inv (await_kont k (call method params k s)).
Proof.
  intros Hk HI. unfold await_kont.
  pose proof (Inv_call method params k s Hk HI) as HI'.
  destruct (call method params k s) as [[e|p] s']; simpl in *; [|done].
  by apply Inv_run_kont.
Qed.

Lemma Inv_foldl {A} (f : state → A → state) (l : list A) s :
  (∀ s' a, Inv s' → Inv (f s' a)) → Inv s → Inv (foldl f s l).
Proof. intros Hf. revert s. induction l; simpl; eauto. Qed.

Lemma Inv_drain s : Inv s → Inv (drain s).
Proof.
  intros HI. unfold drain. apply Inv_foldl.
  - intros s' [k o] ?. by apply Inv_run_kont.
  - by apply (Inv_same s).
Qed.

Lemma Inv_tryAlternativeAuth s : Inv s → Inv (tryAlternativeAuth s).
Proof.
  intros HI. unfold tryAlternativeAuth. destruct (ws_open s); [|done].
  apply Inv_setTimeout; [done|]. by apply Inv_send.
Qed.

Lemma Inv_handleMessage d s : Inv s → Inv (handleMessage d s).
Proof.
  intros HI. unfold handleMessage. destruct d as [r|]; [|done].
  destruct (msg_is r "connected"); [done|].
  destruct (msg_is r "failed"); [by apply Inv_tryAlternativeAuth|].
  destruct (msg_is r "pong"); [done|].
  destruct (r_id r) as [id|]; [|done].
  destruct (pendingRequests s !! id) as [p|] eqn:Hid; [|done].
  destruct (inv_table s HI id p Hid) as (_ & h & t & Hh & Ht).
  assert (∀ o, Inv (set_pendingRequests
      (delete id (pendingRequests (settle p o s))) (settle p o s))) as Hsettle.
  { intros o. destruct (settle_fields p o s) as (Htm & Hpr & Hn & Hc & Hs & Hl & _).
    eapply (Inv_retire s _ h t id p); simpl; eauto.
    - by rewrite Hpr.
    - intros x. rewrite Hl, fmap_app, elem_of_app. intros [?|Hin]; [by left|].
      apply list_elem_of_singleton in Hin. by right. }
  destruct (msg_is r "result"); [apply Hsettle|].
  destruct (msg_is r "error"); [apply Hsettle|].
  eapply (Inv_retire s _ h t id p); simpl; eauto.
Qed.

Lemma Inv_authHandler l d s : listener_ok l s → Inv s → Inv (authHandler l d s).
Proof.
  intros (_ & (m & Hm) & _) HI. unfold authHandler.
  destruct d as [r|]; [|by apply Inv_handleMessage].
  case_bool_decide; [|by apply Inv_handleMessage].
  destruct (msg_is r "result" && is_true (r_result r)).
  - eapply Inv_settle_auth; [done|]. by apply (Inv_same s).
  - by eapply Inv_settle_auth.
Qed.

Lemma fresh_ext_tryAlternativeAuth s : fresh_ext s (tryAlternativeAuth s).
Proof.
  unfold tryAlternativeAuth. destruct (ws_open s); [|apply fresh_ext_refl].
  eapply fresh_ext_trans; [|by apply fresh_ext_setTimeout; left].
  unfold send. destruct (ws s); apply fresh_ext_same; done.
Qed.

Lemma fresh_ext_handleMessage d s : fresh_ext s (handleMessage d s).
Proof.
  unfold handleMessage. destruct d as [r|]; [|apply fresh_ext_refl].
  destruct (msg_is r "connected"); [apply fresh_ext_refl|].
  destruct (msg_is r "failed"); [apply fresh_ext_tryAlternativeAuth|].
  destruct (msg_is r "pong"); [apply fresh_ext_refl|].
  destruct (r_id r) as [id|]; [|apply fresh_ext_refl].
  destruct (pendingRequests s !! id) as [p|]; [|apply fresh_ext_refl].
  assert (∀ o, fresh_ext s (set_pendingRequests
      (delete id (pendingRequests (settle p o s))) (settle p o s))) as Hsettle.
  { intros o. destruct (settle_fields p o s) as (Htm & Hpr & Hn & Hc & _).
    apply fresh_ext_sub; simpl; rewrite ?Htm, ?Hpr, ?Hc, ?Hn; try done.
    intros id' p' Hid'. by apply lookup_delete_Some in Hid' as [_ ?]. }
  destruct (msg_is r "result"); [apply Hsettle|].
  destruct (msg_is r "error"); [apply Hsettle|].
  apply fresh_ext_sub; simpl; try done.
  intros id' p' Hid'. by apply lookup_delete_Some in Hid' as [_ ?].
Qed.

Lemma fresh_ext_authHandler l d s : fresh_ext s (authHandler l d s).
Proof.
  unfold authHandler.
  destruct d as [r|]; [|by apply fresh_ext_handleMessage].
  case_bool_decide; [|by apply fresh_ext_handleMessage].
  destruct (msg_is r "result" && is_true (r_result r)).
  - destruct (settle_fields (al_promise l) (Resolved None) (set_authenticated true s))
      as (Htm & Hpr & Hn & Hc & _).
    apply fresh_ext_same; [done..|]. rewrite Hn. done.
  - match goal with |- fresh_ext s (settle ?p ?o s) =>
      destruct (settle_fields p o s) as (Htm & Hpr & Hn & Hc & _) end.
    apply fresh_ext_same; [done..|lia].
Qed.

Lemma elem_of_alter_listeners (f : list authListener → list authListener)
    (k : nat) (sks : list socket) sk' l :
  (∀ ls x, x ∈ f ls → x ∈ ls) →
  sk' ∈ alter (λ sk, set_sk_listeners (f (sk_listeners sk)) sk) k sks →
  l ∈ sk_listeners sk' →
  ∃ sk, sk ∈ sks ∧ l ∈ sk_listeners sk.
Proof.
  intros Hf Hin Hl. apply list_elem_of_lookup in Hin as [i Hi].
  destruct (decide (i = k)) as [->|Hne].
  - rewrite list_lookup_alter_eq in Hi.
    destruct (sks !! k) as [sk|] eqn:Hk; [|done]. injection Hi as <-.
    exists sk. split; [by eapply list_elem_of_lookup_2|]. simpl in Hl. eauto.
  - rewrite list_lookup_alter_ne in Hi by done.
    exists sk'. split; [by eapply list_elem_of_lookup_2|done].
Qed.

Lemma elem_of_alter_state (f : socket → socket) (k : nat) (sks : list socket) sk' :
  (∀ sk, sk_listeners (f sk) = sk_listeners sk) →
  sk' ∈ alter f k sks →
  ∃ sk, sk ∈ sks ∧ sk_listeners sk' = sk_listeners sk.
Proof.
  intros Hf Hin. apply list_elem_of_lookup in Hin as [i Hi].
  destruct (decide (i = k)) as [->|Hne].
  - rewrite list_lookup_alter_eq in Hi.
    destruct (sks !! k) as [sk|] eqn:Hk; [|done]. injection Hi as <-.
    exists sk. split; [by eapply list_elem_of_lookup_2|]. apply Hf.
  - rewrite list_lookup_alter_ne in Hi by done.
    exists sk'. split; [by eapply list_elem_of_lookup_2|done].
Qed.

Lemma Inv_off_listener key s : Inv s → Inv (off_listener key s).
Proof.
  intros HI. unfold off_listener. destruct (ws s) as [k|]; [|done].
  apply (Inv_weaken s); simpl; try done.
  intros sk' l Hin Hl.
  eapply (elem_of_alter_listeners (filter (λ l0, al_key l0 ≠ key))); [|done..].
  intros ls x Hx. by apply list_elem_of_filter in Hx as [_ ?].
Qed.

Lemma Inv_messageListener l d s :
  listener_ok l s → Inv s → Inv (messageListener l d s).
Proof.
  intros Hl HI. unfold messageListener. apply Inv_off_listener.
  apply Inv_clear_plain; [|by apply Inv_authHandler].
  apply (listener_ok_mono l s (authHandler l d s)) in Hl;
    [|apply fresh_ext_authHandler].
  destruct Hl as (_ & _ & Ht). intros t id p Hh Htask.
  destruct (Ht t Hh) as [p' Hp']. congruence.
Qed.

Lemma fresh_ext_messageListener l d s : fresh_ext s (messageListener l d s).
Proof.
  unfold messageListener.
  eapply fresh_ext_trans; [apply fresh_ext_authHandler|].
  eapply fresh_ext_trans; [apply fresh_ext_clearTimeout|].
  unfold off_listener. destruct (ws _); by apply fresh_ext_same.
Qed.

Lemma Inv_listeners_foldl d (ls : list authListener) s :
  Forall (λ l, listener_ok l s) ls → Inv s →
  Inv (foldl (λ s' l, messageListener l d s') s ls).
Proof.
  revert s. induction ls as [|l ls IH]; intros s Hls HI; simpl; [done|].
  apply Forall_cons in Hls as [Hl Hls]. apply IH.
  - eapply Forall_impl; [done|]. intros l' Hl'. simpl in Hl'.
    eapply listener_ok_mono; [apply fresh_ext_messageListener|done].
  - by apply Inv_messageListener.
Qed.

Lemma Inv_emit_message k d s : Inv s → Inv (emit_message k d s).
Proof.
  intros HI. unfold emit_message. destruct (sockets s !! k) as [sk|] eqn:Hk; [|done].
  apply Inv_listeners_foldl; [|by apply Inv_handleMessage].
  apply Forall_forall. intros l Hl.
  eapply listener_ok_mono; [apply fresh_ext_handleMessage|].
  eapply (inv_listener s HI sk); [by eapply list_elem_of_lookup_2|done].
Qed.

Lemma Inv_on_listener l s :
  listener_ok l s → (∃ tm, al_id l = auth_id tm) → Inv s → Inv (on_listener l s).
Proof.
  intros Hl Hlid [I1 I2 I3 I4 I5 I6 I7 I8]. unfold on_listener.
  destruct (ws s) as [k|]; [|by split].
  assert (∀ sk' l', sk' ∈ alter (λ sk, set_sk_listeners (sk_listeners sk ++ [l]) sk)
            k (sockets s) → l' ∈ sk_listeners sk' →
          l' = l ∨ ∃ sk, sk ∈ sockets s ∧ l' ∈ sk_listeners sk) as Hcases.
  { intros sk' l' Hin Hl'. apply list_elem_of_lookup in Hin as [i Hi].
    destruct (decide (i = k)) as [->|Hne].
    - rewrite list_lookup_alter_eq in Hi.
      destruct (sockets s !! k) as [sk|] eqn:Hk; [|done]. injection Hi as <-.
      simpl in Hl'. apply elem_of_app in Hl' as [Hl'|Hl'].
      + right. exists sk. split; [by eapply list_elem_of_lookup_2|done].
      + left. by apply list_elem_of_singleton in Hl'.
    - rewrite list_lookup_alter_ne in Hi by done.
      right. exists sk'. split; [by eapply list_elem_of_lookup_2|done]. }
  split; simpl; try done.
  - intros sk' l' Hin Hl'.
    destruct (Hcases sk' l' Hin Hl') as [->|(sk & ? & ?)]; [done|by eapply I2].
  - intros sk' l' Hin Hl'.
    destruct (Hcases sk' l' Hin Hl') as [->|(sk & ? & ?)]; [done|by eapply I8].
Qed.

Lemma Inv_authTimeout p m s :
  ph p = PAuth m → Inv s → Inv (setTimeout (TAuthTimeout p) 10000 s).
Proof.
  intros Hp [I1 I2 I3 I4 I5 I6 I7 I8].
  unfold setTimeout. split; unfold listener_ok in *; simpl.
  - intros h t Hh. apply lookup_insert_Some in Hh as [[<- _]|[_ Hh]]; [lia|].
    specialize (I1 h t Hh). lia.
  - intros sk l Hsk Hl. destruct (I2 sk l Hsk Hl) as (Hlt & ? & Ht).
    repeat split; [lia|done|]. intros t. rewrite lookup_insert_ne by lia. apply Ht.
  - intros h t p' Hh Htask. apply lookup_insert_Some in Hh as [[_ <-]|[_ Hh]].
    + simpl in Htask. injection Htask as <-. eauto.
    + eauto.
  - intros h t id p' Hh Htask. apply lookup_insert_Some in Hh as [[_ <-]|[_ Hh]].
    + done.
    + destruct (I4 h t id p' Hh Htask) as (? & (n & ? & ?) & ?).
      repeat split; [done| exists n; split; [done|lia] | done].
  - intros h h' t t' id id' p1 p2 Hh Hh' Ht Ht'.
    apply lookup_insert_Some in Hh as [[_ <-]|[_ Hh]]; [done|].
    apply lookup_insert_Some in Hh' as [[_ <-]|[_ Hh']]; [done|].
    eauto.
  - intros id p' Hid. destruct (I6 id p' Hid) as (? & h & t & Hh & ?).
    split; [done|]. exists h, t. split; [|done].
    rewrite lookup_insert_ne; [done|]. specialize (I1 h t Hh). lia.
  - intros n Hn. specialize (I7 n Hn). lia.
  - done.
Qed.

Lemma Inv_authenticate pc s : Inv s → Inv (authenticate pc s).
Proof.
  intros HI. unfold authenticate.
  assert (Inv (set_nextHandle (S (nextHandle s)) s)) as HI1.
  { apply (Inv_weaken s); simpl; eauto. }
  destruct (ws_open _).
  - apply Inv_on_listener.
    + repeat split; simpl.
      * unfold send. destruct (ws s); simpl; lia.
      * eauto.
      * unfold send. destruct (ws s); simpl;
          rewrite lookup_insert_eq; intros t [= <-]; simpl; eauto.
    + simpl. eauto.
    + eapply Inv_authTimeout; [done|]. by apply Inv_send.
  - by eapply Inv_settle_auth.
Qed.

Lemma Inv_connect s : Inv s → Inv (connect s).2.
Proof.
  intros HI. unfold connect; simpl.
  apply (Inv_weaken s); simpl; try done; try lia.
  intros sk' l Hin Hl. apply elem_of_app in Hin as [Hin|Hin]; [eauto|].
  apply list_elem_of_singleton in Hin. subst sk'. simpl in Hl.
  by apply elem_of_nil in Hl.
Qed.

Lemma Inv_alter_state (f : socket → socket) k s :
  (∀ sk, sk_listeners (f sk) = sk_listeners sk) →
  Inv s → Inv (set_sockets (alter f k (sockets s)) s).
Proof.
  intros Hf HI. apply (Inv_weaken s); simpl; try done.
  intros sk' l Hin Hl.
  destruct (elem_of_alter_state f k (sockets s) sk' Hf Hin) as (sk & ? & Heq).
  exists sk. split; [done|]. by rewrite <-Heq.
Qed.

Lemma Inv_disconnect s : Inv s → Inv (disconnect s).
Proof.
  intros HI. unfold disconnect. destruct (ws s) as [k|]; [|done].
  apply (Inv_same (close_socket k (set_intentionalDisconnect true s))); try done.
  unfold close_socket.
  apply (Inv_alter_state _ k (set_intentionalDisconnect true s)).
  - intros sk. by destruct (sk_state sk).
  - by apply (Inv_same s).
Qed.

Lemma Inv_handleReconnect s : Inv s → Inv (handleReconnect s).
Proof.
  intros HI. unfold handleReconnect.
  destruct (intentionalDisconnect s); [done|].
  destruct (_ <? _); [|done].
  apply Inv_setTimeout; [done|]. by apply (Inv_same s).
Qed.

Lemma Inv_run_task h t s :
  timers s !! h = Some t → Inv s → Inv (run_task (t_task t) (clearTimeout h s)).
Proof.
  intros Hh HI.
  assert (plain_task (t_task t) ∨ (∃ p, t_task t = TAuthTimeout p) →
    Inv (clearTimeout h s)) as Hclr.
  { intros Hplain. apply Inv_clear_plain; [|done].
    intros t' id p Hh'. rewrite Hh in Hh'. injection Hh' as <-.
    intros Heq. rewrite Heq in Hplain. by destruct Hplain as [?|[? ?]]. }
  destruct (t_task t) as [pc|pc| |id p|p| |vmId hp] eqn:Htask; simpl.
  - destruct (ws_open _).
    + apply Inv_setTimeout; [done|]. apply Inv_send. by apply Hclr; left.
    + apply Inv_invoke; [simpl; tauto|]. by apply Hclr; left.
  - apply Inv_authenticate. by apply Hclr; left.
  - apply (Inv_connect (clearTimeout h s)). by apply Hclr; left.
  - destruct (pendingRequests s !! id) as [p0|] eqn:Hid.
    + destruct (settle_fields p (Rejected RequestTimeout)
        (set_pendingRequests (delete id (pendingRequests s)) (clearTimeout h s)))
        as (Htm & Hpr & Hn & Hc & Hs & Hl & _).
      eapply (Inv_retire s _ h t id p); eauto.
      intros x. rewrite Hl, fmap_app, elem_of_app. intros [?|Hin]; [by left|].
      apply list_elem_of_singleton in Hin. by right.
    + eapply (Inv_retire s _ h t id p); simpl; eauto.
      symmetry. by apply delete_id.
  - destruct (inv_authtimer s HI h t p Hh Htask) as [m Hm].
    eapply Inv_settle_auth; [done|]. apply Hclr. right. eauto.
  - apply (Inv_same (clearTimeout h s)); try done. by apply Hclr; left.
  - apply Inv_await_leaf; [done|]. by apply Hclr; left.
Qed.

Lemma Inv_api (f : nat → state → state) s :
  (∀ h s', Inv s' → Inv (f h s')) → Inv s → Inv (api f s).
Proof.
  intros Hf HI. unfold api. apply Hf. apply (Inv_weaken s); simpl; eauto.
Qed.

Lemma Inv_handle e s : Inv s → Inv (handle e s).
Proof.
  intros HI. destruct e; simpl.
  - by apply (Inv_same s).
  - destruct (timers s !! h) as [t|] eqn:Hh; [|done].
    case_bool_decide; [|done]. by apply Inv_run_task.
  - destruct (sockets s !! k) as [sk|]; [|done].
    case_bool_decide; [|done].
    apply Inv_setTimeout; [done|]. by apply Inv_alter_state.
  - destruct (sockets s !! k) as [sk|]; [|done].
    case_bool_decide; [|done]. by apply Inv_emit_message.
  - destruct (sockets s !! k) as [sk|]; [|done].
    apply Inv_invoke; [simpl; tauto|done].
  - destruct (sockets s !! k) as [sk|]; [|done].
    case_bool_decide; [done|].
    apply Inv_handleReconnect.
    apply (Inv_same (set_sockets (alter (set_sk_state CLOSED) k (sockets s)) s));
      try done.
    by apply Inv_alter_state.
  - by apply Inv_connect.
  - by apply Inv_disconnect.
  - apply Inv_api; [|done]. intros h s' ?. by apply Inv_await_leaf.
  - apply Inv_api; [|done]. intros h s' ?. by apply Inv_await_leaf.
  - apply Inv_api; [|done]. intros h s' ?. by apply Inv_await_kont.
  - apply Inv_api; [|done]. intros h s' ?. by apply Inv_await_kont.
  - apply Inv_api; [|done]. intros h s' ?. by apply Inv_await_leaf.
  - apply Inv_api; [|done]. intros h s' ?. by apply Inv_await_leaf.
  - apply Inv_api; [|done]. intros h s' ?. by apply Inv_await_kont.
  - apply Inv_api; [|done]. intros h s' ?. by apply Inv_await_kont.
Qed.

Lemma Inv_step e s : Inv s → Inv (step e s).
Proof. intros HI. apply Inv_drain. by apply Inv_handle. Qed.

Lemma Inv_init key t0 : Inv (init key t0).
Proof.
  split; simpl; try done.
  - intros sk l Hin. by apply elem_of_nil in Hin.
  - intros n Hin. by apply elem_of_nil in Hin.
  - intros sk l Hin. by apply elem_of_nil in Hin.
Qed.

Lemma Inv_run tr s : Inv s → Inv (run tr s).
Proof. revert s. induction tr as [|e tr IH]; intros s HI; simpl; [done|]. apply IH. by apply Inv_step. Qed.

Lemma Inv_reachable key t0 tr : Inv (run tr (init key t0)).
Proof. apply Inv_run, Inv_init. Qed.

(** ** Following one request through the client *)

Section Tracking.
Context (c : string) (p : promise).

Lemma Tr_frame s s' ϕ :
  pendingRequests s' !! c = pendingRequests s !! c →
  settlements (ph p) s' = settlements (ph p) s →
  requestCounter s ≤ requestCounter s' →
  nextHandle s ≤ nextHandle s' →
  (∀ h t id p', timers s' !! h = Some t → t_task t = TRequestTimeout id p' →
     timers s !! h = Some t ∨ (id ≠ c ∧ ph p' ≠ ph p)) →
  (∀ id p', pendingRequests s' !! id = Some p' →
     pendingRequests s !! id = Some p' ∨ ph p' ≠ ph p) →
  Tr c p s ϕ → Tr c p s' ϕ.
Proof.
  intros Hc Hl Hcnt Hn Htm Htab (((tm & m & Hid & Hm) & (n & Hp & Hlt) & Ot & Otab) & Hϕ).
  split; [|by rewrite Hc, Hl].
  split; [exists tm, m; split; [done|lia]|].
  split; [exists n; split; [done|lia]|]. split.
  - intros h t id p' Hh Ht Heq.
    destruct (Htm h t id p' Hh Ht) as [Hold|[Hne1 Hne2]].
    + exact (Ot h t id p' Hold Ht Heq).
    + by destruct Heq.
  - intros id p' Hid' Hph. destruct (Htab id p' Hid') as [Hold|?]; [eauto|done].
Qed.

Lemma Tr_same s s' ϕ :
  timers s' = timers s →
  pendingRequests s' = pendingRequests s →
  settleLog s' = settleLog s →
  requestCounter s' = requestCounter s →
  nextHandle s' = nextHandle s →
  Tr c p s ϕ → Tr c p s' ϕ.
Proof.
  intros Ht Hp Hl Hc Hn. apply Tr_frame; unfold settlements;
    rewrite ?Ht, ?Hp, ?Hl, ?Hc, ?Hn; eauto.
Qed.

Lemma Tr_send f s ϕ : Tr c p s ϕ → Tr c p (send f s) ϕ.
Proof. unfold send. destruct (ws s); [|done]. by apply Tr_same. Qed.

Lemma Tr_setTimeout tk d s ϕ :
  (∀ id p', tk ≠ TRequestTimeout id p') →
  Tr c p s ϕ → Tr c p (setTimeout tk d s) ϕ.
Proof.
  intros Htk. apply Tr_frame; simpl; eauto.
  intros h t id p' Hh Ht. apply lookup_insert_Some in Hh as [[_ <-]|[_ Hh]].
  - simpl in Ht. by destruct (Htk id p').
  - by left.
Qed.

Lemma Tr_clearTimeout h s ϕ : Tr c p s ϕ → Tr c p (clearTimeout h s) ϕ.
Proof.
  apply Tr_frame; simpl; eauto.
  intros h' t id p' Hh _. apply lookup_delete_Some in Hh as [_ Hh]. by left.
Qed.

Lemma settlements_snoc x h o s :
  settlements x (invoke h o s)
  = settlements x s ++ (if decide (h = x) then [(h, o)] else []).
Proof.
  unfold settlements, invoke; simpl. by rewrite filter_app.
Qed.

Lemma Tr_invoke h o s ϕ : h ≠ ph p → Tr c p s ϕ → Tr c p (invoke h o s) ϕ.
Proof.
  intros Hne. apply Tr_frame; try done; eauto.
  rewrite settlements_snoc. destruct (decide (h = ph p)); [done|].
  by rewrite app_nil_r.
Qed.

Lemma Tr_is_call s ϕ : Tr c p s ϕ → ∃ n, ph p = PCall n.
Proof. intros ((_ & (n & ? & _) & _) & _). eauto. Qed.

Lemma Tr_invoke_user h o s ϕ : ¬ is_call h → Tr c p s ϕ → Tr c p (invoke h o s) ϕ.
Proof.
  intros Hh HT. apply Tr_invoke; [|done].
  destruct (Tr_is_call s ϕ HT) as [n Hn]. intros ->. rewrite Hn in Hh. by apply Hh.
Qed.

Lemma Tr_settle p' o s ϕ : ph p' ≠ ph p → Tr c p s ϕ → Tr c p (settle p' o s) ϕ.
Proof.
  intros Hne HT.
  destruct (settle_fields p' o s) as (Ht & Hpr & Hn & Hc & Hs & Hl & _).
  apply (Tr_same (invoke (ph p') o s)); try done.
  by apply Tr_invoke.
Qed.

Lemma Tr_settle_auth p' m o s ϕ :
  ph p' = PAuth m → Tr c p s ϕ → Tr c p (settle p' o s) ϕ.
Proof.
  intros Hp' HT. apply Tr_settle; [|done].
  destruct (Tr_is_call s ϕ HT) as [n Hn]. congruence.
Qed.

Lemma Tr_call method params k s ϕ :
  Tr c p s ϕ → Tr c p (call method params k s).2 ϕ.
Proof.
  intros HT. unfold call. destruct (ws_open s); [|done].
  pose proof HT as (((tm & m & Hid & Hm) & (n & Hp & Hlt) & Ot & Otab) & Hϕ).
  assert (mkid (now s) (requestCounter s) ≠ c) as Hfresh.
  { rewrite Hid. intros Heq. apply mkid_inj in Heq as [_ ?]. lia. }
  assert (PCall (nextHandle s) ≠ ph p) as Hfreshp.
  { rewrite Hp. intros [= ?]. lia. }
  eapply (Tr_frame s); [..|exact HT]; unfold send, setTimeout; simpl.
  - destruct (ws s); simpl; by rewrite lookup_insert_ne.
  - by destruct (ws s).
  - destruct (ws s); simpl; lia.
  - destruct (ws s); simpl; lia.
  - assert (∀ h t id p', <[S (nextHandle s) := Timer (now s + 30000)
        (TRequestTimeout (mkid (now s) (requestCounter s))
           (Promise (PCall (nextHandle s)) k))]> (timers s) !! h = Some t →
        t_task t = TRequestTimeout id p' →
        timers s !! h = Some t ∨ (id ≠ c ∧ ph p' ≠ ph p)) as Hgoal.
    { intros h t id p' Hh Ht. apply lookup_insert_Some in Hh as [[_ <-]|[_ Hh]].
      - simpl in Ht. injection Ht as <- <-. by right.
      - by left. }
    by destruct (ws s).
  - assert (∀ id p', <[mkid (now s) (requestCounter s) :=
        Promise (PCall (nextHandle s)) k]> (pendingRequests s) !! id = Some p' →
        pendingRequests s !! id = Some p' ∨ ph p' ≠ ph p) as Hgoal.
    { intros id p' Hh. apply lookup_insert_Some in Hh as [[_ <-]|[_ Hh]].
      - by right.
      - by left. }
    by destruct (ws s).
Qed.

Lemma Tr_run_leaf l o s ϕ : Tr c p s ϕ → Tr c p (run_leaf l o s) ϕ.
Proof.
  intros HT. destruct l as [|h|h|pc]; simpl; [done|..].
  - apply Tr_invoke_user; [simpl; tauto|done].
  - apply Tr_invoke_user; [simpl; tauto|done].
  - destruct o; (apply Tr_invoke_user; [simpl; tauto|]); [|done].
    by apply (Tr_same s).
Qed.

Lemma Tr_await_leaf l method params k s ϕ :
  Tr c p s ϕ → Tr c p (await_leaf l (call method params k s)) ϕ.
Proof.
  intros HT. unfold await_leaf.
  pose proof (Tr_call method params k s ϕ HT) as HT'.
  destruct (call method params k s) as [[e|p'] s']; simpl in *; [|done].
  by apply Tr_run_leaf.
Qed.

Lemma Tr_run_kont k o s ϕ : Tr c p s ϕ → Tr c p (run_kont k o s) ϕ.
Proof.
  intros HT. destruct k as [l|vmId h|appName h]; simpl.
  - by apply Tr_run_leaf.
  - destruct o; [by apply Tr_setTimeout|].
    apply Tr_invoke_user; [simpl; tauto|done].
  - destruct o; [by apply Tr_await_leaf|].
    apply Tr_invoke_user; [simpl; tauto|done].
Qed.

Lemma Tr_await_kont k method params s ϕ :
  Tr c p s ϕ → Tr c p (await_kont k (call method params k s)) ϕ.
Proof.
  intros HT. unfold await_kont.
  pose proof (Tr_call method params k s ϕ HT) as HT'.
  destruct (call method params k s) as [[e|p'] s']; simpl in *; [|done].
  by apply Tr_run_kont.
Qed.

Lemma Tr_drain s ϕ : Tr c p s ϕ → Tr c p (drain s) ϕ.
Proof.
  intros HT. unfold drain.
  assert (Tr c p (set_microtasks [] s) ϕ) as HT0 by by apply (Tr_same s).
  revert HT0. generalize (set_microtasks [] s).
  induction (microtasks s) as [|[k o] js IH]; intros s0 HT0; simpl; [done|].
  apply IH. by apply Tr_run_kont.
Qed.

Lemma Tr_tryAlternativeAuth s ϕ : Tr c p s ϕ → Tr c p (tryAlternativeAuth s) ϕ.
Proof.
  intros HT. unfold tryAlternativeAuth. destruct (ws_open s); [|done].
  apply Tr_setTimeout; [done|]. by apply Tr_send.
Qed.

(** The request leaves the table on a frame that carries its id. *)
Lemma Tr_answer o s :
  Tr c p s InFlight →
  Tr c p (set_pendingRequests (delete c (pendingRequests (settle p o s)))
            (settle p o s)) (Settled o).
Proof.
  intros (((tm & m & Hid & Hm) & (n & Hp & Hlt) & Ot & Otab) & Hc & Hl).
  destruct (settle_fields p o s) as (Ht & Hpr & Hn & Hcnt & Hs & Hlog & _).
  split; [|split]; unfold own; simpl.
  - rewrite Ht, Hcnt, Hn, Hpr. repeat split; eauto.
    + eapply Ot; eauto.
    + eapply Ot; eauto.
    + intros id p' Hid' Hph. apply lookup_delete_Some in Hid' as [_ Hid']. eauto.
  - apply lookup_delete_eq.
  - unfold settlements in *. cbn [settleLog set_pendingRequests].
    rewrite Hlog, filter_app, Hl. by rewrite filter_cons_True.
Qed.

Lemma Tr_drop s :
  Tr c p s InFlight →
  Tr c p (set_pendingRequests (delete c (pendingRequests s)) s) Dropped.
Proof.
  intros ((Hid & Hp & Ot & Otab) & Hc & Hl).
  split; [|split]; unfold own; simpl; [|apply lookup_delete_eq|done].
  repeat split; eauto.
  - eapply Ot; eauto.
  - eapply Ot; eauto.
  - intros id p' Hid' Hph. apply lookup_delete_Some in Hid' as [_ Hid']. eauto.
Qed.

(** A request with another id leaves the table. *)
Lemma Tr_retire_other id s s' ϕ :
  id ≠ c →
  pendingRequests s' = delete id (pendingRequests s) →
  settlements (ph p) s' = settlements (ph p) s →
  timers s' = timers s ∨ (∃ h, timers s' = delete h (timers s)) →
  requestCounter s' = requestCounter s →
  nextHandle s' = nextHandle s →
  Tr c p s ϕ → Tr c p s' ϕ.
Proof.
  intros Hne Htab Hl Htm Hc Hn. apply Tr_frame; rewrite ?Htab, ?Hc, ?Hn; try done.
  - by rewrite lookup_delete_ne.
  - intros h t id' p' Hh _. left. destruct Htm as [Htm|[h' Htm]];
      rewrite Htm in Hh; [done|].
    by apply lookup_delete_Some in Hh as [_ ?].
  - intros id' p' Hid'. apply lookup_delete_Some in Hid' as [_ ?]. by left.
Qed.

Lemma settlements_settle_other p' o s :
  ph p' ≠ ph p → settlements (ph p) (settle p' o s) = settlements (ph p) s.
Proof.
  intros Hne. destruct (settle_fields p' o s) as (_ & _ & _ & _ & _ & Hlog & _).
  unfold settlements. rewrite Hlog, filter_app.
  rewrite filter_cons_False by done. by rewrite filter_nil, app_nil_r.
Qed.

Lemma prog_msg_refl d ϕ : prog_msg c d ϕ ϕ.
Proof. by left. Qed.

Lemma prog_msg_trans d ϕ1 ϕ2 ϕ3 :
  prog_msg c d ϕ1 ϕ2 → prog_msg c d ϕ2 ϕ3 → prog_msg c d ϕ1 ϕ3.
Proof.
  intros [->|(-> & r & -> & Hid & Hdm & ->)] [->|(Heq & r' & ? & ? & ? & ->)];
    try by left.
  - right. eauto 10.
  - right. split; [done|]. exists r. done.
  - unfold of_frame in Heq. by destruct (frame_outcome r).
Qed.

Lemma Tr_handleMessage d s ϕ :
  Tr c p s ϕ → ∃ ϕ', prog_msg c d ϕ ϕ' ∧ Tr c p (handleMessage d s) ϕ'.
Proof.
  intros HT. unfold handleMessage.
  destruct d as [r|]; [|by exists ϕ; split; [left|]].
  destruct (msg_is r "connected") eqn:E1; [by exists ϕ; split; [left|]|].
  destruct (msg_is r "failed") eqn:E2.
  { exists ϕ; split; [by left|]. by apply Tr_tryAlternativeAuth. }
  destruct (msg_is r "pong") eqn:E3; [by exists ϕ; split; [left|]|].
  destruct (r_id r) as [id|] eqn:Hrid; [|by exists ϕ; split; [left|]].
  destruct (pendingRequests s !! id) as [p'|] eqn:Hid; [|by exists ϕ; split; [left|]].
  destruct (decide (id = c)) as [->|Hne].
  - assert (ϕ = InFlight ∧ p' = p) as [-> ->].
    { destruct HT as (_ & Hϕ). destruct ϕ; destruct Hϕ as [Hc _];
        rewrite Hid in Hc; by simplify_eq. }
    exists (of_frame r). split.
    { right. split; [done|]. exists r. unfold demuxed. by rewrite E1, E2, E3. }
    unfold of_frame, frame_outcome.
    destruct (msg_is r "result"); [by apply Tr_answer|].
    destruct (msg_is r "error"); [by apply Tr_answer|].
    by apply Tr_drop.
  - exists ϕ. split; [by left|].
    assert (ph p' ≠ ph p) as Hph.
    { intros Heq. destruct HT as ((_ & _ & _ & Otab) & _). eauto. }
    assert (∀ o, Tr c p (set_pendingRequests
        (delete id (pendingRequests (settle p' o s))) (settle p' o s)) ϕ) as Hsettle.
    { intros o. destruct (settle_fields p' o s) as (Ht & Hpr & Hn & Hcnt & _).
      eapply (Tr_retire_other id s); simpl; eauto.
      - by rewrite Hpr.
      - by apply settlements_settle_other. }
    destruct (msg_is r "result"); [apply Hsettle|].
    destruct (msg_is r "error"); [apply Hsettle|].
    eapply (Tr_retire_other id s); simpl; eauto.
Qed.

Lemma Tr_authHandler l d s ϕ :
  (∃ m, ph (al_promise l) = PAuth m) →
  Tr c p s ϕ → ∃ ϕ', prog_msg c d ϕ ϕ' ∧ Tr c p (authHandler l d s) ϕ'.
Proof.
  intros [m Hm] HT. unfold authHandler.
  destruct d as [r|]; [|by apply Tr_handleMessage].
  case_bool_decide; [|by apply Tr_handleMessage].
  exists ϕ. split; [by left|].
  destruct (msg_is r "result" && is_true (r_result r)).
  - eapply Tr_settle_auth; [done|]. by apply (Tr_same s).
  - by eapply Tr_settle_auth.
Qed.

Lemma Tr_off_listener key s ϕ : Tr c p s ϕ → Tr c p (off_listener key s) ϕ.
Proof. unfold off_listener. destruct (ws s); [|done]. by apply Tr_same. Qed.

Lemma Tr_messageListener l d s ϕ :
  (∃ m, ph (al_promise l) = PAuth m) →
  Tr c p s ϕ → ∃ ϕ', prog_msg c d ϕ ϕ' ∧ Tr c p (messageListener l d s) ϕ'.
Proof.
  intros Hl HT. destruct (Tr_authHandler l d s ϕ Hl HT) as (ϕ' & Hprog & HT').
  exists ϕ'. split; [done|]. unfold messageListener.
  by apply Tr_off_listener, Tr_clearTimeout.
Qed.

Lemma Tr_listeners_foldl d (ls : list authListener) s ϕ :
  Forall (λ l, ∃ m, ph (al_promise l) = PAuth m) ls →
  Tr c p s ϕ →
  ∃ ϕ', prog_msg c d ϕ ϕ'
        ∧ Tr c p (foldl (λ s' l, messageListener l d s') s ls) ϕ'.
Proof.
  revert s ϕ. induction ls as [|l ls IH]; intros s ϕ Hls HT; simpl.
  { exists ϕ. split; [by left|done]. }
  apply Forall_cons in Hls as [Hl Hls].
  destruct (Tr_messageListener l d s ϕ Hl HT) as (ϕ1 & Hp1 & HT1).
  destruct (IH _ ϕ1 Hls HT1) as (ϕ2 & Hp2 & HT2).
  exists ϕ2. split; [by eapply prog_msg_trans|done].
Qed.

Lemma Tr_emit_message k d s ϕ :
  Inv s → Tr c p s ϕ →
  ∃ ϕ', prog_msg c d ϕ ϕ' ∧ Tr c p (emit_message k d s) ϕ'.
Proof.
  intros HI HT. unfold emit_message.
  destruct (sockets s !! k) as [sk|] eqn:Hk; [|by exists ϕ; split; [left|]].
  destruct (Tr_handleMessage d s ϕ HT) as (ϕ1 & Hp1 & HT1).
  destruct (Tr_listeners_foldl d (sk_listeners sk) (handleMessage d s) ϕ1)
    as (ϕ2 & Hp2 & HT2); [|done|].
  - apply Forall_forall. intros l Hl.
    destruct (inv_listener s HI sk l) as (_ & ? & _);
      [by eapply list_elem_of_lookup_2|done..].
  - exists ϕ2. split; [by eapply prog_msg_trans|done].
Qed.

Lemma Tr_on_listener l s ϕ : Tr c p s ϕ → Tr c p (on_listener l s) ϕ.
Proof. unfold on_listener. destruct (ws s); [|done]. by apply Tr_same. Qed.

Lemma Tr_authenticate pc s ϕ : Tr c p s ϕ → Tr c p (authenticate pc s) ϕ.
Proof.
  intros HT. unfold authenticate.
  assert (Tr c p (set_nextHandle (S (nextHandle s)) s) ϕ) as HT1.
  { eapply (Tr_frame s); simpl; eauto. }
  destruct (ws_open _).
  - apply Tr_on_listener. apply Tr_setTimeout; [done|]. by apply Tr_send.
  - by eapply Tr_settle_auth.
Qed.

Lemma Tr_connect s ϕ : Tr c p s ϕ → Tr c p (connect s).2 ϕ.
Proof. intros HT. eapply (Tr_frame s); simpl; eauto. Qed.

Lemma Tr_disconnect s ϕ : Tr c p s ϕ → Tr c p (disconnect s) ϕ.
Proof. unfold disconnect. destruct (ws s); [|done]. by apply Tr_same. Qed.

Lemma Tr_handleReconnect s ϕ : Tr c p s ϕ → Tr c p (handleReconnect s) ϕ.
Proof.
  intros HT. unfold handleReconnect.
  destruct (intentionalDisconnect s); [done|].
  destruct (_ <? _); [|done].
  apply Tr_setTimeout; [done|]. by apply (Tr_same s).
Qed.

Lemma Tr_run_task h t s ϕ :
  Inv s → timers s !! h = Some t → Tr c p s ϕ →
  ∃ ϕ', prog_timeout ϕ ϕ' ∧ Tr c p (run_task (t_task t) (clearTimeout h s)) ϕ'.
Proof.
  intros HI Hh HT.
  pose proof (Tr_clearTimeout h s ϕ HT) as HT0.
  destruct (t_task t) as [pc|pc| |id p'|p'| |vmId hp] eqn:Htask; simpl.
  - exists ϕ. split; [by left|]. destruct (ws_open _).
    + apply Tr_setTimeout; [done|]. by apply Tr_send.
    + apply Tr_invoke_user; [simpl; tauto|done].
  - exists ϕ. split; [by left|]. by apply Tr_authenticate.
  - exists ϕ. split; [by left|]. by apply (Tr_connect (clearTimeout h s)).
  - destruct (pendingRequests s !! id) as [p0|] eqn:Hid;
      [|by exists ϕ; split; [left|]].
    destruct (decide (id = c)) as [->|Hne].
    + assert (p' = p) as ->.
      { destruct HT as ((_ & _ & Ot & _) & _).
        by destruct (Ot h t c p' Hh Htask (or_introl eq_refl)). }
      assert (ϕ = InFlight ∧ p0 = p) as [-> ->].
      { destruct HT as (_ & Hϕ). destruct ϕ; destruct Hϕ as [Hc _];
          rewrite Hid in Hc; by simplify_eq. }
      exists (Settled (Rejected RequestTimeout)). split; [by right|].
      destruct HT0 as (Hown & Hc & Hl). simpl in Hc.
      match goal with |- Tr _ _ (settle _ ?o ?s0) _ =>
        destruct (settle_fields p o s0) as (Ht & Hpr & Hn & Hcnt & Hs & Hlog & _)
      end.
      destruct Hown as (Hid' & Hp & Ot & Otab).
      split; [|split]; unfold own; simpl.
      * rewrite Ht, Hcnt, Hn, Hpr. simpl. repeat split; eauto.
        -- eapply Ot; eauto.
        -- eapply Ot; eauto.
        -- intros id p' Hid'' Hph.
           apply lookup_delete_Some in Hid'' as [_ Hid'']. eauto.
      * rewrite Hpr. simpl. apply lookup_delete_eq.
      * unfold settlements in *. rewrite Hlog, filter_app.
        cbn [settleLog set_pendingRequests clearTimeout set_timers] in *.
        rewrite Hl. by rewrite filter_cons_True.
    + exists ϕ. split; [by left|].
      assert (ph p' ≠ ph p) as Hph.
      { intros Heq. destruct HT as ((_ & _ & Ot & _) & _).
        by destruct (Ot h t id p' Hh Htask (or_intror Heq)). }
      match goal with |- Tr _ _ (settle _ ?o ?s0) _ =>
        destruct (settle_fields p' o s0) as (Ht & Hpr & Hn & Hcnt & _)
      end.
      eapply (Tr_retire_other id s); [done|by rewrite Hpr| |right; exists h; by rewrite Ht
        |by rewrite Hcnt|by rewrite Hn|done].
      by rewrite settlements_settle_other.
  - exists ϕ. split; [by left|].
    destruct (inv_authtimer s HI h t p' Hh Htask) as [m Hm].
    by eapply Tr_settle_auth.
  - exists ϕ. split; [by left|]. by apply (Tr_same (clearTimeout h s)).
  - exists ϕ. split; [by left|]. by apply Tr_await_leaf.
Qed.

Lemma Tr_api (f : nat → state → state) s ϕ :
  (∀ h s', Tr c p s' ϕ → Tr c p (f h s') ϕ) → Tr c p s ϕ → Tr c p (api f s) ϕ.
Proof.
  intros Hf HT. unfold api. apply Hf. eapply (Tr_frame s); simpl; eauto.
Qed.

Lemma Tr_handle e s ϕ :
  Inv s → Tr c p s ϕ → ∃ ϕ', step_prog c e ϕ ϕ' ∧ Tr c p (handle e s) ϕ'.
Proof.
  intros HI HT.
  assert (∀ s', Tr c p s' ϕ → ∃ ϕ', step_prog c e ϕ ϕ' ∧ Tr c p s' ϕ') as Hstay.
  { intros s' ?. exists ϕ. split; [by left|done]. }
  destruct e; simpl.
  - apply Hstay. by apply (Tr_same s).
  - destruct (timers s !! h) as [t|] eqn:Hh; [|by apply Hstay].
    case_bool_decide; [|by apply Hstay].
    destruct (Tr_run_task h t s ϕ HI Hh HT) as (ϕ' & [->|[-> ->]] & HT').
    + by apply Hstay.
    + eexists. split; [|done]. right. split; [done|]. right. eauto.
  - destruct (sockets s !! k) as [sk|]; [|by apply Hstay].
    case_bool_decide; [|by apply Hstay].
    apply Hstay. apply Tr_setTimeout; [done|]. by apply (Tr_same s).
  - destruct (sockets s !! k) as [sk|]; [|by apply Hstay].
    case_bool_decide; [|by apply Hstay].
    destruct (Tr_emit_message k d s ϕ HI HT)
      as (ϕ' & [->|(-> & r & -> & Hid & Hdm & ->)] & HT').
    + by apply Hstay.
    + eexists. split; [|done]. right. split; [done|]. left. eauto 10.
  - destruct (sockets s !! k) as [sk|]; [|by apply Hstay].
    apply Hstay. apply Tr_invoke_user; [simpl; tauto|done].
  - destruct (sockets s !! k) as [sk|]; [|by apply Hstay].
    case_bool_decide; [by apply Hstay|].
    apply Hstay. apply Tr_handleReconnect. by apply (Tr_same s).
  - apply Hstay. by apply Tr_connect.
  - apply Hstay. by apply Tr_disconnect.
  - apply Hstay. apply Tr_api; [|done]. intros h s' ?. by apply Tr_await_leaf.
  - apply Hstay. apply Tr_api; [|done]. intros h s' ?. by apply Tr_await_leaf.
  - apply Hstay. apply Tr_api; [|done]. intros h s' ?. by apply Tr_await_kont.
  - apply Hstay. apply Tr_api; [|done]. intros h s' ?. by apply Tr_await_kont.
  - apply Hstay. apply Tr_api; [|done]. intros h s' ?. by apply Tr_await_leaf.
  - apply Hstay. apply Tr_api; [|done]. intros h s' ?. by apply Tr_await_leaf.
  - apply Hstay. apply Tr_api; [|done]. intros h s' ?. by apply Tr_await_kont.
  - apply Hstay. apply Tr_api; [|done]. intros h s' ?. by apply Tr_await_kont.
Qed.

Lemma Tr_step e s ϕ :
  Inv s → Tr c p s ϕ → ∃ ϕ', step_prog c e ϕ ϕ' ∧ Tr c p (step e s) ϕ'.
Proof.
  intros HI HT. destruct (Tr_handle e s ϕ HI HT) as (ϕ' & Hprog & HT').
  exists ϕ'. split; [done|]. by apply Tr_drain.
Qed.

Lemma explains_mono tr1 tr2 ϕ :
  explains c tr1 ϕ → explains c (tr1 ++ tr2) ϕ.
Proof.
  destruct ϕ as [|o|]; simpl; [done|..].
  - intros [[-> [h Hh]]|(k & r & Hin & ?)].
    + left. split; [done|]. exists h. apply elem_of_app. by left.
    + right. exists k, r. split; [|done]. apply elem_of_app. by left.
  - intros (k & r & Hin & ?). exists k, r. split; [|done].
    apply elem_of_app. by left.
Qed.

Lemma Tr_run tr s tr0 ϕ0 :
  Inv s → Tr c p s ϕ0 → explains c tr0 ϕ0 →
  ∃ ϕ, Tr c p (run tr s) ϕ ∧ explains c (tr0 ++ tr) ϕ.
Proof.
  revert s tr0 ϕ0. induction tr as [|e tr IH]; intros s tr0 ϕ0 HI HT Hex; simpl.
  { exists ϕ0. by rewrite app_nil_r. }
  destruct (Tr_step e s ϕ0 HI HT) as (ϕ1 & Hprog & HT1).
  replace (tr0 ++ e :: tr) with ((tr0 ++ [e]) ++ tr) by by rewrite <-app_assoc.
  apply (IH _ _ ϕ1); [by apply Inv_step|done|].
  destruct Hprog as [->|[-> [(k & r & -> & Hid & Hdm & ->)|(h & -> & ->)]]].
  - by apply explains_mono.
  - unfold of_frame. destruct (frame_outcome r) as [o|] eqn:Ho; simpl.
    + right. exists k, r. split; [|done]. apply elem_of_app. right.
      by apply list_elem_of_singleton.
    + exists k, r. split; [|done]. apply elem_of_app. right.
      by apply list_elem_of_singleton.
  - simpl. left. split; [done|]. exists h. apply elem_of_app. right.
    by apply list_elem_of_singleton.
Qed.

Lemma settlements_unsettled x s : x ∉ (settleLog s).*1 → settlements x s = [].
Proof.
  unfold settlements. induction (settleLog s) as [|[y o] l IH]; [done|].
  rewrite fmap_cons, not_elem_of_cons. simpl. intros [Hne Hnot].
  rewrite filter_cons_False by (simpl; congruence). auto.
Qed.

(** Every pending entry of a state that satisfies the invariant is a
    request in flight. *)
Lemma Tr_pending s : Inv s → pendingRequests s !! c = Some p → Tr c p s InFlight.
Proof.
  intros HI Hc.
  destruct (Inv_table_call s c p HI Hc) as (Hid & Hp & _).
  destruct (inv_table s HI c p Hc) as (Hnot & h0 & t0 & Hh0 & Ht0).
  split; [|split; [done|by apply settlements_unsettled]].
  split; [done|]. split; [done|]. split.
  - intros h t id p' Hh Ht Heq.
    pose proof (inv_req_uniq s HI h h0 t t0 id c p' p Hh Hh0 Ht Ht0 Heq) as ->.
    rewrite Hh0 in Hh. injection Hh as <-. rewrite Ht0 in Ht. by injection Ht as <- <-.
  - intros id p' Hid' Hph.
    destruct (inv_table s HI id p' Hid') as (_ & h & t & Hh & Ht).
    pose proof (inv_req_uniq s HI h h0 t t0 id c p' p Hh Hh0 Ht Ht0 (or_intror Hph)) as ->.
    rewrite Hh0 in Hh. injection Hh as <-. congruence.
Qed.
End Tracking.

(** ** Evolution of handles, timers and the table over a run *)

Lemma fresh_ext_send f s : fresh_ext s (send f s).
Proof. unfold send. destruct (ws s); by apply fresh_ext_same. Qed.

Lemma fresh_ext_invoke h o s : fresh_ext s (invoke h o s).
Proof. by apply fresh_ext_same. Qed.

Lemma fresh_ext_settle p o s : fresh_ext s (settle p o s).
Proof.
  destruct (settle_fields p o s) as (Htm & Hpr & Hn & Hc & _).
  apply fresh_ext_same; [done..|lia].
Qed.

Lemma fresh_ext_call method params k s : fresh_ext s (call method params k s).2.
Proof.
  unfold call. destruct (ws_open s); [|apply fresh_ext_refl].
  assert (later_id s (mkid (now s) (requestCounter s))) as Hlater.
  { by exists (now s), (requestCounter s). }
  unfold send, setTimeout; simpl.
  split; [destruct (ws s); simpl; lia|].
  split; [destruct (ws s); simpl; lia|]. split.
  - assert (∀ h t, <[S (nextHandle s) := Timer (now s + 30000)
        (TRequestTimeout (mkid (now s) (requestCounter s))
           (Promise (PCall (nextHandle s)) k))]> (timers s) !! h = Some t →
        timers s !! h = Some t
        ∨ (nextHandle s ≤ h ∧ ∀ id p, t_task t = TRequestTimeout id p → later_id s id))
      as Hgoal.
    { intros h t Hh. apply lookup_insert_Some in Hh as [[<- <-]|[_ Hh]]; [|eauto].
      right. split; [lia|]. simpl. by intros id p [= <- _]. }
    by destruct (ws s).
  - assert (∀ id p, <[mkid (now s) (requestCounter s) :=
        Promise (PCall (nextHandle s)) k]> (pendingRequests s) !! id = Some p →
        pendingRequests s !! id = Some p ∨ later_id s id) as Hgoal.
    { intros id p Hid. apply lookup_insert_Some in Hid as [[<- _]|[_ Hid]]; eauto. }
    by destruct (ws s).
Qed.

Lemma fresh_ext_run_leaf l o s : fresh_ext s (run_leaf l o s).
Proof.
  destruct l as [|h|h|pc]; simpl; [apply fresh_ext_refl|..];
    try apply fresh_ext_invoke.
  destruct o; by apply fresh_ext_same.
Qed.

Lemma fresh_ext_await_leaf l method params k s :
  fresh_ext s (await_leaf l (call method params k s)).
Proof.
  unfold await_leaf. pose proof (fresh_ext_call method params k s) as He.
  destruct (call method params k s) as [[e|p'] s']; simpl in *; [|done].
  eapply fresh_ext_trans; [done|apply fresh_ext_run_leaf].
Qed.

Lemma fresh_ext_run_kont k o s : fresh_ext s (run_kont k o s).
Proof.
  destruct k as [l|vmId h|appName h]; simpl.
  - apply fresh_ext_run_leaf.
  - destruct o; [by apply fresh_ext_setTimeout; left|apply fresh_ext_invoke].
  - destruct o; [apply fresh_ext_await_leaf|apply fresh_ext_invoke].
Qed.

Lemma fresh_ext_await_kont k method params s :
  fresh_ext s (await_kont k (call method params k s)).
Proof.
  unfold await_kont. pose proof (fresh_ext_call method params k s) as He.
  destruct (call method params k s) as [[e|p'] s']; simpl in *; [|done].
  eapply fresh_ext_trans; [done|apply fresh_ext_run_kont].
Qed.

Lemma fresh_ext_foldl {A} (f : state → A → state) (l : list A) s :
  (∀ s' a, fresh_ext s' (f s' a)) → fresh_ext s (foldl f s l).
Proof.
  intros Hf. revert s. induction l as [|a l IH]; intros s; simpl.
  - apply fresh_ext_refl.
  - eapply fresh_ext_trans; [apply Hf|apply IH].
Qed.

Lemma fresh_ext_drain s : fresh_ext s (drain s).
Proof.
  unfold drain. eapply (fresh_ext_trans _ (set_microtasks [] s)).
  - by apply fresh_ext_same.
  - apply fresh_ext_foldl. intros s' [k o]. apply fresh_ext_run_kont.
Qed.

Lemma fresh_ext_off_listener key s : fresh_ext s (off_listener key s).
Proof. unfold off_listener. destruct (ws s); by apply fresh_ext_same. Qed.

Lemma fresh_ext_on_listener l s : fresh_ext s (on_listener l s).
Proof. unfold on_listener. destruct (ws s); by apply fresh_ext_same. Qed.

Lemma fresh_ext_emit_message k d s : fresh_ext s (emit_message k d s).
Proof.
  unfold emit_message. destruct (sockets s !! k); [|apply fresh_ext_refl].
  eapply fresh_ext_trans; [apply fresh_ext_handleMessage|].
  apply fresh_ext_foldl. intros s' l. apply fresh_ext_messageListener.
Qed.

Lemma fresh_ext_authenticate pc s : fresh_ext s (authenticate pc s).
Proof.
  unfold authenticate.
  eapply (fresh_ext_trans _ (set_nextHandle (S (nextHandle s)) s)).
  { apply fresh_ext_same; simpl; try done. lia. }
  destruct (ws_open _); [|apply fresh_ext_settle].
  eapply fresh_ext_trans; [apply fresh_ext_send|].
  eapply fresh_ext_trans; [|apply fresh_ext_on_listener].
  apply fresh_ext_setTimeout. right. eauto.
Qed.

Lemma fresh_ext_connect s : fresh_ext s (connect s).2.
Proof. apply fresh_ext_same; simpl; try done. lia. Qed.

Lemma fresh_ext_disconnect s : fresh_ext s (disconnect s).
Proof. unfold disconnect. destruct (ws s); by apply fresh_ext_same. Qed.

Lemma fresh_ext_handleReconnect s : fresh_ext s (handleReconnect s).
Proof.
  unfold handleReconnect. destruct (intentionalDisconnect s); [apply fresh_ext_refl|].
  destruct (_ <? _); [|apply fresh_ext_refl].
  eapply (fresh_ext_trans _ (set_reconnectAttempts (S (reconnectAttempts s)) s)).
  - by apply fresh_ext_same.
  - by apply fresh_ext_setTimeout; left.
Qed.

Lemma fresh_ext_run_task tk s : fresh_ext s (run_task tk s).
Proof.
  destruct tk as [pc|pc| |id p|p| |vmId hp]; simpl.
  - destruct (ws_open s); [|apply fresh_ext_invoke].
    eapply fresh_ext_trans; [apply fresh_ext_send|].
    by apply fresh_ext_setTimeout; left.
  - apply fresh_ext_authenticate.
  - apply fresh_ext_connect.
  - destruct (pendingRequests s !! id); [|apply fresh_ext_refl].
    eapply fresh_ext_trans; [|apply fresh_ext_settle].
    apply fresh_ext_sub; simpl; try done.
    intros id' p' Hid'. by apply lookup_delete_Some in Hid' as [_ ?].
  - apply fresh_ext_settle.
  - by apply fresh_ext_same.
  - apply fresh_ext_await_leaf.
Qed.

Lemma fresh_ext_api (f : nat → state → state) s :
  (∀ h s', fresh_ext s' (f h s')) → fresh_ext s (api f s).
Proof.
  intros Hf. unfold api.
  eapply fresh_ext_trans; [|apply Hf]. apply fresh_ext_same; simpl; try done. lia.
Qed.

Lemma fresh_ext_handle e s : fresh_ext s (handle e s).
Proof.
  destruct e; simpl.
  - by apply fresh_ext_same.
  - destruct (timers s !! h); [|apply fresh_ext_refl].
    case_bool_decide; [|apply fresh_ext_refl].
    eapply fresh_ext_trans; [apply fresh_ext_clearTimeout|apply fresh_ext_run_task].
  - destruct (sockets s !! k); [|apply fresh_ext_refl].
    case_bool_decide; [|apply fresh_ext_refl].
    eapply fresh_ext_trans; [|by apply fresh_ext_setTimeout; left].
    by apply fresh_ext_same.
  - destruct (sockets s !! k); [|apply fresh_ext_refl].
    case_bool_decide; [|apply fresh_ext_refl]. apply fresh_ext_emit_message.
  - destruct (sockets s !! k); [|apply fresh_ext_refl]. apply fresh_ext_invoke.
  - destruct (sockets s !! k); [|apply fresh_ext_refl].
    case_bool_decide; [apply fresh_ext_refl|].
    eapply fresh_ext_trans; [|apply fresh_ext_handleReconnect].
    by apply fresh_ext_same.
  - apply fresh_ext_connect.
  - apply fresh_ext_disconnect.
  - apply fresh_ext_api. intros. apply fresh_ext_await_leaf.
  - apply fresh_ext_api. intros. apply fresh_ext_await_leaf.
  - apply fresh_ext_api. intros. apply fresh_ext_await_kont.
  - apply fresh_ext_api. intros. apply fresh_ext_await_kont.
  - apply fresh_ext_api. intros. apply fresh_ext_await_leaf.
  - apply fresh_ext_api. intros. apply fresh_ext_await_leaf.
  - apply fresh_ext_api. intros. apply fresh_ext_await_kont.
  - apply fresh_ext_api. intros. apply fresh_ext_await_kont.
Qed.

Lemma fresh_ext_step e s : fresh_ext s (step e s).
Proof.
  eapply fresh_ext_trans; [apply fresh_ext_handle|apply fresh_ext_drain].
Qed.

Lemma fresh_ext_run tr s : fresh_ext s (run tr s).
Proof.
  revert s. induction tr as [|e tr IH]; intros s; simpl; [apply fresh_ext_refl|].
  eapply fresh_ext_trans; [apply fresh_ext_step|apply IH].
Qed.

(** An id in use is never handed out again. *)
Lemma later_id_not_pending s id p :
  Inv s → pendingRequests s !! id = Some p → ¬ later_id s id.
Proof.
  intros HI Hid (tm & m & Heq & Hm).
  destruct (Inv_table_call s id p HI Hid) as ((tm' & m' & Heq' & Hm') & _).
  rewrite Heq' in Heq. apply mkid_inj in Heq as [_ ->]. lia.
Qed.

Lemma later_id_not_timer s h t id p :
  Inv s → timers s !! h = Some t → t_task t = TRequestTimeout id p → ¬ later_id s id.
Proof.
  intros HI Hh Ht (tm & m & Heq & Hm).
  destruct (inv_req s HI h t id p Hh Ht) as ((tm' & m' & Heq' & Hm') & _).
  rewrite Heq' in Heq. apply mkid_inj in Heq as [_ ->]. lia.
Qed.

(** ** The multiplexer's guarantees *)

(** C9. The id that [call] generates is never the id of a pending request:
    every pending id carries a counter value below [requestCounter], the
    id format is injective in the counter, and the counter only grows (by
    one with every call that is sent). Hence no call, whenever it is made,
    overwrites a pending entry. *)
Theorem correlation_ids_fresh key t0 tr :
  let s := run tr (init key t0) in
  (∀ tm, pendingRequests s !! mkid tm (requestCounter s) = None)
  ∧ (∀ method params k p s', call method params k s = (Pending p, s') →
       pendingRequests s' = <[mkid (now s) (requestCounter s) := p]> (pendingRequests s)
       ∧ requestCounter s' = S (requestCounter s))
  ∧ (∀ tr', requestCounter s ≤ requestCounter (run tr' s))
  ∧ (∀ tr' id p p', pendingRequests s !! id = Some p →
       pendingRequests (run tr' s) !! id = Some p' → p' = p).
Proof.
  intros s. pose proof (Inv_reachable key t0 tr) as HI. fold s in HI.
  split; [|split; [|split]].
  - intros tm. destruct (pendingRequests s !! _) as [p|] eqn:Hid; [|done].
    destruct (later_id_not_pending s _ p HI Hid). by exists tm, (requestCounter s).
  - intros method params k p s'. unfold call. destruct (ws_open s); [|done].
    intros [= <- <-]. unfold send, setTimeout; simpl. by destruct (ws s).
  - intros tr'. by destruct (fresh_ext_run tr' s) as (_ & ? & _).
  - intros tr' id p p' Hid Hid'.
    destruct (fresh_ext_run tr' s) as (_ & _ & _ & Htab).
    destruct (Htab id p' Hid') as [Hold|Hnew]; [congruence|].
    by destruct (later_id_not_pending s id p HI Hid).
Qed.

Lemma Tr_fire c p h t s :
  Inv s → Tr c p s InFlight →
  timers s !! h = Some t → t_task t = TRequestTimeout c p → (t_due t ≤ now s)%Z →
  Tr c p (step (Fire h) s) (Settled (Rejected RequestTimeout)).
Proof.
  intros HI HT Hh Ht Hdue. apply Tr_drain.
  destruct (Tr_handle c p (Fire h) s InFlight HI HT) as (ϕ' & Hprog & HT').
  destruct Hprog as [->|[_ [(k & r & ? & _)|(h' & _ & ->)]]]; [|done..].
  exfalso. destruct HT as (_ & Hc & _). destruct HT' as (_ & Hc' & _).
  revert Hc'. simpl. rewrite Hh, bool_decide_true by done. rewrite Ht. simpl.
  rewrite Hc.
  match goal with |- pendingRequests (settle ?p0 ?o ?s0) !! _ = _ → _ =>
    destruct (settle_fields p0 o s0) as (_ & -> & _) end.
  simpl. by rewrite lookup_delete_eq.
Qed.



Lemma no_frame_for_spec c tr k r :
  no_frame_for c tr = true → SockMessage k (Some r) ∈ tr → r_id r ≠ Some c.
Proof.
  unfold no_frame_for. rewrite forallb_forall. intros Hall Hin.
  apply list_elem_of_In, Hall in Hin. by apply negb_true_iff, bool_decide_eq_false in Hin.
Qed.

(** C3. [call] arms a timer due 30000 ms after the call. For a pending
    request of a reachable state and a later run in which no frame carries
    its id: either the request is still pending, unsettled, with that very
    timer still armed, and firing the timer once it is due removes the
    entry and rejects the promise with "Request timeout"; or that has
    already happened. A result or error frame whose id is not in the table
    leaves the client unchanged. *)
Theorem timeout_rejects_late_frames_drop key t0 tr0 c p h t tr :
  let s := run tr0 (init key t0) in
  pendingRequests s !! c = Some p →
  timers s !! h = Some t →
  t_task t = TRequestTimeout c p →
  no_frame_for c tr = true →
  let s' := run tr s in
  ((pendingRequests s' !! c = Some p ∧ settlements (ph p) s' = []
    ∧ timers s' !! h = Some t
    ∧ ((t_due t ≤ now s')%Z →
       pendingRequests (step (Fire h) s') !! c = None
       ∧ settlements (ph p) (step (Fire h) s') = [(ph p, Rejected RequestTimeout)]))
   ∨ (pendingRequests s' !! c = None
      ∧ settlements (ph p) s' = [(ph p, Rejected RequestTimeout)]
      ∧ ∃ h', Fire h' ∈ tr))
  ∧ (∀ s0 method params k p0 s1, call method params k s0 = (Pending p0, s1) →
       timers s1 !! S (nextHandle s0)
       = Some (Timer (now s0 + 30000)
                 (TRequestTimeout (mkid (now s0) (requestCounter s0)) p0)))
  ∧ (∀ s0 r id, r_id r = Some id → pendingRequests s0 !! id = None →
       msg_is r "result" = true ∨ msg_is r "error" = true →
       handleMessage (Some r) s0 = s0).
Proof.
  intros s Hc Hh Ht Hno s'.
  pose proof (Inv_reachable key t0 tr0) as HI. fold s in HI.
  pose proof (Tr_pending c p s HI Hc) as HT.
  split; [|split].
  - destruct (Tr_run c p tr s [] InFlight HI HT I) as (ϕ & HT' & Hex).
    pose proof (Inv_run tr s HI) as HI'. fold s' in HT', HI'. simpl in Hex.
    destruct ϕ as [|o|].
    + left. pose proof HT' as (_ & Hc' & Hl'). split; [done|]. split; [done|].
      assert (timers s' !! h = Some t) as Hh'.
      { destruct (inv_table s' HI' c p Hc') as (_ & h1 & t1 & Hh1 & Ht1).
        destruct (fresh_ext_run tr s) as (_ & _ & Htm & _). fold s' in Htm.
        destruct (Htm h1 t1 Hh1) as [Hold|[_ Hnew]].
        - pose proof (inv_req_uniq s HI h1 h t1 t c c p p Hold Hh Ht1 Ht
            (or_introl eq_refl)) as ->. congruence.
        - destruct (later_id_not_pending s c p HI Hc). eauto. }
      split; [done|]. intros Hdue.
      by destruct (Tr_fire c p h t s' HI' HT' Hh' Ht Hdue) as (_ & ? & ?).
    + right. destruct HT' as (_ & Hc' & Hl').
      destruct Hex as [[-> ?]|(k & r & Hin & Hid & _)]; [done|].
      by destruct (no_frame_for_spec c tr k r Hno Hin).
    + destruct Hex as (k & r & Hin & Hid & _).
      by destruct (no_frame_for_spec c tr k r Hno Hin).
  - intros s0 method params k p0 s1. unfold call. destruct (ws_open s0); [|done].
    intros [= <- <-]. unfold send, setTimeout; simpl.
    destruct (ws s0); simpl; apply lookup_insert_eq.
  - intros s0 r id Hid Hnone Hmsg. unfold handleMessage.
    assert (msg_is r "connected" = false ∧ msg_is r "failed" = false
            ∧ msg_is r "pong" = false) as (-> & -> & ->).
    { unfold msg_is in *. destruct Hmsg as [Hm|Hm];
        apply bool_decide_eq_true in Hm; rewrite Hm;
        repeat split; by apply bool_decide_eq_false. }
    by rewrite Hid, Hnone.
Qed.


Lemma timeout_rejects_late_frames_drop_witness :
  let tr := [Tick 30000; GetApps] in
  let s := run query_trace (init "key" 0) in
  let s' := run tr s in
  pendingRequests s !! query_id = Some query_promise
  ∧ timers s !! 7 = Some query_timer
  ∧ t_task query_timer = TRequestTimeout query_id query_promise
  ∧ no_frame_for query_id tr = true
  ∧ ((pendingRequests s' !! query_id = Some query_promise
      ∧ settlements (PCall 6) s' = []
      ∧ timers s' !! 7 = Some query_timer
      ∧ ((31100 ≤ now s')%Z →
         pendingRequests (step (Fire 7) s') !! query_id = None
         ∧ settlements (PCall 6) (step (Fire 7) s')
           = [(PCall 6, Rejected RequestTimeout)]))
     ∨ (pendingRequests s' !! query_id = None
        ∧ settlements (PCall 6) s' = [(PCall 6, Rejected RequestTimeout)]
        ∧ ∃ h', Fire h' ∈ tr)).
Proof.
  split; [reflexivity|]. split; [reflexivity|]. split; [reflexivity|].
  split; [reflexivity|].
  apply (timeout_rejects_late_frames_drop "key" 0 query_trace query_id
           query_promise 7 query_timer [Tick 30000; GetApps]); reflexivity.
Defined.

(** ** Reconnection: what touches the attempt counter *)

Lemma calm_refl b s : calm b s s.
Proof. repeat split; eauto. Qed.

Lemma calm_trans b s1 s2 s3 : calm b s1 s2 → calm b s2 s3 → calm b s1 s3.
Proof.
  intros (Ha1 & Hm1 & Hd1 & Hau1 & Hj1) (Ha2 & Hm2 & Hd2 & Hau2 & Hj2).
  repeat split; try congruence; [eauto|].
  intros j Hj. destruct (Hj2 j Hj) as [Hin|[?|?]]; [|eauto..].
  destruct (Hj1 j Hin) as [?|[?|[? ?]]]; eauto.
Qed.

Lemma calm_same b s s' :
  reconnectAttempts s' = reconnectAttempts s →
  maxReconnectAttempts s' = maxReconnectAttempts s →
  timerLog s' = timerLog s →
  authenticated s' = authenticated s →
  microtasks s' = microtasks s →
  calm b s s'.
Proof. intros Ha Hm Ht Hau Hj. unfold calm. rewrite Ha, Hm, Ht, Hau, Hj. eauto 10. Qed.

Lemma calm_send b f s : calm b s (send f s).
Proof. unfold send. destruct (ws s); by apply calm_same. Qed.

Lemma reconnect_delays_snoc l d tk :
  reconnect_delays (l ++ [(d, tk)])
  = reconnect_delays l ++ match tk with TReconnect => [d] | _ => [] end.
Proof. unfold reconnect_delays. rewrite omap_app. simpl. by destruct tk. Qed.

Lemma calm_setTimeout b tk d s : tk ≠ TReconnect → calm b s (setTimeout tk d s).
Proof.
  intros Htk. unfold calm, setTimeout; simpl.
  rewrite reconnect_delays_snoc. destruct tk; try done; rewrite app_nil_r; eauto 10.
Qed.

Lemma calm_clearTimeout b h s : calm b s (clearTimeout h s).
Proof. by apply calm_same. Qed.

Lemma calm_invoke b h o s : calm b s (invoke h o s).
Proof. by apply calm_same. Qed.

Lemma calm_settle b p o s : ¬ is_reset (pk p, o) → calm b s (settle p o s).
Proof.
  intros Hj. unfold settle. destruct (is_settled (ph p) s); [by apply calm_same|].
  unfold calm; simpl. repeat split; try done.
  intros j Hin. apply elem_of_app in Hin as [?|Hin]; [by left|].
  apply list_elem_of_singleton in Hin as ->. eauto.
Qed.

Lemma calm_settle_rejected b p e s : calm b s (settle p (Rejected e) s).
Proof. apply calm_settle. by intros (pc & v & ?). Qed.

Lemma api_kont_not_reset k o : api_kont k → ¬ is_reset (k, o).
Proof. intros Hk (pc & v & [= -> _]). done. Qed.

Lemma calm_call b method params k s : calm b s (call method params k s).2.
Proof.
  unfold call. destruct (ws_open s); [|apply calm_refl]. cbv zeta.
  eapply calm_trans; [|by apply calm_setTimeout].
  eapply calm_trans; [|apply calm_send]. by apply calm_same.
Qed.

Lemma calm_run_leaf_rejected b l e s : calm b s (run_leaf l (Rejected e) s).
Proof. destruct l; simpl; [apply calm_refl|apply calm_invoke..]. Qed.

Lemma calm_await_leaf b l method params k s :
  calm b s (await_leaf l (call method params k s)).
Proof.
  unfold await_leaf. pose proof (calm_call b method params k s) as Hc.
  destruct (call method params k s) as [[e|p'] s']; simpl in *; [|done].
  eapply calm_trans; [done|apply calm_run_leaf_rejected].
Qed.

Lemma calm_run_kont_rejected b k e s : calm b s (run_kont k (Rejected e) s).
Proof. destruct k; simpl; [apply calm_run_leaf_rejected|apply calm_invoke..]. Qed.

Lemma calm_await_kont b k method params s :
  calm b s (await_kont k (call method params k s)).
Proof.
  unfold await_kont. pose proof (calm_call b method params k s) as Hc.
  destruct (call method params k s) as [[e|p'] s']; simpl in *; [|done].
  eapply calm_trans; [done|apply calm_run_kont_rejected].
Qed.

(** A continuation that is no reset leaves the counter alone. *)
Lemma calm_run_kont b k o s : ¬ is_reset (k, o) → calm b s (run_kont k o s).
Proof.
  intros Hj. destruct k as [l|vmId h|appName h]; simpl.
  - destruct l as [|h|h|pc]; simpl; [apply calm_refl|apply calm_invoke..|].
    destruct o; [|apply calm_invoke]. destruct Hj. by exists pc, v.
  - destruct o; [by apply calm_setTimeout|apply calm_invoke].
  - destruct o; [apply calm_await_leaf|apply calm_invoke].
Qed.

Lemma calm_tryAlternativeAuth b s : calm b s (tryAlternativeAuth s).
Proof.
  unfold tryAlternativeAuth. destruct (ws_open s); [|apply calm_refl].
  eapply calm_trans; [apply calm_send|by apply calm_setTimeout].
Qed.

Lemma calm_handleMessage b d s : Inv s → calm b s (handleMessage d s).
Proof.
  intros HI. unfold handleMessage. destruct d as [r|]; [|apply calm_refl].
  destruct (msg_is r "connected"); [apply calm_refl|].
  destruct (msg_is r "failed"); [apply calm_tryAlternativeAuth|].
  destruct (msg_is r "pong"); [apply calm_refl|].
  destruct (r_id r) as [id|]; [|apply calm_refl].
  destruct (pendingRequests s !! id) as [p|] eqn:Hid; [|apply calm_refl].
  destruct (Inv_table_call s id p HI Hid) as (_ & _ & Hk).
  assert (∀ o, calm b s (set_pendingRequests
      (delete id (pendingRequests (settle p o s))) (settle p o s))) as Hsettle.
  { intros o. eapply calm_trans; [apply calm_settle|by apply calm_same].
    by apply api_kont_not_reset. }
  destruct (msg_is r "result"); [apply Hsettle|].
  destruct (msg_is r "error"); [apply Hsettle|].
  by apply calm_same.
Qed.

Lemma calm_authHandler l d s : Inv s → calm (auth_success d) s (authHandler l d s).
Proof.
  intros HI. unfold authHandler.
  destruct d as [r|]; [|by apply calm_handleMessage].
  case_bool_decide; [|by apply calm_handleMessage].
  unfold auth_success. destruct (msg_is r "result" && is_true (r_result r)).
  - unfold settle. simpl. destruct (is_settled _ _).
    + unfold calm; simpl. eauto 10.
    + unfold calm; simpl. repeat split; try done.
      intros j Hin. apply elem_of_app in Hin as [?|Hin]; [by left|]. eauto.
  - apply calm_settle_rejected.
Qed.

Lemma calm_off_listener b key s : calm b s (off_listener key s).
Proof. unfold off_listener. destruct (ws s); by apply calm_same. Qed.

Lemma calm_on_listener b l s : calm b s (on_listener l s).
Proof. unfold on_listener. destruct (ws s); by apply calm_same. Qed.

Lemma calm_messageListener l d s :
  Inv s → calm (auth_success d) s (messageListener l d s).
Proof.
  intros HI. unfold messageListener.
  eapply calm_trans; [by apply calm_authHandler|].
  eapply calm_trans; [apply calm_clearTimeout|apply calm_off_listener].
Qed.

Lemma calm_listeners_foldl d (ls : list authListener) s :
  Forall (λ l, listener_ok l s) ls → Inv s →
  calm (auth_success d) s (foldl (λ s' l, messageListener l d s') s ls).
Proof.
  revert s. induction ls as [|l ls IH]; intros s Hls HI; simpl; [apply calm_refl|].
  apply Forall_cons in Hls as [Hl Hls].
  eapply calm_trans; [by apply calm_messageListener|]. apply IH.
  - eapply Forall_impl; [done|]. intros l' Hl'. simpl in Hl'.
    eapply listener_ok_mono; [apply fresh_ext_messageListener|done].
  - by apply Inv_messageListener.
Qed.

Lemma calm_emit_message k d s : Inv s → calm (auth_success d) s (emit_message k d s).
Proof.
  intros HI. unfold emit_message.
  destruct (sockets s !! k) as [sk|] eqn:Hk; [|apply calm_refl].
  eapply calm_trans; [by apply calm_handleMessage|].
  apply calm_listeners_foldl; [|by apply Inv_handleMessage].
  apply Forall_forall. intros l Hl.
  eapply listener_ok_mono; [apply fresh_ext_handleMessage|].
  eapply (inv_listener s HI sk); [by eapply list_elem_of_lookup_2|done].
Qed.

Lemma calm_authenticate b pc s : calm b s (authenticate pc s).
Proof.
  unfold authenticate.
  eapply (calm_trans _ _ (set_nextHandle (S (nextHandle s)) s)); [by apply calm_same|].
  destruct (ws_open _); [|apply calm_settle_rejected].
  eapply calm_trans; [apply calm_send|].
  eapply calm_trans; [|apply calm_on_listener]. by apply calm_setTimeout.
Qed.

Lemma calm_connect b s : calm b s (connect s).2.
Proof. by apply calm_same. Qed.

Lemma calm_run_task b tk s : calm b s (run_task tk s).
Proof.
  destruct tk as [pc|pc| |id p|p| |vmId hp]; simpl.
  - destruct (ws_open s); [|apply calm_invoke].
    eapply calm_trans; [apply calm_send|by apply calm_setTimeout].
  - apply calm_authenticate.
  - apply calm_connect.
  - destruct (pendingRequests s !! id); [|apply calm_refl].
    eapply calm_trans; [|apply calm_settle_rejected]. by apply calm_same.
  - apply calm_settle_rejected.
  - unfold calm; simpl. eauto 10.
  - apply calm_await_leaf.
Qed.

Lemma calm_api b (f : nat → state → state) s :
  (∀ h s', calm b s' (f h s')) → calm b s (api f s).
Proof.
  intros Hf. unfold api. eapply calm_trans; [|apply Hf]. by apply calm_same.
Qed.

(** What [handleReconnect] does to the counter and the schedule. *)
Lemma handleReconnect_effect s :
  let s' := handleReconnect s in
  maxReconnectAttempts s' = maxReconnectAttempts s
  ∧ microtasks s' = microtasks s
  ∧ ((reconnectAttempts s' = reconnectAttempts s
      ∧ reconnect_delays (timerLog s') = reconnect_delays (timerLog s))
     ∨ (intentionalDisconnect s = false
        ∧ reconnectAttempts s < maxReconnectAttempts s
        ∧ reconnectAttempts s' = S (reconnectAttempts s)
        ∧ reconnect_delays (timerLog s')
          = reconnect_delays (timerLog s)
            ++ [(2000 * Z.of_nat (S (reconnectAttempts s)))%Z])).
Proof.
  unfold handleReconnect. destruct (intentionalDisconnect s); [by eauto|].
  destruct (_ <? _) eqn:Hlt; [|by eauto]. apply Nat.ltb_lt in Hlt.
  simpl. repeat split; try done. right.
  unfold setTimeout; simpl. rewrite reconnect_delays_snoc. done.
Qed.

(** Running a continuation queues no microtask. *)
Lemma microtasks_call method params k s :
  microtasks (call method params k s).2 = microtasks s.
Proof.
  unfold call. destruct (ws_open s); [|done].
  unfold send, setTimeout; simpl. by destruct (ws s).
Qed.

Lemma microtasks_run_leaf l o s : microtasks (run_leaf l o s) = microtasks s.
Proof. destruct l; simpl; try done. by destruct o. Qed.

Lemma microtasks_await_leaf l method params k s :
  microtasks (await_leaf l (call method params k s)) = microtasks s.
Proof.
  unfold await_leaf. pose proof (microtasks_call method params k s) as Hc.
  destruct (call method params k s) as [[e|p'] s']; simpl in *; [|done].
  by rewrite microtasks_run_leaf.
Qed.

Lemma microtasks_run_kont k o s : microtasks (run_kont k o s) = microtasks s.
Proof.
  destruct k as [l|vmId h|appName h]; simpl.
  - apply microtasks_run_leaf.
  - by destruct o.
  - destruct o; [apply microtasks_await_leaf|done].
Qed.

Lemma microtasks_await_kont k method params s :
  microtasks (await_kont k (call method params k s)) = microtasks s.
Proof.
  unfold await_kont. pose proof (microtasks_call method params k s) as Hc.
  destruct (call method params k s) as [[e|p'] s']; simpl in *; [|done].
  by rewrite microtasks_run_kont.
Qed.

Lemma is_reset_dec j : is_reset j ∨ ¬ is_reset j.
Proof.
  destruct j as [[[| | |pc]| |] [v|e]]; try (right; by intros (? & ? & [=])).
  left. by exists pc, v.
Qed.

Lemma jobs_effect (js : list (kont * outcome)) s :
  let s' := foldl (λ s0 j, run_kont j.1 j.2 s0) s js in
  maxReconnectAttempts s' = maxReconnectAttempts s
  ∧ reconnect_delays (timerLog s') = reconnect_delays (timerLog s)
  ∧ (authenticated s = true → authenticated s' = true)
  ∧ microtasks s' = microtasks s
  ∧ (reconnectAttempts s' = reconnectAttempts s
     ∨ (reconnectAttempts s' = 0 ∧ ∃ j, j ∈ js ∧ is_reset j)).
Proof.
  revert s. induction js as [|[k o] js IH]; intros s; simpl; [by eauto 10|].
  destruct (IH (run_kont k o s)) as (Hm & Hd & Hau & Hmt & Ha).
  assert (maxReconnectAttempts (run_kont k o s) = maxReconnectAttempts s
    ∧ reconnect_delays (timerLog (run_kont k o s)) = reconnect_delays (timerLog s)
    ∧ (authenticated s = true → authenticated (run_kont k o s) = true)
    ∧ (reconnectAttempts (run_kont k o s) = reconnectAttempts s
       ∨ (reconnectAttempts (run_kont k o s) = 0 ∧ is_reset (k, o))))
    as (Hm1 & Hd1 & Hau1 & Ha1).
  { destruct (is_reset_dec (k, o)) as [(pc & v & [= -> ->])|Hno].
    - simpl. repeat split; try done. right. split; [done|]. by exists pc, v.
    - destruct (calm_run_kont false k o s Hno) as (? & ? & ? & ? & _). eauto. }
  rewrite Hm, Hd, Hmt, microtasks_run_kont. repeat split; try done; [eauto|].
  destruct Ha as [Ha|[Ha (j & Hj & Hr)]].
  - destruct Ha1 as [Ha1|[Ha1 Hr]].
    + left. congruence.
    + right. split; [congruence|]. exists (k, o). split; [apply list_elem_of_here|done].
  - right. split; [done|]. exists j. split; [by apply list_elem_of_further|done].
Qed.

Lemma drain_effect s :
  maxReconnectAttempts (drain s) = maxReconnectAttempts s
  ∧ reconnect_delays (timerLog (drain s)) = reconnect_delays (timerLog s)
  ∧ (authenticated s = true → authenticated (drain s) = true)
  ∧ microtasks (drain s) = []
  ∧ (reconnectAttempts (drain s) = reconnectAttempts s
     ∨ (reconnectAttempts (drain s) = 0 ∧ ∃ j, j ∈ microtasks s ∧ is_reset j)).
Proof. unfold drain. apply (jobs_effect (microtasks s) (set_microtasks [] s)). Qed.

Lemma calm_handle e s :
  Inv s →
  (∀ k, e ≠ SockClose k) → e ≠ Disconnect →
  calm (auth_success_event e) s (handle e s).
Proof.
  intros HI Hclose Hdisc. destruct e; simpl.
  - by apply calm_same.
  - destruct (timers s !! h); [|apply calm_refl].
    case_bool_decide; [|apply calm_refl].
    eapply calm_trans; [apply calm_clearTimeout|apply calm_run_task].
  - destruct (sockets s !! k); [|apply calm_refl].
    case_bool_decide; [|apply calm_refl].
    eapply calm_trans; [|by apply calm_setTimeout]. by apply calm_same.
  - destruct (sockets s !! k); [|apply calm_refl].
    case_bool_decide; [|apply calm_refl]. by apply calm_emit_message.
  - destruct (sockets s !! k); [|apply calm_refl]. apply calm_invoke.
  - by destruct (Hclose k).
  - apply calm_connect.
  - done.
  - apply calm_api. intros. apply calm_await_leaf.
  - apply calm_api. intros. apply calm_await_leaf.
  - apply calm_api. intros. apply calm_await_kont.
  - apply calm_api. intros. apply calm_await_kont.
  - apply calm_api. intros. apply calm_await_leaf.
  - apply calm_api. intros. apply calm_await_leaf.
  - apply calm_api. intros. apply calm_await_kont.
  - apply calm_api. intros. apply calm_await_kont.
Qed.

(** One event: the counter stays, or a reconnection is scheduled and it
    grows by one, or the primary authentication succeeds and it is reset. *)
Lemma step_reconnect e s :
  Inv s → microtasks s = [] →
  let s' := step e s in
  maxReconnectAttempts s' = maxReconnectAttempts s
  ∧ microtasks s' = []
  ∧ ((reconnectAttempts s' = reconnectAttempts s
      ∧ reconnect_delays (timerLog s') = reconnect_delays (timerLog s))
     ∨ (reconnectAttempts s < maxReconnectAttempts s
        ∧ reconnectAttempts s' = S (reconnectAttempts s)
        ∧ reconnect_delays (timerLog s')
          = reconnect_delays (timerLog s)
            ++ [(2000 * Z.of_nat (S (reconnectAttempts s)))%Z])
     ∨ (auth_success_event e = true
        ∧ reconnectAttempts s' = 0
        ∧ reconnect_delays (timerLog s') = reconnect_delays (timerLog s)
        ∧ authenticated s' = true)).
Proof.
  intros HI Hmt s'. unfold s', step.
  destruct (drain_effect (handle e s)) as (Hm & Hd & Hau & Hmt' & Ha).
  rewrite Hm, Hd. split; [|split; [done|]].
  - destruct e; simpl; try done.
    + destruct (timers s !! h); [|done]. case_bool_decide; [|done].
      by destruct (calm_run_task false (t_task t) (clearTimeout h s)) as (_ & -> & _).
    + destruct (sockets s !! k); [|done]. by case_bool_decide.
    + destruct (sockets s !! k); [|done]. case_bool_decide; [|done].
      by destruct (calm_emit_message k d s HI) as (_ & -> & _).
    + by destruct (sockets s !! k).
    + destruct (sockets s !! k); [|done]. case_bool_decide; [done|].
      by destruct (handleReconnect_effect (set_authenticated false
        (set_sockets (alter (set_sk_state CLOSED) k (sockets s)) s))) as (-> & _).
    + unfold disconnect. by destruct (ws s).
    + by destruct (calm_api false getVMs s) as (_ & -> & _);
        [intros; apply calm_await_leaf|].
    + by destruct (calm_api false (λ h, startVM vmId (KApiVoid h)) s) as (_ & -> & _);
        [intros; apply calm_await_leaf|].
    + by destruct (calm_api false (λ h, stopVM vmId options (KLeaf (KApiVoid h))) s)
        as (_ & -> & _); [intros; apply calm_await_kont|].
    + by destruct (calm_api false (restartVM vmId) s) as (_ & -> & _);
        [intros; apply calm_await_kont|].
    + by destruct (calm_api false getApps s) as (_ & -> & _);
        [intros; apply calm_await_leaf|].
    + by destruct (calm_api false (λ h, startApp appName (KApiVoid h)) s) as (_ & -> & _);
        [intros; apply calm_await_leaf|].
    + by destruct (calm_api false (λ h, stopApp appName (KLeaf (KApiVoid h))) s)
        as (_ & -> & _); [intros; apply calm_await_kont|].
    + by destruct (calm_api false (restartApp appName) s) as (_ & -> & _);
        [intros; apply calm_await_kont|].
  - assert ((∃ k, e = SockClose k) ∨ e = Disconnect
            ∨ ((∀ k, e ≠ SockClose k) ∧ e ≠ Disconnect)) as [[k ->]|[->|[Hc Hdc]]].
    { destruct e; eauto; right; right; split; intros; discriminate. }
    + assert (microtasks (handle (SockClose k) s) = []
        ∧ ((reconnectAttempts (handle (SockClose k) s) = reconnectAttempts s
            ∧ reconnect_delays (timerLog (handle (SockClose k) s))
              = reconnect_delays (timerLog s))
           ∨ (reconnectAttempts s < maxReconnectAttempts s
              ∧ reconnectAttempts (handle (SockClose k) s) = S (reconnectAttempts s)
              ∧ reconnect_delays (timerLog (handle (SockClose k) s))
                = reconnect_delays (timerLog s)
                  ++ [(2000 * Z.of_nat (S (reconnectAttempts s)))%Z]))) as [Hmt0 Heff].
      { simpl. destruct (sockets s !! k); [|by eauto]. case_bool_decide; [by eauto|].
        destruct (handleReconnect_effect (set_authenticated false
          (set_sockets (alter (set_sk_state CLOSED) k (sockets s)) s)))
          as (_ & -> & Heff). simpl in *. split; [done|].
        destruct Heff as [?|(_ & ? & ? & ?)]; eauto. }
      destruct Ha as [->|[_ (j & Hj & _)]]; [|rewrite Hmt0 in Hj; by apply elem_of_nil in Hj].
      destruct Heff as [?|?]; eauto.
    + assert (microtasks (handle Disconnect s) = []
        ∧ reconnectAttempts (handle Disconnect s) = reconnectAttempts s
        ∧ timerLog (handle Disconnect s) = timerLog s) as (Hmt0 & Ha0 & Hl0).
      { simpl. unfold disconnect. by destruct (ws s). }
      destruct Ha as [->|[_ (j & Hj & _)]]; [|rewrite Hmt0 in Hj; by apply elem_of_nil in Hj].
      left. by rewrite Ha0, Hl0.
    + destruct (calm_handle e s HI Hc Hdc) as (Ha0 & _ & Hd0 & _ & Hj0).
      rewrite Hd0. destruct Ha as [->|[-> (j & Hj & Hr)]]; [by left|].
      right. right. destruct (Hj0 j Hj) as [Hin|[?|[? ?]]]; [|done|].
      * rewrite Hmt in Hin. by apply elem_of_nil in Hin.
      * eauto.
Qed.




Lemma reach_reconnect key t0 tr :
  let s := run tr (init key t0) in
  maxReconnectAttempts s = 5 ∧ reconnectAttempts s ≤ 5 ∧ microtasks s = [].
Proof.
  intros s. unfold s. induction tr as [|e tr IH] using rev_ind; [simpl; repeat split; lia|].
  unfold run in *. rewrite foldl_app. simpl.
  destruct IH as (Hm & Ha & Hmt).
  destruct (step_reconnect e _ (Inv_reachable key t0 tr) Hmt) as (Hm' & Hmt' & Heff).
  unfold run in *. rewrite Hm', Hm. split; [done|]. split; [|done].
  destruct Heff as [[-> _]|[(? & -> & _)|(_ & -> & _)]]; lia.
Qed.




(** C6 fails on the code. The counter is reset only by the code that runs
    after [await this.authenticate()] in connect(). After a first
    reconnection the same session becomes ready in three ways: the login is
    answered with true (the counter is reset, and the next unintended close
    schedules a reconnection after 2000 ms); the peer answers with a
    generic failure frame and the grace timer of the fallback fires; or the
    login answer arrives after the login timeout has fired. In the last two
    isConnected() is true with the counter still at 1, and the next
    unintended close schedules attempt 2, after 4000 ms. In general no
    event other than a login answer with result true lowers the counter. *)
Theorem ready_without_counter_reset :
  (let s0 := run relogin_trace (init "key" 0) in
   isConnected s0 = false ∧ reconnectAttempts s0 = 1)
  ∧ (let s := run (relogin_trace ++ [SockMessage 1 auth_ok_again]) (init "key" 0) in
     isConnected s = true ∧ reconnectAttempts s = 0
     ∧ reconnect_delays (timerLog (step (SockClose 1) s)) = [2000; 2000]%Z)
  ∧ (let s := run fallback_ready_trace (init "key" 0) in
     isConnected s = true ∧ reconnectAttempts s = 1
     ∧ reconnect_delays (timerLog (step (SockClose 1) s)) = [2000; 4000]%Z)
  ∧ (let s := run late_ready_trace (init "key" 0) in
     isConnected s = true ∧ reconnectAttempts s = 1
     ∧ reconnect_delays (timerLog (step (SockClose 1) s)) = [2000; 4000]%Z)
  ∧ (∀ key t0 tr e, auth_success_event e = false →
       reconnectAttempts (run tr (init key t0))
       ≤ reconnectAttempts (step e (run tr (init key t0)))).
Proof.
  split; [split; vm_compute; reflexivity|].
  split; [split; [|split]; vm_compute; reflexivity|].
  split; [split; [|split]; vm_compute; reflexivity|].
  split; [split; [|split]; vm_compute; reflexivity|].
  intros key t0 tr e He.
  destruct (reach_reconnect key t0 tr) as (_ & _ & Hmt).
  destruct (step_reconnect e _ (Inv_reachable key t0 tr) Hmt) as (_ & _ & Heff).
  destruct Heff as [[-> _]|[(_ & -> & _)|(Hev & _)]]; [lia|lia|congruence].
Qed.

(** ** Closing the session *)

Lemma microtasks_reachable key t0 tr : microtasks (run tr (init key t0)) = [].
Proof. by destruct (reach_reconnect key t0 tr) as (_ & _ & ?). Qed.

Lemma drain_idle s :
  microtasks s = [] →
  pendingRequests (drain s) = pendingRequests s
  ∧ settleLog (drain s) = settleLog s
  ∧ timers (drain s) = timers s
  ∧ sent (drain s) = sent s
  ∧ ws (drain s) = ws s
  ∧ sockets (drain s) = sockets s
  ∧ authenticated (drain s) = authenticated s
  ∧ intentionalDisconnect (drain s) = intentionalDisconnect s
  ∧ now (drain s) = now s
  ∧ nextHandle (drain s) = nextHandle s
  ∧ requestCounter (drain s) = requestCounter s
  ∧ apiKey (drain s) = apiKey s
  ∧ timerLog (drain s) = timerLog s
  ∧ microtasks (drain s) = [].
Proof. intros Hmt. unfold drain. rewrite Hmt. simpl. done. Qed.

(** The claim C4 fails on the code: a request pending when disconnect() is
    called stays in the table, unsettled; and it is still there on the
    socket opened by the reconnection that follows an unexpected close. *)
Lemma disconnect_keeps_pending_cex :
  let s := run query_trace (init "key" 0) in
  pendingRequests s !! query_id = Some query_promise
  ∧ pendingRequests (step Disconnect s) !! query_id = Some query_promise
  ∧ settlements (PCall 6) (step Disconnect s) = []
  ∧ ws (run [SockClose 0; Tick 2000; Fire 8] s) = Some 1
  ∧ pendingRequests (run [SockClose 0; Tick 2000; Fire 8] s) !! query_id
    = Some query_promise.
Proof. repeat split; reflexivity. Qed.

(** C4, amended. disconnect() and connect() leave the pending table, the
    timers and the promises as they are: a request pending at that moment
    stays in the table with its own timeout armed, also on the session that
    a later connect (by the caller or by the reconnection timer) opens. *)
Theorem disconnect_abandons_pending key t0 tr id p :
  let s := run tr (init key t0) in
  pendingRequests s !! id = Some p →
  (∀ e, e = Disconnect ∨ e = Connect →
     pendingRequests (step e s) = pendingRequests s
     ∧ settleLog (step e s) = settleLog s
     ∧ timers (step e s) = timers s
     ∧ ∃ h t, timers (step e s) !! h = Some t ∧ t_task t = TRequestTimeout id p)
  ∧ (∀ h t, timers s !! h = Some t → t_task t = TReconnect → (t_due t ≤ now s)%Z →
       pendingRequests (step (Fire h) s) = pendingRequests s
       ∧ settleLog (step (Fire h) s) = settleLog s
       ∧ ws (step (Fire h) s) = Some (length (sockets s))).
Proof.
  intros s Hid.
  pose proof (Inv_reachable key t0 tr) as HI. fold s in HI.
  pose proof (microtasks_reachable key t0 tr) as Hmt. fold s in Hmt.
  destruct (inv_table s HI id p Hid) as (_ & h0 & t0' & Hh0 & Ht0).
  split.
  - intros e He.
    assert (microtasks (handle e s) = [] ∧ pendingRequests (handle e s) = pendingRequests s
      ∧ settleLog (handle e s) = settleLog s ∧ timers (handle e s) = timers s)
      as (Hmt' & Hp & Hl & Ht).
    { destruct He as [-> | ->]; simpl; [|done]. unfold disconnect. by destruct (ws s). }
    unfold step. destruct (drain_idle (handle e s) Hmt') as (-> & -> & -> & _).
    rewrite Hp, Hl, Ht. repeat split. eauto.
  - intros h t Hh Ht Hdue. unfold step. simpl.
    rewrite Hh, bool_decide_true by done. rewrite Ht. simpl.
    match goal with |- context [drain ?s0] =>
      destruct (drain_idle s0) as (-> & -> & _ & _ & -> & _); [done|] end.
    done.
Qed.

Lemma disconnect_abandons_pending_witness :
  let s := run query_trace (init "key" 0) in
  pendingRequests s !! query_id = Some query_promise
  ∧ (∀ e, e = Disconnect ∨ e = Connect →
       pendingRequests (step e s) = pendingRequests s
       ∧ settleLog (step e s) = settleLog s
       ∧ timers (step e s) = timers s
       ∧ ∃ h t, timers (step e s) !! h = Some t
                ∧ t_task t = TRequestTimeout query_id query_promise).
Proof.
  split; [reflexivity|].
  apply (disconnect_abandons_pending "key" 0 query_trace query_id query_promise).
  reflexivity.
Defined.

(** What disconnect() does achieve: while the flag it sets stays set, a
    close event schedules nothing, and the client reports not connected. *)
Lemma disconnect_suppresses_reconnect s :
  ws s ≠ None →
  intentionalDisconnect (disconnect s) = true
  ∧ isConnected (disconnect s) = false
  ∧ handleReconnect (disconnect s) = disconnect s.
Proof.
  intros Hws. unfold disconnect. destruct (ws s) as [k|]; [|done].
  by unfold isConnected, ws_open, handleReconnect.
Qed.

(** C5 fails on the code. The socket drops and a reconnection is armed;
    the caller then calls disconnect(); the armed timer still fires and runs
    connect(), which clears the intentional-disconnect flag and opens a new
    socket. If that socket closes, a further reconnection is scheduled; if
    it opens and the login succeeds, isConnected() is true. The caller
    never called connect() again. *)
Theorem stale_reconnect_after_disconnect :
  let s := dropped_then_disconnected in
  intentionalDisconnect s = true ∧ isConnected s = false ∧ ws s = None
  ∧ reconnect_delays (timerLog s) = [2000%Z]
  ∧ (let s1 := run [Tick 2000; Fire 5] s in
     intentionalDisconnect s1 = false ∧ ws s1 = Some 1)
  ∧ (let s2 := run [Tick 2000; Fire 5; SockClose 1] s in
     reconnect_delays (timerLog s2) = [2000%Z; 4000%Z]
     ∧ timers s2 !! 7 = Some (Timer 7100 TReconnect))
  ∧ (let s3 := run [Tick 2000; Fire 5; SockOpen 1; Tick 100; Fire 7;
                    Tick 1000; Fire 8; SockMessage 1 auth_ok_again] s in
     isConnected s3 = true).
Proof. repeat split; reflexivity. Qed.

(** ** Fallback authentication *)

Lemma msg_is_failed r :
  r_msg r = Some "failed" →
  msg_is r "connected" = false ∧ msg_is r "failed" = true.
Proof. unfold msg_is. intros ->. split; [by apply bool_decide_eq_false|by apply bool_decide_eq_true]. Qed.

(** One listener of a generic failure frame: the fallback frame goes out
    and a grace timer is armed; nothing is settled. *)
Lemma failed_messageListener r l s k :
  r_msg r = Some "failed" → r_id r = None →
  ws s = Some k → ws_open s = true →
  let s1 := messageListener l (Some r) s in
  ws s1 = Some k ∧ ws_open s1 = true ∧ now s1 = now s ∧ apiKey s1 = apiKey s
  ∧ settleLog s1 = settleLog s ∧ microtasks s1 = microtasks s
  ∧ nextHandle s1 = S (nextHandle s)
  ∧ sent s1 = sent s ++ [(k, FAuth (auth_id (now s)) (apiKey s))]
  ∧ timers s1
    = delete (al_timeout l) (<[nextHandle s := Timer (now s + 1000) TAltAuth]> (timers s)).
Proof.
  intros Hmsg Hid Hws Hopen. destruct (msg_is_failed r Hmsg) as [Hc Hf].
  unfold messageListener, authHandler. rewrite Hid.
  rewrite bool_decide_false by done.
  unfold handleMessage. rewrite Hc, Hf. unfold tryAlternativeAuth. rewrite Hopen.
  unfold off_listener, clearTimeout, setTimeout, send. rewrite Hws. simpl. rewrite Hws.
  repeat split; try done.
  unfold ws_open in *. simpl. rewrite Hws in *. rewrite list_lookup_alter_eq.
  by destruct (sockets s !! k).
Qed.

Lemma failed_handleMessage r s k :
  r_msg r = Some "failed" →
  ws s = Some k → ws_open s = true →
  let s1 := handleMessage (Some r) s in
  ws s1 = Some k ∧ ws_open s1 = true ∧ now s1 = now s ∧ apiKey s1 = apiKey s
  ∧ settleLog s1 = settleLog s ∧ microtasks s1 = microtasks s
  ∧ nextHandle s1 = S (nextHandle s)
  ∧ sent s1 = sent s ++ [(k, FAuth (auth_id (now s)) (apiKey s))]
  ∧ timers s1 = <[nextHandle s := Timer (now s + 1000) TAltAuth]> (timers s)
  ∧ sockets s1 = sockets s ∧ authenticated s1 = authenticated s.
Proof.
  intros Hmsg Hws Hopen. destruct (msg_is_failed r Hmsg) as [Hc Hf].
  unfold handleMessage. rewrite Hc, Hf. unfold tryAlternativeAuth. rewrite Hopen.
  unfold setTimeout, send. rewrite Hws. simpl.
  repeat split; done.
Qed.

Lemma failed_listeners r (ls : list authListener) s k h0 t0 :
  r_msg r = Some "failed" → r_id r = None →
  ws s = Some k → ws_open s = true →
  timers s !! h0 = Some t0 → h0 < nextHandle s →
  Forall (λ l, al_timeout l ≠ h0) ls →
  let s1 := foldl (λ s' l, messageListener l (Some r) s') s ls in
  ws s1 = Some k ∧ ws_open s1 = true ∧ now s1 = now s ∧ apiKey s1 = apiKey s
  ∧ settleLog s1 = settleLog s ∧ microtasks s1 = microtasks s
  ∧ sent s1 = sent s ++ replicate (length ls) (k, FAuth (auth_id (now s)) (apiKey s))
  ∧ timers s1 !! h0 = Some t0.
Proof.
  intros Hmsg Hid. revert s. induction ls as [|l ls IH]; intros s Hws Hopen Hh0 Hlt Hls; simpl.
  { rewrite app_nil_r. done. }
  apply Forall_cons in Hls as [Hl Hls].
  destruct (failed_messageListener r l s k Hmsg Hid Hws Hopen)
    as (Hws1 & Hopen1 & Hnow1 & Hkey1 & Hlog1 & Hmt1 & Hn1 & Hsent1 & Htm1).
  destruct (IH (messageListener l (Some r) s)) as (? & ? & ? & ? & ? & ? & Hsent & ?);
    [done|done| |lia|done|].
  { rewrite Htm1, lookup_delete_ne by done. rewrite lookup_insert_ne by lia. done. }
  repeat split; try congruence.
  rewrite Hsent, Hsent1, Hnow1, Hkey1, <-app_assoc. done.
Qed.

Lemma step_Tick d s :
  microtasks s = [] →
  let s' := step (Tick d) s in
  now s' = (now s + Z.of_N d)%Z ∧ timers s' = timers s ∧ ws s' = ws s
  ∧ sockets s' = sockets s ∧ settleLog s' = settleLog s ∧ microtasks s' = [].
Proof.
  intros Hmt. unfold step. simpl handle.
  by destruct (drain_idle (set_now (now s + Z.of_N d) s) Hmt)
    as (_ & -> & -> & _ & -> & -> & _ & _ & -> & _ & _ & _ & _ & ->).
Qed.

Lemma step_Fire_AltAuth h due s :
  microtasks s = [] →
  timers s !! h = Some (Timer due TAltAuth) → (due ≤ now s)%Z →
  let s' := step (Fire h) s in
  authenticated s' = true ∧ ws s' = ws s ∧ sockets s' = sockets s
  ∧ settleLog s' = settleLog s.
Proof.
  intros Hmt Hh Hdue. unfold step. simpl handle. rewrite Hh. simpl.
  rewrite bool_decide_true by done.
  by destruct (drain_idle (set_authenticated true (clearTimeout h s)) Hmt)
    as (_ & -> & _ & _ & -> & -> & -> & _).
Qed.

(** C7. A generic failure frame (msg 'failed', no id) arriving on the open
    socket [this.ws]: every listener of that frame sends the fallback frame
    [{id, msg: 'auth', data: {api_key}}], once for [handleMessage] and once
    more for each outstanding login exchange, and arms a grace timer of
    1000 ms; no promise is settled. When the first grace timer fires, 1000
    ms later with the socket still open, isConnected() is true. *)
Theorem fallback_auth key t0 tr k sk r :
  let s := run tr (init key t0) in
  ws s = Some k → sockets s !! k = Some sk → sk_state sk = OPEN →
  r_msg r = Some "failed" → r_id r = None →
  let s1 := step (SockMessage k (Some r)) s in
  let s2 := step (Fire (nextHandle s)) (step (Tick 1000) s1) in
  sent s1
  = sent s ++ replicate (S (length (sk_listeners sk)))
                (k, FAuth (auth_id (now s)) (apiKey s))
  ∧ settleLog s1 = settleLog s
  ∧ timers s1 !! nextHandle s = Some (Timer (now s + 1000) TAltAuth)
  ∧ settleLog s2 = settleLog s
  ∧ isConnected s2 = true.
Proof.
  intros s Hws Hk Hst Hmsg Hid s1 s2.
  pose proof (Inv_reachable key t0 tr) as HI. fold s in HI.
  pose proof (microtasks_reachable key t0 tr) as Hmt. fold s in Hmt.
  assert (ws_open s = true) as Hopen.
  { unfold ws_open. rewrite Hws, Hk. by apply bool_decide_eq_true. }
  destruct (failed_handleMessage r s k Hmsg Hws Hopen)
    as (Hws0 & Hopen0 & Hnow0 & Hkey0 & Hlog0 & Hmt0 & Hn0 & Hsent0 & Htm0 & Hsk0 & Hau0).
  destruct (failed_listeners r (sk_listeners sk) (handleMessage (Some r) s) k
    (nextHandle s) (Timer (now s + 1000) TAltAuth) Hmsg Hid Hws0 Hopen0)
    as (Hws1 & Hopen1 & Hnow1 & Hkey1 & Hlog1 & Hmt1 & Hsent1 & Htm1).
  { rewrite Htm0. apply lookup_insert_eq. }
  { lia. }
  { apply Forall_forall. intros l Hl.
    destruct (inv_listener s HI sk l) as (Hlt & _);
      [by eapply list_elem_of_lookup_2|done|lia]. }
  assert (handle (SockMessage k (Some r)) s
    = foldl (λ s' l, messageListener l (Some r) s') (handleMessage (Some r) s)
        (sk_listeners sk)) as Hhandle.
  { simpl. rewrite Hk, bool_decide_true by (by left). unfold emit_message. by rewrite Hk. }
  assert (microtasks (handle (SockMessage k (Some r)) s) = []) as Hmt'.
  { rewrite Hhandle. congruence. }
  destruct (drain_idle _ Hmt')
    as (_ & Hl2 & Ht2 & Hs2 & Hw2 & Hsk2 & Hau2 & _ & Hnow2 & _ & _ & _ & _ & Hmt2).
  fold (step (SockMessage k (Some r)) s) in *. fold s1 in Hl2, Ht2, Hs2, Hw2, Hsk2, Hau2, Hnow2, Hmt2.
  rewrite Hhandle in *.
  assert (sent s1 = sent s ++ replicate (S (length (sk_listeners sk)))
            (k, FAuth (auth_id (now s)) (apiKey s))) as Hsent.
  { rewrite Hs2, Hsent1, Hsent0, Hnow0, Hkey0, <-app_assoc. done. }
  assert (settleLog s1 = settleLog s) as Hlog by congruence.
  assert (timers s1 !! nextHandle s = Some (Timer (now s + 1000) TAltAuth)) as Htm
    by congruence.
  split; [done|]. split; [done|]. split; [done|].
  assert (ws_open s1 = true) as Hopen2.
  { unfold ws_open in *. by rewrite Hw2, Hsk2. }
  assert (now s1 = now s) as Hnow by congruence.
  destruct (step_Tick 1000 s1 Hmt2) as (Hnow3 & Htm3 & Hw3 & Hsk3 & Hl3 & Hmt3).
  destruct (step_Fire_AltAuth (nextHandle s) (now s + 1000) (step (Tick 1000) s1))
    as (Hau4 & Hw4 & Hsk4 & Hl4); [done|congruence|rewrite Hnow3, Hnow; lia|].
  fold s2 in Hau4, Hw4, Hsk4, Hl4.
  split; [congruence|].
  unfold isConnected, ws_open in *. rewrite Hau4, Hw4, Hsk4, Hw3, Hsk3.
  by rewrite andb_true_r.
Qed.

Lemma fallback_auth_witness :
  let s := run authenticating_trace (init "key" 0) in
  let s1 := step (SockMessage 0 (Some failed_frame)) s in
  let s2 := step (Fire (nextHandle s)) (step (Tick 1000) s1) in
  ws s = Some 0 ∧ sockets s !! 0 = Some authenticating_socket
  ∧ sk_state authenticating_socket = OPEN
  ∧ r_msg failed_frame = Some "failed" ∧ r_id failed_frame = None
  ∧ sent s1 = sent s ++ replicate 2 (0, FAuth (auth_id 1100) "key")
  ∧ settleLog s1 = settleLog s
  ∧ timers s1 !! nextHandle s = Some (Timer (1100 + 1000) TAltAuth)
  ∧ settleLog s2 = settleLog s
  ∧ isConnected s2 = true.
Proof.
  do 5 (split; [reflexivity|]).
  apply (fallback_auth "key" 0 authenticating_trace 0 authenticating_socket
           failed_frame); reflexivity.
Defined.

(** ** Restart: stop, then start *)

Lemma call_open method params k s kk :
  ws s = Some kk → ws_open s = true →
  let id := mkid (now s) (requestCounter s) in
  let p := Promise (PCall (nextHandle s)) k in
  let s' := (call method params k s).2 in
  (call method params k s).1 = Pending p
  ∧ sent s' = sent s ++ [(kk, FMethod id method (default [] params))]
  ∧ pendingRequests s' = <[id := p]> (pendingRequests s)
  ∧ timers s'
    = <[S (nextHandle s) := Timer (now s + 30000) (TRequestTimeout id p)]> (timers s)
  ∧ timerLog s' = timerLog s ++ [(30000%Z, TRequestTimeout id p)]
  ∧ nextHandle s' = S (S (nextHandle s))
  ∧ requestCounter s' = S (requestCounter s)
  ∧ ws s' = ws s ∧ sockets s' = sockets s ∧ now s' = now s
  ∧ settleLog s' = settleLog s ∧ microtasks s' = microtasks s.
Proof.
  intros Hws Hopen. unfold call. rewrite Hopen.
  unfold send, setTimeout; simpl. rewrite Hws. simpl. done.
Qed.

Lemma msg_is_result r :
  r_msg r = Some "result" →
  msg_is r "connected" = false ∧ msg_is r "failed" = false
  ∧ msg_is r "pong" = false ∧ msg_is r "result" = true.
Proof.
  unfold msg_is. intros ->.
  repeat split; first [by apply bool_decide_eq_false|by apply bool_decide_eq_true].
Qed.

(** An auth listener lets a frame for a request it does not know pass. *)
Lemma quiet_messageListener r c l s :
  r_msg r = Some "result" → r_id r = Some c → al_id l ≠ c →
  pendingRequests s !! c = None →
  let s1 := messageListener l (Some r) s in
  sent s1 = sent s ∧ microtasks s1 = microtasks s ∧ ws s1 = ws s
  ∧ ws_open s1 = ws_open s ∧ now s1 = now s
  ∧ requestCounter s1 = requestCounter s ∧ nextHandle s1 = nextHandle s
  ∧ timerLog s1 = timerLog s ∧ pendingRequests s1 = pendingRequests s.
Proof.
  intros Hmsg Hid Hne Hnone. destruct (msg_is_result r Hmsg) as (Hc1 & Hc2 & Hc3 & _).
  unfold messageListener, authHandler. rewrite Hid.
  rewrite bool_decide_false by congruence.
  unfold handleMessage. rewrite Hc1, Hc2, Hc3, Hid, Hnone.
  unfold off_listener, clearTimeout. simpl.
  destruct (ws s) as [k|] eqn:Hws; simpl; repeat split; try done.
  unfold ws_open. simpl. rewrite Hws, list_lookup_alter_eq.
  by destruct (sockets s !! k).
Qed.

Lemma quiet_listeners r c (ls : list authListener) s :
  r_msg r = Some "result" → r_id r = Some c →
  Forall (λ l, al_id l ≠ c) ls →
  pendingRequests s !! c = None →
  let s1 := foldl (λ s' l, messageListener l (Some r) s') s ls in
  sent s1 = sent s ∧ microtasks s1 = microtasks s ∧ ws s1 = ws s
  ∧ ws_open s1 = ws_open s ∧ now s1 = now s
  ∧ requestCounter s1 = requestCounter s ∧ nextHandle s1 = nextHandle s
  ∧ timerLog s1 = timerLog s ∧ pendingRequests s1 = pendingRequests s.
Proof.
  intros Hmsg Hid. revert s. induction ls as [|l ls IH]; intros s Hls Hnone; simpl; [done|].
  apply Forall_cons in Hls as [Hl Hls].
  destruct (quiet_messageListener r c l s Hmsg Hid Hl Hnone)
    as (? & ? & ? & ? & ? & ? & ? & ? & Hp).
  destruct (IH (messageListener l (Some r) s) Hls) as (? & ? & ? & ? & ? & ? & ? & ? & ?);
    [by rewrite Hp|].
  repeat split; congruence.
Qed.

(** A result frame for a pending request, delivered on any socket: up to
    the point where the microtask queue is run. *)
Lemma answered key t0 tr k sk c p v :
  let s := run tr (init key t0) in
  pendingRequests s !! c = Some p →
  sockets s !! k = Some sk → sk_state sk = OPEN ∨ sk_state sk = CLOSING →
  let sd := handle (SockMessage k (Some (Response (Some "result") (Some c) v None))) s in
  microtasks sd = [(pk p, Resolved v)] ∧ sent sd = sent s ∧ ws sd = ws s
  ∧ ws_open sd = ws_open s ∧ now sd = now s
  ∧ requestCounter sd = requestCounter s
  ∧ nextHandle sd = nextHandle s ∧ timerLog sd = timerLog s.
Proof.
  intros s Hc Hk Hst sd.
  pose proof (Inv_reachable key t0 tr) as HI. fold s in HI.
  pose proof (microtasks_reachable key t0 tr) as Hmt. fold s in Hmt.
  set (r := Response (Some "result") (Some c) v None) in *.
  destruct (msg_is_result r eq_refl) as (Hm1 & Hm2 & Hm3 & Hm4).
  assert (is_settled (ph p) s = false) as Hunset.
  { unfold is_settled. apply bool_decide_eq_false.
    by destruct (inv_table s HI c p Hc) as (? & _). }
  assert (handleMessage (Some r) s
    = set_pendingRequests (delete c (pendingRequests s))
        (set_microtasks (microtasks s ++ [(pk p, Resolved v)])
           (invoke (ph p) (Resolved v) s))) as Hhm.
  { unfold handleMessage. rewrite Hm1, Hm2, Hm3, Hm4. simpl.
    rewrite Hc. unfold settle. simpl. by rewrite Hunset. }
  assert (sd = foldl (λ s' l, messageListener l (Some r) s')
                 (handleMessage (Some r) s) (sk_listeners sk)) as Hsd.
  { unfold sd. simpl. rewrite Hk. rewrite bool_decide_true by done.
    unfold emit_message. by rewrite Hk. }
  destruct (quiet_listeners r c (sk_listeners sk) (handleMessage (Some r) s) eq_refl eq_refl)
    as (Hq1 & Hq2 & Hq3 & Hq4 & Hq5 & Hq6 & Hq7 & Hq8 & _).
  { destruct (Inv_table_call s c p HI Hc) as ((tm' & m & -> & _) & _).
    apply Forall_forall. intros l Hl.
    destruct (inv_listener_id s HI sk l) as [tm ->];
      [by eapply list_elem_of_lookup_2|done|]. apply auth_id_ne_mkid. }
  { rewrite Hhm. simpl. apply lookup_delete_eq. }
  rewrite <-Hsd in Hq1, Hq2, Hq3, Hq4, Hq5, Hq6, Hq7, Hq8.
  rewrite Hq1, Hq2, Hq3, Hq4, Hq5, Hq6, Hq7, Hq8, Hhm. simpl.
  by rewrite Hmt.
Qed.

Lemma await_kont_pending k method params s :
  ws_open s = true →
  await_kont k (call method params k s) = (call method params k s).2.
Proof. intros Hopen. unfold await_kont, call. by rewrite Hopen. Qed.

Lemma await_leaf_pending l method params k s :
  ws_open s = true →
  await_leaf l (call method params k s) = (call method params k s).2.
Proof. intros Hopen. unfold await_leaf, call. by rewrite Hopen. Qed.

(** A timer does not fire before it is due. *)
Lemma step_Fire_early h t s :
  microtasks s = [] → timers s !! h = Some t → (now s < t_due t)%Z →
  sent (step (Fire h) s) = sent s ∧ timers (step (Fire h) s) = timers s.
Proof.
  intros Hmt Hh Hdue. unfold step. simpl handle. rewrite Hh.
  rewrite bool_decide_false by lia.
  by destruct (drain_idle s Hmt) as (_ & _ & -> & -> & _).
Qed.

(** The settle timer of restartVM, once due, sends vm.start. *)
Lemma step_Fire_RestartStart h t vmId hp s kk :
  microtasks s = [] → timers s !! h = Some t → (t_due t ≤ now s)%Z →
  t_task t = TRestartStart vmId hp →
  ws s = Some kk → ws_open s = true →
  sent (step (Fire h) s)
  = sent s ++ [(kk, FMethod (mkid (now s) (requestCounter s)) "vm.start" [JNum vmId])].
Proof.
  intros Hmt Hh Hdue Ht Hws Hopen. unfold step. simpl handle. rewrite Hh.
  rewrite bool_decide_true by done. rewrite Ht. simpl. unfold startVM.
  assert (ws_open (clearTimeout h s) = true) as Hopen' by done.
  rewrite await_leaf_pending by done.
  destruct (call_open "vm.start" (Some [JNum vmId]) (KLeaf (KApiVoid hp))
    (clearTimeout h s) kk Hws Hopen') as (_ & Hsent & _ & _ & _ & _ & _ & _ & _ & _ & _ & Hm).
  simpl in Hsent, Hm. rewrite Hmt in Hm.
  destruct (drain_idle _ Hm) as (_ & _ & _ & -> & _). by rewrite Hsent.
Qed.

(** The call that a public method makes on an open session. *)
Lemma step_api_call key t0 tr k method params kt :
  let s := run tr (init key t0) in
  ws s = Some k → ws_open s = true →
  let s1 := drain (call method params kt (set_nextHandle (S (nextHandle s)) s)).2 in
  sent s1
  = sent s ++ [(k, FMethod (mkid (now s) (requestCounter s)) method (default [] params))]
  ∧ pendingRequests s1 !! mkid (now s) (requestCounter s)
    = Some (Promise (PCall (S (nextHandle s))) kt).
Proof.
  intros s Hws Hopen s1.
  pose proof (microtasks_reachable key t0 tr) as Hmt. fold s in Hmt.
  assert (ws_open (set_nextHandle (S (nextHandle s)) s) = true) as Hopen' by done.
  destruct (call_open method params kt (set_nextHandle (S (nextHandle s)) s) k Hws Hopen')
    as (_ & Hsent & Htab & _ & _ & _ & _ & _ & _ & _ & _ & Hmt').
  simpl in Hsent, Htab, Hmt'. rewrite Hmt in Hmt'.
  destruct (drain_idle _ Hmt') as (Hp1 & _ & _ & Hs1 & _).
  fold s1 in Hp1, Hs1. rewrite Hs1, Hp1, Hsent, Htab.
  split; [done|apply lookup_insert_eq].
Qed.

(** C8. In every reachable state:
    - restartVM on an open session sends vm.stop (with force) and nothing
      else, and leaves the rest of restartVM waiting on that call;
    - whenever that call is answered, nothing is sent and a timer of
      1000 ms is armed;
    - that timer sends nothing before it is due, and when it fires, 1000 ms
      or more after the answer, vm.start is sent;
    - restartApp sends app.stop, and when that call is answered app.start is
      sent in the same turn of the event loop, the only timer armed being
      the timeout of the new request. *)
Theorem restart_stop_then_start key t0 tr :
  let s := run tr (init key t0) in
  let c := mkid (now s) (requestCounter s) in
  (∀ k vmId, ws s = Some k → ws_open s = true →
     let s1 := step (RestartVM vmId) s in
     sent s1 = sent s ++ [(k, stop_frame c vmId true)]
     ∧ pendingRequests s1 !! c
       = Some (Promise (PCall (S (nextHandle s)))
                 (KRestartVMSettle vmId (nextHandle s))))
  ∧ (∀ k sk id n vmId h v,
       pendingRequests s !! id = Some (Promise (PCall n) (KRestartVMSettle vmId h)) →
       sockets s !! k = Some sk → sk_state sk = OPEN ∨ sk_state sk = CLOSING →
       let s2 := step (SockMessage k (Some (Response (Some "result") (Some id) v None))) s in
       sent s2 = sent s
       ∧ timerLog s2 = timerLog s ++ [(1000%Z, TRestartStart vmId h)]
       ∧ timers s2 !! nextHandle s = Some (Timer (now s + 1000) (TRestartStart vmId h)))
  ∧ (∀ hS due vmId h,
       timers s !! hS = Some (Timer due (TRestartStart vmId h)) →
       ((now s < due)%Z →
        sent (step (Fire hS) s) = sent s ∧ timers (step (Fire hS) s) = timers s)
       ∧ ((due ≤ now s)%Z → ∀ k, ws s = Some k → ws_open s = true →
          sent (step (Fire hS) s) = sent s ++ [(k, FMethod c "vm.start" [JNum vmId])]))
  ∧ (∀ k appName, ws s = Some k → ws_open s = true →
       let a1 := step (RestartApp appName) s in
       sent a1 = sent s ++ [(k, FMethod c "app.stop" [JStr appName])]
       ∧ pendingRequests a1 !! c
         = Some (Promise (PCall (S (nextHandle s)))
                   (KRestartAppStart appName (nextHandle s))))
  ∧ (∀ k sk k' id n appName h v,
       pendingRequests s !! id = Some (Promise (PCall n) (KRestartAppStart appName h)) →
       sockets s !! k = Some sk → sk_state sk = OPEN ∨ sk_state sk = CLOSING →
       ws s = Some k' → ws_open s = true →
       let a2 := step (SockMessage k (Some (Response (Some "result") (Some id) v None))) s in
       sent a2 = sent s ++ [(k', FMethod c "app.start" [JStr appName])]
       ∧ timerLog a2
         = timerLog s
           ++ [(30000%Z,
                TRequestTimeout c (Promise (PCall (nextHandle s)) (KLeaf (KApiVoid h))))]).
Proof.
  intros s c.
  pose proof (microtasks_reachable key t0 tr) as Hmt. fold s in Hmt.
  split; [|split; [|split; [|split]]].
  - intros k vmId Hws Hopen s1.
    assert (s1 = drain (call "vm.stop" (Some [JNum vmId; JObj [("force", JBool true)]])
      (KRestartVMSettle vmId (nextHandle s)) (set_nextHandle (S (nextHandle s)) s)).2)
      as ->.
    { unfold s1, step. simpl handle. unfold api, restartVM, stopVM.
      by rewrite await_kont_pending. }
    by apply (step_api_call key t0 tr k).
  - intros k sk id n vmId h v Hid Hk Hst s2.
    pose proof (answered key t0 tr k sk id _ v Hid Hk Hst) as HA.
    cbv zeta in HA. fold s in HA.
    set (sd := handle (SockMessage k (Some (Response (Some "result") (Some id) v None))) s)
      in *.
    destruct HA as (Hm & Hsent & _ & _ & Hnow & _ & Hn & Htl). simpl pk in Hm.
    assert (s2 = setTimeout (TRestartStart vmId h) 1000 (set_microtasks [] sd)) as ->.
    { unfold s2, step. fold sd. unfold drain. by rewrite Hm. }
    unfold setTimeout. simpl. rewrite Hsent, Htl, Hn, Hnow.
    split; [done|]. split; [done|]. apply lookup_insert_eq.
  - intros hS due vmId h Hh. split.
    + intros Hdue. by apply (step_Fire_early hS (Timer due (TRestartStart vmId h))).
    + intros Hdue k Hws Hopen.
      by apply (step_Fire_RestartStart hS (Timer due (TRestartStart vmId h)) vmId h).
  - intros k appName Hws Hopen a1.
    assert (a1 = drain (call "app.stop" (Some [JStr appName])
      (KRestartAppStart appName (nextHandle s)) (set_nextHandle (S (nextHandle s)) s)).2)
      as ->.
    { unfold a1, step. simpl handle. unfold api, restartApp, stopApp.
      by rewrite await_kont_pending. }
    by apply (step_api_call key t0 tr k).
  - intros k sk k' id n appName h v Hid Hk Hst Hws Hopen a2.
    pose proof (answered key t0 tr k sk id _ v Hid Hk Hst) as HA.
    cbv zeta in HA. fold s in HA.
    set (sd := handle (SockMessage k (Some (Response (Some "result") (Some id) v None))) s)
      in *.
    destruct HA as (Hm & Hsent & Hwsd & Hopend & Hnow & Hcnt & Hn & Htl).
    simpl pk in Hm.
    assert (ws (set_microtasks [] sd) = Some k') as Hws0 by (simpl; congruence).
    assert (ws_open (set_microtasks [] sd) = true) as Hopen0.
    { rewrite <-Hopen, <-Hopend. done. }
    assert (a2 = (call "app.start" (Some [JStr appName]) (KLeaf (KApiVoid h))
                    (set_microtasks [] sd)).2) as ->.
    { unfold a2, step. fold sd. unfold drain. rewrite Hm. simpl. unfold startApp.
      by rewrite await_leaf_pending. }
    destruct (call_open "app.start" (Some [JStr appName]) (KLeaf (KApiVoid h))
      (set_microtasks [] sd) k' Hws0 Hopen0) as (_ & Hsent2 & _ & _ & Htl2 & _).
    simpl in Hsent2, Htl2. rewrite Hsent2, Htl2, Hnow, Hcnt, Hsent, Htl, Hn. done.
Qed.

(** The restart of a machine on the ready session, and its answer. *)
Lemma restart_stop_then_start_witness :
  let s := run ready_trace (init "key" 0) in
  let c := mkid (now s) (requestCounter s) in
  let s1 := run (ready_trace ++ [RestartVM 7]) (init "key" 0) in
  let answer := SockMessage 0 (Some (Response (Some "result") (Some (mkid 1100 0)) None None)) in
  (ws s = Some 0 ∧ ws_open s = true
   ∧ sent (step (RestartVM 7) s) = sent s ++ [(0, stop_frame c 7 true)]
   ∧ pendingRequests (step (RestartVM 7) s) !! c
     = Some (Promise (PCall (S (nextHandle s))) (KRestartVMSettle 7 (nextHandle s))))
  ∧ (pendingRequests s1 !! mkid 1100 0 = Some (Promise (PCall 6) (KRestartVMSettle 7 5))
     ∧ sockets s1 !! 0 = Some (Socket OPEN 0 [])
     ∧ sent (step answer s1) = sent s1
     ∧ timerLog (step answer s1) = timerLog s1 ++ [(1000%Z, TRestartStart 7 5)]
     ∧ timers (step answer s1) !! nextHandle s1
       = Some (Timer (now s1 + 1000) (TRestartStart 7 5))).
Proof.
  split.
  - do 2 (split; [vm_compute; reflexivity|]).
    exact (proj1 (restart_stop_then_start "key" 0 ready_trace) 0 7%Z eq_refl eq_refl).
  - do 2 (split; [vm_compute; reflexivity|]).
    exact (proj1 (proj2 (restart_stop_then_start "key" 0 (ready_trace ++ [RestartVM 7])))
             0 (Socket OPEN 0 []) (mkid 1100 0) 6 7%Z 5 None eq_refl eq_refl
             (or_introl eq_refl)).
Defined.

(** A run of restartVM: stop, the answer, the settle delay, start. *)
Example restart_vm_run :
  let answer := SockMessage 0 (Some (Response (Some "result") (Some (mkid 1100 0)) None None)) in
  sent (run [RestartVM 7; answer; Tick 999; Fire 8] ready_state)
  = sent ready_state ++ [(0, stop_frame (mkid 1100 0) 7 true)]
  ∧ sent (run [RestartVM 7; answer; Tick 999; Fire 8; Tick 1; Fire 8] ready_state)
    = sent ready_state ++ [(0, stop_frame (mkid 1100 0) 7 true);
                           (0, FMethod (mkid 2100 1) "vm.start" [JNum 7])].
Proof. split; vm_compute; reflexivity. Qed.

(** * Further properties of the client *)

(** ** Delivery of a frame that carries the id of a pending request *)

Lemma demuxed_spec r :
  demuxed r = true →
  msg_is r "connected" = false ∧ msg_is r "failed" = false ∧ msg_is r "pong" = false.
Proof.
  unfold demuxed. rewrite negb_true_iff, !orb_false_iff. tauto.
Qed.

(** An auth listener lets a frame pass that is neither a control frame, nor
    its own answer, nor the answer to a pending request: all it does is
    remove itself and cancel its timeout. *)
Lemma pass_messageListener r c l s :
  demuxed r = true → r_id r = Some c → al_id l ≠ c →
  pendingRequests s !! c = None →
  messageListener l (Some r) s
  = off_listener (al_key l) (clearTimeout (al_timeout l) s).
Proof.
  intros Hdm Hid Hne Hnone. destruct (demuxed_spec r Hdm) as (Hc1 & Hc2 & Hc3).
  unfold messageListener, authHandler. rewrite Hid.
  rewrite bool_decide_false by congruence.
  unfold handleMessage. by rewrite Hc1, Hc2, Hc3, Hid, Hnone.
Qed.

Lemma ws_open_off_listener key s : ws_open (off_listener key s) = ws_open s.
Proof.
  unfold off_listener, ws_open. destruct (ws s) as [k|] eqn:Hws; [|by rewrite Hws].
  simpl. rewrite Hws, list_lookup_alter_eq. by destruct (sockets s !! k).
Qed.

Lemma still_retire key h s : still s (off_listener key (clearTimeout h s)).
Proof.
  unfold still. rewrite ws_open_off_listener.
  assert (ws_open (clearTimeout h s) = ws_open s) as -> by done.
  unfold off_listener, clearTimeout. simpl.
  destruct (ws s) eqn:Hws; simpl; repeat split; done.
Qed.

Lemma still_refl s : still s s.
Proof. unfold still. repeat split; done. Qed.

Lemma still_trans s1 s2 s3 : still s1 s2 → still s2 s3 → still s1 s3.
Proof. unfold still. intros H12 H23. destruct_and!. repeat split; congruence. Qed.

Lemma pass_listeners r c (ls : list authListener) s :
  demuxed r = true → r_id r = Some c →
  Forall (λ l, al_id l ≠ c) ls →
  pendingRequests s !! c = None →
  still s (foldl (λ s' l, messageListener l (Some r) s') s ls).
Proof.
  intros Hdm Hid. revert s. induction ls as [|l ls IH]; intros s Hls Hnone; simpl.
  { apply still_refl. }
  apply Forall_cons in Hls as [Hl Hls].
  rewrite (pass_messageListener r c l s) by done.
  pose proof (still_retire (al_key l) (al_timeout l) s) as Hst.
  eapply still_trans; [exact Hst|]. apply IH; [done|].
  destruct Hst as (Hp & _). by rewrite Hp.
Qed.

(** A frame carrying the id of a pending request, delivered on any socket:
    the state when the listeners have run, before the microtask queue is. *)
Lemma delivered key t0 tr k sk c p r :
  let s := run tr (init key t0) in
  pendingRequests s !! c = Some p →
  sockets s !! k = Some sk → sk_state sk = OPEN ∨ sk_state sk = CLOSING →
  r_id r = Some c → demuxed r = true →
  let sd := handle (SockMessage k (Some r)) s in
  still (set_pendingRequests (delete c (pendingRequests s))
           match frame_outcome r with
           | Some o => set_microtasks [(pk p, o)] (invoke (ph p) o s)
           | None => s
           end) sd.
Proof.
  intros s Hc Hk Hst Hid Hdm sd.
  pose proof (Inv_reachable key t0 tr) as HI. fold s in HI.
  pose proof (microtasks_reachable key t0 tr) as Hmt. fold s in Hmt.
  destruct (demuxed_spec r Hdm) as (Hc1 & Hc2 & Hc3).
  assert (is_settled (ph p) s = false) as Hunset.
  { unfold is_settled. apply bool_decide_eq_false.
    by destruct (inv_table s HI c p Hc) as (? & _). }
  assert (handleMessage (Some r) s
    = set_pendingRequests (delete c (pendingRequests s))
        match frame_outcome r with
        | Some o => set_microtasks [(pk p, o)] (invoke (ph p) o s)
        | None => s
        end) as Hhm.
  { unfold handleMessage, frame_outcome. rewrite Hc1, Hc2, Hc3, Hid, Hc.
    destruct (msg_is r "result"); [|destruct (msg_is r "error"); [|done]];
      unfold settle; simpl; by rewrite Hunset, Hmt. }
  assert (sd = foldl (λ s' l, messageListener l (Some r) s')
                 (handleMessage (Some r) s) (sk_listeners sk)) as ->.
  { unfold sd. simpl. rewrite Hk. rewrite bool_decide_true by done.
    unfold emit_message. by rewrite Hk. }
  rewrite <-Hhm. apply (pass_listeners r c); [done|done| |].
  - destruct (Inv_table_call s c p HI Hc) as ((tm' & m & -> & _) & _).
    apply Forall_forall. intros l Hl.
    destruct (inv_listener_id s HI sk l) as [tm ->];
      [by eapply list_elem_of_lookup_2|done|]. apply auth_id_ne_mkid.
  - rewrite Hhm. simpl. apply lookup_delete_eq.
Qed.

Lemma drain_one k o s :
  microtasks s = [(k, o)] → drain s = run_kont k o (set_microtasks [] s).
Proof. intros Hm. unfold drain. by rewrite Hm. Qed.

(** X1. The public methods on an open session: in every reachable state each
    of them sends exactly one method frame, with a fresh id, the method
    name and the params of [request_of], registers the call under that id
    and arms its timeout of 30000 ms; nothing is settled yet. *)
Theorem api_requests key t0 tr e k method params kt :
  let s := run tr (init key t0) in
  request_of e = Some (method, params, kt) →
  ws s = Some k → ws_open s = true →
  let c := mkid (now s) (requestCounter s) in
  let p := Promise (PCall (S (nextHandle s))) (kt (nextHandle s)) in
  let s' := step e s in
  sent s' = sent s ++ [(k, FMethod c method params)]
  ∧ pendingRequests s' = <[c := p]> (pendingRequests s)
  ∧ timers s' = <[S (S (nextHandle s)) := Timer (now s + 30000) (TRequestTimeout c p)]> (timers s)
  ∧ settleLog s' = settleLog s
  ∧ requestCounter s' = S (requestCounter s).
Proof.
  intros s He Hws Hopen c p s'.
  pose proof (microtasks_reachable key t0 tr) as Hmt. fold s in Hmt.
  set (s0 := set_nextHandle (S (nextHandle s)) s).
  assert (ws_open s0 = true) as Hopen0 by done.
  assert (s' = drain (call method (Some params) (kt (nextHandle s)) s0).2
          ∨ (params = [] ∧ s' = drain (call method None (kt (nextHandle s)) s0).2))
    as Hs'.
  { unfold s', step. destruct e; simpl in He; try done; injection He as <- <- <-;
      simpl handle; unfold api, getVMs, startVM, stopVM, restartVM, getApps,
        startApp, stopApp, restartApp, stopVM, stopApp; fold s0;
      rewrite ?await_leaf_pending, ?await_kont_pending by done; auto. }
  assert (∃ ps, default [] ps = params
                ∧ s' = drain (call method ps (kt (nextHandle s)) s0).2)
    as (ps & Hps & ->).
  { destruct Hs' as [->|[-> ->]]; [by exists (Some params)|by exists None]. }
  destruct (call_open method ps (kt (nextHandle s)) s0 k Hws Hopen0)
    as (_ & Hsent & Htab & Htm & _ & _ & Hcnt & _ & _ & _ & Hlog & Hm).
  simpl in Hsent, Htab, Htm, Hcnt, Hlog, Hm. rewrite Hmt in Hm.
  destruct (drain_idle _ Hm)
    as (-> & -> & -> & -> & _ & _ & _ & _ & _ & _ & -> & _).
  rewrite Hsent, Htab, Htm, Hcnt, Hlog, Hps. done.
Qed.

Lemma api_requests_witness :
  let s := run ready_trace (init "key" 0) in
  let c := mkid (now s) (requestCounter s) in
  let p := Promise (PCall (S (nextHandle s))) (KLeaf (KApiVoid (nextHandle s))) in
  let s' := step (StopVM 7 None) s in
  request_of (StopVM 7 None)
  = Some ("vm.stop", [JNum 7; JObj [("force", JBool false)]], λ h, KLeaf (KApiVoid h))
  ∧ ws s = Some 0 ∧ ws_open s = true
  ∧ sent s' = sent s ++ [(0, FMethod c "vm.stop" [JNum 7; JObj [("force", JBool false)]])]
  ∧ pendingRequests s' = <[c := p]> (pendingRequests s)
  ∧ timers s' = <[S (S (nextHandle s)) := Timer (now s + 30000) (TRequestTimeout c p)]> (timers s)
  ∧ settleLog s' = settleLog s
  ∧ requestCounter s' = S (requestCounter s).
Proof.
  split; [reflexivity|]. split; [reflexivity|]. split; [vm_compute; reflexivity|].
  exact (api_requests "key" 0 ready_trace (StopVM 7 None) 0 "vm.stop"
           [JNum 7; JObj [("force", JBool false)]] (λ h, KLeaf (KApiVoid h))
           eq_refl eq_refl eq_refl).
Defined.

(** X2. The answer to a request made by getVMs, getApps, startVM, stopVM,
    startApp or stopApp, whenever it arrives: the method's promise settles
    in the same turn of the event loop. getVMs and getApps hand on the
    result of the frame unchanged; the four others resolve with no value,
    whatever the frame carried; an error frame rejects all of them with
    the message of the frame. Nothing is sent and no timer is armed. *)
Theorem api_outcome key t0 tr k sk c n l h r o :
  let s := run tr (init key t0) in
  pendingRequests s !! c = Some (Promise (PCall n) (KLeaf l)) →
  l = KApiReturn h ∨ l = KApiVoid h →
  sockets s !! k = Some sk → sk_state sk = OPEN ∨ sk_state sk = CLOSING →
  r_id r = Some c → demuxed r = true → frame_outcome r = Some o →
  let s' := step (SockMessage k (Some r)) s in
  settleLog s'
  = settleLog s ++ [(PCall n, o); (PApi h, match l with KApiVoid _ => void o | _ => o end)]
  ∧ pendingRequests s' = delete c (pendingRequests s)
  ∧ sent s' = sent s ∧ timerLog s' = timerLog s.
Proof.
  intros s Hc Hl Hk Hst Hid Hdm Ho s'.
  pose proof (delivered key t0 tr k sk c _ r Hc Hk Hst Hid Hdm) as HD.
  cbv zeta in HD. fold s in HD. unfold s', step.
  set (sd := handle (SockMessage k (Some r)) s) in *. clearbody sd.
  rewrite Ho in HD. destruct HD as (Hp & Hlog & Hm & Hsent & Htl & _).
  simpl in Hp, Hlog, Hm, Hsent, Htl. rewrite (drain_one _ _ _ Hm).
  destruct Hl as [-> | ->]; simpl; rewrite Hlog, Hp, Hsent, Htl, <-app_assoc; done.
Qed.

Lemma api_outcome_witness :
  let s := run query_trace (init "key" 0) in
  let r := Response (Some "result") (Some query_id) (Some (JArr [])) None in
  let s' := step (SockMessage 0 (Some r)) s in
  pendingRequests s !! query_id = Some (Promise (PCall 6) (KLeaf (KApiReturn 5)))
  ∧ sockets s !! 0 = Some (Socket OPEN 0 [])
  ∧ settleLog s'
    = settleLog s ++ [(PCall 6, Resolved (Some (JArr [])));
                      (PApi 5, match KApiReturn 5 with
                               | KApiVoid _ => void (Resolved (Some (JArr [])))
                               | _ => Resolved (Some (JArr []))
                               end)]
  ∧ pendingRequests s' = delete query_id (pendingRequests s)
  ∧ sent s' = sent s ∧ timerLog s' = timerLog s.
Proof.
  split; [vm_compute; reflexivity|]. split; [vm_compute; reflexivity|].
  exact (api_outcome "key" 0 query_trace 0 (Socket OPEN 0 []) query_id 6 (KApiReturn 5) 5
           (Response (Some "result") (Some query_id) (Some (JArr [])) None)
           (Resolved (Some (JArr [])))
           eq_refl (or_introl eq_refl) eq_refl (or_introl eq_refl) eq_refl eq_refl eq_refl).
Defined.

(** X3. restartVM and restartApp when the stop fails. If the stop call is
    rejected, by an error frame or by its timeout, the restart is rejected
    with the same error in the same turn: the start request is never sent
    and the 1000 ms pause is not begun. *)
Theorem restart_stop_rejected key t0 tr c n kt h e :
  let s := run tr (init key t0) in
  pendingRequests s !! c = Some (Promise (PCall n) kt) →
  (∃ vmId, kt = KRestartVMSettle vmId h) ∨ (∃ appName, kt = KRestartAppStart appName h) →
  (∀ k sk r, sockets s !! k = Some sk → sk_state sk = OPEN ∨ sk_state sk = CLOSING →
     r_id r = Some c → demuxed r = true → frame_outcome r = Some (Rejected e) →
     let s' := step (SockMessage k (Some r)) s in
     settleLog s' = settleLog s ++ [(PCall n, Rejected e); (PApi h, Rejected e)]
     ∧ sent s' = sent s ∧ timerLog s' = timerLog s)
  ∧ (∀ hT t, timers s !! hT = Some t →
       t_task t = TRequestTimeout c (Promise (PCall n) kt) → (t_due t ≤ now s)%Z →
       let s' := step (Fire hT) s in
       settleLog s'
       = settleLog s ++ [(PCall n, Rejected RequestTimeout); (PApi h, Rejected RequestTimeout)]
       ∧ sent s' = sent s ∧ timerLog s' = timerLog s).
Proof.
  intros s Hc Hkt.
  pose proof (Inv_reachable key t0 tr) as HI. fold s in HI.
  pose proof (microtasks_reachable key t0 tr) as Hmt. fold s in Hmt.
  assert (∀ s0 o, run_kont kt (Rejected o) s0 = invoke (PApi h) (Rejected o) s0) as Hrun.
  { intros s0 o. by destruct Hkt as [[? ->]|[? ->]]. }
  split.
  - intros k sk r Hk Hst Hid Hdm Ho s'.
    pose proof (delivered key t0 tr k sk c _ r Hc Hk Hst Hid Hdm) as HD.
    cbv zeta in HD. fold s in HD. unfold s', step.
    set (sd := handle (SockMessage k (Some r)) s) in *. clearbody sd.
    rewrite Ho in HD. destruct HD as (Hp & Hlog & Hm & Hsent & Htl & _).
    simpl in Hp, Hlog, Hm, Hsent, Htl. rewrite (drain_one _ _ _ Hm), Hrun. simpl.
    by rewrite Hlog, Hsent, Htl, <-app_assoc.
  - intros hT t Hh Ht Hdue s'.
    assert (is_settled (PCall n) s = false) as Hunset.
    { unfold is_settled. apply bool_decide_eq_false.
      by destruct (inv_table s HI c _ Hc) as (? & _). }
    unfold s', step. simpl handle. rewrite Hh, bool_decide_true by done.
    rewrite Ht. simpl. rewrite Hc. unfold settle. simpl.
    replace (is_settled (PCall n) _) with (is_settled (PCall n) s) by done.
    rewrite Hunset. rewrite drain_one with (k := kt) (o := Rejected RequestTimeout)
      by (simpl; by rewrite Hmt).
    rewrite Hrun. simpl. by rewrite <-app_assoc.
Qed.

Lemma restart_stop_rejected_witness :
  let s := run (ready_trace ++ [RestartVM 7]) (init "key" 0) in
  pendingRequests s !! mkid 1100 0 = Some (Promise (PCall 6) (KRestartVMSettle 7 5))
  ∧ (∀ k sk r, sockets s !! k = Some sk → sk_state sk = OPEN ∨ sk_state sk = CLOSING →
       r_id r = Some (mkid 1100 0) → demuxed r = true →
       frame_outcome r = Some (Rejected "busy") →
       let s' := step (SockMessage k (Some r)) s in
       settleLog s' = settleLog s ++ [(PCall 6, Rejected "busy"); (PApi 5, Rejected "busy")]
       ∧ sent s' = sent s ∧ timerLog s' = timerLog s)
  ∧ (∀ hT t, timers s !! hT = Some t →
       t_task t = TRequestTimeout (mkid 1100 0) (Promise (PCall 6) (KRestartVMSettle 7 5)) →
       (t_due t ≤ now s)%Z →
       let s' := step (Fire hT) s in
       settleLog s'
       = settleLog s ++ [(PCall 6, Rejected RequestTimeout); (PApi 5, Rejected RequestTimeout)]
       ∧ sent s' = sent s ∧ timerLog s' = timerLog s).
Proof.
  split; [vm_compute; reflexivity|].
  exact (restart_stop_rejected "key" 0 (ready_trace ++ [RestartVM 7]) (mkid 1100 0) 6
           (KRestartVMSettle 7 5) 5 "busy" eq_refl
           (or_introl (ex_intro _ 7%Z eq_refl))).
Defined.

(** X5. A public method called while the socket is absent or not open, in any
    reachable state: its promise is rejected with 'WebSocket is not
    connected' in the same turn, and nothing else happens: no frame, no
    table entry, no timer, no id used up. For restartVM and restartApp this
    means that neither the stop nor the start is attempted. *)
Theorem api_not_connected key t0 tr e :
  let s := run tr (init key t0) in
  request_of e ≠ None → ws_open s = false →
  let s' := step e s in
  settleLog s' = settleLog s ++ [(PApi (nextHandle s), Rejected NotConnected)]
  ∧ sent s' = sent s ∧ pendingRequests s' = pendingRequests s
  ∧ timers s' = timers s ∧ requestCounter s' = requestCounter s.
Proof.
  intros s He Hclosed s'.
  pose proof (microtasks_reachable key t0 tr) as Hmt. fold s in Hmt.
  set (s0 := set_nextHandle (S (nextHandle s)) s).
  assert (∀ method params k, call method params k s0 = (Threw NotConnected, s0)) as Hcall.
  { intros. unfold call. replace (ws_open s0) with (ws_open s) by done.
    by rewrite Hclosed. }
  assert (handle e s = invoke (PApi (nextHandle s)) (Rejected NotConnected) s0) as Hh.
  { destruct e; simpl in He; try done; simpl handle;
      unfold api, getVMs, startVM, stopVM, restartVM, getApps, startApp, stopApp,
        restartApp, stopVM, stopApp, await_leaf, await_kont; fold s0;
      by rewrite Hcall. }
  unfold s', step. rewrite Hh.
  by destruct (drain_idle (invoke (PApi (nextHandle s)) (Rejected NotConnected) s0) Hmt)
    as (-> & -> & -> & -> & _ & _ & _ & _ & _ & _ & -> & _).
Qed.

Lemma api_not_connected_witness :
  let s := run [Connect] (init "key" 0) in
  let s' := step (RestartVM 7) s in
  request_of (RestartVM 7) ≠ None ∧ ws_open s = false
  ∧ settleLog s' = settleLog s ++ [(PApi (nextHandle s), Rejected NotConnected)]
  ∧ sent s' = sent s ∧ pendingRequests s' = pendingRequests s
  ∧ timers s' = timers s ∧ requestCounter s' = requestCounter s.
Proof.
  split; [done|]. split; [reflexivity|].
  refine (api_not_connected "key" 0 [Connect] (RestartVM 7) _ eq_refl). done.
Defined.

Lemma set_microtasks_id s : microtasks s = [] → set_microtasks [] s = s.
Proof. destruct s. simpl. by intros ->. Qed.

(** X6. disconnect() in any reachable state: afterwards the client has no
    socket and reports not connected; no frame is sent (the peer is told
    nothing but the close of the socket); a second disconnect() changes
    nothing, and neither does a disconnect() without a socket. *)
Theorem disconnect_idempotent key t0 tr :
  let s := run tr (init key t0) in
  let s1 := step Disconnect s in
  ws s1 = None ∧ ws_open s1 = false ∧ isConnected s1 = false
  ∧ sent s1 = sent s
  ∧ step Disconnect s1 = s1
  ∧ (ws s = None → s1 = s)
  ∧ (∀ k sk, ws s = Some k → sockets s !! k = Some sk →
       intentionalDisconnect s1 = true
       ∧ sockets s1 !! k
         = Some (match sk_state sk with
                 | CONNECTING | OPEN => set_sk_state CLOSING sk
                 | _ => sk
                 end)).
Proof.
  intros s s1.
  pose proof (microtasks_reachable key t0 tr) as Hmt. fold s in Hmt.
  assert (microtasks (disconnect s) = []) as Hmt1.
  { rewrite <-Hmt. unfold disconnect. by destruct (ws s). }
  assert (∀ s0, microtasks s0 = [] → step Disconnect s0 = disconnect s0) as Hstep.
  { intros s0 Hm0. unfold step, drain. simpl handle.
    assert (microtasks (disconnect s0) = []) as Hm1.
    { rewrite <-Hm0. unfold disconnect. by destruct (ws s0). }
    rewrite Hm1. simpl. by apply set_microtasks_id. }
  unfold s1. rewrite (Hstep s Hmt).
  assert (ws (disconnect s) = None) as Hws.
  { unfold disconnect. by destruct (ws s) eqn:E. }
  split; [done|]. split; [unfold ws_open; by rewrite Hws|].
  split; [unfold isConnected, ws_open; by rewrite Hws|].
  split; [unfold disconnect; by destruct (ws s)|]. split.
  { rewrite (Hstep _ Hmt1). unfold disconnect at 1. by rewrite Hws. }
  split; [intros E; unfold disconnect; by rewrite E|].
  intros k sk E Hk. unfold disconnect. rewrite E. simpl. split; [done|].
  rewrite list_lookup_alter_eq, Hk. done.
Qed.

(** X4. restartVM and restartApp when the session is gone by the time the
    start is due (the socket closed or disconnect() was called during the
    pause of restartVM, or before the answer to app.stop arrived): the
    start request is not sent and the restart is rejected with 'WebSocket
    is not connected', after the stop has succeeded. *)
Theorem restart_start_needs_session key t0 tr h :
  let s := run tr (init key t0) in
  ws_open s = false →
  (∀ hS t vmId, timers s !! hS = Some t → t_task t = TRestartStart vmId h →
     (t_due t ≤ now s)%Z →
     let s' := step (Fire hS) s in
     settleLog s' = settleLog s ++ [(PApi h, Rejected NotConnected)]
     ∧ sent s' = sent s ∧ pendingRequests s' = pendingRequests s
     ∧ timerLog s' = timerLog s)
  ∧ (∀ k sk c n appName r v, sockets s !! k = Some sk →
       sk_state sk = OPEN ∨ sk_state sk = CLOSING →
       pendingRequests s !! c = Some (Promise (PCall n) (KRestartAppStart appName h)) →
       r_id r = Some c → demuxed r = true → frame_outcome r = Some (Resolved v) →
       let s' := step (SockMessage k (Some r)) s in
       settleLog s'
       = settleLog s ++ [(PCall n, Resolved v); (PApi h, Rejected NotConnected)]
       ∧ sent s' = sent s ∧ pendingRequests s' = delete c (pendingRequests s)
       ∧ timerLog s' = timerLog s).
Proof.
  intros s Hclosed.
  pose proof (microtasks_reachable key t0 tr) as Hmt. fold s in Hmt.
  split.
  - intros hS t vmId Hh Ht Hdue s'. unfold s', step. simpl handle.
    rewrite Hh, bool_decide_true by done. rewrite Ht. cbn [run_task].
    unfold startVM, await_leaf, call.
    replace (ws_open (clearTimeout hS s)) with (ws_open s) by done.
    rewrite Hclosed. simpl.
    by destruct (drain_idle (invoke (PApi h) (Rejected NotConnected) (clearTimeout hS s)) Hmt)
      as (-> & -> & _ & -> & _ & _ & _ & _ & _ & _ & _ & _ & -> & _).
  - intros k sk c n appName r v Hk Hst Hc Hid Hdm Ho s'.
    pose proof (delivered key t0 tr k sk c _ r Hc Hk Hst Hid Hdm) as HD.
    cbv zeta in HD. fold s in HD. unfold s', step.
    set (sd := handle (SockMessage k (Some r)) s) in *. clearbody sd.
    rewrite Ho in HD.
    destruct HD as (Hp & Hlog & Hm & Hsent & Htl & _ & Hopen & _).
    assert (ws_open (set_microtasks [] sd) = false) as Hclosed'.
    { transitivity (ws_open sd); [done|]. rewrite Hopen. exact Hclosed. }
    simpl in Hp, Hlog, Hm, Hsent, Htl. rewrite (drain_one _ _ _ Hm).
    cbn [run_kont]. unfold startApp, await_leaf, call. rewrite Hclosed'. simpl.
    by rewrite Hlog, Hsent, Hp, Htl, <-app_assoc.
Qed.

Lemma restart_start_needs_session_witness :
  let s := run (ready_trace ++ [RestartApp "plex"; Disconnect]) (init "key" 0) in
  ws_open s = false
  ∧ (∀ hS t vmId, timers s !! hS = Some t → t_task t = TRestartStart vmId 5 →
       (t_due t ≤ now s)%Z →
       let s' := step (Fire hS) s in
       settleLog s' = settleLog s ++ [(PApi 5, Rejected NotConnected)]
       ∧ sent s' = sent s ∧ pendingRequests s' = pendingRequests s
       ∧ timerLog s' = timerLog s)
  ∧ (∀ k sk c n appName r v, sockets s !! k = Some sk →
       sk_state sk = OPEN ∨ sk_state sk = CLOSING →
       pendingRequests s !! c = Some (Promise (PCall n) (KRestartAppStart appName 5)) →
       r_id r = Some c → demuxed r = true → frame_outcome r = Some (Resolved v) →
       let s' := step (SockMessage k (Some r)) s in
       settleLog s'
       = settleLog s ++ [(PCall n, Resolved v); (PApi 5, Rejected NotConnected)]
       ∧ sent s' = sent s ∧ pendingRequests s' = delete c (pendingRequests s)
       ∧ timerLog s' = timerLog s).
Proof.
  split; [vm_compute; reflexivity|].
  exact (restart_start_needs_session "key" 0
           (ready_trace ++ [RestartApp "plex"; Disconnect]) 5 eq_refl).
Defined.

(** The stop of restartApp answered after disconnect(), on the socket that
    is closing: the restart is rejected and app.start is never sent. *)
Example restart_app_after_disconnect :
  let s := run (ready_trace ++ [RestartApp "plex"; Disconnect]) (init "key" 0) in
  let answer := SockMessage 0 (Some (Response (Some "result") (Some (mkid 1100 0)) None None)) in
  settleLog (step answer s)
  = settleLog s ++ [(PCall 6, Resolved None); (PApi 5, Rejected NotConnected)]
  ∧ sent (step answer s) = sent s.
Proof. split; vm_compute; reflexivity. Qed.

Section Dropped.
Context (c : string) (p : promise).

Lemma Tr_run_dropped tr s :
  Inv s → Tr c p s Dropped → Tr c p (run tr s) Dropped.
Proof.
  revert s. induction tr as [|e tr IH]; intros s HI HT; simpl; [done|].
  apply IH; [by apply Inv_step|].
  destruct (Tr_step c p e s Dropped HI HT) as (ϕ & Hprog & HT').
  by destruct Hprog as [->|[? _]].
Qed.
End Dropped.

(** X7. A frame that carries the id of a pending request and a msg that is
    neither 'result' nor 'error' (and no control frame): the entry is
    removed from the table and the promise of the call is never settled, by
    no later frame and not by its timeout: the caller waits for ever. *)
Theorem unknown_frame_abandons_call key t0 tr k sk c p r tr' :
  let s := run tr (init key t0) in
  pendingRequests s !! c = Some p →
  sockets s !! k = Some sk → sk_state sk = OPEN ∨ sk_state sk = CLOSING →
  r_id r = Some c → demuxed r = true → frame_outcome r = None →
  let s' := run (SockMessage k (Some r) :: tr') s in
  pendingRequests s' !! c = None ∧ settlements (ph p) s' = [].
Proof.
  intros s Hc Hk Hst Hid Hdm Ho s'.
  pose proof (Inv_reachable key t0 tr) as HI. fold s in HI.
  pose proof (Tr_pending c p s HI Hc) as HT.
  assert (Tr c p (step (SockMessage k (Some r)) s) Dropped) as HT1.
  { destruct (Tr_step c p (SockMessage k (Some r)) s InFlight HI HT) as (ϕ & Hprog & HT').
    destruct Hprog as [->|[_ [(k' & r' & [= <- <-] & _ & _ & ->)|(? & ? & _)]]]; [|..|done].
    - exfalso. destruct HT' as (_ & Hc' & _). revert Hc'.
      pose proof (delivered key t0 tr k sk c _ r Hc Hk Hst Hid Hdm) as HD.
      cbv zeta in HD. fold s in HD. unfold step.
      set (sd := handle (SockMessage k (Some r)) s) in *. clearbody sd.
      rewrite Ho in HD. destruct HD as (Hp & _ & Hm & _).
      simpl in Hp, Hm.
      assert (microtasks sd = []) as Hm' by (rewrite Hm; apply (microtasks_reachable key t0 tr)).
      destruct (drain_idle sd Hm') as (-> & _). rewrite Hp, lookup_delete_eq. done.
    - unfold of_frame in HT'. by rewrite Ho in HT'. }
  destruct (Tr_run_dropped c p tr' _ (Inv_step _ _ HI) HT1) as (_ & ? & ?).
  done.
Qed.

Lemma unknown_frame_abandons_call_witness :
  let s := run query_trace (init "key" 0) in
  let r := Response (Some "ready") (Some query_id) None None in
  let s' := run [SockMessage 0 (Some r); Tick 30000; Fire 7] s in
  pendingRequests s !! query_id = Some query_promise
  ∧ sockets s !! 0 = Some (Socket OPEN 0 [])
  ∧ pendingRequests s' !! query_id = None ∧ settlements (ph query_promise) s' = [].
Proof.
  split; [vm_compute; reflexivity|]. split; [vm_compute; reflexivity|].
  exact (unknown_frame_abandons_call "key" 0 query_trace 0 (Socket OPEN 0 []) query_id
           query_promise (Response (Some "ready") (Some query_id) None None)
           [Tick 30000; Fire 7] eq_refl eq_refl (or_introl eq_refl) eq_refl eq_refl eq_refl).
Defined.

(** ** Preservation of the login invariant *)

(** No login promise is settled, no login timeout armed, no listener added. *)
Lemma AInv_frame s s' :
  (∀ h t p, timers s' !! h = Some t → t_task t = TAuthTimeout p →
     timers s !! h = Some t) →
  (∀ n, PAuth n ∈ (settleLog s').*1 → PAuth n ∈ (settleLog s).*1) →
  nextHandle s ≤ nextHandle s' →
  (∀ sk' l, sk' ∈ sockets s' → l ∈ sk_listeners sk' →
     ∃ sk, sk ∈ sockets s ∧ l ∈ sk_listeners sk) →
  AInv s → AInv s'.
Proof.
  intros Ht Hl Hn Hsk [A1 A2 A3 A4]. split.
  - intros n Hin. specialize (A1 n (Hl n Hin)). lia.
  - intros sk' l Hin Hlin. destruct (Hsk sk' l Hin Hlin) as (sk & ? & ?).
    destruct (A2 sk l) as (? & ? & ?); [done..|]. repeat split; [done..|lia].
  - intros h t p Hh Htask. eauto.
  - intros h t p Hh Htask Hin.
    destruct (A3 h t p (Ht h t p Hh Htask) Htask) as (n & pc & -> & ->).
    simpl in Hin. apply Hl in Hin. by eapply (A4 (S n) t); eauto.
Qed.

(** The login promise [n] is settled and its timeout, if still armed, is
    removed. *)
Lemma AInv_retire n s s' :
  (∀ h t p, timers s' !! h = Some t → t_task t = TAuthTimeout p →
     timers s !! h = Some t ∧ h ≠ S n) →
  (∀ m, PAuth m ∈ (settleLog s').*1 → PAuth m ∈ (settleLog s).*1 ∨ m = n) →
  n < nextHandle s' → nextHandle s ≤ nextHandle s' →
  (∀ sk' l, sk' ∈ sockets s' → l ∈ sk_listeners sk' →
     ∃ sk, sk ∈ sockets s ∧ l ∈ sk_listeners sk) →
  AInv s → AInv s'.
Proof.
  intros Ht Hl Hlt Hn Hsk [A1 A2 A3 A4]. split.
  - intros m Hin. destruct (Hl m Hin) as [Hold| ->]; [|done].
    specialize (A1 m Hold). lia.
  - intros sk' l Hin Hlin. destruct (Hsk sk' l Hin Hlin) as (sk & ? & ?).
    destruct (A2 sk l) as (? & ? & ?); [done..|]. repeat split; [done..|lia].
  - intros h t p Hh Htask. destruct (Ht h t p Hh Htask) as [Hh' _]. eauto.
  - intros h t p Hh Htask Hin. destruct (Ht h t p Hh Htask) as [Hh' Hne].
    destruct (A3 h t p Hh' Htask) as (m & pc & -> & ->). simpl in Hin.
    destruct (Hl m Hin) as [Hold| ->]; [|done].
    by eapply (A4 (S m) t); eauto.
Qed.

Lemma AInv_same s s' :
  timers s' = timers s → settleLog s' = settleLog s →
  nextHandle s ≤ nextHandle s' → sockets s' = sockets s →
  AInv s → AInv s'.
Proof.
  intros Ht Hl Hn Hs. apply AInv_frame; rewrite ?Ht, ?Hl, ?Hs; eauto.
Qed.

Lemma AInv_send f s : AInv s → AInv (send f s).
Proof. unfold send. destruct (ws s); [|done]. by apply AInv_same. Qed.

Lemma AInv_setTimeout tk d s :
  (∀ p, tk ≠ TAuthTimeout p) → AInv s → AInv (setTimeout tk d s).
Proof.
  intros Htk. unfold setTimeout. apply AInv_frame; simpl; eauto.
  intros h t p Hh Htask. apply lookup_insert_Some in Hh as [[_ <-]|[_ Hh]]; [|done].
  simpl in Htask. by destruct (Htk p).
Qed.

Lemma AInv_clearTimeout h s : AInv s → AInv (clearTimeout h s).
Proof.
  unfold clearTimeout. apply AInv_frame; simpl; eauto.
  intros h' t p Hh _. by apply lookup_delete_Some in Hh as [_ Hh].
Qed.

Lemma elem_of_log_snoc (x h : pref) o (l : list (pref * outcome)) :
  x ∈ (l ++ [(h, o)]).*1 → x ∈ l.*1 ∨ x = h.
Proof.
  rewrite fmap_app, elem_of_app. intros [?|Hin]; [by left|].
  apply list_elem_of_singleton in Hin. by right.
Qed.

Lemma AInv_invoke h o s : (∀ n, h ≠ PAuth n) → AInv s → AInv (invoke h o s).
Proof.
  intros Hh. unfold invoke. apply AInv_frame; simpl; eauto.
  intros n Hin. apply elem_of_log_snoc in Hin as [?|Heq]; [done|].
  by destruct (Hh n).
Qed.

Lemma AInv_settle_call p o s n : ph p = PCall n → AInv s → AInv (settle p o s).
Proof.
  intros Hp HA. destruct (settle_fields p o s) as (Ht & _ & Hn & _ & Hs & Hl & _).
  apply (AInv_same (invoke (ph p) o s)); [done|done|simpl; lia|done|].
  apply AInv_invoke; [|done]. intros m. by rewrite Hp.
Qed.

Lemma AInv_call method params k s : AInv s → AInv (call method params k s).2.
Proof.
  intros HA. unfold call. destruct (ws_open s); [|done]. simpl.
  apply AInv_setTimeout; [done|]. apply AInv_send.
  revert HA. apply AInv_frame; simpl; eauto.
Qed.

Lemma AInv_run_leaf l o s : AInv s → AInv (run_leaf l o s).
Proof.
  intros HA. destruct l as [|h|h|pc]; simpl; [done|..].
  - by apply AInv_invoke.
  - by apply AInv_invoke.
  - destruct o; (apply AInv_invoke; [done|]); [|done].
    by apply (AInv_same s).
Qed.

Lemma AInv_await_leaf l method params k s :
  AInv s → AInv (await_leaf l (call method params k s)).
Proof.
  intros HA. unfold await_leaf.
  pose proof (AInv_call method params k s HA) as HA'.
  destruct (call method params k s) as [[e|p] s']; simpl in *; [|done].
  by apply AInv_run_leaf.
Qed.

Lemma AInv_run_kont k o s : AInv s → AInv (run_kont k o s).
Proof.
  intros HA. destruct k as [l|vmId h|appName h]; simpl.
  - by apply AInv_run_leaf.
  - destruct o; [by apply AInv_setTimeout|by apply AInv_invoke].
  - destruct o; [by apply AInv_await_leaf|by apply AInv_invoke].
Qed.

Lemma AInv_await_kont k method params s :
  AInv s → AInv (await_kont k (call method params k s)).
Proof.
  intros HA. unfold await_kont.
  pose proof (AInv_call method params k s HA) as HA'.
  destruct (call method params k s) as [[e|p] s']; simpl in *; [|done].
  by apply AInv_run_kont.
Qed.

Lemma AInv_drain s : AInv s → AInv (drain s).
Proof.
  intros HA. unfold drain.
  assert (AInv (set_microtasks [] s)) as HA0 by by apply (AInv_same s).
  revert HA0. generalize (set_microtasks [] s).
  induction (microtasks s) as [|[k o] js IH]; intros s0 HA0; simpl; [done|].
  apply IH. by apply AInv_run_kont.
Qed.

Lemma AInv_tryAlternativeAuth s : AInv s → AInv (tryAlternativeAuth s).
Proof.
  intros HA. unfold tryAlternativeAuth. destruct (ws_open s); [|done].
  apply AInv_setTimeout; [done|]. by apply AInv_send.
Qed.

Lemma AInv_handleMessage d s : Inv s → AInv s → AInv (handleMessage d s).
Proof.
  intros HI HA. unfold handleMessage. destruct d as [r|]; [|done].
  destruct (msg_is r "connected"); [done|].
  destruct (msg_is r "failed"); [by apply AInv_tryAlternativeAuth|].
  destruct (msg_is r "pong"); [done|].
  destruct (r_id r) as [id|]; [|done].
  destruct (pendingRequests s !! id) as [p|] eqn:Hid; [|done].
  destruct (Inv_table_call s id p HI Hid) as (_ & (n & Hn & _) & _).
  assert (∀ s0, AInv s0 → AInv (set_pendingRequests (delete id (pendingRequests s0)) s0))
    as Hdel.
  { intros s0. by apply AInv_same. }
  destruct (msg_is r "result"); [by eapply Hdel, AInv_settle_call|].
  destruct (msg_is r "error"); [by eapply Hdel, AInv_settle_call|].
  by apply Hdel.
Qed.

Lemma AInv_off_listener key s : AInv s → AInv (off_listener key s).
Proof.
  unfold off_listener. destruct (ws s) as [k|]; [|done].
  apply AInv_frame; simpl; eauto.
  intros sk' l Hin Hl.
  eapply (elem_of_alter_listeners (filter (λ l0, al_key l0 ≠ key))); [|done..].
  intros ls x Hx. by apply list_elem_of_filter in Hx as [_ ?].
Qed.

Lemma AInv_messageListener l d s :
  login_listener l s → Inv s → AInv s → AInv (messageListener l d s).
Proof.
  intros (Hp & Hto & Hlt) HI HA. unfold messageListener. apply AInv_off_listener.
  assert (AInv (clearTimeout (al_timeout l) (handleMessage d s))) as Hpass.
  { by apply AInv_clearTimeout, AInv_handleMessage. }
  assert (∀ o s0, timers s0 = timers s → settleLog s0 = settleLog s →
            nextHandle s0 = nextHandle s → sockets s0 = sockets s →
            AInv (clearTimeout (al_timeout l) (settle (al_promise l) o s0))) as Hsettle.
  { intros o s0 Ht Hl Hn Hs.
    destruct (settle_fields (al_promise l) o s0) as (Ht' & _ & Hn' & _ & Hs' & Hl' & _).
    apply (AInv_retire (al_key l) s); simpl; rewrite ?Ht', ?Hl', ?Hn', ?Hs', ?Ht, ?Hl, ?Hn, ?Hs;
      [| |done|done|eauto|done].
    - intros h t p Hh _. apply lookup_delete_Some in Hh as [Hne Hh].
      split; [done|]. by rewrite <-Hto.
    - intros m Hin. apply elem_of_log_snoc in Hin as [?|Heq]; [by left|].
      rewrite Hp in Heq. injection Heq as ->. by right. }
  unfold authHandler. destruct d as [r|]; [|done].
  case_bool_decide; [|done].
  destruct (msg_is r "result" && is_true (r_result r)); by apply Hsettle.
Qed.

Lemma login_listener_mono l s s' :
  nextHandle s ≤ nextHandle s' → login_listener l s → login_listener l s'.
Proof. intros Hn (? & ? & ?). repeat split; [done..|lia]. Qed.

Lemma AInv_listeners_foldl d (ls : list authListener) s :
  Forall (λ l, login_listener l s ∧ listener_ok l s) ls → Inv s → AInv s →
  AInv (foldl (λ s' l, messageListener l d s') s ls).
Proof.
  revert s. induction ls as [|l ls IH]; intros s Hls HI HA; simpl; [done|].
  apply Forall_cons in Hls as [[Hl Hok] Hls].
  pose proof (fresh_ext_messageListener l d s) as Hext.
  apply IH.
  - eapply Forall_impl; [done|]. intros l' [Hl' Hok']. simpl in *. split.
    + eapply login_listener_mono; [|done]. by destruct Hext as (? & _).
    + by eapply listener_ok_mono.
  - by apply Inv_messageListener.
  - by apply AInv_messageListener.
Qed.

Lemma AInv_emit_message k d s : Inv s → AInv s → AInv (emit_message k d s).
Proof.
  intros HI HA. unfold emit_message. destruct (sockets s !! k) as [sk|] eqn:Hk; [|done].
  pose proof (fresh_ext_handleMessage d s) as Hext.
  apply AInv_listeners_foldl;
    [|by apply Inv_handleMessage|by apply AInv_handleMessage].
  apply Forall_forall. intros l Hl.
  assert (sk ∈ sockets s) as Hin by by eapply list_elem_of_lookup_2.
  split.
  - eapply login_listener_mono; [by destruct Hext as (? & _)|].
    by apply (ainv_listener s HA sk).
  - eapply listener_ok_mono; [done|]. by apply (inv_listener s HI sk).
Qed.

Lemma elem_of_on_listener l k (sks : list socket) sk' l' :
  sk' ∈ alter (λ sk, set_sk_listeners (sk_listeners sk ++ [l]) sk) k sks →
  l' ∈ sk_listeners sk' →
  l' = l ∨ ∃ sk, sk ∈ sks ∧ l' ∈ sk_listeners sk.
Proof.
  intros Hin Hl'. apply list_elem_of_lookup in Hin as [i Hi].
  destruct (decide (i = k)) as [->|Hne].
  - rewrite list_lookup_alter_eq in Hi.
    destruct (sks !! k) as [sk|] eqn:Hk; [|done]. injection Hi as <-.
    simpl in Hl'. apply elem_of_app in Hl' as [Hl'|Hl'].
    + right. exists sk. split; [by eapply list_elem_of_lookup_2|done].
    + left. by apply list_elem_of_singleton in Hl'.
  - rewrite list_lookup_alter_ne in Hi by done.
    right. exists sk'. split; [by eapply list_elem_of_lookup_2|done].
Qed.

Lemma AInv_authenticate pc s : Inv s → AInv s → AInv (authenticate pc s).
Proof.
  intros HI [A1 A2 A3 A4]. pose proof (Build_AInv s A1 A2 A3 A4) as HA.
  unfold authenticate.
  set (n := nextHandle s). set (pa := Promise (PAuth n) (KLeaf (KConnect pc))).
  destruct (ws_open (set_nextHandle (S n) s)).
  - unfold on_listener, setTimeout, send. simpl.
    destruct (ws s) as [k|] eqn:Hws; simpl; rewrite Hws; simpl.
    + split; simpl.
      * intros m Hin. specialize (A1 m Hin). lia.
      * intros sk' l' Hin Hl'.
        destruct (elem_of_on_listener _ _ _ _ _ Hin Hl') as [->|(sk & ? & ?)].
        { simpl. repeat split; lia. }
        destruct (A2 sk l') as (? & ? & ?); [done..|]. repeat split; [done..|lia].
      * intros h t p Hh Htask. apply lookup_insert_Some in Hh as [[<- <-]|[_ Hh]].
        { simpl in Htask. injection Htask as <-. by exists n, pc. }
        eauto.
      * intros h t p Hh Htask. apply lookup_insert_Some in Hh as [[<- <-]|[_ Hh]].
        { simpl in Htask. injection Htask as <-. simpl. intros Hin.
          specialize (A1 n Hin). unfold n in *. lia. }
        eauto.
    + split; simpl.
      * intros m Hin. specialize (A1 m Hin). lia.
      * intros sk l Hin Hl. destruct (A2 sk l) as (? & ? & ?); [done..|].
        repeat split; [done..|lia].
      * intros h t p Hh Htask. apply lookup_insert_Some in Hh as [[<- <-]|[_ Hh]].
        { simpl in Htask. injection Htask as <-. by exists n, pc. }
        eauto.
      * intros h t p Hh Htask. apply lookup_insert_Some in Hh as [[<- <-]|[_ Hh]].
        { simpl in Htask. injection Htask as <-. simpl. intros Hin.
          specialize (A1 n Hin). unfold n in *. lia. }
        eauto.
  - destruct (settle_fields pa (Rejected NotConnected) (set_nextHandle (S n) s))
      as (Ht & _ & Hn & _ & Hs & Hl & _).
    apply (AInv_retire n s); rewrite ?Ht, ?Hl, ?Hn, ?Hs; simpl; [| |lia|lia|eauto|done].
    + intros h t p Hh _. split; [done|].
      pose proof (inv_timer_lt s HI h t Hh). unfold n. lia.
    + intros m Hin. apply elem_of_log_snoc in Hin as [?|Heq]; [by left|].
      injection Heq as ->. by right.
Qed.

Lemma AInv_connect s : AInv s → AInv (connect s).2.
Proof.
  unfold connect; simpl. apply AInv_frame; simpl; eauto.
  intros sk' l Hin Hl. apply elem_of_app in Hin as [Hin|Hin]; [eauto|].
  apply list_elem_of_singleton in Hin. subst sk'. simpl in Hl.
  by apply elem_of_nil in Hl.
Qed.

Lemma AInv_alter_state (f : socket → socket) k s :
  (∀ sk, sk_listeners (f sk) = sk_listeners sk) →
  AInv s → AInv (set_sockets (alter f k (sockets s)) s).
Proof.
  intros Hf. apply AInv_frame; simpl; eauto.
  intros sk' l Hin Hl.
  destruct (elem_of_alter_state f k (sockets s) sk' Hf Hin) as (sk & ? & Heq).
  exists sk. split; [done|]. by rewrite <-Heq.
Qed.

Lemma AInv_disconnect s : AInv s → AInv (disconnect s).
Proof.
  intros HA. unfold disconnect. destruct (ws s) as [k|]; [|done].
  apply (AInv_same (close_socket k (set_intentionalDisconnect true s))); try done.
  unfold close_socket.
  apply (AInv_alter_state _ k (set_intentionalDisconnect true s)).
  - intros sk. by destruct (sk_state sk).
  - by apply (AInv_same s).
Qed.

Lemma AInv_handleReconnect s : AInv s → AInv (handleReconnect s).
Proof.
  intros HA. unfold handleReconnect.
  destruct (intentionalDisconnect s); [done|].
  destruct (_ <? _); [|done].
  apply AInv_setTimeout; [done|]. by apply (AInv_same s).
Qed.

Lemma AInv_run_task h t s :
  timers s !! h = Some t → Inv s → AInv s →
  AInv (run_task (t_task t) (clearTimeout h s)).
Proof.
  intros Hh HI HA.
  pose proof (AInv_clearTimeout h s HA) as HA'.
  destruct (t_task t) as [pc|pc| |id p|p| |vmId hp] eqn:Htask; simpl.
  - destruct (ws_open _).
    + apply AInv_setTimeout; [done|]. by apply AInv_send.
    + by apply AInv_invoke.
  - apply AInv_authenticate; [|done]. apply Inv_clear_plain; [|done].
    intros t' id p Hh'. rewrite Hh in Hh'. injection Hh' as <-. by rewrite Htask.
  - by apply (AInv_connect (clearTimeout h s)).
  - destruct (inv_req s HI h t id p Hh Htask) as (_ & (n & Hn & _) & _).
    destruct (pendingRequests s !! id) as [p0|]; [|done].
    eapply AInv_settle_call; [done|]. by apply (AInv_same (clearTimeout h s)).
  - destruct (ainv_timer s HA h t p Hh Htask) as (n & pc & -> & ->).
    destruct (settle_fields (Promise (PAuth n) (KLeaf (KConnect pc)))
      (Rejected "Authentication timeout") (clearTimeout (S n) s))
      as (Ht & _ & Hn & _ & Hs & Hl & _).
    apply (AInv_retire n s); rewrite ?Ht, ?Hl, ?Hn, ?Hs; simpl; [| | |lia|eauto|done].
    + intros h' t' p' Hh' _. apply lookup_delete_Some in Hh' as [? ?]. done.
    + intros m Hin. apply elem_of_log_snoc in Hin as [?|Heq]; [by left|].
      injection Heq as ->. by right.
    + pose proof (inv_timer_lt s HI (S n) t Hh). lia.
  - by apply (AInv_same (clearTimeout h s)).
  - by apply AInv_await_leaf.
Qed.

Lemma AInv_api (f : nat → state → state) s :
  (∀ h s', AInv s' → AInv (f h s')) → AInv s → AInv (api f s).
Proof.
  intros Hf HA. unfold api. apply Hf. revert HA. apply AInv_same; simpl; eauto.
Qed.

Lemma AInv_handle e s : Inv s → AInv s → AInv (handle e s).
Proof.
  intros HI HA. destruct e; simpl.
  - by apply (AInv_same s).
  - destruct (timers s !! h) as [t|] eqn:Hh; [|done].
    case_bool_decide; [|done]. by apply AInv_run_task.
  - destruct (sockets s !! k) as [sk|]; [|done].
    case_bool_decide; [|done].
    apply AInv_setTimeout; [done|]. by apply AInv_alter_state.
  - destruct (sockets s !! k) as [sk|]; [|done].
    case_bool_decide; [|done]. by apply AInv_emit_message.
  - destruct (sockets s !! k) as [sk|]; [|done]. by apply AInv_invoke.
  - destruct (sockets s !! k) as [sk|]; [|done].
    case_bool_decide; [done|].
    apply AInv_handleReconnect.
    apply (AInv_same (set_sockets (alter (set_sk_state CLOSED) k (sockets s)) s));
      try done.
    by apply AInv_alter_state.
  - by apply AInv_connect.
  - by apply AInv_disconnect.
  - apply AInv_api; [|done]. intros h s' ?. by apply AInv_await_leaf.
  - apply AInv_api; [|done]. intros h s' ?. by apply AInv_await_leaf.
  - apply AInv_api; [|done]. intros h s' ?. by apply AInv_await_kont.
  - apply AInv_api; [|done]. intros h s' ?. by apply AInv_await_kont.
  - apply AInv_api; [|done]. intros h s' ?. by apply AInv_await_leaf.
  - apply AInv_api; [|done]. intros h s' ?. by apply AInv_await_leaf.
  - apply AInv_api; [|done]. intros h s' ?. by apply AInv_await_kont.
  - apply AInv_api; [|done]. intros h s' ?. by apply AInv_await_kont.
Qed.

Lemma AInv_reachable key t0 tr : AInv (run tr (init key t0)).
Proof.
  induction tr as [|e tr IH] using rev_ind.
  - split; simpl; try done.
    + intros n Hin. by apply elem_of_nil in Hin.
    + intros sk l Hin. by apply elem_of_nil in Hin.
  - unfold run in *. rewrite foldl_app. simpl.
    apply AInv_drain, AInv_handle; [apply Inv_reachable|done].
Qed.

(** ** The outcome of a login exchange *)

(** A frame whose id is not the id of a pending request settles nothing:
    [handleMessage] ignores it or, for a 'failed' frame, starts the
    fallback. *)
Lemma handleMessage_unknown r s :
  (∀ id, r_id r = Some id → pendingRequests s !! id = None) →
  let s0 := handleMessage (Some r) s in
  settleLog s0 = settleLog s ∧ microtasks s0 = microtasks s
  ∧ authenticated s0 = authenticated s
  ∧ reconnectAttempts s0 = reconnectAttempts s
  ∧ ws s0 = ws s ∧ sockets s0 = sockets s
  ∧ pendingRequests s0 = pendingRequests s
  ∧ (msg_is r "failed" = false → s0 = s).
Proof.
  intros Hid. unfold handleMessage.
  destruct (msg_is r "connected"); [done|].
  destruct (msg_is r "failed").
  { unfold tryAlternativeAuth. destruct (ws_open s); [|done].
    unfold setTimeout, send. destruct (ws s) eqn:E; simpl; repeat split; done. }
  destruct (msg_is r "pong"); [done|].
  destruct (r_id r) as [id|]; [|done]. by rewrite (Hid id eq_refl).
Qed.

(** The frame that carries the id of the one login call outstanding on a
    socket, while the timeout of that call is armed. *)
Lemma login_frame s k sk l t r :
  Inv s → AInv s → microtasks s = [] →
  sockets s !! k = Some sk → sk_state sk = OPEN ∨ sk_state sk = CLOSING →
  sk_listeners sk = [l] →
  timers s !! al_timeout l = Some t → t_task t = TAuthTimeout (al_promise l) →
  r_id r = Some (al_id l) →
  let s' := step (SockMessage k (Some r)) s in
  ∃ pc, pk (al_promise l) = KLeaf (KConnect pc)
    ∧ if msg_is r "result" && is_true (r_result r) then
        settleLog s'
        = settleLog s ++ [(ph (al_promise l), Resolved None); (PConnect pc, Resolved None)]
        ∧ authenticated s' = true ∧ reconnectAttempts s' = 0
        ∧ isConnected s' = ws_open s ∧ sent s' = sent s
      else
        let e := "Authentication failed: " +:+ message_or "Invalid credentials" r in
        settleLog s'
        = settleLog s ++ [(ph (al_promise l), Rejected e); (PConnect pc, Rejected e)]
        ∧ authenticated s' = authenticated s
        ∧ reconnectAttempts s' = reconnectAttempts s.
Proof.
  intros HI HA Hmt Hk Hst Hls Hto Htask Hid s'.
  destruct (ainv_timer s HA _ t _ Hto Htask) as (n & pc & Hton & Hp).
  pose proof (ainv_armed s HA _ t _ Hto Htask) as Hunset.
  exists pc. split; [by rewrite Hp|].
  assert (sk ∈ sockets s) as Hin by by eapply list_elem_of_lookup_2.
  assert (l ∈ sk_listeners sk) as Hlin by (rewrite Hls; apply list_elem_of_here).
  destruct (inv_listener_id s HI sk l Hin Hlin) as [tm Htm].
  set (s0 := handleMessage (Some r) s).
  destruct (handleMessage_unknown r s) as (Hl0 & Hm0 & Ha0 & Hr0 & Hw0 & Hs0 & _ & Hsame).
  { intros id. rewrite Hid, Htm. intros [= <-].
    destruct (pendingRequests s !! auth_id tm) as [p|] eqn:Hpend; [|done].
    destruct (Inv_table_call s _ p HI Hpend) as ((tm' & m & Heq & _) & _).
    by destruct (auth_id_ne_mkid tm tm' m). }
  fold s0 in Hl0, Hm0, Ha0, Hr0, Hw0, Hs0, Hsame.
  assert (ws_open s0 = ws_open s) as Ho0 by (unfold ws_open; by rewrite Hw0, Hs0).
  assert (handle (SockMessage k (Some r)) s = messageListener l (Some r) s0) as Hh.
  { simpl. rewrite Hk, bool_decide_true by done. unfold emit_message.
    by rewrite Hk, Hls. }
  unfold s', step. rewrite Hh. unfold messageListener.
  pose proof (still_retire (al_key l) (al_timeout l) (authHandler l (Some r) s0)) as Hst'.
  set (sd := off_listener (al_key l) (clearTimeout (al_timeout l)
               (authHandler l (Some r) s0))) in *. clearbody sd.
  destruct Hst' as (_ & Hl1 & Hm1 & Hsent1 & _ & _ & Ho1 & _ & _ & _ & Ha1 & Hr1 & _).
  assert (∀ o s1, settleLog s1 = settleLog s0 → microtasks s1 = microtasks s0 →
            settleLog (settle (al_promise l) o s1) = settleLog s ++ [(ph (al_promise l), o)]
            ∧ microtasks (settle (al_promise l) o s1) = [(KLeaf (KConnect pc), o)])
    as Hsettle.
  { intros o s1 Hl' Hm'. unfold settle, is_settled, invoke. simpl.
    rewrite Hl', Hl0, Hm', Hm0, Hmt. rewrite bool_decide_false by done.
    simpl. by rewrite Hp. }
  revert Hl1 Hm1 Hsent1 Ho1 Ha1 Hr1. unfold authHandler. rewrite Hid.
  rewrite bool_decide_true by done.
  destruct (msg_is r "result" && is_true (r_result r)) eqn:Hok.
  - destruct (Hsettle (Resolved None) (set_authenticated true s0)) as [Hl2 Hm2]; [done..|].
    destruct (settle_fields (al_promise l) (Resolved None) (set_authenticated true s0))
      as (_ & _ & _ & _ & Hs2 & _ & Hw2 & Ha2 & _ & Hsent2 & _).
    rewrite Hl2, Hm2, Ha2, Hsent2. intros Hl1 Hm1 Hsent1 Ho1 Ha1 _.
    rewrite (drain_one _ _ _ Hm1). cbn [run_kont run_leaf].
    split; [simpl; by rewrite Hl1, <-app_assoc|].
    split; [exact Ha1|]. split; [done|]. split.
    + replace (isConnected _) with (ws_open sd && authenticated sd) by done.
      rewrite Ha1, andb_true_r, Ho1, <-Ho0.
      unfold ws_open. by rewrite Hw2, Hs2.
    + simpl. rewrite Hsent1. simpl. rewrite Hsame; [done|].
      apply andb_true_iff in Hok as [Hmsg _]. unfold msg_is in *.
      apply bool_decide_eq_true in Hmsg. rewrite Hmsg. by apply bool_decide_eq_false.
  - match goal with |- context [settle _ (Rejected ?e) s0] =>
      destruct (Hsettle (Rejected e) s0) as [Hl2 Hm2]; [done..|];
      destruct (settle_fields (al_promise l) (Rejected e) s0)
        as (_ & _ & _ & _ & _ & _ & _ & Ha2 & Hr2 & _) end.
    rewrite Hl2, Hm2, Ha2, Hr2. intros Hl1 Hm1 _ _ Ha1 Hr1.
    rewrite (drain_one _ _ _ Hm1). cbn [run_kont run_leaf].
    split; [simpl; by rewrite Hl1, <-app_assoc|].
    split; [by rewrite <-Ha0|by rewrite <-Hr0].
Qed.





(** ** A login exchange that nothing can settle any more *)

Lemma keeps_refl n s : keeps n s s.
Proof. split; [apply fresh_ext_refl|]. split; [eauto|done]. Qed.

Lemma keeps_trans n s1 s2 s3 : keeps n s1 s2 → keeps n s2 s3 → keeps n s1 s3.
Proof.
  intros (He1 & Hl1 & Hs1) (He2 & Hl2 & Hs2).
  split; [by eapply fresh_ext_trans|]. split; [|congruence].
  intros sk' l Hin Hlin. destruct (Hl2 sk' l Hin Hlin) as [(sk & ? & ?)|Hnew]; [eauto|].
  right. destruct He1 as (? & _). lia.
Qed.

Lemma keeps_idle n s s' : keeps n s s' → login_idle n s → login_idle n s'.
Proof.
  intros ((Hn & _ & Ht & _) & Hl & _) (Hlt & Hkeys & Hnone).
  split; [lia|]. split.
  - intros sk' l Hin Hlin. destruct (Hl sk' l Hin Hlin) as [(sk & ? & ?)|Hnew]; [eauto|lia].
  - destruct (timers s' !! S n) as [t|] eqn:Hh; [|done].
    destruct (Ht _ _ Hh) as [Hold|[Hnew _]]; [congruence|lia].
Qed.

(** Sockets untouched, nothing settled. *)
Lemma keeps_same n s s' :
  fresh_ext s s' → sockets s' = sockets s → settleLog s' = settleLog s → keeps n s s'.
Proof.
  intros He Hs Hl. split; [done|]. unfold settlements. rewrite Hs, Hl. eauto.
Qed.

Lemma settlements_other x h o s :
  h ≠ x → settlements x (invoke h o s) = settlements x s.
Proof.
  intros Hne. unfold settlements, invoke. simpl.
  rewrite filter_app, filter_cons_False by (simpl; congruence).
  by rewrite filter_nil, app_nil_r.
Qed.

Lemma keeps_invoke n h o s : h ≠ PAuth n → keeps n s (invoke h o s).
Proof.
  intros Hne. split; [apply fresh_ext_invoke|]. split; [eauto|].
  by apply settlements_other.
Qed.

Lemma keeps_settle n p o s : ph p ≠ PAuth n → keeps n s (settle p o s).
Proof.
  intros Hne. destruct (settle_fields p o s) as (_ & _ & _ & _ & Hs & Hl & _).
  split; [apply fresh_ext_settle|]. rewrite Hs. split; [eauto|].
  unfold settlements. rewrite Hl, filter_app, filter_cons_False by (simpl; congruence).
  by rewrite filter_nil, app_nil_r.
Qed.

Lemma keeps_send n f s : keeps n s (send f s).
Proof. apply keeps_same; [apply fresh_ext_send|unfold send; by destruct (ws s)..]. Qed.

Lemma keeps_setTimeout n tk d s :
  plain_task tk ∨ (∃ p, tk = TAuthTimeout p) → keeps n s (setTimeout tk d s).
Proof. intros Htk. apply keeps_same; [by apply fresh_ext_setTimeout|done..]. Qed.

Lemma keeps_clearTimeout n h s : keeps n s (clearTimeout h s).
Proof. apply keeps_same; [apply fresh_ext_clearTimeout|done..]. Qed.

Lemma keeps_call n method params k s : keeps n s (call method params k s).2.
Proof.
  apply keeps_same; [apply fresh_ext_call|..]; unfold call;
    (destruct (ws_open s); [|done]); unfold send, setTimeout; simpl; by destruct (ws s).
Qed.

Lemma keeps_run_leaf n l o s : keeps n s (run_leaf l o s).
Proof.
  destruct l as [|h|h|pc]; simpl; [apply keeps_refl|by apply keeps_invoke..|].
  destruct o; [|by apply keeps_invoke].
  eapply keeps_trans; [|by apply keeps_invoke].
  apply keeps_same; [by apply fresh_ext_same|done..].
Qed.

Lemma keeps_await_leaf n l method params k s :
  keeps n s (await_leaf l (call method params k s)).
Proof.
  unfold await_leaf. pose proof (keeps_call n method params k s) as Hc.
  destruct (call method params k s) as [[e|p] s']; simpl in *; [|done].
  eapply keeps_trans; [done|apply keeps_run_leaf].
Qed.

Lemma keeps_run_kont n k o s : keeps n s (run_kont k o s).
Proof.
  destruct k as [l|vmId h|appName h]; simpl.
  - apply keeps_run_leaf.
  - destruct o; [by apply keeps_setTimeout; left|by apply keeps_invoke].
  - destruct o; [apply keeps_await_leaf|by apply keeps_invoke].
Qed.

Lemma keeps_await_kont n k method params s :
  keeps n s (await_kont k (call method params k s)).
Proof.
  unfold await_kont. pose proof (keeps_call n method params k s) as Hc.
  destruct (call method params k s) as [[e|p] s']; simpl in *; [|done].
  eapply keeps_trans; [done|apply keeps_run_kont].
Qed.

Lemma keeps_drain n s : keeps n s (drain s).
Proof.
  unfold drain.
  assert (keeps n s (set_microtasks [] s)) as H0.
  { apply keeps_same; [by apply fresh_ext_same|done..]. }
  revert H0. generalize (set_microtasks [] s).
  induction (microtasks s) as [|[k o] js IH]; intros s0 H0; simpl; [done|].
  apply IH. eapply keeps_trans; [done|apply keeps_run_kont].
Qed.

Lemma keeps_tryAlternativeAuth n s : keeps n s (tryAlternativeAuth s).
Proof.
  unfold tryAlternativeAuth. destruct (ws_open s); [|apply keeps_refl].
  eapply keeps_trans; [apply keeps_send|by apply keeps_setTimeout; left].
Qed.

Lemma keeps_handleMessage n d s : Inv s → keeps n s (handleMessage d s).
Proof.
  intros HI. unfold handleMessage. destruct d as [r|]; [|apply keeps_refl].
  destruct (msg_is r "connected"); [apply keeps_refl|].
  destruct (msg_is r "failed"); [apply keeps_tryAlternativeAuth|].
  destruct (msg_is r "pong"); [apply keeps_refl|].
  destruct (r_id r) as [id|]; [|apply keeps_refl].
  destruct (pendingRequests s !! id) as [p|] eqn:Hid; [|apply keeps_refl].
  destruct (Inv_table_call s id p HI Hid) as (_ & (m & Hm & _) & _).
  assert (∀ s0, keeps n s0 (set_pendingRequests (delete id (pendingRequests s0)) s0))
    as Hdel.
  { intros s0. apply keeps_same; [|done..]. apply fresh_ext_sub; simpl; try done.
    intros id' p' Hid'. by apply lookup_delete_Some in Hid' as [_ ?]. }
  assert (ph p ≠ PAuth n) as Hne by by rewrite Hm.
  destruct (msg_is r "result");
    [eapply keeps_trans; [by apply keeps_settle|apply Hdel]|].
  destruct (msg_is r "error");
    [eapply keeps_trans; [by apply keeps_settle|apply Hdel]|].
  apply Hdel.
Qed.

Lemma keeps_off_listener n key s : keeps n s (off_listener key s).
Proof.
  split; [apply fresh_ext_off_listener|].
  unfold off_listener. destruct (ws s) as [k|]; [|split; [eauto|done]].
  split; [|done]. simpl. intros sk' l Hin Hl. left.
  eapply (elem_of_alter_listeners (filter (λ l0, al_key l0 ≠ key))); [|done..].
  intros ls x Hx. by apply list_elem_of_filter in Hx as [_ ?].
Qed.

Lemma keeps_messageListener n l d s :
  ph (al_promise l) ≠ PAuth n → Inv s → keeps n s (messageListener l d s).
Proof.
  intros Hne HI. unfold messageListener.
  eapply keeps_trans; [|apply keeps_off_listener].
  eapply keeps_trans; [|apply keeps_clearTimeout].
  unfold authHandler. destruct d as [r|]; [|by apply keeps_handleMessage].
  case_bool_decide; [|by apply keeps_handleMessage].
  destruct (msg_is r "result" && is_true (r_result r)); [|by apply keeps_settle].
  eapply keeps_trans; [|by apply keeps_settle].
  apply keeps_same; [by apply fresh_ext_same|done..].
Qed.

Lemma keeps_listeners_foldl n d (ls : list authListener) s :
  Forall (λ l, ph (al_promise l) ≠ PAuth n ∧ listener_ok l s) ls → Inv s →
  keeps n s (foldl (λ s' l, messageListener l d s') s ls).
Proof.
  revert s. induction ls as [|l ls IH]; intros s Hls HI; simpl; [apply keeps_refl|].
  apply Forall_cons in Hls as [[Hl Hok] Hls].
  eapply keeps_trans; [by apply keeps_messageListener|]. apply IH.
  - eapply Forall_impl; [done|]. intros l' [? ?]. split; [done|].
    eapply listener_ok_mono; [apply fresh_ext_messageListener|done].
  - by apply Inv_messageListener.
Qed.

Lemma keeps_emit_message n k d s :
  Inv s → AInv s → login_idle n s → keeps n s (emit_message k d s).
Proof.
  intros HI HA (_ & Hkeys & _). unfold emit_message.
  destruct (sockets s !! k) as [sk|] eqn:Hk; [|apply keeps_refl].
  eapply keeps_trans; [by apply keeps_handleMessage|].
  apply keeps_listeners_foldl; [|by apply Inv_handleMessage].
  apply Forall_forall. intros l Hl.
  assert (sk ∈ sockets s) as Hin by by eapply list_elem_of_lookup_2.
  split.
  - destruct (ainv_listener s HA sk l Hin Hl) as (-> & _). intros [= ?].
    by eapply Hkeys.
  - eapply listener_ok_mono; [apply fresh_ext_handleMessage|].
    by apply (inv_listener s HI sk).
Qed.

Lemma keeps_authenticate n pc s : n < nextHandle s → keeps n s (authenticate pc s).
Proof.
  intros Hlt. split; [apply fresh_ext_authenticate|]. unfold authenticate.
  destruct (ws_open _).
  - unfold on_listener, setTimeout, send. simpl.
    destruct (ws s) as [k|] eqn:Hws; simpl; rewrite Hws; simpl; [|split; [eauto|done]].
    split; [|done]. intros sk' l' Hin Hl'.
    destruct (elem_of_on_listener _ _ _ _ _ Hin Hl') as [->|?]; [right; simpl; lia|by left].
  - match goal with |- context [settle ?p ?o ?s0] =>
      destruct (keeps_settle n p o s0) as (_ & Hl & Hs) end.
    { simpl. intros [= ?]. lia. }
    split; [|done]. intros sk' l Hin Hlin.
    destruct (Hl sk' l Hin Hlin) as [?|?]; [by left|right; simpl in *; lia].
Qed.

Lemma keeps_connect n s : keeps n s (connect s).2.
Proof.
  split; [apply fresh_ext_connect|]. unfold connect; simpl. split; [|done].
  intros sk' l Hin Hl. apply elem_of_app in Hin as [Hin|Hin]; [left; eauto|].
  apply list_elem_of_singleton in Hin. subst sk'. simpl in Hl.
  by apply elem_of_nil in Hl.
Qed.

Lemma keeps_alter_state n (f : socket → socket) k s :
  (∀ sk, sk_listeners (f sk) = sk_listeners sk) →
  keeps n s (set_sockets (alter f k (sockets s)) s).
Proof.
  intros Hf. split; [by apply fresh_ext_same|]. split; [|done]. simpl.
  intros sk' l Hin Hl. left.
  destruct (elem_of_alter_state f k (sockets s) sk' Hf Hin) as (sk & ? & Heq).
  exists sk. split; [done|]. by rewrite <-Heq.
Qed.

Lemma keeps_disconnect n s : keeps n s (disconnect s).
Proof.
  unfold disconnect. destruct (ws s) as [k|]; [|apply keeps_refl].
  eapply keeps_trans; [|apply keeps_same; [by apply fresh_ext_same|done..]].
  eapply keeps_trans; [|apply keeps_same; [by apply fresh_ext_same|done..]].
  unfold close_socket.
  eapply keeps_trans;
    [|apply (keeps_alter_state n _ k (set_intentionalDisconnect true s));
      intros sk; by destruct (sk_state sk)].
  apply keeps_same; [by apply fresh_ext_same|done..].
Qed.

Lemma keeps_handleReconnect n s : keeps n s (handleReconnect s).
Proof.
  apply keeps_same; [apply fresh_ext_handleReconnect|..]; unfold handleReconnect;
    destruct (intentionalDisconnect s); try done; by destruct (_ <? _).
Qed.

Lemma keeps_run_task n h t s :
  timers s !! h = Some t → Inv s → AInv s → login_idle n s →
  keeps n s (run_task (t_task t) (clearTimeout h s)).
Proof.
  intros Hh HI HA (Hlt & _ & Hnone).
  eapply keeps_trans; [apply keeps_clearTimeout|].
  destruct (t_task t) as [pc|pc| |id p|p| |vmId hp] eqn:Htask; simpl.
  - destruct (ws_open _); [|by apply keeps_invoke].
    eapply keeps_trans; [apply keeps_send|by apply keeps_setTimeout; left].
  - apply keeps_authenticate. simpl. lia.
  - apply (keeps_connect n (clearTimeout h s)).
  - destruct (inv_req s HI h t id p Hh Htask) as (_ & (m & Hm & _) & _).
    destruct (pendingRequests s !! id) as [p0|]; [|apply keeps_refl].
    eapply keeps_trans; [|apply keeps_settle; by rewrite Hm].
    apply keeps_same; [|done..]. apply fresh_ext_sub; simpl; try done.
    intros id' p' Hid'. by apply lookup_delete_Some in Hid' as [_ ?].
  - destruct (ainv_timer s HA h t p Hh Htask) as (m & pc & -> & ->).
    apply keeps_settle. simpl. intros [= ->]. congruence.
  - apply keeps_same; [by apply fresh_ext_same|done..].
  - apply keeps_await_leaf.
Qed.

Lemma keeps_api n (f : nat → state → state) s :
  (∀ h s', keeps n s' (f h s')) → keeps n s (api f s).
Proof.
  intros Hf. unfold api. eapply keeps_trans; [|apply Hf].
  apply keeps_same; [|done..]. apply fresh_ext_same; simpl; try done. lia.
Qed.

Lemma keeps_handle n e s :
  Inv s → AInv s → login_idle n s → keeps n s (handle e s).
Proof.
  intros HI HA Hidle. destruct e; simpl.
  - apply keeps_same; [by apply fresh_ext_same|done..].
  - destruct (timers s !! h) as [t|] eqn:Hh; [|apply keeps_refl].
    case_bool_decide; [|apply keeps_refl]. by apply keeps_run_task.
  - destruct (sockets s !! k) as [sk|]; [|apply keeps_refl].
    case_bool_decide; [|apply keeps_refl].
    eapply keeps_trans;
      [by apply (keeps_alter_state n (set_sk_state OPEN) k s)
      |by apply keeps_setTimeout; left].
  - destruct (sockets s !! k) as [sk|]; [|apply keeps_refl].
    case_bool_decide; [|apply keeps_refl]. by apply keeps_emit_message.
  - destruct (sockets s !! k) as [sk|]; [|apply keeps_refl]. by apply keeps_invoke.
  - destruct (sockets s !! k) as [sk|]; [|apply keeps_refl].
    case_bool_decide; [apply keeps_refl|].
    eapply keeps_trans; [|apply keeps_handleReconnect].
    eapply keeps_trans; [by apply (keeps_alter_state n (set_sk_state CLOSED) k s)|].
    apply keeps_same; [by apply fresh_ext_same|done..].
  - apply keeps_connect.
  - apply keeps_disconnect.
  - apply keeps_api. intros. apply keeps_await_leaf.
  - apply keeps_api. intros. apply keeps_await_leaf.
  - apply keeps_api. intros. apply keeps_await_kont.
  - apply keeps_api. intros. apply keeps_await_kont.
  - apply keeps_api. intros. apply keeps_await_leaf.
  - apply keeps_api. intros. apply keeps_await_leaf.
  - apply keeps_api. intros. apply keeps_await_kont.
  - apply keeps_api. intros. apply keeps_await_kont.
Qed.

Lemma AInv_step e s : Inv s → AInv s → AInv (step e s).
Proof. intros HI HA. by apply AInv_drain, AInv_handle. Qed.

Lemma keeps_run n tr s :
  Inv s → AInv s → login_idle n s → keeps n s (run tr s).
Proof.
  revert s. induction tr as [|e tr IH]; intros s HI HA Hidle; simpl; [apply keeps_refl|].
  assert (keeps n s (step e s)) as Hstep.
  { eapply keeps_trans; [by apply keeps_handle|apply keeps_drain]. }
  eapply keeps_trans; [done|].
  apply IH; [by apply Inv_step|by apply AInv_step|by eapply keeps_idle].
Qed.

Lemma step_idle e s : microtasks (handle e s) = [] → step e s = handle e s.
Proof.
  intros Hm. unfold step, drain. rewrite Hm. simpl. by apply set_microtasks_id.
Qed.

Lemma handleMessage_session d s :
  ws (handleMessage d s) = ws s ∧ sockets (handleMessage d s) = sockets s.
Proof.
  unfold handleMessage. destruct d as [r|]; [|done].
  destruct (msg_is r "connected"); [done|].
  destruct (msg_is r "failed").
  { unfold tryAlternativeAuth. destruct (ws_open s); [|done].
    unfold setTimeout, send. by destruct (ws s) eqn:E. }
  destruct (msg_is r "pong"); [done|].
  destruct (r_id r) as [id|]; [|done].
  destruct (pendingRequests s !! id) as [p|]; [|done].
  assert (∀ o, ws (settle p o s) = ws s ∧ sockets (settle p o s) = sockets s) as Hs.
  { intros o. by destruct (settle_fields p o s) as (_ & _ & _ & _ & ? & _ & ? & _). }
  destruct (msg_is r "result"); [apply Hs|].
  destruct (msg_is r "error"); [apply Hs|done].
Qed.

(** The timer that connect() arms after the connect frame fires on an open
    session: the login call goes out, its timeout is armed and its
    one-shot listener registered. *)
Lemma fire_authenticate h t pc k s :
  microtasks s = [] →
  timers s !! h = Some t → t_task t = TAuthenticate pc → (t_due t ≤ now s)%Z →
  ws s = Some k → ws_open s = true →
  let n := nextHandle s in
  let pa := Promise (PAuth n) (KLeaf (KConnect pc)) in
  let l := AuthListener n (auth_id (now s)) pa (S n) in
  step (Fire h) s
  = set_sockets
      (alter (λ sk, set_sk_listeners (sk_listeners sk ++ [l]) sk) k (sockets s))
      (set_timerLog (timerLog s ++ [(10000%Z, TAuthTimeout pa)])
         (set_timers
            (<[S n := Timer (now s + 10000) (TAuthTimeout pa)]> (delete h (timers s)))
            (set_nextHandle (S (S n))
               (set_sent
                  (sent s ++ [(k, FMethod (auth_id (now s)) "auth.login_with_api_key"
                                    [JStr (apiKey s)])]) s)))).
Proof.
  intros Hmt Hh Htask Hdue Hws Hopen n pa l.
  assert (handle (Fire h) s = authenticate pc (clearTimeout h s)) as Hh'.
  { simpl. rewrite Hh, bool_decide_true by done. by rewrite Htask. }
  assert (authenticate pc (clearTimeout h s)
          = set_sockets
              (alter (λ sk, set_sk_listeners (sk_listeners sk ++ [l]) sk) k (sockets s))
              (set_timerLog (timerLog s ++ [(10000%Z, TAuthTimeout pa)])
                 (set_timers
                    (<[S n := Timer (now s + 10000) (TAuthTimeout pa)]> (delete h (timers s)))
                    (set_nextHandle (S (S n))
                       (set_sent
                          (sent s ++ [(k, FMethod (auth_id (now s))
                                            "auth.login_with_api_key" [JStr (apiKey s)])])
                          s))))) as Hauth.
  { unfold authenticate.
    replace (ws_open (set_nextHandle (S (nextHandle (clearTimeout h s))) (clearTimeout h s)))
      with (ws_open s) by done.
    rewrite Hopen. unfold on_listener, setTimeout, send. simpl. rewrite Hws. simpl.
    by rewrite Hws. }
  rewrite step_idle; rewrite Hh', Hauth; [done|]. simpl. exact Hmt.
Qed.

Lemma sockets_run_kont k o s : sockets (run_kont k o s) = sockets s.
Proof.
  assert (∀ method params kt s0, sockets (call method params kt s0).2 = sockets s0) as Hcall.
  { intros. unfold call. destruct (ws_open s0); [|done].
    unfold setTimeout, send. simpl. by destruct (ws s0). }
  assert (∀ l o' s0, sockets (run_leaf l o' s0) = sockets s0) as Hleaf.
  { intros [|h|h|pc] o' s0; simpl; try done. by destruct o'. }
  destruct k as [l|vmId h|appName h]; simpl; [apply Hleaf|by destruct o|].
  destruct o; [|done]. unfold startApp, await_leaf.
  specialize (Hcall "app.start" (Some [JStr appName]) (KLeaf (KApiVoid h)) s).
  destruct (call _ _ _ s) as [[e|p] s']; simpl in *; done.
Qed.

Lemma sockets_drain s : sockets (drain s) = sockets s.
Proof.
  unfold drain. change (sockets s) with (sockets (set_microtasks [] s)).
  generalize (set_microtasks [] s).
  induction (microtasks s) as [|[k o] js IH]; intros s0; simpl; [done|].
  by rewrite IH, sockets_run_kont.
Qed.

Lemma timers_retire key h s :
  timers (off_listener key (clearTimeout h s)) = delete h (timers s).
Proof. unfold off_listener, clearTimeout. simpl. by destruct (ws s). Qed.

(** X10. The listener of a login exchange is one-shot. With the login call just
    sent on the current socket and no other exchange outstanding there,
    whatever is delivered next on that socket, if it is not a frame with
    the id of the login call (another frame, or text that does not parse),
    removes the listener and cancels the timeout. From then on nothing
    settles the login promise: connect() does not return from awaiting
    authenticate(), not even on a later answer to the login call. *)
Theorem login_one_shot key t0 tr h t pc k sk d tr' :
  let s := run tr (init key t0) in
  timers s !! h = Some t → t_task t = TAuthenticate pc → (t_due t ≤ now s)%Z →
  ws s = Some k → sockets s !! k = Some sk → sk_state sk = OPEN →
  sk_listeners sk = [] →
  (∀ r, d = Some r → r_id r ≠ Some (auth_id (now s))) →
  let n := nextHandle s in
  let pa := Promise (PAuth n) (KLeaf (KConnect pc)) in
  let s1 := step (Fire h) s in
  let s2 := step (SockMessage k d) s1 in
  timers s1 !! S n = Some (Timer (now s + 10000) (TAuthTimeout pa))
  ∧ sockets s1 !! k
    = Some (Socket OPEN (sk_connect sk) [AuthListener n (auth_id (now s)) pa (S n)])
  ∧ timers s2 !! S n = None
  ∧ sockets s2 !! k = Some (Socket OPEN (sk_connect sk) [])
  ∧ settlements (PAuth n) (run tr' s2) = [].
Proof.
  intros s Hh Htask Hdue Hws Hk Hst Hls Hd n pa s1 s2.
  pose proof (Inv_reachable key t0 tr) as HI. fold s in HI.
  pose proof (AInv_reachable key t0 tr) as HA. fold s in HA.
  pose proof (microtasks_reachable key t0 tr) as Hmt. fold s in Hmt.
  assert (ws_open s = true) as Hopen.
  { unfold ws_open. rewrite Hws, Hk. by apply bool_decide_eq_true. }
  set (l := AuthListener n (auth_id (now s)) pa (S n)).
  pose proof (fire_authenticate h t pc k s Hmt Hh Htask Hdue Hws Hopen) as Hs1.
  cbv zeta in Hs1. fold n pa l s1 in Hs1.
  pose proof (Inv_step (Fire h) s HI) as HI1. fold s1 in HI1.
  pose proof (AInv_step (Fire h) s HI HA) as HA1. fold s1 in HA1.
  assert (sockets s1 !! k = Some (Socket OPEN (sk_connect sk) [l])) as Hk1.
  { rewrite Hs1. simpl. rewrite list_lookup_alter_eq, Hk. simpl.
    destruct sk as [st c ls]. simpl in *. by subst. }
  assert (timers s1 !! S n = Some (Timer (now s + 10000) (TAuthTimeout pa))) as Hto1.
  { rewrite Hs1. simpl. apply lookup_insert_eq. }
  assert (ws s1 = Some k) as Hws1 by by rewrite Hs1.
  assert (nextHandle s1 = S (S n)) as Hn1 by by rewrite Hs1.
  assert (settlements (PAuth n) s1 = []) as Hlog1.
  { apply settlements_unsettled. rewrite Hs1. simpl. intros Hin.
    pose proof (ainv_log s HA n Hin). unfold n in *. lia. }
  (* the frame, seen first by handleMessage and then by the listener *)
  set (sa := handleMessage d s1).
  pose proof (Inv_handleMessage d s1 HI1) as HIa. fold sa in HIa.
  destruct (handleMessage_session d s1) as [Hwsa Hska]. fold sa in Hwsa, Hska.
  pose proof (keeps_handleMessage n d s1 HI1) as Hka. fold sa in Hka.
  set (sb := authHandler l d sa).
  assert (sb = handleMessage d sa) as Hsb.
  { unfold sb, authHandler. destruct d as [r|]; [|done].
    rewrite bool_decide_false; [done|]. simpl. by apply Hd. }
  destruct (handleMessage_session d sa) as [Hwsb Hskb]. rewrite <-Hsb in Hwsb, Hskb.
  pose proof (keeps_handleMessage n d sa HIa) as Hkb. rewrite <-Hsb in Hkb.
  set (sd := off_listener n (clearTimeout (S n) sb)).
  assert (handle (SockMessage k d) s1 = sd) as Hhd.
  { cbn [handle]. rewrite Hk1. rewrite bool_decide_true by (by left).
    unfold emit_message. by rewrite Hk1. }
  assert (sockets sd
          = alter (λ sk0, set_sk_listeners
                            (filter (λ l0, al_key l0 ≠ n) (sk_listeners sk0)) sk0)
              k (sockets s1)) as Hskd.
  { unfold sd, off_listener.
    replace (ws (clearTimeout (S n) sb)) with (ws sb) by done.
    rewrite Hwsb, Hwsa, Hws1. simpl. by rewrite Hskb, Hska. }
  assert (sockets sd !! k = Some (Socket OPEN (sk_connect sk) [])) as Hkd.
  { rewrite Hskd, list_lookup_alter_eq, Hk1. simpl.
    rewrite filter_cons_False by (simpl; tauto). done. }
  assert (timers sd !! S n = None) as Htod.
  { unfold sd. rewrite timers_retire. apply lookup_delete_eq. }
  assert (keeps n s1 sd) as Hkd'.
  { eapply keeps_trans; [exact Hka|]. eapply keeps_trans; [exact Hkb|].
    eapply keeps_trans; [apply keeps_clearTimeout|apply keeps_off_listener]. }
  assert (login_idle n sd) as Hidle.
  { destruct Hkd' as ((Hnd & _) & _ & _). split; [lia|]. split; [|done].
    intros sk' l' Hin Hl'. rewrite Hskd in Hin.
    apply list_elem_of_lookup in Hin as [i Hi].
    destruct (decide (i = k)) as [->|Hne].
    - rewrite list_lookup_alter_eq, Hk1 in Hi. injection Hi as <-. simpl in Hl'.
      rewrite filter_cons_False in Hl' by (simpl; tauto). by apply elem_of_nil in Hl'.
    - rewrite list_lookup_alter_ne in Hi by done. rewrite Hs1 in Hi. simpl in Hi.
      rewrite list_lookup_alter_ne in Hi by done.
      destruct (ainv_listener s HA sk' l') as (_ & _ & Hlt);
        [by eapply list_elem_of_lookup_2|done|]. unfold n. lia. }
  pose proof (Inv_handle (SockMessage k d) s1 HI1) as HId. rewrite Hhd in HId.
  pose proof (AInv_handle (SockMessage k d) s1 HI1 HA1) as HAd. rewrite Hhd in HAd.
  assert (s2 = drain sd) as Hs2 by (unfold s2, step; by rewrite Hhd).
  pose proof (keeps_drain n sd) as Hk2. rewrite <-Hs2 in Hk2.
  pose proof (keeps_idle n sd s2 Hk2 Hidle) as Hidle2.
  split; [done|]. split; [done|]. split; [by destruct Hidle2 as (_ & _ & ?)|].
  split; [by rewrite Hs2, sockets_drain|].
  pose proof (keeps_run n tr' s2) as Hrun.
  destruct Hrun as (_ & _ & ->).
  - rewrite Hs2. by apply Inv_drain.
  - rewrite Hs2. by apply AInv_drain.
  - done.
  - destruct Hk2 as (_ & _ & ->). destruct Hkd' as (_ & _ & ->). done.
Qed.

Lemma login_one_shot_witness :
  let s := run [Connect; SockOpen 0; Tick 100; Fire 1; Tick 1000] (init "key" 0) in
  let d := Some (Response (Some "connected") None None None) in
  let tr' := [SockMessage 0 auth_ok; Tick 10000; Fire 4] in
  let n := nextHandle s in
  let pa := Promise (PAuth n) (KLeaf (KConnect 0)) in
  let s1 := step (Fire 2) s in
  let s2 := step (SockMessage 0 d) s1 in
  timers s !! 2 = Some (Timer 1100 (TAuthenticate 0))
  ∧ ws s = Some 0 ∧ sockets s !! 0 = Some (Socket OPEN 0 [])
  ∧ timers s1 !! S n = Some (Timer (now s + 10000) (TAuthTimeout pa))
  ∧ sockets s1 !! 0
    = Some (Socket OPEN (sk_connect (Socket OPEN 0 []))
              [AuthListener n (auth_id (now s)) pa (S n)])
  ∧ timers s2 !! S n = None
  ∧ sockets s2 !! 0 = Some (Socket OPEN (sk_connect (Socket OPEN 0 [])) [])
  ∧ settlements (PAuth n) (run tr' s2) = [].
Proof.
  split; [vm_compute; reflexivity|]. split; [reflexivity|].
  split; [vm_compute; reflexivity|].
  refine (login_one_shot "key" 0 [Connect; SockOpen 0; Tick 100; Fire 1; Tick 1000]
            2 (Timer 1100 (TAuthenticate 0)) 0 0 (Socket OPEN 0 [])
            (Some (Response (Some "connected") None None None))
            [SockMessage 0 auth_ok; Tick 10000; Fire 4]
            eq_refl eq_refl _ eq_refl eq_refl eq_refl eq_refl _).
  - vm_compute. discriminate.
  - intros r [= <-]. simpl. discriminate.
Defined.

(** ** connect(), from the call to the resolved promise *)

Lemma step_Connect s : microtasks s = [] → step Connect s = (connect s).2.
Proof. intros Hm. by apply step_idle. Qed.

Lemma step_SockOpen k sk s :
  microtasks s = [] → sockets s !! k = Some sk → sk_state sk = CONNECTING →
  step (SockOpen k) s
  = setTimeout (TOpenSettle (sk_connect sk)) 100
      (set_sockets (alter (set_sk_state OPEN) k (sockets s)) s).
Proof.
  intros Hm Hk Hst.
  assert (handle (SockOpen k) s
          = setTimeout (TOpenSettle (sk_connect sk)) 100
              (set_sockets (alter (set_sk_state OPEN) k (sockets s)) s)) as Hh.
  { cbn [handle]. rewrite Hk. by rewrite bool_decide_true. }
  rewrite step_idle; rewrite Hh; done.
Qed.

Lemma step_Tick_eq d s :
  microtasks s = [] → step (Tick d) s = set_now (now s + Z.of_N d) s.
Proof. intros Hm. by apply step_idle. Qed.

(** The timer that connect() arms on 'open' fires on an open session: the
    connect frame goes out and the login is scheduled. *)
Lemma fire_openSettle h t pc k s :
  microtasks s = [] →
  timers s !! h = Some t → t_task t = TOpenSettle pc → (t_due t ≤ now s)%Z →
  ws s = Some k → ws_open s = true →
  step (Fire h) s
  = set_timerLog (timerLog s ++ [(1000%Z, TAuthenticate pc)])
      (set_timers
         (<[nextHandle s := Timer (now s + 1000) (TAuthenticate pc)]> (delete h (timers s)))
         (set_nextHandle (S (nextHandle s))
            (set_sent (sent s ++ [(k, FConnect)]) s))).
Proof.
  intros Hmt Hh Htask Hdue Hws Hopen.
  assert (handle (Fire h) s
          = setTimeout (TAuthenticate pc) 1000 (send FConnect (clearTimeout h s))) as Hh'.
  { cbn [handle]. rewrite Hh, bool_decide_true by done. rewrite Htask. cbn [run_task].
    replace (ws_open (clearTimeout h s)) with (ws_open s) by done. by rewrite Hopen. }
  rewrite step_idle; rewrite Hh'; unfold setTimeout, send; simpl; rewrite Hws; done.
Qed.

Lemma AInv_run tr s : Inv s → AInv s → AInv (run tr s).
Proof.
  revert s. induction tr as [|e tr IH]; intros s HI HA; simpl; [done|].
  apply IH; [by apply Inv_step|by apply AInv_step].
Qed.

Lemma microtasks_run key t0 tr tr' :
  microtasks (run tr' (run tr (init key t0))) = [].
Proof.
  replace (run tr' (run tr (init key t0))) with (run (tr ++ tr') (init key t0))
    by (unfold run; by rewrite foldl_app).
  apply microtasks_reachable.
Qed.

(** X11. connect() against a peer that lets the socket open and answers the
    login call with [true], from any reachable state. Nothing is sent
    until 100 ms after 'open'; then the connect frame goes out, and 1000 ms
    after it the login call with the API key, both on the new socket, and
    nothing else. The answer resolves the login and connect(), resets the
    reconnection counter, and isConnected() is true. *)
Theorem connect_succeeds key t0 tr d0 d1 d2 :
  let s := run tr (init key t0) in
  (d0 < 100)%N → (100 ≤ d1)%N → (1000 ≤ d2)%N →
  let k := length (sockets s) in
  let pc := nextHandle s in
  let opened := run [Connect; SockOpen k] s in
  let s1 := run [Tick d1; Fire (S pc); Tick d2; Fire (S (S pc))] opened in
  let login := auth_id (now s + Z.of_N d1 + Z.of_N d2) in
  let answer := Response (Some "result") (Some login) (Some (JBool true)) None in
  let s2 := step (SockMessage k (Some answer)) s1 in
  ws opened = Some k ∧ sent opened = sent s
  ∧ sent (run [Tick d0; Fire (S pc)] opened) = sent s
  ∧ sent s1
    = sent s ++ [(k, FConnect);
                 (k, FMethod login "auth.login_with_api_key" [JStr (apiKey s)])]
  ∧ settleLog s1 = settleLog s
  ∧ sent s2 = sent s1
  ∧ settleLog s2
    = settleLog s ++ [(PAuth (S (S (S pc))), Resolved None); (PConnect pc, Resolved None)]
  ∧ isConnected s2 = true ∧ reconnectAttempts s2 = 0.
Proof.
  intros s Hd0 Hd1 Hd2 k pc opened s1 login answer s2.
  pose proof (Inv_reachable key t0 tr) as HI. fold s in HI.
  pose proof (AInv_reachable key t0 tr) as HA. fold s in HA.
  pose proof (microtasks_reachable key t0 tr) as Hmt. fold s in Hmt.
  (* connect() *)
  set (sa := step Connect s).
  assert (sa = (connect s).2) as Hsa by by apply step_Connect.
  assert (microtasks sa = []) as Hma by apply (microtasks_run key t0 tr [Connect]).
  assert (sockets sa = sockets s ++ [Socket CONNECTING pc []]) as Hska by by rewrite Hsa.
  (* 'open' *)
  set (sb := step (SockOpen k) sa).
  assert (sockets sa !! k = Some (Socket CONNECTING pc [])) as Hka.
  { rewrite Hska. by apply list_lookup_middle. }
  pose proof (step_SockOpen k _ sa Hma Hka eq_refl) as Hsb. fold sb in Hsb.
  simpl in Hsb.
  assert (microtasks sb = []) as Hmb by apply (microtasks_run key t0 tr [Connect; SockOpen k]).
  assert (sockets sb !! k = Some (Socket OPEN pc [])) as Hkb.
  { rewrite Hsb. simpl. by rewrite list_lookup_alter_eq, Hka. }
  assert (ws sb = Some k) as Hwsb by by rewrite Hsb, Hsa.
  assert (ws_open sb = true) as Hob.
  { unfold ws_open. by rewrite Hwsb, Hkb. }
  assert (timers sb !! S pc = Some (Timer (now s + 100) (TOpenSettle pc))) as Htb.
  { rewrite Hsb, Hsa. cbn [timers setTimeout set_timerLog set_timers]. simpl nextHandle.
    apply lookup_insert_eq. }
  assert (opened = sb) as Hopened by done.
  assert (sent sb = sent s) as Hsentb by by rewrite Hsb, Hsa.
  split; [by rewrite Hopened|]. split; [by rewrite Hopened|]. split.
  { rewrite Hopened. simpl. rewrite step_Tick_eq by done.
    destruct (step_Fire_early (S pc) (Timer (now s + 100) (TOpenSettle pc))
      (set_now (now sb + Z.of_N d0) sb)) as [-> _]; [done|done| |done].
    simpl. rewrite Hsb, Hsa. simpl. lia. }
  (* 100 ms or more later *)
  set (sc := step (Tick d1) sb).
  assert (sc = set_now (now sb + Z.of_N d1) sb) as Hsc by by apply step_Tick_eq.
  assert (microtasks sc = []) as Hmc by by rewrite Hsc.
  assert (now sb = now s ∧ nextHandle sb = S (S pc) ∧ settleLog sb = settleLog s
          ∧ apiKey sb = apiKey s) as (Hnowb & Hnb & Hlogb & Hkeyb).
  { by rewrite Hsb, Hsa. }
  set (se := step (Fire (S pc)) sc).
  assert (se = set_timerLog (timerLog sc ++ [(1000%Z, TAuthenticate pc)])
                 (set_timers
                    (<[nextHandle sc := Timer (now sc + 1000) (TAuthenticate pc)]>
                       (delete (S pc) (timers sc)))
                    (set_nextHandle (S (nextHandle sc))
                       (set_sent (sent sc ++ [(k, FConnect)]) sc)))) as Hse.
  { apply (fire_openSettle (S pc) (Timer (now s + 100) (TOpenSettle pc)) pc k sc);
      rewrite ?Hsc; simpl; try done. lia. }
  assert (microtasks se = []) as Hme by by rewrite Hse.
  assert (ws se = Some k ∧ sockets se !! k = Some (Socket OPEN pc [])
          ∧ now se = (now s + Z.of_N d1)%Z ∧ nextHandle se = S (S (S pc))
          ∧ sent se = sent s ++ [(k, FConnect)] ∧ settleLog se = settleLog s
          ∧ apiKey se = apiKey s
          ∧ timers se !! S (S pc)
            = Some (Timer (now s + Z.of_N d1 + 1000) (TAuthenticate pc)))
    as (Hwse & Hke & Hnowe & Hne & Hsente & Hloge & Hkeye & Hte).
  { rewrite Hse, Hsc. simpl. rewrite Hnb, Hnowb, Hsentb.
    repeat split; try done. apply lookup_insert_eq. }
  (* 1000 ms or more later *)
  set (sf := step (Tick d2) se).
  assert (sf = set_now (now se + Z.of_N d2) se) as Hsf by by apply step_Tick_eq.
  assert (microtasks sf = []) as Hmf by by rewrite Hsf.
  set (n := S (S (S pc))).
  set (pa := Promise (PAuth n) (KLeaf (KConnect pc))).
  set (l := AuthListener n login pa (S n)).
  assert (s1 = step (Fire (S (S pc))) sf) as Hs1 by done.
  assert (ws_open sf = true) as Hof.
  { unfold ws_open. rewrite Hsf. simpl. by rewrite Hwse, Hke. }
  assert (ws sf = Some k ∧ nextHandle sf = n
          ∧ now sf = (now s + Z.of_N d1 + Z.of_N d2)%Z
          ∧ timers sf !! S (S pc)
            = Some (Timer (now s + Z.of_N d1 + 1000) (TAuthenticate pc))
          ∧ sent sf = sent s ++ [(k, FConnect)] ∧ settleLog sf = settleLog s
          ∧ apiKey sf = apiKey s ∧ sockets sf !! k = Some (Socket OPEN pc []))
    as (Hwsf & Hnf & Hnowf & Htf & Hsentf & Hlogf & Hkeyf & Hkf).
  { rewrite Hsf. simpl. rewrite Hnowe.
    exact (conj Hwse (conj Hne (conj eq_refl (conj Hte
             (conj Hsente (conj Hloge (conj Hkeye Hke))))))). }
  pose proof (fire_authenticate (S (S pc))
    (Timer (now s + Z.of_N d1 + 1000) (TAuthenticate pc)) pc k sf Hmf Htf eq_refl) as Hsg.
  rewrite <-Hs1 in Hsg. cbv zeta in Hsg.
  rewrite Hnf, Hnowf, Hsentf, Hkeyf in Hsg. fold login pa l in Hsg.
  specialize (Hsg ltac:(simpl; lia) Hwsf Hof).
  assert (sent s1 = sent s ++ [(k, FConnect);
            (k, FMethod login "auth.login_with_api_key" [JStr (apiKey s)])]) as Hsent1.
  { rewrite Hsg. simpl. by rewrite <-app_assoc. }
  assert (settleLog s1 = settleLog s) as Hlog1 by by rewrite Hsg.
  assert (sockets s1 !! k = Some (Socket OPEN pc [l])) as Hk1.
  { rewrite Hsg. simpl. by rewrite list_lookup_alter_eq, Hkf. }
  assert (timers s1 !! S n
          = Some (Timer (now s + Z.of_N d1 + Z.of_N d2 + 10000) (TAuthTimeout pa))) as Hto1.
  { rewrite Hsg. cbn [timers set_sockets set_timerLog set_timers].
    apply lookup_insert_eq. }
  assert (ws_open s1 = true) as Ho1.
  { unfold ws_open. replace (ws s1) with (Some k) by by rewrite Hsg. by rewrite Hk1. }
  split; [exact Hsent1|]. split; [exact Hlog1|].
  (* the answer *)
  set (evs := [Connect; SockOpen k; Tick d1; Fire (S pc); Tick d2; Fire (S (S pc))]).
  assert (s1 = run evs s) as Hrun by done.
  assert (Inv s1) as HI1 by (rewrite Hrun; by apply Inv_run).
  assert (AInv s1) as HA1 by (rewrite Hrun; by apply AInv_run).
  assert (microtasks s1 = []) as Hm1 by (rewrite Hrun; apply microtasks_run).
  destruct (login_frame s1 k (Socket OPEN pc [l]) l
    (Timer (now s + Z.of_N d1 + Z.of_N d2 + 10000) (TAuthTimeout pa)) answer
    HI1 HA1 Hm1 Hk1 (or_introl eq_refl) eq_refl Hto1 eq_refl eq_refl)
    as (pc' & Hpc' & Hres).
  injection Hpc' as <-. fold s2 in Hres.
  change (msg_is answer "result" && is_true (r_result answer)) with true in Hres.
  destruct Hres as (Hlog2 & Hau2 & Hra2 & Hic2 & Hsent2).
  split; [exact Hsent2|]. split; [by rewrite Hlog2, Hlog1|].
  split; [by rewrite Hic2|exact Hra2].
Qed.

Lemma connect_succeeds_witness :
  let s := run [] (init "key" 0) in
  let k := length (sockets s) in
  let pc := nextHandle s in
  let opened := run [Connect; SockOpen k] s in
  let s1 := run [Tick 100; Fire (S pc); Tick 1000; Fire (S (S pc))] opened in
  let login := auth_id (now s + Z.of_N 100 + Z.of_N 1000) in
  let answer := Response (Some "result") (Some login) (Some (JBool true)) None in
  let s2 := step (SockMessage k (Some answer)) s1 in
  (50 < 100)%N ∧ (100 ≤ 100)%N ∧ (1000 ≤ 1000)%N
  ∧ ws opened = Some k ∧ sent opened = sent s
  ∧ sent (run [Tick 50; Fire (S pc)] opened) = sent s
  ∧ sent s1
    = sent s ++ [(k, FConnect);
                 (k, FMethod login "auth.login_with_api_key" [JStr (apiKey s)])]
  ∧ settleLog s1 = settleLog s
  ∧ sent s2 = sent s1
  ∧ settleLog s2
    = settleLog s ++ [(PAuth (S (S (S pc))), Resolved None); (PConnect pc, Resolved None)]
  ∧ isConnected s2 = true ∧ reconnectAttempts s2 = 0.
Proof.
  split; [done|]. split; [done|]. split; [done|].
  refine (connect_succeeds "key" 0 [] 50 100 1000 eq_refl _ _); done.
Defined.


(** disconnect() between 'open' and the first timer of connect(). *)
Example connect_then_disconnect :
  let s := run [Connect; SockOpen 0; Disconnect; Tick 100] (init "key" 0) in
  settleLog (step (Fire 1) s)
  = [(PConnect 0, Rejected "WebSocket not ready after open event")]
  ∧ sent (step (Fire 1) s) = [].
Proof. split; vm_compute; reflexivity. Qed.

(** * The sockets that connect() leaves behind *)

Lemma same_session_refl s : same_session s s.
Proof. by split. Qed.

Lemma same_session_trans s1 s2 s3 :
  same_session s1 s2 → same_session s2 s3 → same_session s1 s3.
Proof. intros [H1 H2] [H3 H4]. split; congruence. Qed.

Lemma same_session_eq s s' :
  ws s' = ws s → sockets s' = sockets s → same_session s s'.
Proof. intros Hw Hs. split; [done|]. unfold readyStates. by rewrite Hs. Qed.

Lemma readyStates_alter (g : socket → socket) j (l : list socket) :
  (∀ sk, sk_state (g sk) = sk_state sk) →
  sk_state <$> alter g j l = sk_state <$> l.
Proof.
  intros Hg. apply list_eq. intros i. rewrite !list_lookup_fmap, list_lookup_alter.
  destruct (decide (j = i)) as [->|]; [|done]. destruct (l !! i) as [sk|]; [|done].
  simpl. f_equal. apply Hg.
Qed.

Lemma readyStates_alter_ne (g : socket → socket) j k (l : list socket) :
  j ≠ k → (sk_state <$> alter g j l) !! k = (sk_state <$> l) !! k.
Proof.
  intros Hne. rewrite !list_lookup_fmap, list_lookup_alter.
  destruct (decide (j = k)); [congruence|done].
Qed.

Lemma same_session_alter (g : socket → socket) j s :
  (∀ sk, sk_state (g sk) = sk_state sk) →
  same_session s (set_sockets (alter g j (sockets s)) s).
Proof. intros Hg. split; [done|]. by apply readyStates_alter. Qed.

Lemma same_session_send f s : same_session s (send f s).
Proof. unfold send. destruct (ws s) eqn:Hw; by apply same_session_eq. Qed.

Lemma same_session_setTimeout tk delay s : same_session s (setTimeout tk delay s).
Proof. by apply same_session_eq. Qed.

Lemma same_session_clearTimeout h s : same_session s (clearTimeout h s).
Proof. by apply same_session_eq. Qed.

Lemma same_session_invoke h o s : same_session s (invoke h o s).
Proof. by apply same_session_eq. Qed.

Lemma same_session_settle p o s : same_session s (settle p o s).
Proof. unfold settle. cbv zeta. destruct (is_settled _ _); by apply same_session_eq. Qed.

Lemma same_session_call method params k s : same_session s (call method params k s).2.
Proof.
  unfold call. destruct (ws_open s); [|apply same_session_refl]. cbv zeta.
  cbn [snd]. eapply same_session_trans; [|apply same_session_setTimeout].
  eapply same_session_trans; [|apply same_session_send].
  by apply same_session_eq.
Qed.

Lemma same_session_run_leaf l o s : same_session s (run_leaf l o s).
Proof.
  destruct l as [|h|h|pc]; cbn [run_leaf].
  - apply same_session_refl.
  - apply same_session_invoke.
  - apply same_session_invoke.
  - destruct o; [|apply same_session_invoke].
    eapply same_session_trans; [|apply same_session_invoke]. by apply same_session_eq.
Qed.

Lemma same_session_await_leaf l method params k s :
  same_session s (await_leaf l (call method params k s)).
Proof.
  unfold await_leaf. pose proof (same_session_call method params k s) as Hc.
  destruct (call method params k s) as [[e|p] s']; cbn [fst snd] in *; [|done].
  eapply same_session_trans; [done|apply same_session_run_leaf].
Qed.

Lemma same_session_run_kont k o s : same_session s (run_kont k o s).
Proof.
  destruct k as [l|vmId h|appName h]; cbn [run_kont].
  - apply same_session_run_leaf.
  - destruct o; [apply same_session_setTimeout|apply same_session_invoke].
  - destruct o; [apply same_session_await_leaf|apply same_session_invoke].
Qed.

Lemma same_session_await_kont kt method params k s :
  same_session s (await_kont kt (call method params k s)).
Proof.
  unfold await_kont. pose proof (same_session_call method params k s) as Hc.
  destruct (call method params k s) as [[e|p] s']; cbn [fst snd] in *; [|done].
  eapply same_session_trans; [done|apply same_session_run_kont].
Qed.

Lemma same_session_drain s : same_session s (drain s).
Proof.
  unfold drain.
  assert (same_session s (set_microtasks [] s)) as H0 by by apply same_session_eq.
  revert H0. generalize (set_microtasks [] s).
  induction (microtasks s) as [|[k o] js IH]; intros s0 H0; simpl; [done|].
  apply IH. eapply same_session_trans; [done|apply same_session_run_kont].
Qed.

Lemma same_session_tryAlternativeAuth s : same_session s (tryAlternativeAuth s).
Proof.
  unfold tryAlternativeAuth. destruct (ws_open s); [|apply same_session_refl].
  eapply same_session_trans; [apply same_session_send|apply same_session_setTimeout].
Qed.

Lemma same_session_handleMessage d s : same_session s (handleMessage d s).
Proof.
  destruct (handleMessage_session d s) as [Hw Hs]. by apply same_session_eq.
Qed.

Lemma same_session_authHandler l d s : same_session s (authHandler l d s).
Proof.
  unfold authHandler. destruct d as [r|]; [|apply same_session_handleMessage].
  case_bool_decide; [|apply same_session_handleMessage].
  destruct (_ && _); [|apply same_session_settle].
  eapply same_session_trans; [|apply same_session_settle]. by apply same_session_eq.
Qed.

Lemma same_session_off_listener key s : same_session s (off_listener key s).
Proof.
  unfold off_listener. destruct (ws s); [|apply same_session_refl].
  by apply same_session_alter.
Qed.

Lemma same_session_on_listener l s : same_session s (on_listener l s).
Proof.
  unfold on_listener. destruct (ws s); [|apply same_session_refl].
  by apply same_session_alter.
Qed.

Lemma same_session_messageListener l d s : same_session s (messageListener l d s).
Proof.
  unfold messageListener.
  eapply same_session_trans; [apply same_session_authHandler|].
  eapply same_session_trans; [apply same_session_clearTimeout|].
  apply same_session_off_listener.
Qed.

Lemma same_session_emit_message k d s : same_session s (emit_message k d s).
Proof.
  unfold emit_message. destruct (sockets s !! k) as [sk|]; [|apply same_session_refl].
  pose proof (same_session_handleMessage d s) as H0. revert H0.
  generalize (handleMessage d s).
  induction (sk_listeners sk) as [|l ls IH]; intros s0 H0; simpl; [done|].
  apply IH. eapply same_session_trans; [done|apply same_session_messageListener].
Qed.

Lemma same_session_authenticate pc s : same_session s (authenticate pc s).
Proof.
  unfold authenticate. cbv zeta.
  assert (same_session s (set_nextHandle (S (nextHandle s)) s)) as H1
    by by apply same_session_eq.
  destruct (ws_open _).
  - eapply same_session_trans; [exact H1|].
    eapply same_session_trans; [apply same_session_send|].
    eapply same_session_trans; [apply same_session_setTimeout|].
    apply same_session_on_listener.
  - eapply same_session_trans; [exact H1|apply same_session_settle].
Qed.

Lemma same_session_handleReconnect s : same_session s (handleReconnect s).
Proof.
  unfold handleReconnect. destruct (intentionalDisconnect s); [apply same_session_refl|].
  destruct (_ <? _); [|apply same_session_refl]. cbv zeta.
  eapply same_session_trans; [|apply same_session_setTimeout]. by apply same_session_eq.
Qed.

Lemma same_session_run_task tk s : tk ≠ TReconnect → same_session s (run_task tk s).
Proof.
  intros Hne. destruct tk as [pc|pc| |id p|p| |vmId h]; cbn [run_task]; [| |done|..].
  - destruct (ws_open s); [|apply same_session_invoke].
    eapply same_session_trans; [apply same_session_send|apply same_session_setTimeout].
  - apply same_session_authenticate.
  - destruct (pendingRequests s !! id); [|apply same_session_refl].
    eapply same_session_trans; [|apply same_session_settle]. by apply same_session_eq.
  - apply same_session_settle.
  - by apply same_session_eq.
  - apply same_session_await_leaf.
Qed.

Lemma same_session_api f s :
  (∀ h s0, same_session s0 (f h s0)) → same_session s (api f s).
Proof.
  intros Hf. unfold api. eapply same_session_trans; [|apply Hf]. by apply same_session_eq.
Qed.

(** connect() adds a socket and makes it the current one; the others stay
    as they are. *)
Lemma connect_session s :
  ws (connect s).2 = Some (length (sockets s))
  ∧ readyStates (connect s).2 = readyStates s ++ [CONNECTING].
Proof. unfold connect, readyStates. cbv zeta. cbn [snd]. split; [done|]. simpl. by rewrite fmap_app. Qed.

(** A socket that the client no longer holds is never closed by it. *)
Lemma replaced_step k st e s :
  ws s ≠ Some k → readyStates s !! k = Some st →
  e ≠ SockOpen k → e ≠ SockClose k →
  ws (step e s) ≠ Some k ∧ readyStates (step e s) !! k = Some st.
Proof.
  intros Hw Hk Hopen Hclose.
  assert (∀ s', same_session s s' → ws s' ≠ Some k ∧ readyStates s' !! k = Some st)
    as Hsame.
  { intros s' [Hw' Hs']. by rewrite Hw', Hs'. }
  assert (∀ s0, same_session s s0 →
            ws (connect s0).2 ≠ Some k ∧ readyStates (connect s0).2 !! k = Some st)
    as Hconnect.
  { intros s0 [Hw0 Hs0]. destruct (connect_session s0) as [-> ->].
    assert (k < length (sockets s0)) as Hlt.
    { apply lookup_lt_Some in Hk. rewrite <-Hs0 in Hk. unfold readyStates in Hk.
      by rewrite length_fmap in Hk. }
    split; [intros [= Heq]; lia|].
    rewrite lookup_app_l by (unfold readyStates; by rewrite length_fmap).
    by rewrite Hs0. }
  assert (∀ (g : socket → socket) j s0, j ≠ k → same_session s s0 →
            readyStates (set_sockets (alter g j (sockets s0)) s0) !! k = Some st)
    as Halter.
  { intros g j s0 Hne [_ Hs0]. unfold readyStates in *. cbn [sockets set_sockets].
    by rewrite readyStates_alter_ne, Hs0. }
  assert (∀ s1, ws s1 ≠ Some k ∧ readyStates s1 !! k = Some st →
            ws (drain s1) ≠ Some k ∧ readyStates (drain s1) !! k = Some st) as Hdrain.
  { intros s1 [H1 H2]. destruct (same_session_drain s1) as [-> ->]. done. }
  unfold step. apply Hdrain.
  destruct e as [d|h|j|j d|j m|j| | | |vmId|vmId options|vmId| |appName|appName|appName];
    cbn [handle].
  - apply Hsame. by apply same_session_eq.
  - destruct (timers s !! h) as [t|]; [|by apply Hsame, same_session_refl].
    case_bool_decide; [|by apply Hsame, same_session_refl].
    assert (t_task t = TReconnect ∨ t_task t ≠ TReconnect) as [->|Hne]
      by (destruct (t_task t); auto).
    + cbn [run_task]. apply Hconnect, same_session_clearTimeout.
    + apply Hsame. eapply same_session_trans; [apply same_session_clearTimeout|].
      by apply same_session_run_task.
  - destruct (sockets s !! j) as [sk|]; [|by apply Hsame, same_session_refl].
    case_bool_decide; [|by apply Hsame, same_session_refl].
    assert (j ≠ k) as Hne by congruence.
    split; [done|]. apply (Halter _ j s Hne), same_session_refl.
  - destruct (sockets s !! j) as [sk|]; [|by apply Hsame, same_session_refl].
    case_bool_decide; [|by apply Hsame, same_session_refl].
    apply Hsame, same_session_emit_message.
  - destruct (sockets s !! j) as [sk|]; [|by apply Hsame, same_session_refl].
    apply Hsame, same_session_invoke.
  - destruct (sockets s !! j) as [sk|]; [|by apply Hsame, same_session_refl].
    case_bool_decide; [by apply Hsame, same_session_refl|].
    assert (j ≠ k) as Hne by congruence.
    destruct (same_session_handleReconnect
                (set_authenticated false
                   (set_sockets (alter (set_sk_state CLOSED) j (sockets s)) s)))
      as [-> ->].
    split; [done|]. apply (Halter _ j s Hne), same_session_refl.
  - apply Hconnect, same_session_refl.
  - unfold disconnect. destruct (ws s) as [j|] eqn:Hj; [|by rewrite Hj].
    assert (j ≠ k) as Hne by congruence.
    split; [done|]. unfold close_socket.
    apply (Halter _ j (set_intentionalDisconnect true s) Hne).
    by apply same_session_eq.
  - apply Hsame, same_session_api. intros h s0. apply same_session_await_leaf.
  - apply Hsame, same_session_api. intros h s0. apply same_session_await_leaf.
  - apply Hsame, same_session_api. intros h s0. apply same_session_await_kont.
  - apply Hsame, same_session_api. intros h s0. apply same_session_await_kont.
  - apply Hsame, same_session_api. intros h s0. apply same_session_await_leaf.
  - apply Hsame, same_session_api. intros h s0. apply same_session_await_leaf.
  - apply Hsame, same_session_api. intros h s0. apply same_session_await_kont.
  - apply Hsame, same_session_api. intros h s0. apply same_session_await_kont.
Qed.

Lemma replaced_run k st tr s :
  ws s ≠ Some k → readyStates s !! k = Some st →
  (∀ e, e ∈ tr → e ≠ SockOpen k ∧ e ≠ SockClose k) →
  ws (run tr s) ≠ Some k ∧ readyStates (run tr s) !! k = Some st.
Proof.
  revert s. induction tr as [|e tr IH]; intros s Hw Hk Hev; simpl; [done|].
  destruct (Hev e) as [Hopen Hclose]; [by left|].
  destruct (replaced_step k st e s Hw Hk Hopen Hclose) as [Hw' Hk'].
  apply IH; [done..|]. intros e' He'. apply Hev. by right.
Qed.

(** X13. connect() does not close the socket the client holds: the new socket
    takes its place and the old one is left as it is. No later call into
    the client changes its state, not even disconnect(): only the peer ends
    it. *)
Theorem replaced_socket_not_closed (s : state) k st tr :
  ws s = Some k → readyStates s !! k = Some st →
  (∀ e, e ∈ tr → e ≠ SockOpen k ∧ e ≠ SockClose k) →
  let s1 := step Connect s in
  let s' := run tr s1 in
  ws s1 = Some (length (sockets s))
  ∧ readyStates s1 = readyStates s ++ [CONNECTING]
  ∧ ws s' ≠ Some k
  ∧ readyStates s' !! k = Some st.
Proof.
  intros Hw Hk Hev s1 s'.
  assert (ws s1 = Some (length (sockets s))
          ∧ readyStates s1 = readyStates s ++ [CONNECTING]) as [Hw1 Hs1].
  { unfold s1, step. cbn [handle].
    destruct (same_session_drain (connect s).2) as [-> ->]. apply connect_session. }
  split; [done|]. split; [done|].
  assert (k < length (sockets s)) as Hlt.
  { apply lookup_lt_Some in Hk. unfold readyStates in Hk. by rewrite length_fmap in Hk. }
  apply replaced_run; [|by rewrite Hs1, lookup_app_l by
                              (unfold readyStates; by rewrite length_fmap)|done].
  rewrite Hw1. intros [= Heq]. lia.
Qed.

Lemma replaced_socket_not_closed_witness :
  let s := run [Connect; SockOpen 0; Tick 100; Fire 1] (init "key" 0) in
  let tr := [Tick 1000; Fire 2; SockOpen 1; Disconnect; Connect; Tick 60000] in
  ws s = Some 0 ∧ readyStates s !! 0 = Some OPEN
  ∧ (let s1 := step Connect s in
     let s' := run tr s1 in
     ws s1 = Some (length (sockets s))
     ∧ readyStates s1 = readyStates s ++ [CONNECTING]
     ∧ ws s' ≠ Some 0
     ∧ readyStates s' !! 0 = Some OPEN).
Proof.
  intros s tr.
  assert (ws s = Some 0) as Hw by (vm_compute; reflexivity).
  assert (readyStates s !! 0 = Some OPEN) as Hk by (vm_compute; reflexivity).
  split; [exact Hw|]. split; [exact Hk|].
  apply (replaced_socket_not_closed s 0 OPEN tr Hw Hk).
  intros e He. unfold tr in He.
  repeat (apply elem_of_cons in He as [->|He]; [by split|]).
  by apply elem_of_nil in He.
Defined.

(** * The constructor *)

(** X14. The URL that connect() dials, whatever the type of the numbers is,
    provided the literals 443 and 80 print as written. With no port given,
    the port is 80 when [secure] is given as false and 443 otherwise; the
    scheme is wss when [secure] is missing or true and ws otherwise. So a
    config that gives [secure] as [undefined] dials ws on port 443, and
    this is what the commands do when the preference has no value: they
    always pass the key. A port that is given is printed as the template
    literal prints that number; one given as [undefined] is printed as
    'undefined'. *)
Theorem connect_url {number} (literal : Z → number) (toString : number → string)
    (config : Config.TrueNASConfig number) :
  toString (literal 443%Z) = "443" → toString (literal 80%Z) = "80" →
  let h := Config.host config in
  let u := Config.url toString (Config.constructor literal config) in
  let scheme := match Config.secure config with
                | Missing | Given (Some true) => "wss"
                | Given (Some false) | Given None => "ws"
                end in
  (Config.port config = Missing →
     (Config.secure config = Given (Some false) → u = "ws://" +:+ h +:+ ":80/websocket")
     ∧ (Config.secure config = Missing ∨ Config.secure config = Given (Some true) →
        u = "wss://" +:+ h +:+ ":443/websocket")
     ∧ (Config.secure config = Given None → u = "ws://" +:+ h +:+ ":443/websocket"))
  ∧ (∀ p, Config.port config = Given (Some p) →
       u = scheme +:+ "://" +:+ h +:+ ":" +:+ toString p +:+ "/websocket")
  ∧ (Config.port config = Given None →
       u = scheme +:+ "://" +:+ h +:+ ":undefined/websocket")
  ∧ Config.m_apiKey (Config.constructor literal config) = Config.apiKey config
  ∧ (∀ prefs,
       Config.url toString (Config.constructor literal (Config.getClient_config prefs))
       = match Config.p_secure prefs with
         | Some true => "wss://" +:+ Config.address prefs +:+ ":443/websocket"
         | Some false => "ws://" +:+ Config.address prefs +:+ ":80/websocket"
         | None => "ws://" +:+ Config.address prefs +:+ ":443/websocket"
         end).
Proof.
  intros H443 H80 h u scheme.
  unfold u, h, scheme, Config.url, Config.protocol, Config.constructor, Config.show_port.
  cbn [Config.m_host Config.m_port Config.m_secure Config.m_apiKey].
  split; [|split; [|split; [|split; [done|]]]].
  - intros ->. split; [|split].
    + intros ->. cbn [Config.not_false]. by rewrite H80.
    + intros [-> | ->]; cbn [Config.not_false]; by rewrite H443.
    + intros ->. cbn [Config.not_false]. by rewrite H443.
  - intros p ->. by destruct (Config.secure config) as [|[[|]|]].
  - intros ->. by destruct (Config.secure config) as [|[[|]|]].
  - intros prefs. unfold Config.getClient_config.
    cbn [Config.host Config.port Config.secure].
    destruct (Config.p_secure prefs) as [[|]|]; cbn [Config.not_false];
      by rewrite ?H443, ?H80.
Qed.

(** The config of the source's example, with integers printed in decimal. *)
Lemma connect_url_witness :
  let config : Config.TrueNASConfig Z :=
    {| Config.host := "truenas.local"; Config.apiKey := "your-api-key-here";
       Config.port := Missing; Config.secure := Given (Some true) |} in
  pretty 443%Z = "443" ∧ pretty 80%Z = "80"
  ∧ Config.url pretty (Config.constructor id config)
    = "wss://truenas.local:443/websocket".
Proof.
  intros config.
  assert (pretty 443%Z = "443") as H443 by (vm_compute; reflexivity).
  assert (pretty 80%Z = "80") as H80 by (vm_compute; reflexivity).
  split; [exact H443|]. split; [exact H80|].
  destruct (connect_url id pretty config H443 H80) as [Hdefault _].
  destruct (Hdefault eq_refl) as (_ & Hwss & _).
  apply Hwss. by right.
Defined.

(** * The commands *)

Section Runs.
Import UI.
Context {R : Type}.
Implicit Types (p : prog R) (tr : list io) (res : result R).

Lemma leaf_Ret res (r : R) : leaf res = Ret r ↔ res = Returned r.
Proof. destruct res; simpl; split; congruence. Qed.

Lemma leaf_Throw res e : leaf res = @Throw R e ↔ res = Thrown e.
Proof. destruct res; simpl; split; congruence. Qed.

Lemma runs_Ret (r : R) tr res : runs (Ret r) tr res ↔ tr = [] ∧ res = Returned r.
Proof.
  unfold runs. split.
  - inversion 1; subst. split; [done|]. by apply leaf_Ret.
  - intros [-> ->]. constructor.
Qed.

Lemma runs_Throw e tr res : runs (@Throw R e) tr res ↔ tr = [] ∧ res = Thrown e.
Proof.
  unfold runs. split.
  - inversion 1; subst. split; [done|]. by apply leaf_Throw.
  - intros [-> ->]. constructor.
Qed.

Lemma runs_OutOfFuel tr res : ¬ runs (@OutOfFuel R) tr res.
Proof. unfold runs. inversion 1. by destruct res. Qed.

Lemma runs_IsConnected (k : bool → prog R) tr res :
  runs (IsConnected k) tr res ↔ ∃ b tr', tr = IoIsConnected b :: tr' ∧ runs (k b) tr' res.
Proof.
  unfold runs. split.
  - inversion 1; subst; [by destruct res|eauto].
  - intros (b & tr' & -> & ?). by constructor.
Qed.

Lemma runs_Request q (k : outcome → prog R) tr res :
  runs (Request q k) tr res ↔ ∃ o tr', tr = IoRequest q o :: tr' ∧ runs (k o) tr' res.
Proof.
  unfold runs. split.
  - inversion 1; subst; [by destruct res|eauto].
  - intros (o & tr' & -> & ?). by constructor.
Qed.

Lemma runs_Sleep ms p tr res :
  runs (Sleep ms p) tr res ↔ ∃ tr', tr = IoSleep ms :: tr' ∧ runs p tr' res.
Proof.
  unfold runs. split.
  - inversion 1; subst; [by destruct res|eauto].
  - intros (tr' & -> & ?). by constructor.
Qed.

Lemma runs_ShowToast t p tr res :
  runs (ShowToast t p) tr res ↔ ∃ tr', tr = IoToast t :: tr' ∧ runs p tr' res.
Proof.
  unfold runs. split.
  - inversion 1; subst; [by destruct res|eauto].
  - intros (tr' & -> & ?). by constructor.
Qed.

(** [try { p } catch (error) { h error }] runs [p] and, if that throws,
    the handler. *)
Lemma runs_try_catch p (h : string → prog R) tr res :
  runs (try_catch p h) tr res ↔
  (∃ r, runs p tr (Returned r) ∧ res = Returned r)
  ∨ (∃ tr1 e tr2, runs p tr1 (Thrown e) ∧ runs (h e) tr2 res ∧ tr = tr1 ++ tr2).
Proof.
  revert tr. induction p as [r|e|k IH|q k IH|ms p IH|t p IH|]; intros tr; simpl.
  - rewrite runs_Ret. split.
    + intros [-> ->]. left. exists r. by rewrite runs_Ret.
    + intros [(r' & Hr & ->)|(tr1 & e & tr2 & Hr & _)]; apply runs_Ret in Hr.
      * by destruct Hr as [-> [= ->]].
      * by destruct Hr as [_ ?].
  - split.
    + intros Hh. right. exists [], e, tr. by rewrite runs_Throw.
    + intros [(r' & Hr & ->)|(tr1 & e' & tr2 & Hr & Hh & ->)]; apply runs_Throw in Hr.
      * by destruct Hr as [_ ?].
      * by destruct Hr as [-> [= ->]].
  - rewrite runs_IsConnected. split.
    + intros (b & tr' & -> & Hr). apply IH in Hr as [(r & Hr & ->)|(tr1 & e & tr2 & Hr & Hh & ->)].
      * left. exists r. split; [|done]. apply runs_IsConnected. eauto.
      * right. exists (IoIsConnected b :: tr1), e, tr2. split; [|done].
        apply runs_IsConnected. eauto.
    + intros [(r & Hr & ->)|(tr1 & e & tr2 & Hr & Hh & ->)];
        apply runs_IsConnected in Hr as (b & tr' & -> & Hr); exists b; eexists;
        (split; [reflexivity|]); apply IH; [left|right]; eauto 10.
  - rewrite runs_Request. split.
    + intros (o & tr' & -> & Hr). apply IH in Hr as [(r & Hr & ->)|(tr1 & e & tr2 & Hr & Hh & ->)].
      * left. exists r. split; [|done]. apply runs_Request. eauto.
      * right. exists (IoRequest q o :: tr1), e, tr2. split; [|done].
        apply runs_Request. eauto.
    + intros [(r & Hr & ->)|(tr1 & e & tr2 & Hr & Hh & ->)];
        apply runs_Request in Hr as (o & tr' & -> & Hr); exists o; eexists;
        (split; [reflexivity|]); apply IH; [left|right]; eauto 10.
  - rewrite runs_Sleep. split.
    + intros (tr' & -> & Hr). apply IH in Hr as [(r & Hr & ->)|(tr1 & e & tr2 & Hr & Hh & ->)].
      * left. exists r. split; [|done]. apply runs_Sleep. eauto.
      * right. exists (IoSleep ms :: tr1), e, tr2. split; [|done].
        apply runs_Sleep. eauto.
    + intros [(r & Hr & ->)|(tr1 & e & tr2 & Hr & Hh & ->)];
        apply runs_Sleep in Hr as (tr' & -> & Hr); eexists;
        (split; [reflexivity|]); apply IH; [left|right]; eauto 10.
  - rewrite runs_ShowToast. split.
    + intros (tr' & -> & Hr). apply IH in Hr as [(r & Hr & ->)|(tr1 & e & tr2 & Hr & Hh & ->)].
      * left. exists r. split; [|done]. apply runs_ShowToast. eauto.
      * right. exists (IoToast t :: tr1), e, tr2. split; [|done].
        apply runs_ShowToast. eauto.
    + intros [(r & Hr & ->)|(tr1 & e & tr2 & Hr & Hh & ->)];
        apply runs_ShowToast in Hr as (tr' & -> & Hr); eexists;
        (split; [reflexivity|]); apply IH; [left|right]; eauto 10.
  - split.
    + intros Hr. by apply runs_OutOfFuel in Hr.
    + intros [(r & Hr & _)|(tr1 & e & tr2 & Hr & _)]; by apply runs_OutOfFuel in Hr.
Qed.

End Runs.

Section Bind.
Import UI.
Context {A B : Type}.

(** [p ≫= f] runs [p] and, if that returns, [f] on what it returned. *)
Lemma runs_bind (p : prog A) (f : A → prog B) tr res :
  runs (p ≫= f) tr res ↔
  (∃ tr1 a tr2, runs p tr1 (Returned a) ∧ runs (f a) tr2 res ∧ tr = tr1 ++ tr2)
  ∨ (∃ e, runs p tr (Thrown e) ∧ res = Thrown e).
Proof.
  change (p ≫= f) with (bind p f).
  revert tr. induction p as [r|e|k IH|q k IH|ms p IH|t p IH|]; intros tr; simpl.
  - split.
    + intros Hf. left. exists [], r, tr. by rewrite runs_Ret.
    + intros [(tr1 & a & tr2 & Hr & Hf & ->)|(e & Hr & _)]; apply runs_Ret in Hr.
      * by destruct Hr as [-> [= ->]].
      * by destruct Hr as [_ ?].
  - rewrite runs_Throw. split.
    + intros [-> ->]. right. exists e. by rewrite runs_Throw.
    + intros [(tr1 & a & tr2 & Hr & _)|(e' & Hr & ->)]; apply runs_Throw in Hr.
      * by destruct Hr as [_ ?].
      * by destruct Hr as [-> [= ->]].
  - rewrite runs_IsConnected. split.
    + intros (b & tr' & -> & Hr).
      apply IH in Hr as [(tr1 & a & tr2 & Hr & Hf & ->)|(e & Hr & ->)].
      * left. exists (IoIsConnected b :: tr1), a, tr2. split; [|done].
        apply runs_IsConnected. eauto.
      * right. exists e. split; [|done]. apply runs_IsConnected. eauto.
    + intros [(tr1 & a & tr2 & Hr & Hf & ->)|(e & Hr & ->)];
        apply runs_IsConnected in Hr as (b & tr' & -> & Hr); exists b; eexists;
        (split; [reflexivity|]); apply IH; [left|right]; eauto 10.
  - rewrite runs_Request. split.
    + intros (o & tr' & -> & Hr).
      apply IH in Hr as [(tr1 & a & tr2 & Hr & Hf & ->)|(e & Hr & ->)].
      * left. exists (IoRequest q o :: tr1), a, tr2. split; [|done].
        apply runs_Request. eauto.
      * right. exists e. split; [|done]. apply runs_Request. eauto.
    + intros [(tr1 & a & tr2 & Hr & Hf & ->)|(e & Hr & ->)];
        apply runs_Request in Hr as (o & tr' & -> & Hr); exists o; eexists;
        (split; [reflexivity|]); apply IH; [left|right]; eauto 10.
  - rewrite runs_Sleep. split.
    + intros (tr' & -> & Hr).
      apply IH in Hr as [(tr1 & a & tr2 & Hr & Hf & ->)|(e & Hr & ->)].
      * left. exists (IoSleep ms :: tr1), a, tr2. split; [|done].
        apply runs_Sleep. eauto.
      * right. exists e. split; [|done]. apply runs_Sleep. eauto.
    + intros [(tr1 & a & tr2 & Hr & Hf & ->)|(e & Hr & ->)];
        apply runs_Sleep in Hr as (tr' & -> & Hr); eexists;
        (split; [reflexivity|]); apply IH; [left|right]; eauto 10.
  - rewrite runs_ShowToast. split.
    + intros (tr' & -> & Hr).
      apply IH in Hr as [(tr1 & a & tr2 & Hr & Hf & ->)|(e & Hr & ->)].
      * left. exists (IoToast t :: tr1), a, tr2. split; [|done].
        apply runs_ShowToast. eauto.
      * right. exists e. split; [|done]. apply runs_ShowToast. eauto.
    + intros [(tr1 & a & tr2 & Hr & Hf & ->)|(e & Hr & ->)];
        apply runs_ShowToast in Hr as (tr' & -> & Hr); eexists;
        (split; [reflexivity|]); apply IH; [left|right]; eauto 10.
  - split.
    + intros Hr. by apply runs_OutOfFuel in Hr.
    + intros [(tr1 & a & tr2 & Hr & _)|(e & Hr & _)]; by apply runs_OutOfFuel in Hr.
Qed.

End Bind.

Section Basic.
Import UI.

Lemma runs_isConnected tr res :
  runs isConnected tr res ↔ ∃ b, tr = [IoIsConnected b] ∧ res = Returned b.
Proof.
  unfold isConnected. rewrite runs_IsConnected. split.
  - intros (b & tr' & -> & Hr). apply runs_Ret in Hr as [-> ->]. eauto.
  - intros (b & -> & ->). exists b, []. by rewrite runs_Ret.
Qed.

Lemma runs_await q tr res :
  runs (await q) tr res ↔
  (∃ v, tr = [IoRequest q (Resolved v)] ∧ res = Returned v)
  ∨ (∃ e, tr = [IoRequest q (Rejected e)] ∧ res = Thrown e).
Proof.
  unfold await. rewrite runs_Request. split.
  - intros ([v|e] & tr' & -> & Hr).
    + apply runs_Ret in Hr as [-> ->]. left. eauto.
    + apply runs_Throw in Hr as [-> ->]. right. eauto.
  - intros [(v & -> & ->)|(e & -> & ->)].
    + exists (Resolved v), []. by rewrite runs_Ret.
    + exists (Rejected e), []. by rewrite runs_Throw.
Qed.

Lemma runs_sleep ms tr res : runs (sleep ms) tr res ↔ tr = [IoSleep ms] ∧ res = Returned tt.
Proof.
  unfold sleep. rewrite runs_Sleep. split.
  - intros (tr' & -> & Hr). by apply runs_Ret in Hr as [-> ->].
  - intros [-> ->]. exists []. by rewrite runs_Ret.
Qed.

Lemma runs_showToast t tr res :
  runs (showToast t) tr res ↔ tr = [IoToast t] ∧ res = Returned tt.
Proof.
  unfold showToast. rewrite runs_ShowToast. split.
  - intros (tr' & -> & Hr). by apply runs_Ret in Hr as [-> ->].
  - intros [-> ->]. exists []. by rewrite runs_Ret.
Qed.

(** A run played against scripted answers is a run. *)
Lemma play_runs {R} (p : prog R) bs os tr res :
  play p bs os = (tr, Some res) → runs p tr res.
Proof.
  revert bs os tr. induction p as [r|e|k IH|q k IH|ms p IH|t p IH|]; intros bs os tr; simpl.
  - intros [= <- <-]. by apply runs_Ret.
  - intros [= <- <-]. by apply runs_Throw.
  - destruct bs as [|b bs]; [done|].
    destruct (play (k b) bs os) as [tr' res'] eqn:Hp. intros [= <- ->].
    apply runs_IsConnected. eauto.
  - destruct os as [|o os]; [done|].
    destruct (play (k o) bs os) as [tr' res'] eqn:Hp. intros [= <- ->].
    apply runs_Request. eauto.
  - destruct (play p bs os) as [tr' res'] eqn:Hp. intros [= <- ->].
    apply runs_Sleep. eauto.
  - destruct (play p bs os) as [tr' res'] eqn:Hp. intros [= <- ->].
    apply runs_ShowToast. eauto.
  - done.
Qed.

End Basic.

Section RetryRuns.
Import UI Retry.

Lemma runs_try_block tr res :
  runs try_block tr res ↔
  (tr = [IoIsConnected true] ∧ res = Returned Return)
  ∨ (∃ v, tr = [IoIsConnected false; IoRequest RConnect (Resolved v); IoSleep 2000]
          ∧ res = Returned Return)
  ∨ (∃ e, tr = [IoIsConnected false; IoRequest RConnect (Rejected e)] ∧ res = Thrown e).
Proof.
  unfold try_block. split.
  - intros H. apply runs_bind in H as [(ta & b & tb & Hic & H & ->)|(e & Hic & _)].
    2: { apply runs_isConnected in Hic as (? & _ & ?). done. }
    apply runs_isConnected in Hic as (b' & -> & [= <-]).
    apply runs_bind in H as [(tc & [] & td & Hc & Hret & ->)|(e & Hc & ->)].
    + apply runs_Ret in Hret as [-> ->]. destruct b; cbn [negb] in Hc.
      * apply runs_Ret in Hc as [-> _]. by left.
      * apply runs_bind in Hc as [(te & v & tf & Ha & Hs & ->)|(e & _ & ?)]; [|done].
        apply runs_sleep in Hs as [-> _].
        apply runs_await in Ha as [(v' & -> & _)|(e & _ & ?)]; [|done].
        right. left. eauto.
    + destruct b; cbn [negb] in Hc; [by apply runs_Ret in Hc as [_ ?]|].
      apply runs_bind in Hc as [(te & v & tf & Ha & Hs & ->)|(e' & Ha & [= <-])].
      { by apply runs_sleep in Hs as [_ ?]. }
      apply runs_await in Ha as [(v' & _ & ?)|(e' & -> & [= <-])]; [done|].
      right. right. eauto.
  - intros [[-> ->]|[(v & -> & ->)|(e & -> & ->)]]; apply runs_bind.
    + left. exists [IoIsConnected true], true, []. rewrite runs_isConnected.
      split; [eauto|]. split; [|done]. cbn [negb]. apply runs_bind. left.
      exists [], tt, []. by rewrite !runs_Ret.
    + left. exists [IoIsConnected false], false,
        [IoRequest RConnect (Resolved v); IoSleep 2000]. rewrite runs_isConnected.
      split; [eauto|]. split; [|done]. cbn [negb]. apply runs_bind. left.
      exists [IoRequest RConnect (Resolved v); IoSleep 2000], tt, [].
      split; [|by rewrite runs_Ret]. apply runs_bind. left.
      exists [IoRequest RConnect (Resolved v)], v, [IoSleep 2000].
      rewrite runs_await, runs_sleep. eauto 10.
    + left. exists [IoIsConnected false], false, [IoRequest RConnect (Rejected e)].
      rewrite runs_isConnected. split; [eauto|]. split; [|done]. cbn [negb].
      apply runs_bind. right. exists e. split; [|done].
      apply runs_bind. right. exists e. rewrite runs_await. eauto 10.
Qed.

Lemma runs_catch_block retries error tr res :
  runs (catch_block retries error) tr res ↔
  (maxRetries ≤ S retries ∧ tr = [] ∧ res = Thrown error)
  ∨ (S retries < maxRetries ∧ tr = [IoSleep (1000 * Z.of_nat (S retries))]
     ∧ res = Returned (Continue (S retries))).
Proof.
  unfold catch_block. cbv zeta. destruct (maxRetries <=? S retries) eqn:Hle.
  - apply Nat.leb_le in Hle. rewrite runs_Throw. split; [intros [-> ->]; by left|].
    intros [(_ & ? & ?)|(? & _)]; [done|lia].
  - apply Nat.leb_gt in Hle. split.
    + intros H. apply runs_bind in H as [(ta & [] & tb & Hs & Hret & ->)|(e & Hs & _)].
      2: { by apply runs_sleep in Hs as [_ ?]. }
      apply runs_sleep in Hs as [-> _]. apply runs_Ret in Hret as [-> ->]. by right.
    + intros [(? & _)|(_ & -> & ->)]; [lia|]. apply runs_bind. left.
      exists [IoSleep (1000 * Z.of_nat (S retries))], tt, [].
      by rewrite runs_sleep, runs_Ret.
Qed.

(** One iteration of the loop of ensureConnected. *)
Lemma runs_attempt retries tr res :
  runs (attempt retries) tr res ↔
  (tr = [IoIsConnected true] ∧ res = Returned Return)
  ∨ (∃ v, tr = [IoIsConnected false; IoRequest RConnect (Resolved v); IoSleep 2000]
          ∧ res = Returned Return)
  ∨ (∃ e, S retries < maxRetries
          ∧ tr = [IoIsConnected false; IoRequest RConnect (Rejected e);
                  IoSleep (1000 * Z.of_nat (S retries))]
          ∧ res = Returned (Continue (S retries)))
  ∨ (∃ e, maxRetries ≤ S retries
          ∧ tr = [IoIsConnected false; IoRequest RConnect (Rejected e)]
          ∧ res = Thrown e).
Proof.
  unfold attempt. rewrite runs_try_catch. split.
  - intros [(r & Hb & ->)|(ta & e & tb & Hb & Hh & ->)].
    + apply runs_try_block in Hb as [[-> [= ->]]|[(v & -> & [= ->])|(e & _ & ?)]];
        [by left| |done].
      right. left. eauto.
    + apply runs_try_block in Hb as [[_ ?]|[(v & _ & ?)|(e' & -> & [= <-])]]; [done..|].
      apply runs_catch_block in Hh as [(? & -> & ->)|(? & -> & ->)].
      * right. right. right. eauto.
      * right. right. left. eauto.
  - intros [[-> ->]|[(v & -> & ->)|[(e & Hlt & -> & ->)|(e & Hle & -> & ->)]]].
    + left. exists Return. split; [|done]. apply runs_try_block. by left.
    + left. exists Return. split; [|done]. apply runs_try_block. right. left. eauto.
    + right. exists [IoIsConnected false; IoRequest RConnect (Rejected e)], e,
        [IoSleep (1000 * Z.of_nat (S retries))].
      split; [apply runs_try_block; right; right; eauto|]. split; [|done].
      apply runs_catch_block. by right.
    + right. exists [IoIsConnected false; IoRequest RConnect (Rejected e)], e, [].
      split; [apply runs_try_block; right; right; eauto|]. split; [|done].
      apply runs_catch_block. by left.
Qed.

End RetryRuns.

Section Loop.
Import UI Retry Trace.

(** The runs of ensureConnected entered with [retries] failures behind it. *)
Lemma runs_loop fuel retries tr res :
  retries < maxRetries → maxRetries ≤ retries + fuel →
  runs (ensureConnected_loop fuel retries) tr res ↔
  ∃ errors,
    (retries + length errors < maxRetries ∧ res = Returned tt
     ∧ (tr = failed_attempts (S retries) errors ++ [IoIsConnected true]
        ∨ ∃ v, tr = failed_attempts (S retries) errors
                    ++ [IoIsConnected false; IoRequest RConnect (Resolved v);
                        IoSleep 2000]))
    ∨ (∃ e, S (retries + length errors) = maxRetries ∧ res = Thrown e
            ∧ tr = failed_attempts (S retries) errors
                   ++ [IoIsConnected false; IoRequest RConnect (Rejected e)]).
Proof.
  revert retries tr. induction fuel as [|fuel IH]; intros retries tr Hlt Hfuel; [lia|].
  cbn [ensureConnected_loop]. apply Nat.ltb_lt in Hlt as Hltb. rewrite Hltb.
  rewrite runs_bind. split.
  - intros [(ta & f & tb & Ha & Hrest & ->)|(e & Ha & ->)].
    + apply runs_attempt in Ha
        as [[-> [= ->]]|[(v & -> & [= ->])|[(e & Hlt' & -> & [= ->])|(e & _ & _ & ?)]]];
        [..|done].
      * apply runs_Ret in Hrest as [-> ->]. exists []. left. simpl.
        split; [lia|]. split; [done|]. by left.
      * apply runs_Ret in Hrest as [-> ->]. exists []. left. simpl.
        split; [lia|]. split; [done|]. right. eauto.
      * apply IH in Hrest as (errors & Hcases); [|done|lia].
        exists (e :: errors). simpl.
        destruct Hcases as [(? & -> & Htr)|(e' & ? & -> & ->)].
        -- left. split; [lia|]. split; [done|].
           destruct Htr as [->|(v & ->)]; [by left|right; eauto].
        -- right. exists e'. split; [lia|]. done.
    + apply runs_attempt in Ha
        as [[_ ?]|[(v & _ & ?)|[(e' & _ & _ & ?)|(e' & Hle & -> & [= <-])]]]; [done..|].
      exists []. right. exists e. simpl. split; [lia|]. done.
  - intros ([|e errors] & Hcases); cbn [failed_attempts app length] in Hcases.
    + destruct Hcases as [(_ & -> & [->|(v & ->)])|(e & Hmax & -> & ->)].
      * left. exists [IoIsConnected true], Return, []. rewrite runs_attempt, runs_Ret.
        split; [by left|done].
      * left. eexists _, Return, []. rewrite runs_attempt, runs_Ret.
        split; [right; left; eauto|]. split; [done|]. by rewrite app_nil_r.
      * right. exists e. split; [|done]. apply runs_attempt.
        right. right. right. exists e. split; [lia|done].
    + assert (∀ tb, runs (ensureConnected_loop fuel (S retries)) tb res →
                runs (attempt retries ≫= λ f, match f with
                                             | Return => mret tt
                                             | Continue retries' =>
                                                 ensureConnected_loop fuel retries'
                                             end)
                  ([IoIsConnected false; IoRequest RConnect (Rejected e);
                    IoSleep (1000 * Z.of_nat (S retries))] ++ tb) res) as Hcons.
      { intros tb Hrun. apply runs_bind. left. eexists _, (Continue (S retries)), tb.
        split; [|done]. apply runs_attempt. right. right. left. exists e.
        split; [|done].
        destruct Hcases as [(? & _)|(? & ? & _)]; lia. }
      rewrite <-runs_bind.
      destruct Hcases as [(? & -> & Htr)|(e' & ? & -> & ->)].
      * destruct Htr as [->|(v & ->)]; apply Hcons;
          (apply IH; [lia|lia|]); exists errors; left;
          (split; [lia|]); (split; [done|]); [by left|right; eauto].
      * apply Hcons. apply IH; [lia|lia|].
        exists errors. right. exists e'. split; [lia|done].
Qed.

Lemma requests_app tr1 tr2 : requests (tr1 ++ tr2) = requests tr1 ++ requests tr2.
Proof. apply omap_app. Qed.

Lemma toasts_app tr1 tr2 : toasts (tr1 ++ tr2) = toasts tr1 ++ toasts tr2.
Proof. apply omap_app. Qed.

Lemma pauses_app tr1 tr2 : pauses (tr1 ++ tr2) = pauses tr1 ++ pauses tr2.
Proof. apply omap_app. Qed.

Lemma failed_attempts_trace i errors :
  requests (failed_attempts i errors) = replicate (length errors) RConnect
  ∧ toasts (failed_attempts i errors) = []
  ∧ pauses (failed_attempts i errors)
    = (λ j, (1000 * Z.of_nat j)%Z) <$> seq i (length errors).
Proof.
  revert i. induction errors as [|e errors IH]; intros i; simpl; [done|].
  destruct (IH (S i)) as (Hr & Ht & Hp).
  unfold requests, toasts, pauses in *. simpl. by rewrite Hr, Ht, Hp.
Qed.

(** A loop given enough fuel never runs out of it. *)
Lemma fueled_bind {A B} (p : prog A) (f : A → prog B) :
  fueled p → (∀ tr a, runs p tr (Returned a) → fueled (f a)) → fueled (p ≫= f).
Proof.
  change (p ≫= f) with (bind p f).
  induction p as [r|e|k IH|q k IH|ms p IH|t p IH|]; simpl; intros Hp Hf; try done.
  - apply (Hf [] r). by apply runs_Ret.
  - intros b. apply IH; [done|]. intros tr a Hr. apply (Hf (IoIsConnected b :: tr) a).
    apply runs_IsConnected. eauto.
  - intros o. apply IH; [done|]. intros tr a Hr. apply (Hf (IoRequest q o :: tr) a).
    apply runs_Request. eauto.
  - apply IH; [done|]. intros tr a Hr. apply (Hf (IoSleep ms :: tr) a).
    apply runs_Sleep. eauto.
  - apply IH; [done|]. intros tr a Hr. apply (Hf (IoToast t :: tr) a).
    apply runs_ShowToast. eauto.
Qed.

Lemma fueled_try_catch {A} (p : prog A) (h : string → prog A) :
  fueled p → (∀ e, fueled (h e)) → fueled (try_catch p h).
Proof.
  induction p as [r|e|k IH|q k IH|ms p IH|t p IH|]; simpl; intros Hp Hh; try done.
  - intros b. by apply IH.
  - intros o. by apply IH.
  - by apply IH.
  - by apply IH.
Qed.

Lemma fueled_await q : fueled (await q).
Proof. intros [v|e]; done. Qed.

Lemma fueled_attempt retries : fueled (attempt retries).
Proof.
  apply fueled_try_catch.
  - unfold try_block. apply fueled_bind; [done|]. intros tr b _.
    apply fueled_bind; [|done]. destruct b; cbn [negb]; [done|].
    apply fueled_bind; [apply fueled_await|done].
  - intros e. unfold catch_block. cbv zeta. destruct (_ <=? _); [done|].
    by apply fueled_bind.
Qed.

Lemma fueled_loop fuel retries :
  retries < maxRetries → maxRetries ≤ retries + fuel →
  fueled (ensureConnected_loop fuel retries).
Proof.
  revert retries. induction fuel as [|fuel IH]; intros retries Hlt0 Hfuel;
    cbn [ensureConnected_loop]; [lia|].
  destruct (retries <? maxRetries) eqn:Hlt; [|done].
    apply fueled_bind; [apply fueled_attempt|]. intros tr [|retries'] Hr; [done|].
  apply runs_attempt in Hr
    as [[_ ?]|[(v & _ & ?)|[(e & Hlt' & _ & [= ->])|(e & _ & _ & ?)]]]; try done.
  apply IH; [done|lia].
Qed.
End Loop.

Section Commands.
Import UI Retry Trace.

Lemma obeys_nil ob oo past : obeys ob oo past [].
Proof. intros [|??] ev tr2 ?; done. Qed.

Lemma obeys_cons ob oo past ev tr :
  match ev with
  | IoIsConnected b => b = ob past
  | IoRequest q o => o = oo past q
  | _ => True
  end →
  obeys ob oo (past ++ [ev]) tr → obeys ob oo past (ev :: tr).
Proof.
  intros Hev Htr [|ev' tr1] ev'' tr2; simpl; intros [= <- ->].
  - by rewrite app_nil_r.
  - specialize (Htr tr1 ev'' tr2 eq_refl). by rewrite <-app_assoc in Htr.
Qed.

(** Whatever the client answers, a program that cannot run out of fuel
    has a complete run. *)
Lemma fueled_runs {R} (p : prog R) ob oo past :
  fueled p → ∃ tr res, runs p tr res ∧ obeys ob oo past tr.
Proof.
  revert past. induction p as [r|e|k IH|q k IH|ms p IH|t p IH|]; intros past; simpl.
  - intros _. exists [], (Returned r). split; [by apply runs_Ret|apply obeys_nil].
  - intros _. exists [], (Thrown e). split; [by apply runs_Throw|apply obeys_nil].
  - intros Hk.
    destruct (IH (ob past) (past ++ [IoIsConnected (ob past)]) (Hk _))
      as (tr & res & Hr & Ho).
    exists (IoIsConnected (ob past) :: tr), res. split.
    + apply runs_IsConnected. eauto.
    + by apply obeys_cons.
  - intros Hk.
    destruct (IH (oo past q) (past ++ [IoRequest q (oo past q)]) (Hk _))
      as (tr & res & Hr & Ho).
    exists (IoRequest q (oo past q) :: tr), res. split.
    + apply runs_Request. eauto.
    + by apply obeys_cons.
  - intros Hp. destruct (IH (past ++ [IoSleep ms]) Hp) as (tr & res & Hr & Ho).
    exists (IoSleep ms :: tr), res. split.
    + apply runs_Sleep. eauto.
    + by apply obeys_cons.
  - intros Hp. destruct (IH (past ++ [IoToast t]) Hp) as (tr & res & Hr & Ho).
    exists (IoToast t :: tr), res. split.
    + apply runs_ShowToast. eauto.
    + by apply obeys_cons.
  - done.
Qed.

Lemma fueled_ensureConnected : fueled ensureConnected.
Proof. apply fueled_loop; unfold maxRetries; lia. Qed.

Lemma fueled_connect_if_needed : fueled ManageApps.connect_if_needed.
Proof.
  unfold ManageApps.connect_if_needed. apply fueled_bind; [done|].
  intros _ [] _; cbn [negb]; [done|]. apply fueled_bind; [apply fueled_await|done].
Qed.

Lemma fueled_command (conn : prog unit) q ok (fail : string → toast) :
  fueled conn →
  fueled (try_catch (conn;; await q;; showToast ok) (λ error, showToast (fail error))).
Proof.
  intros Hc. apply fueled_try_catch; [|done].
  apply fueled_bind; [done|]. intros _ _ _.
  apply fueled_bind; [apply fueled_await|done].
Qed.

Lemma fueled_fetch (conn : prog unit) q (fail : string → toast) :
  fueled conn →
  fueled (try_catch (conn;; await q)
            (λ error, showToast (fail error);; mret (Some (JArr [])))).
Proof.
  intros Hc. apply fueled_try_catch.
  - apply fueled_bind; [done|]. intros _ _ _. apply fueled_await.
  - intros e. by apply fueled_bind.
Qed.

(** The runs of [conn; await q; showToast ok]. *)
Lemma runs_command_body (conn : prog unit) q ok tr res :
  runs (conn;; await q;; showToast ok) tr res ↔
  (∃ tc v, runs conn tc (Returned tt)
           ∧ tr = tc ++ [IoRequest q (Resolved v); IoToast ok] ∧ res = Returned tt)
  ∨ (∃ tc e, runs conn tc (Returned tt)
             ∧ tr = tc ++ [IoRequest q (Rejected e)] ∧ res = Thrown e)
  ∨ (∃ e, runs conn tr (Thrown e) ∧ res = Thrown e).
Proof.
  rewrite runs_bind. split.
  - intros [(tc & [] & tb & Hc & Hb & ->)|(e & Hc & ->)]; [|right; right; eauto].
    apply runs_bind in Hb as [(ta & v & tt' & Ha & Ht & ->)|(e & Ha & ->)].
    + apply runs_await in Ha as [(v' & -> & [= ->])|(e & _ & ?)]; [|done].
      apply runs_showToast in Ht as [-> ->]. left. eauto.
    + apply runs_await in Ha as [(v' & _ & ?)|(e' & -> & [= <-])]; [done|].
      right. left. eauto.
  - intros [(tc & v & Hc & -> & ->)|[(tc & e & Hc & -> & ->)|(e & Hc & ->)]].
    + left. exists tc, tt, [IoRequest q (Resolved v); IoToast ok]. split; [done|].
      split; [|done]. apply runs_bind. left.
      exists [IoRequest q (Resolved v)], v, [IoToast ok].
      rewrite runs_await, runs_showToast. split; [left; eauto|done].
    + left. exists tc, tt, [IoRequest q (Rejected e)]. split; [done|].
      split; [|done]. apply runs_bind. right. exists e.
      rewrite runs_await. split; [right; eauto|done].
    + right. eauto.
Qed.

(** The runs of a command past its guard. *)
Lemma runs_command (conn : prog unit) q ok (fail : string → toast) tr res :
  runs (try_catch (conn;; await q;; showToast ok) (λ error, showToast (fail error)))
    tr res ↔
  res = Returned tt ∧ command_runs (runs conn) q ok fail tr.
Proof.
  rewrite runs_try_catch. unfold command_runs. split.
  - intros [([] & Hb & ->)|(tr1 & e & tr2 & Hb & Hh & ->)].
    + split; [done|]. apply runs_command_body in Hb
        as [(tc & v & Hc & -> & _)|[(tc & e & _ & _ & ?)|(e & _ & ?)]]; [|done..].
      left. eauto.
    + apply runs_showToast in Hh as [-> ->]. split; [done|].
      apply runs_command_body in Hb
        as [(tc & v & _ & _ & ?)|[(tc & e' & Hc & -> & [= <-])|(e' & Hc & [= <-])]];
        [done|..].
      * right. left. exists tc, e. by rewrite <-app_assoc.
      * right. right. eauto.
  - intros [-> [(tc & v & Hc & ->)|[(tc & e & Hc & ->)|(tc & e & Hc & ->)]]].
    + left. exists tt. split; [|done]. apply runs_command_body. left. eauto.
    + right. exists (tc ++ [IoRequest q (Rejected e)]), e, [IoToast (fail e)].
      rewrite runs_showToast, runs_command_body, <-app_assoc.
      split; [right; left; eauto|done].
    + right. exists tc, e, [IoToast (fail e)].
      rewrite runs_showToast, runs_command_body.
      split; [right; right; eauto|done].
Qed.

(** The runs of a fetch. *)
Lemma runs_fetch (conn : prog unit) q (fail : string → toast) tr res :
  runs (try_catch (conn;; await q)
          (λ error, showToast (fail error);; mret (Some (JArr [])))) tr res ↔
  (∃ tc v, runs conn tc (Returned tt)
           ∧ tr = tc ++ [IoRequest q (Resolved v)] ∧ res = Returned v)
  ∨ (∃ tc e, runs conn tc (Returned tt)
             ∧ tr = tc ++ [IoRequest q (Rejected e); IoToast (fail e)]
             ∧ res = Returned (Some (JArr [])))
  ∨ (∃ tc e, runs conn tc (Thrown e) ∧ tr = tc ++ [IoToast (fail e)]
             ∧ res = Returned (Some (JArr []))).
Proof.
  assert (∀ e tr res,
            runs (showToast (fail e);; mret (Some (JArr []))) tr res
            ↔ tr = [IoToast (fail e)] ∧ res = Returned (Some (JArr []))) as Hh.
  { intros e tr' res'. rewrite runs_bind. split.
    - intros [(t1 & [] & t2 & Ht & Hr & ->)|(e' & Ht & _)];
        apply runs_showToast in Ht as [-> ?]; [|done].
      by apply runs_Ret in Hr as [-> ->].
    - intros [-> ->]. left. exists [IoToast (fail e)], tt, [].
      by rewrite runs_showToast, runs_Ret. }
  rewrite runs_try_catch. split.
  - intros [(v & Hb & ->)|(tr1 & e & tr2 & Hb & Hr & ->)];
      apply runs_bind in Hb as [(tc & [] & tb & Hc & Ha & ->)|(e' & Hc & Heq)].
    + apply runs_await in Ha as [(v' & -> & [= ->])|(e & _ & ?)]; [|done].
      left. eauto.
    + done.
    + apply runs_await in Ha as [(v' & _ & ?)|(e' & -> & [= <-])]; [done|].
      apply Hh in Hr as [-> ->]. right. left. exists tc, e. by rewrite <-app_assoc.
    + injection Heq as <-. apply Hh in Hr as [-> ->]. right. right. eauto.
  - intros [(tc & v & Hc & -> & ->)|[(tc & e & Hc & -> & ->)|(tc & e & Hc & -> & ->)]].
    + left. exists v. split; [|done]. apply runs_bind. left.
      exists tc, tt, [IoRequest q (Resolved v)].
      rewrite runs_await. split; [done|]. split; [left; eauto|done].
    + right. exists (tc ++ [IoRequest q (Rejected e)]), e, [IoToast (fail e)].
      rewrite Hh, <-app_assoc. split; [|done]. apply runs_bind. left.
      exists tc, tt, [IoRequest q (Rejected e)].
      rewrite runs_await. split; [done|]. split; [right; eauto|done].
    + right. exists tc, e, [IoToast (fail e)]. rewrite Hh. split; [|done].
      apply runs_bind. right. eauto.
Qed.

Lemma runs_connect_if_needed tr res :
  runs ManageApps.connect_if_needed tr res ↔
  (tr = [IoIsConnected true] ∧ res = Returned tt)
  ∨ (∃ v, tr = [IoIsConnected false; IoRequest RConnect (Resolved v)] ∧ res = Returned tt)
  ∨ (∃ e, tr = [IoIsConnected false; IoRequest RConnect (Rejected e)] ∧ res = Thrown e).
Proof.
  unfold ManageApps.connect_if_needed. rewrite runs_bind. split.
  - intros [(t1 & b & t2 & Hb & Hr & ->)|(e & Hb & _)];
      apply runs_isConnected in Hb as (b' & -> & Hb); [|done].
    injection Hb as <-. destruct b; cbn [negb] in Hr.
    + apply runs_Ret in Hr as [-> ->]. by left.
    + apply runs_bind in Hr as [(ta & v & tb & Ha & Hr & ->)|(e & Ha & ->)].
      * apply runs_await in Ha as [(v' & -> & _)|(e & _ & ?)]; [|done].
        apply runs_Ret in Hr as [-> ->]. right. left. eauto.
      * apply runs_await in Ha as [(v' & _ & ?)|(e' & -> & [= <-])]; [done|].
        right. right. eauto.
  - intros [[-> ->]|[(v & -> & ->)|(e & -> & ->)]]; left.
    + exists [IoIsConnected true], true, []. rewrite runs_isConnected. cbn [negb].
      rewrite runs_Ret. split; [eauto|done].
    + exists [IoIsConnected false], false, [IoRequest RConnect (Resolved v)].
      rewrite runs_isConnected. cbn [negb]. split; [eauto|]. split; [|done].
      apply runs_bind. left. exists [IoRequest RConnect (Resolved v)], v, [].
      rewrite runs_await, runs_Ret. split; [left; eauto|done].
    + exists [IoIsConnected false], false, [IoRequest RConnect (Rejected e)].
      rewrite runs_isConnected. cbn [negb]. split; [eauto|]. split; [|done].
      apply runs_bind. right. exists e. rewrite runs_await. split; [right; eauto|done].
Qed.

Lemma ensureConnected_trace : connects_within 3 (runs ensureConnected).
Proof.
  intros tc res Hr. apply runs_loop in Hr; [|unfold maxRetries; lia..].
  destruct Hr as (errors & Hcases). unfold maxRetries in Hcases.
  destruct (failed_attempts_trace 1 errors) as (Hq & Ht & _).
  destruct Hcases as [(Hn & -> & [->|(v & ->)])|(e & Hn & -> & ->)];
    rewrite toasts_app, requests_app, Ht, Hq.
  - split; [done|]. exists (length errors). simpl. rewrite app_nil_r.
    split; [lia|]. done.
  - split; [done|]. exists (S (length errors)).
    split; [lia|]. split; [|done].
    by rewrite replicate_S_end.
  - split; [done|]. exists (S (length errors)).
    split; [lia|]. split; [by rewrite replicate_S_end|].
    intros e' [= <-]. split; [lia|].
    by rewrite (last_app_cons _ [IoRequest RConnect (Rejected e)]).
Qed.

Lemma connect_if_needed_trace : connects_within 1 (runs ManageApps.connect_if_needed).
Proof.
  intros tc res Hr.
  apply runs_connect_if_needed in Hr as [[-> ->]|[(v & -> & ->)|(e & -> & ->)]].
  - split; [done|]. exists 0. split; [lia|]. done.
  - split; [done|]. exists 1. split; [lia|]. done.
  - split; [done|]. exists 1. split; [lia|]. split; [done|].
    by intros e' [= <-].
Qed.

Lemma command_runs_served attempts conn q ok fail tr :
  connects_within attempts conn → command_runs conn q ok fail tr →
  served attempts q ok fail tr.
Proof.
  intros Hconn [(tc & v & Hc & ->)|[(tc & e & Hc & ->)|(tc & e & Hc & ->)]];
    destruct (Hconn _ _ Hc) as (Ht & n & Hn & Hq & Hthrown).
  - exists (tc ++ [IoRequest q (Resolved v)]). rewrite toasts_app, Ht.
    split; [done|]. left. exists v. split; [|by rewrite <-app_assoc].
    exists n. rewrite requests_app, Hq, last_snoc. done.
  - exists (tc ++ [IoRequest q (Rejected e)]). rewrite toasts_app, Ht.
    split; [done|]. right. exists e. split; [|by rewrite <-app_assoc]. left.
    exists n. rewrite requests_app, Hq, last_snoc. done.
  - exists tc. split; [done|]. right. exists e. split; [|done]. right.
    destruct (Hthrown e eq_refl) as [-> Hlast]. by split.
Qed.

Lemma runs_fetch_fetched attempts (conn : prog unit) q fail tr res :
  connects_within attempts (runs conn) →
  runs (try_catch (conn;; await q)
          (λ error, showToast (fail error);; mret (Some (JArr [])))) tr res →
  ∃ rows, res = Returned rows ∧ fetched attempts q fail tr rows.
Proof.
  intros Hconn Hr. apply runs_fetch in Hr
    as [(tc & v & Hc & -> & ->)|[(tc & e & Hc & -> & ->)|(tc & e & Hc & -> & ->)]];
    destruct (Hconn _ _ Hc) as (Ht & n & Hn & Hq & Hthrown).
  - exists v. split; [done|]. left. rewrite toasts_app, Ht. split; [done|].
    exists n. rewrite requests_app, Hq, last_snoc. done.
  - eexists. split; [done|]. right. split; [done|].
    exists (tc ++ [IoRequest q (Rejected e)]), e. rewrite toasts_app, Ht.
    split; [done|]. split; [|by rewrite <-app_assoc]. left.
    exists n. rewrite requests_app, Hq, last_snoc. done.
  - eexists. split; [done|]. right. split; [done|].
    exists tc, e. split; [done|]. split; [|done]. right.
    destruct (Hthrown e eq_refl) as [-> Hlast]. by split.
Qed.

Lemma guarded_command_served attempts (conn : prog unit) q ok
    (fail : string → toast) tr res :
  connects_within attempts (runs conn) →
  runs (try_catch (conn;; await q;; showToast ok) (λ error, showToast (fail error)))
    tr res →
  res = Returned tt ∧ served attempts q ok fail tr.
Proof.
  intros Hconn Hr. apply runs_command in Hr as [-> Hr]. split; [done|].
  by apply (command_runs_served attempts (runs conn)).
Qed.

Lemma command_runs_pauses conn q ok fail tr :
  (∀ tc res, conn tc res → pauses tc = []) → command_runs conn q ok fail tr →
  pauses tr = [].
Proof.
  intros Hconn [(tc & v & Hc & ->)|[(tc & e & Hc & ->)|(tc & e & Hc & ->)]];
    by rewrite pauses_app, (Hconn _ _ Hc).
Qed.

Lemma connect_if_needed_pauses tc res :
  runs ManageApps.connect_if_needed tc res → pauses tc = [].
Proof.
  intros Hr.
  by apply runs_connect_if_needed in Hr as [[-> _]|[(v & -> & _)|(e & -> & _)]].
Qed.

(** A command that cannot run out of fuel and never throws returns,
    whatever the client answers. *)
Lemma returns_always (p : prog unit) ob oo :
  fueled p → (∀ tr res, runs p tr res → res = Returned tt) →
  ∃ tr, runs p tr (Returned tt) ∧ obeys ob oo [] tr.
Proof.
  intros Hf Hret. destruct (fueled_runs p ob oo [] Hf) as (tr & res & Hr & Ho).
  exists tr. by rewrite <-(Hret _ _ Hr).
Qed.

End Commands.

Section CommandTheorems.
Import UI Retry Trace.

(** X15. ensureConnected (manage-vms.tsx, and the same function of the
    manage-apps command in unnamed/part_000). Its complete runs are exactly
    these: up to two attempts whose connect() is rejected, the i-th
    followed by a pause of 1000 * i ms, and then either an attempt that
    finds the client connected or one whose connect() resolves (followed by
    a pause of 2000 ms), after which the function returns; or two such
    failures and a third connect() that is rejected, whose error is thrown
    with no further pause. The loop is never left through its condition,
    and whatever the client answers there is a complete run. *)
Theorem ensureConnected_runs :
  (∀ tr res,
     runs ensureConnected tr res ↔
     ∃ errors,
       (length errors ≤ 2 ∧ res = Returned tt
        ∧ (tr = failed_attempts 1 errors ++ [IoIsConnected true]
           ∨ ∃ v, tr = failed_attempts 1 errors
                       ++ [IoIsConnected false; IoRequest RConnect (Resolved v);
                           IoSleep 2000]))
       ∨ (∃ e, length errors = 2 ∧ res = Thrown e
               ∧ tr = failed_attempts 1 errors
                      ++ [IoIsConnected false; IoRequest RConnect (Rejected e)]))
  ∧ (∀ ob oo, ∃ tr res, runs ensureConnected tr res ∧ obeys ob oo [] tr).
Proof.
  split.
  - intros tr res. unfold ensureConnected.
    rewrite runs_loop by (unfold maxRetries; lia). unfold maxRetries.
    split; intros (errors & Hcases); exists errors.
    + destruct Hcases as [(? & ? & ?)|(e & ? & ? & ?)].
      * left. split; [lia|done].
      * right. exists e. split; [lia|done].
    + destruct Hcases as [(? & ? & ?)|(e & ? & ? & ?)].
      * left. split; [simpl; lia|done].
      * right. exists e. split; [simpl; lia|done].
  - intros ob oo. apply fueled_runs, fueled_ensureConnected.
Qed.

(** X16. fetchVMs and the two versions of fetchApps never throw, and return
    whatever the client answers. Either the query is the last thing that
    happens, it resolved, its value is returned and no toast is shown; or
    the empty list is returned after one failure toast, shown last, that
    carries the message of the error: of the query, or of the last
    connect() when none of the attempts allowed (three with
    ensureConnected, one in src/manage-apps.tsx) succeeded, in which case
    the query was never made. *)
Theorem fetch_never_throws :
  (∀ tr res, runs ManageVMs.fetchVMs tr res →
     ∃ rows, res = Returned rows
       ∧ fetched 3 RGetVMs (λ e, Toast Failure "Error fetching VMs" (Some e)) tr rows)
  ∧ (∀ tr res, runs ManageAppsRetry.fetchApps tr res →
       ∃ rows, res = Returned rows
         ∧ fetched 3 RGetApps (λ e, Toast Failure "Error fetching apps" (Some e)) tr rows)
  ∧ (∀ tr res, runs ManageApps.fetchApps tr res →
       ∃ rows, res = Returned rows
         ∧ fetched 1 RGetApps (λ e, Toast Failure "Error" (Some e)) tr rows)
  ∧ (∀ ob oo,
       (∃ tr rows, runs ManageVMs.fetchVMs tr (Returned rows) ∧ obeys ob oo [] tr)
       ∧ (∃ tr rows, runs ManageAppsRetry.fetchApps tr (Returned rows) ∧ obeys ob oo [] tr)
       ∧ (∃ tr rows, runs ManageApps.fetchApps tr (Returned rows) ∧ obeys ob oo [] tr)).
Proof.
  assert (∀ tr res, runs ManageVMs.fetchVMs tr res →
     ∃ rows, res = Returned rows
       ∧ fetched 3 RGetVMs (λ e, Toast Failure "Error fetching VMs" (Some e)) tr rows)
    as HVMs.
  { intros tr res.
    apply (runs_fetch_fetched 3 ensureConnected RGetVMs
             (λ e, Toast Failure "Error fetching VMs" (Some e))).
    apply ensureConnected_trace. }
  assert (∀ tr res, runs ManageAppsRetry.fetchApps tr res →
       ∃ rows, res = Returned rows
         ∧ fetched 3 RGetApps (λ e, Toast Failure "Error fetching apps" (Some e)) tr rows)
    as HApps.
  { intros tr res.
    apply (runs_fetch_fetched 3 ensureConnected RGetApps
             (λ e, Toast Failure "Error fetching apps" (Some e))).
    apply ensureConnected_trace. }
  assert (∀ tr res, runs ManageApps.fetchApps tr res →
       ∃ rows, res = Returned rows
         ∧ fetched 1 RGetApps (λ e, Toast Failure "Error" (Some e)) tr rows)
    as HOld.
  { intros tr res.
    apply (runs_fetch_fetched 1 ManageApps.connect_if_needed RGetApps
             (λ e, Toast Failure "Error" (Some e))).
    apply connect_if_needed_trace. }
  split; [done|]. split; [done|]. split; [done|].
  intros ob oo. split; [|split].
  - destruct (fueled_runs ManageVMs.fetchVMs ob oo []) as (tr & res & Hr & Ho).
    { apply (fueled_fetch ensureConnected RGetVMs
               (λ e, Toast Failure "Error fetching VMs" (Some e))).
      apply fueled_ensureConnected. }
    destruct (HVMs _ _ Hr) as (rows & -> & _). eauto.
  - destruct (fueled_runs ManageAppsRetry.fetchApps ob oo []) as (tr & res & Hr & Ho).
    { apply (fueled_fetch ensureConnected RGetApps
               (λ e, Toast Failure "Error fetching apps" (Some e))).
      apply fueled_ensureConnected. }
    destruct (HApps _ _ Hr) as (rows & -> & _). eauto.
  - destruct (fueled_runs ManageApps.fetchApps ob oo []) as (tr & res & Hr & Ho).
    { apply (fueled_fetch ManageApps.connect_if_needed RGetApps
               (λ e, Toast Failure "Error" (Some e))).
      apply fueled_connect_if_needed. }
    destruct (HOld _ _ Hr) as (rows & -> & _). eauto.
Qed.

(** X17. manageVM and restartVM of manage-vms.tsx never throw and, whatever the
    client answers, return. When the state given forbids the action
    (start of a RUNNING machine, stop or restart of a STOPPED one) the
    only thing done is one failure toast: the client is not touched.
    Otherwise exactly one toast is shown, last: the success toast after
    the one request of the operation resolved, or a failure toast with the
    message of the error of that request or of the third rejected
    connect(); the title for a failed stop is 'Error stoping VM'. The stop
    is requested without options, which the client sends as force false. *)
Theorem vm_commands_served vmId state :
  (∀ tr res, runs (ManageVMs.manageVM ManageVMs.start vmId state) tr res →
     res = Returned tt
     ∧ (state = "RUNNING" → tr = [IoToast (Toast Failure "VM is already running" None)])
     ∧ (state ≠ "RUNNING" →
        served 3 (RStartVM vmId) (Toast Success "VM started successfully" None)
          (λ e, Toast Failure "Error starting VM" (Some e)) tr))
  ∧ (∀ tr res, runs (ManageVMs.manageVM ManageVMs.stop vmId state) tr res →
       res = Returned tt
       ∧ (state = "STOPPED" → tr = [IoToast (Toast Failure "VM is already stopped" None)])
       ∧ (state ≠ "STOPPED" →
          served 3 (RStopVM vmId) (Toast Success "VM stopped successfully" None)
            (λ e, Toast Failure "Error stoping VM" (Some e)) tr))
  ∧ (∀ tr res, runs (ManageVMs.restartVM vmId state) tr res →
       res = Returned tt
       ∧ (state = "STOPPED" → tr = [IoToast (Toast Failure "VM is stopped" None)])
       ∧ (state ≠ "STOPPED" →
          served 3 (RRestartVM vmId) (Toast Success "VM restarted successfully" None)
            (λ e, Toast Failure "Error restarting VM" (Some e)) tr))
  ∧ (∀ ob oo a, ∃ tr, runs (ManageVMs.manageVM a vmId state) tr (Returned tt)
                      ∧ obeys ob oo [] tr)
  ∧ (∀ ob oo, ∃ tr, runs (ManageVMs.restartVM vmId state) tr (Returned tt)
                    ∧ obeys ob oo [] tr)
  ∧ fst <$> request_of (to_event (RStopVM vmId))
    = Some ("vm.stop", [JNum vmId; JObj [("force", JBool false)]]).
Proof.
  assert (∀ tr res, runs (ManageVMs.manageVM ManageVMs.start vmId state) tr res →
     res = Returned tt
     ∧ (state = "RUNNING" → tr = [IoToast (Toast Failure "VM is already running" None)])
     ∧ (state ≠ "RUNNING" →
        served 3 (RStartVM vmId) (Toast Success "VM started successfully" None)
          (λ e, Toast Failure "Error starting VM" (Some e)) tr)) as Hstart.
  { intros tr res. unfold ManageVMs.manageVM.
    rewrite (bool_decide_eq_true_2 (ManageVMs.start = ManageVMs.start)) by done.
    rewrite (bool_decide_eq_false_2 (ManageVMs.start = ManageVMs.stop)) by done.
    rewrite andb_true_r, andb_false_r. case_bool_decide as Hs.
    - intros Hr. apply runs_showToast in Hr as [-> ->]. done.
    - intros Hr.
      apply (guarded_command_served 3 ensureConnected (RStartVM vmId) _
               (λ e, Toast Failure "Error starting VM" (Some e)))
        in Hr as [-> Hr]; [|apply ensureConnected_trace].
      done. }
  assert (∀ tr res, runs (ManageVMs.manageVM ManageVMs.stop vmId state) tr res →
       res = Returned tt
       ∧ (state = "STOPPED" → tr = [IoToast (Toast Failure "VM is already stopped" None)])
       ∧ (state ≠ "STOPPED" →
          served 3 (RStopVM vmId) (Toast Success "VM stopped successfully" None)
            (λ e, Toast Failure "Error stoping VM" (Some e)) tr)) as Hstop.
  { intros tr res. unfold ManageVMs.manageVM.
    rewrite (bool_decide_eq_true_2 (ManageVMs.stop = ManageVMs.stop)) by done.
    rewrite (bool_decide_eq_false_2 (ManageVMs.stop = ManageVMs.start)) by done.
    rewrite andb_true_r, andb_false_r. case_bool_decide as Hs.
    - intros Hr. apply runs_showToast in Hr as [-> ->]. done.
    - intros Hr.
      apply (guarded_command_served 3 ensureConnected (RStopVM vmId) _
               (λ e, Toast Failure "Error stoping VM" (Some e)))
        in Hr as [-> Hr]; [|apply ensureConnected_trace].
      done. }
  assert (∀ tr res, runs (ManageVMs.restartVM vmId state) tr res →
       res = Returned tt
       ∧ (state = "STOPPED" → tr = [IoToast (Toast Failure "VM is stopped" None)])
       ∧ (state ≠ "STOPPED" →
          served 3 (RRestartVM vmId) (Toast Success "VM restarted successfully" None)
            (λ e, Toast Failure "Error restarting VM" (Some e)) tr)) as Hrestart.
  { intros tr res. unfold ManageVMs.restartVM. case_bool_decide as Hs.
    - intros Hr. apply runs_showToast in Hr as [-> ->]. done.
    - intros Hr.
      apply (guarded_command_served 3 ensureConnected (RRestartVM vmId) _
               (λ e, Toast Failure "Error restarting VM" (Some e)))
        in Hr as [-> Hr]; [|apply ensureConnected_trace].
      done. }
  split; [done|]. split; [done|]. split; [done|]. split; [|split; [|done]].
  - intros ob oo a. apply returns_always.
    + unfold ManageVMs.manageVM. repeat case_match; try done;
        apply (fueled_command ensureConnected _ _
                 (λ e, Toast Failure ("Error " +:+ ManageVMs.action_text _ +:+ "ing VM")
                         (Some e))), fueled_ensureConnected.
    + intros tr res Hr. destruct a; [by apply Hstart in Hr as [-> _]|].
      by apply Hstop in Hr as [-> _].
  - intros ob oo. apply returns_always.
    + unfold ManageVMs.restartVM. case_match; [done|].
      apply (fueled_command ensureConnected _ _
               (λ e, Toast Failure "Error restarting VM" (Some e))),
        fueled_ensureConnected.
    + intros tr res Hr. by apply Hrestart in Hr as [-> _].
Qed.

End CommandTheorems.

Section AppCommands.
Import UI Retry Trace.

(** A command with a guard on the state it is given. *)
Lemma guarded_command attempts (conn : prog unit) (blocked : string) refusal q ok
    (fail : string → toast) (state : string) tr res :
  connects_within attempts (runs conn) →
  runs (if bool_decide (state = blocked) then showToast refusal
        else try_catch (conn;; await q;; showToast ok)
               (λ error, showToast (fail error))) tr res →
  res = Returned tt
  ∧ (state = blocked → tr = [IoToast refusal])
  ∧ (state ≠ blocked → served attempts q ok fail tr).
Proof.
  intros Hconn. case_bool_decide as Hs; intros Hr.
  - by apply runs_showToast in Hr as [-> ->].
  - by apply (guarded_command_served attempts) in Hr as [-> Hr].
Qed.

Lemma fueled_guarded_command (conn : prog unit) (blocked : string) refusal q ok
    (fail : string → toast) (state : string) :
  fueled conn →
  fueled (if bool_decide (state = blocked) then showToast refusal
          else try_catch (conn;; await q;; showToast ok)
                 (λ error, showToast (fail error))).
Proof. intros Hc. case_match; [done|]. by apply fueled_command. Qed.

(** X18. startApp, stopApp and restartApp of the manage-apps command with
    ensureConnected (unnamed/part_000) never throw and, whatever the client
    answers, return. When the state given forbids the action (start of an
    ACTIVE application, stop or restart of a STOPPED one) the only thing
    done is one failure toast. Otherwise exactly one toast is shown, last:
    the success toast after the one request of the operation resolved, or
    a failure toast with the message of the error of that request or of
    the third rejected connect(), after which the operation is not
    requested. *)
Theorem app_commands_served appName state :
  (∀ tr res, runs (ManageAppsRetry.startApp appName state) tr res →
     res = Returned tt
     ∧ (state = "ACTIVE" →
        tr = [IoToast (Toast Failure "Application is already running" None)])
     ∧ (state ≠ "ACTIVE" →
        served 3 (RStartApp appName)
          (Toast Success "Application started successfully" None)
          (λ e, Toast Failure "Error starting app" (Some e)) tr))
  ∧ (∀ tr res, runs (ManageAppsRetry.stopApp appName state) tr res →
       res = Returned tt
       ∧ (state = "STOPPED" →
          tr = [IoToast (Toast Failure "Application is already stopped" None)])
       ∧ (state ≠ "STOPPED" →
          served 3 (RStopApp appName)
            (Toast Success "Application stopped successfully" None)
            (λ e, Toast Failure "Error stopping app" (Some e)) tr))
  ∧ (∀ tr res, runs (ManageAppsRetry.restartApp appName state) tr res →
       res = Returned tt
       ∧ (state = "STOPPED" →
          tr = [IoToast (Toast Failure "Application is stopped" None)])
       ∧ (state ≠ "STOPPED" →
          served 3 (RRestartApp appName)
            (Toast Success "Application restarted successfully" None)
            (λ e, Toast Failure "Error restarting app" (Some e)) tr))
  ∧ (∀ ob oo,
       (∃ tr, runs (ManageAppsRetry.startApp appName state) tr (Returned tt)
              ∧ obeys ob oo [] tr)
       ∧ (∃ tr, runs (ManageAppsRetry.stopApp appName state) tr (Returned tt)
                ∧ obeys ob oo [] tr)
       ∧ (∃ tr, runs (ManageAppsRetry.restartApp appName state) tr (Returned tt)
                ∧ obeys ob oo [] tr)).
Proof.
  pose proof ensureConnected_trace as Hconn.
  pose proof fueled_ensureConnected as Hfuel.
  pose proof (λ tr res,
    guarded_command 3 ensureConnected "ACTIVE"
      (Toast Failure "Application is already running" None) (RStartApp appName)
      (Toast Success "Application started successfully" None)
      (λ e, Toast Failure "Error starting app" (Some e)) state tr res Hconn) as Hstart.
  pose proof (λ tr res,
    guarded_command 3 ensureConnected "STOPPED"
      (Toast Failure "Application is already stopped" None) (RStopApp appName)
      (Toast Success "Application stopped successfully" None)
      (λ e, Toast Failure "Error stopping app" (Some e)) state tr res Hconn) as Hstop.
  pose proof (λ tr res,
    guarded_command 3 ensureConnected "STOPPED"
      (Toast Failure "Application is stopped" None) (RRestartApp appName)
      (Toast Success "Application restarted successfully" None)
      (λ e, Toast Failure "Error restarting app" (Some e)) state tr res Hconn)
    as Hrestart.
  split; [exact Hstart|]. split; [exact Hstop|]. split; [exact Hrestart|].
  intros ob oo. split; [|split]; apply returns_always.
  - by apply (fueled_guarded_command ensureConnected "ACTIVE"
      (Toast Failure "Application is already running" None) (RStartApp appName)
      (Toast Success "Application started successfully" None)
                (λ e, Toast Failure "Error starting app" (Some e))).
  - intros tr res Hr. by apply Hstart in Hr as [-> _].
  - by apply (fueled_guarded_command ensureConnected "STOPPED"
      (Toast Failure "Application is already stopped" None) (RStopApp appName)
      (Toast Success "Application stopped successfully" None)
                (λ e, Toast Failure "Error stopping app" (Some e))).
  - intros tr res Hr. by apply Hstop in Hr as [-> _].
  - by apply (fueled_guarded_command ensureConnected "STOPPED"
      (Toast Failure "Application is stopped" None) (RRestartApp appName)
      (Toast Success "Application restarted successfully" None)
                (λ e, Toast Failure "Error restarting app" (Some e))).
  - intros tr res Hr. by apply Hrestart in Hr as [-> _].
Qed.

Lemma guarded_command_pauses (blocked : string) refusal q ok
    (fail : string → toast) (state : string) tr res :
  runs (if bool_decide (state = blocked) then showToast refusal
        else try_catch (ManageApps.connect_if_needed;; await q;; showToast ok)
               (λ error, showToast (fail error))) tr res →
  pauses tr = [].
Proof.
  case_bool_decide as Hs; intros Hr.
  - by apply runs_showToast in Hr as [-> ->].
  - apply runs_command in Hr as [_ Hr].
    apply (command_runs_pauses _ _ _ _ _ connect_if_needed_pauses Hr).
Qed.

(** X19. startApp, stopApp and restartApp of src/manage-apps.tsx call connect()
    at most once and never pause: a rejected connect() is not tried again,
    the operation is then not requested, and the one toast shown, last, is
    a failure toast titled 'Error' with the message of that rejection.
    Otherwise the operation is requested once and the toast tells its
    outcome. With a state that forbids the action only the refusal toast
    is shown. The commands never throw and, whatever the client answers,
    return. *)
Theorem app_commands_single_connect appName state :
  (∀ tr res, runs (ManageApps.startApp appName state) tr res →
     res = Returned tt ∧ pauses tr = []
     ∧ (state = "ACTIVE" →
        tr = [IoToast (Toast Failure "Application is already running" None)])
     ∧ (state ≠ "ACTIVE" →
        served 1 (RStartApp appName)
          (Toast Success "Application started successfully" None)
          (λ e, Toast Failure "Error" (Some e)) tr))
  ∧ (∀ tr res, runs (ManageApps.stopApp appName state) tr res →
       res = Returned tt ∧ pauses tr = []
       ∧ (state = "STOPPED" →
          tr = [IoToast (Toast Failure "Application is already stopped" None)])
       ∧ (state ≠ "STOPPED" →
          served 1 (RStopApp appName)
            (Toast Success "Application stopped successfully" None)
            (λ e, Toast Failure "Error" (Some e)) tr))
  ∧ (∀ tr res, runs (ManageApps.restartApp appName state) tr res →
       res = Returned tt ∧ pauses tr = []
       ∧ (state = "STOPPED" →
          tr = [IoToast (Toast Failure "Application is stopped" None)])
       ∧ (state ≠ "STOPPED" →
          served 1 (RRestartApp appName)
            (Toast Success "Application restarted successfully" None)
            (λ e, Toast Failure "Error" (Some e)) tr))
  ∧ (∀ ob oo,
       (∃ tr, runs (ManageApps.startApp appName state) tr (Returned tt)
              ∧ obeys ob oo [] tr)
       ∧ (∃ tr, runs (ManageApps.stopApp appName state) tr (Returned tt)
                ∧ obeys ob oo [] tr)
       ∧ (∃ tr, runs (ManageApps.restartApp appName state) tr (Returned tt)
                ∧ obeys ob oo [] tr)).
Proof.
  pose proof connect_if_needed_trace as Hconn.
  pose proof fueled_connect_if_needed as Hfuel.
  pose proof (λ tr res,
    guarded_command 1 ManageApps.connect_if_needed "ACTIVE"
      (Toast Failure "Application is already running" None) (RStartApp appName)
      (Toast Success "Application started successfully" None)
      (λ e, Toast Failure "Error" (Some e)) state tr res Hconn) as Hstart.
  pose proof (λ tr res,
    guarded_command 1 ManageApps.connect_if_needed "STOPPED"
      (Toast Failure "Application is already stopped" None) (RStopApp appName)
      (Toast Success "Application stopped successfully" None)
      (λ e, Toast Failure "Error" (Some e)) state tr res Hconn) as Hstop.
  pose proof (λ tr res,
    guarded_command 1 ManageApps.connect_if_needed "STOPPED"
      (Toast Failure "Application is stopped" None) (RRestartApp appName)
      (Toast Success "Application restarted successfully" None)
      (λ e, Toast Failure "Error" (Some e)) state tr res Hconn) as Hrestart.
  split; [|split; [|split]].
  - intros tr res Hr. destruct (Hstart _ _ Hr) as (-> & Hg & Hs).
    split; [done|]. split; [|done].
    exact (guarded_command_pauses "ACTIVE"
      (Toast Failure "Application is already running" None) (RStartApp appName)
      (Toast Success "Application started successfully" None)
             (λ e, Toast Failure "Error" (Some e)) state tr _ Hr).
  - intros tr res Hr. destruct (Hstop _ _ Hr) as (-> & Hg & Hs).
    split; [done|]. split; [|done].
    exact (guarded_command_pauses "STOPPED"
      (Toast Failure "Application is already stopped" None) (RStopApp appName)
      (Toast Success "Application stopped successfully" None)
             (λ e, Toast Failure "Error" (Some e)) state tr _ Hr).
  - intros tr res Hr. destruct (Hrestart _ _ Hr) as (-> & Hg & Hs).
    split; [done|]. split; [|done].
    exact (guarded_command_pauses "STOPPED"
      (Toast Failure "Application is stopped" None) (RRestartApp appName)
      (Toast Success "Application restarted successfully" None)
             (λ e, Toast Failure "Error" (Some e)) state tr _ Hr).
  - intros ob oo. split; [|split]; apply returns_always.
    + by apply (fueled_guarded_command ManageApps.connect_if_needed "ACTIVE"
      (Toast Failure "Application is already running" None) (RStartApp appName)
      (Toast Success "Application started successfully" None) (λ e, Toast Failure "Error" (Some e))).
    + intros tr res Hr. by apply Hstart in Hr as [-> _].
    + by apply (fueled_guarded_command ManageApps.connect_if_needed "STOPPED"
      (Toast Failure "Application is already stopped" None) (RStopApp appName)
      (Toast Success "Application stopped successfully" None) (λ e, Toast Failure "Error" (Some e))).
    + intros tr res Hr. by apply Hstop in Hr as [-> _].
    + by apply (fueled_guarded_command ManageApps.connect_if_needed "STOPPED"
      (Toast Failure "Application is stopped" None) (RRestartApp appName)
      (Toast Success "Application restarted successfully" None) (λ e, Toast Failure "Error" (Some e))).
    + intros tr res Hr. by apply Hrestart in Hr as [-> _].
Qed.

(** A stop of a running machine whose first connect() fails: the pause of
    1000 ms, the second attempt, the pause of 2000 ms, the request and the
    toast. *)
Example manage_vm_stop_run :
  play (ManageVMs.manageVM ManageVMs.stop 7 "RUNNING") [false; false]
    [Rejected "connect ECONNREFUSED"; Resolved None; Resolved None]
  = ([IoIsConnected false; IoRequest RConnect (Rejected "connect ECONNREFUSED");
      IoSleep 1000;
      IoIsConnected false; IoRequest RConnect (Resolved None); IoSleep 2000;
      IoRequest (RStopVM 7) (Resolved None);
      IoToast (Toast Success "VM stopped successfully" None)],
     Some (Returned tt)).
Proof. vm_compute. reflexivity. Qed.

(** Three rejected attempts: the error of the third is shown, and the
    query is not made. *)
Example fetch_vms_gives_up :
  play ManageVMs.fetchVMs [false; false; false]
    [Rejected "first"; Rejected "second"; Rejected "third"]
  = ([IoIsConnected false; IoRequest RConnect (Rejected "first"); IoSleep 1000;
      IoIsConnected false; IoRequest RConnect (Rejected "second"); IoSleep 2000;
      IoIsConnected false; IoRequest RConnect (Rejected "third");
      IoToast (Toast Failure "Error fetching VMs" (Some "third"))],
     Some (Returned (Some (JArr [])))).
Proof. vm_compute. reflexivity. Qed.

End AppCommands.
